(** * Uninformed and heuristic state-space search, and the sliding puzzle

    A shallow embedding of [search.py] (the priority queue and the five
    search entry points) and of the [SlidingPuzzle] class of
    [slidingpuzzle.py], followed by the properties proved about them.

    Conventions of the embedding.
    - A Python call that may raise returns a [result]; a [while] loop whose
      termination depends on the problem is run with fuel and returns an
      [outcome].
    - Python integers are [Z] (counters that only count up are [nat]);
      [float("inf")] is the constructor [Inf] of [cost].  Step costs,
      heuristic estimates and queue priorities are integers, as they are
      for the sliding puzzle; the argument of [move] is a pair of integers;
      [numTurns] and [numStates] are integers.  Properties are stated for
      these arguments, not for floats.
    - A dict used as a set ([visited]) is a [gset]; [inFringe] is a [gmap].
    - The module-level counters [maxMemoryUse] and [totalStates] and the
      mutable problem object are threaded through every entry point. *)

From Stdlib Require Import ZArith List String Ascii Lia Permutation.
From Stdlib Require Import DecimalString DecimalPos DecimalN.
From stdpp Require Import base gmap sets list strings.

Local Open Scope Z_scope.
Local Open Scope nat_scope.

(* ===================================================================== *)
(** * Python effects: exceptions, fuel, the infinite cost *)
(* ===================================================================== *)

Inductive exn : Set :=
  IndexError | TypeError | ValueError | AttributeError | ZeroDivisionError.

Inductive result (A : Type) : Type :=
| Ok (a : A)
| Raise (e : exn).
Arguments Ok {A} a.
Arguments Raise {A} e.

Definition bind {A B : Type} (r : result A) (f : A → result B) : result B :=
  match r with
  | Ok a => f a
  | Raise e => Raise e
  end.

Notation "'do' x <- r ; k" := (bind r (fun x => k))
  (at level 10, x pattern, r at level 100, k at level 200).

(** What running a loop with fuel gives. *)
Inductive outcome (A : Type) : Type :=
| Done (a : A)
| Raised (e : exn)
| OutOfFuel.
Arguments Done {A} a.
Arguments Raised {A} e.
Arguments OutOfFuel {A}.

(** One iteration of a [while] loop: go round again, [return], or raise. *)
Inductive step_result (St R : Type) : Type :=
| Continue (s : St)
| Return (r : R)
| Throw (e : exn).
Arguments Continue {St R} s.
Arguments Return {St R} r.
Arguments Throw {St R} e.

Fixpoint run {St R : Type} (step : St → step_result St R) (fuel : nat) (s : St)
  : outcome R :=
  match fuel with
  | O => OutOfFuel
  | S fuel' =>
    match step s with
    | Continue s' => run step fuel' s'
    | Return r => Done r
    | Throw e => Raised e
    end
  end.

(** The state after [n] full iterations, when the loop goes that far. *)
Fixpoint iter {St R : Type} (step : St → step_result St R) (n : nat) (s : St)
  : option St :=
  match n with
  | O => Some s
  | S n' =>
    match step s with
    | Continue s' => iter step n' s'
    | _ => None
    end
  end.

(** [l.pop()] of a Python list: the last element, or [IndexError]. *)
Definition list_pop {A : Type} (l : list A) : result (A * list A) :=
  match rev l with
  | [] => Raise IndexError
  | x :: r => Ok (x, rev r)
  end.

(** A total cost: a number, or [float("inf")]. *)
Inductive cost : Set :=
| Fin (c : Z)
| Inf.

Definition cost_le (a b : cost) : Prop :=
  match a, b with
  | Fin x, Fin y => (x ≤ y)%Z
  | _, Inf => True
  | Inf, Fin _ => False
  end.

(** ** Python's [<]

    [py_lt a b] is [a < b]; it raises [TypeError] between values that
    Python cannot order.  [==] is structural equality ([EqDecision]). *)

Class PyLt (A : Type) := py_lt : A → A → result bool.
Global Hint Mode PyLt ! : typeclass_instances.

Global Instance Z_py_lt : PyLt Z := λ a b, Ok (a <? b)%Z.

Global Instance bool_py_lt : PyLt bool := λ a b, Ok (negb a && b).

Global Instance string_py_lt : PyLt string := λ a b, Ok (String.ltb a b).

(** Tuples compare at the first component that differs. *)
Global Instance pair_py_lt {A B : Type} `{EqDecision A, EqDecision B}
  `{PyLt A, PyLt B} : PyLt (A * B) := λ x y,
  if decide (x.1 = y.1) then
    if decide (x.2 = y.2) then Ok false else py_lt x.2 y.2
  else py_lt x.1 y.1.

(** Lists compare at the first element that differs, then by length. *)
Fixpoint list_lt {A : Type} `{EqDecision A} `{PyLt A} (l1 l2 : list A)
  : result bool :=
  match l1, l2 with
  | [], [] => Ok false
  | [], _ :: _ => Ok true
  | _ :: _, [] => Ok false
  | a :: l1', b :: l2' => if decide (a = b) then list_lt l1' l2' else py_lt a b
  end.

Global Instance list_py_lt {A : Type} `{EqDecision A} `{PyLt A} : PyLt (list A) :=
  list_lt.

(* ===================================================================== *)
(** * heapq: the binary heap of the Python standard library

    [search.py] builds its priority queue on [heapq.heappush] and
    [heapq.heappop]; these follow [Lib/heapq.py]. *)
(* ===================================================================== *)

Module Heapq.
Section Heapq.
Context {T : Type} `{PyLt T}.

(** The [while pos > startpos] loop of [_siftdown]; [pos] itself is fuel
    enough, since [parentpos < pos]. *)
Fixpoint siftdown_loop (fuel : nat) (heap : list T) (newitem : T)
  (startpos pos : nat) : result (list T) :=
  match fuel with
  | O => Ok (<[pos := newitem]> heap)
  | S fuel' =>
    if decide (startpos < pos) then
      let parentpos := (pos - 1) / 2 in
      match heap !! parentpos with
      | None => Raise IndexError
      | Some parent =>
        do b <- py_lt newitem parent;
        if b : bool then
          siftdown_loop fuel' (<[pos := parent]> heap) newitem startpos parentpos
        else Ok (<[pos := newitem]> heap)
      end
    else Ok (<[pos := newitem]> heap)
  end.

Definition siftdown (heap : list T) (startpos pos : nat) : result (list T) :=
  match heap !! pos with
  | None => Raise IndexError
  | Some newitem => siftdown_loop pos heap newitem startpos pos
  end.

(** The [while childpos < endpos] loop of [_siftup]: returns the heap and
    the leaf position reached. *)
Fixpoint siftup_loop (fuel : nat) (heap : list T) (pos : nat)
  : result (list T * nat) :=
  let endpos := length heap in
  let childpos := 2 * pos + 1 in
  match fuel with
  | O => Ok (heap, pos)
  | S fuel' =>
    if decide (childpos < endpos) then
      let rightpos := childpos + 1 in
      do childpos <-
        (if decide (rightpos < endpos) then
           match heap !! childpos, heap !! rightpos with
           | Some l, Some r =>
             do b <- py_lt l r; Ok (if b : bool then childpos else rightpos)
           | _, _ => Raise IndexError
           end
         else Ok childpos);
      match heap !! childpos with
      | None => Raise IndexError
      | Some c => siftup_loop fuel' (<[pos := c]> heap) childpos
      end
    else Ok (heap, pos)
  end.

Definition siftup (heap : list T) (pos : nat) : result (list T) :=
  match heap !! pos with
  | None => Raise IndexError
  | Some newitem =>
    do (heap', pos') <- siftup_loop (length heap) heap pos;
    siftdown (<[pos' := newitem]> heap') pos pos'
  end.

Definition heappush (heap : list T) (item : T) : result (list T) :=
  let heap := heap ++ [item] in
  siftdown heap 0 (length heap - 1).

Definition heappop (heap : list T) : result (T * list T) :=
  do (lastelt, heap) <- list_pop heap;
  match heap with
  | [] => Ok (lastelt, heap)
  | returnitem :: _ =>
    do heap <- siftup (<[0 := lastelt]> heap) 0;
    Ok (returnitem, heap)
  end.

End Heapq.
End Heapq.

(* ===================================================================== *)
(** * search.py: the priority queue *)
(* ===================================================================== *)

Module PriorityQueue.
Section PriorityQueue.
Context {Item : Type} `{EqDecision Item} `{PyLt Item}.

(** The object is its private list [__heap] of [(priority, item)] pairs,
    the priorities being integers. *)
Definition t : Type := list (Z * Item).

Definition init : t := [].

Definition push (q : t) (item : Item) (priority : Z) : result t :=
  let pair := (priority, item) in
  Heapq.heappush q pair.

Definition pop (q : t) : result ((Item * Z) * t) :=
  do ((priority, item), q') <- Heapq.heappop q;
  Ok ((item, priority), q').

Definition isEmpty (q : t) : bool := bool_decide (length q = 0).

Definition getSize (q : t) : nat := length q.

(** A queue built by the calls [push(item, priority)] of [l], in order. *)
Fixpoint pushes (q : t) (l : list (Item * Z)) : result t :=
  match l with
  | [] => Ok q
  | (item, priority) :: l' => do q' <- push q item priority; pushes q' l'
  end.

End PriorityQueue.
End PriorityQueue.

(* ===================================================================== *)
(** * search.py: the five search entry points *)
(* ===================================================================== *)

Module Search.

(** The module-level counters [maxMemoryUse] and [totalStates]. *)
Record Metrics : Set := mkMetrics {
  maxMemoryUse : nat;
  totalStates : nat;
}.

Definition getMaxMemoryUse (m : Metrics) : nat := maxMemoryUse m.
Definition getTotalStates (m : Metrics) : nat := totalStates m.

Section Search.
Context {Key Action PObj : Type} `{Countable Key} `{EqDecision Action}.
Context `{PyLt Key} `{PyLt Action}.

(** A successor: (state, action to get there, cost to get there, goal or
    not), the cost an integer. *)
Definition Succ : Type := Key * Action * Z * bool.
(** A fringe entry: (state, path, cost, solved or not). *)
Definition Node : Type := Key * list Action * Z * bool.
(** A fringe entry of the depth-limited search carries its depth as well. *)
Definition DNode : Type := Key * list Action * Z * bool * nat.
(** What an entry point returns: (path, cost, numExpanded). *)
Definition Answer : Type := list Action * cost * nat.

(** The methods of a problem object that the searches call; [PObj] is the
    object's own state, which [setState] and [getSuccessors] may change. *)
Record Problem : Type := {
  getState : PObj → result Key;
  setState : Key → PObj → result PObj;
  isSolved : PObj → bool;
  getSuccessors : Key → PObj → result (list Succ * PObj);
}.

Record Heuristic : Type := { eval : Key → Z }.

(** What a call reads and writes outside its locals. *)
Record World : Type := mkWorld {
  problem : PObj;
  globals : Metrics;
}.

(** The locals of a search loop, with the world. *)
Record State (F : Type) : Type := mkState {
  world : World;
  fringe : F;
  visited : gset Key;
  inFringe : gmap Key bool;
  numExpanded : nat;
}.
Arguments mkState {F}.
Arguments world {F}.
Arguments fringe {F}.
Arguments visited {F}.
Arguments inFringe {F}.
Arguments numExpanded {F}.

Variable P : Problem.

(** ** breadthSearch and depthSearch *)

(** The body of [for succ in successors] of [breadthSearch] and
    [depthSearch]: the accumulator is (fringe, inFringe, maxMemoryUse). *)
Definition push_succ (visited : gset Key) (s : Node)
  (acc : list Node * gmap Key bool * nat) (succ : Succ)
  : list Node * gmap Key bool * nat :=
  let '(fringe, inFringe, maxMem) := acc in
  let '(s0, s1, s2, _) := s in
  let '(succ0, succ1, succ2, succ3) := succ in
  if decide (succ0 ∈ visited) then acc
  else
    let fringe := fringe ++ [(succ0, s1 ++ [succ1], (s2 + succ2)%Z, succ3)] in
    let maxMem := if decide (maxMem < length fringe) then length fringe else maxMem in
    (fringe, <[succ0 := true]> inFringe, maxMem).

(** What both loops do with the entry [s] they removed; [rest] is the
    fringe without it. *)
Definition visit (st : State (list Node)) (s : Node) (rest : list Node)
  : step_result (State (list Node)) (Answer * World) :=
  let '(s0, s1, s2, s3) := s in
  let inFringe := <[s0 := false]> (inFringe st) in
  if s3 then Return ((s1, Fin s2, numExpanded st), world st)
  else if decide (s0 ∈ visited st) then
    Continue (mkState (world st) rest (visited st) inFringe (numExpanded st))
  else
    let numExpanded := S (numExpanded st) in
    let totalStates := numExpanded in
    let visited := {[s0]} ∪ visited st in
    match getSuccessors P s0 (problem (world st)) with
    | Raise e => Throw e
    | Ok (successors, problem) =>
      let '(fringe, inFringe, maxMem) :=
        fold_left (push_succ visited s) successors
          (rest, inFringe, maxMemoryUse (globals (world st))) in
      Continue (mkState (mkWorld problem (mkMetrics maxMem totalStates))
                  fringe visited inFringe numExpanded)
    end.

(** One round of [while len(fringe) != 0] with [s = fringe.pop(0)]. *)
Definition bfs_step (st : State (list Node))
  : step_result (State (list Node)) (Answer * World) :=
  match fringe st with
  | [] => Return (([], Inf, numExpanded st), world st)
  | s :: rest => visit st s rest
  end.

(** One round of [while len(fringe) != 0] with [s = fringe.pop()]. *)
Definition dfs_step (st : State (list Node))
  : step_result (State (list Node)) (Answer * World) :=
  match fringe st with
  | [] => Return (([], Inf, numExpanded st), world st)
  | _ :: _ =>
    match list_pop (fringe st) with
    | Raise e => Throw e
    | Ok (s, rest) => visit st s rest
    end
  end.

(** The locals before the loop: the counters reset, the fringe seeded. *)
Definition start (w : World) : result (State (list Node)) :=
  do startState <- getState P (problem w);
  Ok (mkState (mkWorld (problem w) (mkMetrics 0 0))
        [(startState, [], 0%Z, isSolved P (problem w))]
        ∅ {[startState := true]} 0).

(** An entry point: set the locals up, then run the loop. *)
Definition enter {St : Type} (init : result St)
  (step : St → step_result St (Answer * World)) (fuel : nat)
  : outcome (Answer * World) :=
  match init with
  | Raise e => Raised e
  | Ok st => run step fuel st
  end.

Definition breadthSearch (fuel : nat) (w : World) : outcome (Answer * World) :=
  enter (start w) bfs_step fuel.

Definition depthSearch (fuel : nat) (w : World) : outcome (Answer * World) :=
  enter (start w) dfs_step fuel.

(** ** depthLimitedSearch *)

Definition dls_push_succ (visited : gset Key) (s : DNode)
  (acc : list DNode * gmap Key bool * nat) (succ : Succ)
  : list DNode * gmap Key bool * nat :=
  let '(fringe, inFringe, maxMem) := acc in
  let '(s0, s1, s2, _, s4) := s in
  let '(succ0, succ1, succ2, succ3) := succ in
  if decide (succ0 ∈ visited) then acc
  else
    let fringe :=
      fringe ++ [(succ0, s1 ++ [succ1], (s2 + succ2)%Z, succ3, s4 + 1)] in
    let maxMem := if decide (maxMem < length fringe) then length fringe else maxMem in
    (fringe, <[succ0 := true]> inFringe, maxMem).

Definition dls_step (maxDepth : nat) (st : State (list DNode))
  : step_result (State (list DNode)) (Answer * World) :=
  match fringe st with
  | [] => Return (([], Inf, numExpanded st), world st)
  | _ :: _ =>
    match list_pop (fringe st) with
    | Raise e => Throw e
    | Ok (s, rest) =>
      let '(s0, s1, s2, s3, s4) := s in
      let inFringe := <[s0 := false]> (inFringe st) in
      if s3 then Return ((s1, Fin s2, numExpanded st), world st)
      else if decide ((s0 ∉ visited st) ∧ (s4 < maxDepth)) then
        let numExpanded := S (numExpanded st) in
        let totalStates := S (totalStates (globals (world st))) in
        let visited := {[s0]} ∪ visited st in
        match getSuccessors P s0 (problem (world st)) with
        | Raise e => Throw e
        | Ok (successors, problem) =>
          let '(fringe, inFringe, maxMem) :=
            fold_left (dls_push_succ visited s) successors
              (rest, inFringe, maxMemoryUse (globals (world st))) in
          Continue (mkState (mkWorld problem (mkMetrics maxMem totalStates))
                      fringe visited inFringe numExpanded)
        end
      else
        Continue (mkState (world st) rest (visited st) inFringe (numExpanded st))
    end
  end.

Definition dls_start (reset : bool) (w : World) : result (State (list DNode)) :=
  let globals := if reset then mkMetrics 0 0 else globals w in
  do startState <- getState P (problem w);
  Ok (mkState (mkWorld (problem w) globals)
        [(startState, [], 0%Z, isSolved P (problem w), 0)]
        ∅ {[startState := true]} 0).

(** [maxDepth] is a natural number here: a negative bound expands nothing,
    exactly as the bound 0 does. *)
Definition depthLimitedSearch (fuel : nat) (maxDepth : nat) (reset : bool)
  (w : World) : outcome (Answer * World) :=
  enter (dls_start reset w) (dls_step maxDepth) fuel.

(** ** iterativeDeepening *)

(** The loop [while depth <= maxDepth]; [k] counts the rounds that are left
    and [fuel] is what each inner search gets. *)
Fixpoint id_loop (fuel k : nat) (state : Key) (maxDepth depth numExpanded : nat)
  (w : World) : outcome (Answer * World) :=
  if decide (depth ≤ maxDepth) then
    match k with
    | O => OutOfFuel
    | S k' =>
      match setState P state (problem w) with
      | Raise e => Raised e
      | Ok problem =>
        match depthLimitedSearch fuel depth false (mkWorld problem (globals w)) with
        | Done ((path, cost, expanded), w') =>
          let numExpanded := numExpanded + expanded in
          if decide (0 < length path) then Done ((path, cost, numExpanded), w')
          else id_loop fuel k' state maxDepth (depth + 1) numExpanded w'
        | Raised e => Raised e
        | OutOfFuel => OutOfFuel
        end
      end
    end
  else Done (([], Inf, numExpanded), w).

Definition iterativeDeepening (fuel : nat) (maxDepth : nat) (w : World)
  : outcome (Answer * World) :=
  let w := mkWorld (problem w) (mkMetrics 0 0) in
  match getState P (problem w) with
  | Raise e => Raised e
  | Ok state => id_loop fuel maxDepth state maxDepth 1 0 w
  end.

(** ** aStarSearch *)

(** The body of [for succ in successors] of [aStarSearch]. *)
Definition astar_push_succ (heuristic : Heuristic) (visited : gset Key) (s : Node)
  (acc : result (list (Z * Node) * gmap Key bool)) (succ : Succ)
  : result (list (Z * Node) * gmap Key bool) :=
  do (fringe, inFringe) <- acc;
  let '(s0, s1, s2, _) := s in
  let '(succ0, succ1, succ2, succ3) := succ in
  if decide (succ0 ∈ visited) then Ok (fringe, inFringe)
  else
    do fringe <- PriorityQueue.push fringe
                   (succ0, s1 ++ [succ1], (s2 + succ2)%Z, succ3)
                   (s2 + succ2 + eval heuristic succ0)%Z;
    Ok (fringe, <[succ0 := true]> inFringe).

Definition astar_step (heuristic : Heuristic) (st : State (list (Z * Node)))
  : step_result (State (list (Z * Node))) (Answer * World) :=
  if PriorityQueue.isEmpty (fringe st) then
    Return (([], Inf, numExpanded st), world st)
  else
    match PriorityQueue.pop (fringe st) with
    | Raise e => Throw e
    | Ok ((s, score), rest) =>
      let '(s0, s1, s2, s3) := s in
      let inFringe := <[s0 := false]> (inFringe st) in
      if s3 then Return ((s1, Fin s2, numExpanded st), world st)
      else if decide (s0 ∈ visited st) then
        Continue (mkState (world st) rest (visited st) inFringe (numExpanded st))
      else
        let numExpanded := S (numExpanded st) in
        let visited := {[s0]} ∪ visited st in
        match getSuccessors P s0 (problem (world st)) with
        | Raise e => Throw e
        | Ok (successors, problem) =>
          match fold_left (astar_push_succ heuristic visited s) successors
                  (Ok (rest, inFringe)) with
          | Raise e => Throw e
          | Ok (fringe, inFringe) =>
            let maxMem := maxMemoryUse (globals (world st)) in
            let maxMem :=
              if decide (maxMem < PriorityQueue.getSize fringe)
              then PriorityQueue.getSize fringe else maxMem in
            let totalStates := numExpanded in
            Continue (mkState (mkWorld problem (mkMetrics maxMem totalStates))
                        fringe visited inFringe numExpanded)
          end
        end
    end.

Definition astar_start (heuristic : Heuristic) (w : World)
  : result (State (list (Z * Node))) :=
  do startState <- getState P (problem w);
  do fringe <- PriorityQueue.push PriorityQueue.init
                 (startState, [], 0%Z, isSolved P (problem w))
                 (eval heuristic startState);
  Ok (mkState (mkWorld (problem w) (mkMetrics 0 0))
        fringe ∅ {[startState := true]} 0).

Definition aStarSearch (fuel : nat) (heuristic : Heuristic) (w : World)
  : outcome (Answer * World) :=
  enter (astar_start heuristic w) (astar_step heuristic) fuel.

End Search.

Arguments Problem : clear implicits.
Arguments Heuristic : clear implicits.
Arguments World : clear implicits.
Arguments Succ : clear implicits.
Arguments Node : clear implicits.
Arguments DNode : clear implicits.
Arguments Answer : clear implicits.
Arguments State Key PObj {_ _} F.
Arguments mkState {Key PObj _ _ F}.
Arguments world {Key PObj _ _ F}.
Arguments fringe {Key PObj _ _ F}.
Arguments visited {Key PObj _ _ F}.
Arguments inFringe {Key PObj _ _ F}.
Arguments numExpanded {Key PObj _ _ F}.

End Search.

(* ===================================================================== *)
(** * slidingpuzzle.py: the class SlidingPuzzle *)
(* ===================================================================== *)

Module SlidingPuzzle.

(** ** The string methods and conversions [getState] and [setState] use *)

Definition nl : ascii := ascii_of_nat 10.
Definition space : ascii := ascii_of_nat 32.

(** The characters [str.split()] splits at, among the first 256 code points. *)
Definition is_space (a : ascii) : bool :=
  let n := nat_of_ascii a in
  (9 <=? n) && (n <=? 13) || (28 <=? n) && (n <=? 32) || (n =? 133) || (n =? 160).

(** [s.split(c)] for a one-character separator [c]. *)
Fixpoint split_char (c : ascii) (s : string) : list string :=
  match s with
  | EmptyString => [EmptyString]
  | String a s' =>
    if decide (a = c) then EmptyString :: split_char c s'
    else
      match split_char c s' with
      | w :: ws => String a w :: ws
      | [] => [String a EmptyString]
      end
  end.

(** [s.split()]: the maximal runs of characters that are not white space. *)
Fixpoint split_ws (s : string) : list string :=
  match s with
  | EmptyString => []
  | String a s' =>
    if is_space a then split_ws s'
    else
      match s' with
      | EmptyString => [String a EmptyString]
      | String b _ =>
        if is_space b then String a EmptyString :: split_ws s'
        else
          match split_ws s' with
          | w :: ws => String a w :: ws
          | [] => [String a EmptyString]
          end
      end
  end.

(** [str(n)] of an integer. *)
Definition py_str (z : Z) : string :=
  if (z <? 0)%Z
  then String "-" (NilEmpty.string_of_uint (N.to_uint (Z.to_N (- z))))
  else NilEmpty.string_of_uint (N.to_uint (Z.to_N z)).

Definition digits (s : string) : result Z :=
  match s with
  | EmptyString => Raise ValueError
  | _ =>
    match NilEmpty.uint_of_string s with
    | Some u => Ok (Z.of_N (N.of_uint u))
    | None => Raise ValueError
    end
  end.

(** [int(s)] of a token without white space: an optional sign and ASCII
    digits.  (Python also accepts underscores between digits and digits
    outside ASCII; [getState] writes neither.) *)
Definition py_int (s : string) : result Z :=
  match s with
  | String a r =>
    if decide (a = "-"%char) then do n <- digits r; Ok (- n)%Z
    else if decide (a = "+"%char) then digits r
    else digits s
  | EmptyString => digits s
  end.

(** ** The object *)

Record t : Type := mk {
  numR : Z;
  numC : Z;
  board : list (list Z);
  blank : Z;
  pos : option (Z * Z);
  numMisplaced : Z;
}.

(** ** getState *)

Definition row_str (row : list Z) : result string :=
  match row with
  | [] => Raise IndexError
  | x :: r =>
    Ok (fold_left (λ acc y, acc ++ String space (py_str y)) r (py_str x)
        ++ String nl EmptyString)%string
  end.

Fixpoint rows_str (stateStr : string) (rows : list (list Z)) : result string :=
  match rows with
  | [] => Ok stateStr
  | row :: rows' => do r <- row_str row; rows_str (stateStr ++ r) rows'
  end.

Definition getState (p : t) : result string := rows_str EmptyString (board p).

(** ** setState *)

(** The locals the two loops of [setState] update. *)
Record scan : Type := mkScan {
  seen : list bool;
  misplaced : Z;
  newPos : option (Z * Z);
  place : Z;
}.

(** The body of [for j in range(len(row))]; [newRow] is [newBoard[i]]. *)
Definition scan_tile (p : t) (i j : Z) (a : scan * list Z) (tok : string)
  : result (scan * list Z) :=
  let '(sc, newRow) := a in
  do tile <- py_int tok;
  if (tile <? 0)%Z || (tile >=? numR p * numC p)%Z then Raise ValueError
  else
    match seen sc !! Z.to_nat tile with
    | None => Raise IndexError
    | Some true => Raise ValueError
    | Some false =>
      let newRow := newRow ++ [tile] in
      let seen := <[Z.to_nat tile := true]> (seen sc) in
      let newPos := if decide (tile = blank p) then Some (i, j) else newPos sc in
      let misplaced :=
        if decide (tile ≠ place sc) then (misplaced sc + 1)%Z else misplaced sc in
      Ok (mkScan seen misplaced newPos (place sc + 1)%Z, newRow)
    end.

Fixpoint scan_row (p : t) (i j : Z) (a : scan * list Z) (row : list string)
  : result (scan * list Z) :=
  match row with
  | [] => Ok a
  | tok :: row' => do a' <- scan_tile p i j a tok; scan_row p i (j + 1)%Z a' row'
  end.

(** The body of [for i in range(len(rows))]. *)
Fixpoint scan_rows (p : t) (i : nat) (a : scan * list (list Z)) (rows : list string)
  : result (scan * list (list Z)) :=
  match rows with
  | [] => Ok a
  | r :: rows' =>
    let '(sc, newBoard) := a in
    let row := split_ws r in
    match board p !! i with
    | None => Raise IndexError
    | Some old =>
      if decide (length row ≠ length old) then Raise AttributeError
      else
        do (sc', newRow) <- scan_row p (Z.of_nat i) 0%Z (sc, []) row;
        scan_rows p (S i) (sc', newBoard ++ [newRow]) rows'
    end
  end.

Definition setState (state : string) (p : t) : result t :=
  let rows := removelast (split_char nl state) in
  if decide (Z.of_nat (length rows) ≠ numR p) then Raise ValueError
  else
    let seen := replicate (Z.to_nat (numR p * numC p)) false in
    do (sc, newBoard) <- scan_rows p 0 (mkScan seen 0%Z None 0%Z, []) rows;
    Ok (mk (numR p) (numC p) newBoard (blank p) (newPos sc) (misplaced sc)).

(** ** move, legalMoves, isSolved *)

Definition directions : list (Z * Z) :=
  [(-1, 0); (0, -1); (0, 1); (1, 0)]%Z.

(** [board[r][c]] for indices already known not to be negative. *)
Definition get2 (b : list (list Z)) (r c : Z) : result Z :=
  match b !! Z.to_nat r with
  | None => Raise IndexError
  | Some row =>
    match row !! Z.to_nat c with
    | None => Raise IndexError
    | Some x => Ok x
    end
  end.

(** [board[r][c] = v], likewise. *)
Definition set2 (b : list (list Z)) (r c : Z) (v : Z) : result (list (list Z)) :=
  match b !! Z.to_nat r with
  | None => Raise IndexError
  | Some row =>
    if decide (Z.to_nat c < length row)
    then Ok (<[Z.to_nat r := <[Z.to_nat c := v]> row]> b)
    else Raise IndexError
  end.

(** Returns the cost of the move and the puzzle after it; [dir] is a pair
    of integers. *)
Definition move (dir : Z * Z) (p : t) : result (Z * t) :=
  if decide (dir ∈ directions) then
    match pos p with
    | None => Raise TypeError
    | Some (pos0, pos1) =>
      let newPos := (pos0 + dir.1, pos1 + dir.2)%Z in
      if (newPos.1 <? 0)%Z || (newPos.1 >=? numR p)%Z
         || (newPos.2 <? 0)%Z || (newPos.2 >=? numC p)%Z
      then Raise ValueError
      else
        do tile <- get2 (board p) newPos.1 newPos.2;
        if decide (numC p = 0%Z) then Raise ZeroDivisionError
        else
          let blankPos := (blank p / numC p, blank p mod numC p)%Z in
          let m := numMisplaced p in
          let m := if decide ((pos0, pos1) = blankPos) then (m + 1)%Z else m in
          let m := if decide (newPos = blankPos) then (m - 1)%Z else m in
          let m :=
            if decide (tile = newPos.1 * numC p + newPos.2)%Z then (m + 1)%Z else m in
          let m := if decide (tile = pos0 * numC p + pos1)%Z then (m - 1)%Z else m in
          do b <- set2 (board p) pos0 pos1 tile;
          do b <- set2 b newPos.1 newPos.2 (blank p);
          Ok (1%Z, mk (numR p) (numC p) b (blank p) (Some newPos) m)
    end
  else Raise ValueError.

Definition legalMoves (p : t) : result (list (Z * Z)) :=
  match pos p with
  | None => Raise TypeError
  | Some (pos0, pos1) =>
    let l := [] in
    let l := if decide (pos0 > 0)%Z then l ++ [(-1, 0)%Z] else l in
    let l := if decide (pos0 < numR p - 1)%Z then l ++ [(1, 0)%Z] else l in
    let l := if decide (pos1 > 0)%Z then l ++ [(0, -1)%Z] else l in
    let l := if decide (pos1 < numC p - 1)%Z then l ++ [(0, 1)%Z] else l in
    Ok l
  end.

Definition isSolved (p : t) : bool := bool_decide (numMisplaced p = 0%Z).

Definition getPos (p : t) : option (Z * Z) := pos p.

(** ** getSuccessors *)

(** The body of [for a in self.legalMoves()]. *)
Fixpoint successors_loop (state : string) (moves : list (Z * Z))
  (succ : list (string * (Z * Z) * Z * bool)) (p : t)
  : result (list (string * (Z * Z) * Z * bool) * t) :=
  match moves with
  | [] => Ok (succ, p)
  | a :: moves' =>
    do (cost, p) <- move a p;
    do s <- getState p;
    let succ := succ ++ [(s, a, cost, isSolved p)] in
    do p <- setState state p;
    successors_loop state moves' succ p
  end.

Definition getSuccessors (state : string) (p : t)
  : result (list (string * (Z * Z) * Z * bool) * t) :=
  do currentState <- getState p;
  do p <- setState state p;
  do moves <- legalMoves p;
  do (succ, p) <- successors_loop state moves [] p;
  do p <- setState currentState p;
  Ok (succ, p).

(** ** The constructor, before it scrambles

    [__init__] builds the solved board and then calls [setState] on a
    state drawn at random among those [numTurns] moves away. *)
Definition solved_board (numRows numColumns : nat) : list (list Z) :=
  map (λ i, map (λ j, Z.of_nat (i * numColumns + j)) (seq 0 numColumns))
      (seq 0 numRows).

Definition init (numRows numColumns : nat) : result t :=
  if decide (numColumns = 0) then Raise ZeroDivisionError
  else
    Ok (mk (Z.of_nat numRows) (Z.of_nat numColumns)
          (solved_board numRows numColumns) 0%Z
          (Some (0 / Z.of_nat numColumns, 0 mod Z.of_nat numColumns)%Z) 0%Z).

(** The puzzle as the problem object the searches take. *)
Definition problem : Search.Problem string (Z * Z) t := {|
  Search.getState := getState;
  Search.setState := setState;
  Search.isSolved := isSolved;
  Search.getSuccessors := getSuccessors;
|}.

(** Replaying a path: [move] for each action in order. *)
Fixpoint replay (path : list (Z * Z)) (p : t) : result t :=
  match path with
  | [] => Ok p
  | a :: path' => do (_, p') <- move a p; replay path' p'
  end.

End SlidingPuzzle.

(* ===================================================================== *)
(** * Properties *)
(* ===================================================================== *)

#[local] Arguments Nat.div : simpl never.
#[local] Arguments Nat.modulo : simpl never.
#[local] Arguments Nat.mul : simpl never.
#[local] Arguments String.append !_ _ / : simpl nomatch.

(** ** Loops run with fuel *)

Section Loops.
Context {St R : Type} (step : St → step_result St R).

Lemma run_iter n s s' fuel :
  iter step n s = Some s' → run step (n + fuel) s = run step fuel s'.
Proof.
  revert s; induction n as [|n IH]; simpl; intros s Hs.
  - by inversion Hs.
  - destruct (step s); try discriminate. by apply IH.
Qed.

Lemma iter_app n m s s' s'' :
  iter step n s = Some s' → iter step m s' = Some s'' →
  iter step (n + m) s = Some s''.
Proof.
  revert s; induction n as [|n IH]; simpl; intros s Hs Hm.
  - by inversion Hs; subst.
  - destruct (step s); try discriminate. by apply IH.
Qed.

Lemma iter_S n s s' s'' :
  iter step n s = Some s' → step s' = Continue s'' →
  iter step (S n) s = Some s''.
Proof.
  intros Hn Hs. replace (S n) with (n + 1) by lia.
  eapply iter_app; [done|]. simpl. by rewrite Hs.
Qed.

(** More fuel does not change a result. *)
Lemma run_mono fuel fuel' s :
  fuel ≤ fuel' → run step fuel s ≠ OutOfFuel →
  run step fuel' s = run step fuel s.
Proof.
  revert fuel' s; induction fuel as [|fuel IH]; intros fuel' s Hle Hr.
  - by destruct Hr.
  - destruct fuel' as [|fuel']; [lia|]. simpl in *.
    destruct (step s); try done. apply IH; [lia|done].
Qed.

(** A run that ends went through finitely many rounds and ended at a
    [return] or a [raise]. *)
Lemma run_Done fuel s r :
  run step fuel s = Done r →
  ∃ n s', n < fuel ∧ iter step n s = Some s' ∧ step s' = Return r.
Proof.
  revert s; induction fuel as [|fuel IH]; simpl; intros s Hr; [done|].
  destruct (step s) as [s1| |] eqn:Hs; try done.
  - destruct (IH _ Hr) as (n & s' & Hn & Hi & Hs').
    exists (S n), s'. simpl. rewrite Hs. split; [lia|done].
  - inversion Hr; subst. exists 0, s. split; [lia|done].
Qed.

Lemma iter_Return_run n s s' r :
  iter step n s = Some s' → step s' = Return r → run step (S n) s = Done r.
Proof.
  intros Hi Hs. replace (S n) with (n + 1) by lia.
  rewrite (run_iter _ _ _ _ Hi). simpl. by rewrite Hs.
Qed.

(** An invariant of the rounds holds after any number of them. *)
Lemma iter_invariant (Inv : St → Prop) :
  (∀ s s', Inv s → step s = Continue s' → Inv s') →
  ∀ n s s', Inv s → iter step n s = Some s' → Inv s'.
Proof.
  intros Hstep n; induction n as [|n IH]; simpl; intros s s' Hinv Hi.
  - by inversion Hi; subst.
  - destruct (step s) eqn:Hs; try done. eauto.
Qed.

(** A measure that every round decreases bounds the number of rounds. *)
Lemma run_terminates (Inv : St → Prop) (μ : St → nat) :
  (∀ s s', Inv s → step s = Continue s' → Inv s' ∧ μ s' < μ s) →
  ∀ fuel s, Inv s → μ s < fuel → run step fuel s ≠ OutOfFuel.
Proof.
  intros Hstep fuel; induction fuel as [|fuel IH]; intros s Hinv Hlt; [lia|].
  simpl. destruct (step s) as [s'| |] eqn:Hs; try done.
  destruct (Hstep _ _ Hinv Hs) as [Hinv' Hμ]. apply IH; [done|lia].
Qed.

End Loops.

(** ** The binary heap *)

(** Position [j] holds a child of position [i]. *)
Definition child (i j : nat) : Prop := j = 2 * i + 1 ∨ j = 2 * i + 2.

Lemma child_parent pos : 0 < pos → child ((pos - 1) / 2) pos.
Proof.
  intros Hpos. unfold child.
  pose proof (Nat.div_mod_eq (pos - 1) 2) as Hd.
  pose proof (Nat.mod_upper_bound (pos - 1) 2) as Hm. lia.
Qed.

Lemma child_inj i i' j : child i j → child i' j → i = i'.
Proof. unfold child; lia. Qed.

Lemma child_lt i j : child i j → i < j.
Proof. unfold child; lia. Qed.

Section HeapPermutation.
Context {T : Type} `{PyLt T}.
Implicit Types heap : list T.

(** Overwriting [x] by [y] takes [x] out and puts [y] in. *)
Lemma insert_Permutation heap i x y :
  heap !! i = Some x → x :: <[i:=y]> heap ≡ₚ y :: heap.
Proof.
  revert i; induction heap as [|a heap IH]; intros [|i] Hi; simplify_eq/=.
  - apply perm_swap.
  - rewrite perm_swap, (IH _ Hi). apply perm_swap.
Qed.

Lemma siftdown_loop_Permutation fuel heap newitem startpos pos old r :
  heap !! pos = Some old →
  Heapq.siftdown_loop fuel heap newitem startpos pos = Ok r →
  old :: r ≡ₚ newitem :: heap.
Proof.
  revert heap pos old; induction fuel as [|fuel IH]; simpl; intros heap pos old Hold Hr.
  - inversion Hr; subst. by apply insert_Permutation.
  - destruct (decide (startpos < pos)) as [Hlt|];
      [|inversion Hr; subst; by apply insert_Permutation].
    destruct (heap !! ((pos - 1) / 2)) as [parent|] eqn:Hp; [|done].
    destruct (py_lt newitem parent) as [[|]|]; simpl in Hr; try done.
    + assert ((pos - 1) / 2 < pos) as Hpp
        by (apply child_lt, child_parent; lia).
      apply IH with (old := parent) in Hr;
        [|rewrite list_lookup_insert_ne by lia; done].
      apply (Permutation_cons_inv (a := parent)).
      rewrite perm_swap, Hr, perm_swap.
      rewrite (insert_Permutation _ _ _ _ Hold). apply perm_swap.
    + inversion Hr; subst. by apply insert_Permutation.
Qed.

Lemma siftdown_Permutation heap startpos pos r :
  Heapq.siftdown heap startpos pos = Ok r → r ≡ₚ heap.
Proof.
  unfold Heapq.siftdown. destruct (heap !! pos) as [newitem|] eqn:Hn; [|done].
  intros Hr. apply (Permutation_cons_inv (a := newitem)).
  by eapply siftdown_loop_Permutation.
Qed.

Lemma siftup_loop_Permutation fuel heap pos old heap' pos' :
  heap !! pos = Some old →
  Heapq.siftup_loop fuel heap pos = Ok (heap', pos') →
  ∃ old', heap' !! pos' = Some old' ∧ old' :: heap ≡ₚ old :: heap'.
Proof.
  revert heap pos old; induction fuel as [|fuel IH]; simpl; intros heap pos old Hold Hr.
  - inversion Hr; subst. by exists old.
  - destruct (decide (2 * pos + 1 < length heap)) as [Hlt|];
      [|inversion Hr; subst; by exists old].
    match type of Hr with bind ?c _ = _ => destruct c as [cp|] eqn:Hcp end;
      simpl in Hr; [|done].
    destruct (heap !! cp) as [c|] eqn:Hc; [|done].
    assert (pos < cp) as Hposcp.
    { destruct (decide (2 * pos + 1 + 1 < length heap)).
      - destruct (heap !! (2 * pos + 1)), (heap !! (2 * pos + 1 + 1));
          simpl in Hcp; try done.
        destruct (py_lt t t0) as [[|]|]; simpl in Hcp; inversion Hcp; lia.
      - inversion Hcp; lia. }
    apply IH with (old := c) in Hr;
      [|rewrite list_lookup_insert_ne by lia; done].
    destruct Hr as (old' & Hold' & Hperm). exists old'. split; [done|].
    apply (Permutation_cons_inv (a := c)).
    rewrite perm_swap, <-(insert_Permutation _ _ _ _ Hold).
    rewrite perm_swap, Hperm. apply perm_swap.
Qed.

Lemma siftup_Permutation heap pos r :
  Heapq.siftup heap pos = Ok r → r ≡ₚ heap.
Proof.
  unfold Heapq.siftup. destruct (heap !! pos) as [newitem|] eqn:Hn; [|done].
  destruct (Heapq.siftup_loop _ _ _) as [[heap' pos']|] eqn:Hl; simpl; [|done].
  intros Hr. apply siftdown_Permutation in Hr. rewrite Hr.
  destruct (siftup_loop_Permutation _ _ _ _ _ _ Hn Hl) as (old' & Hold' & Hperm).
  apply (Permutation_cons_inv (a := old')).
  by rewrite (insert_Permutation _ _ _ _ Hold'), Hperm.
Qed.

Lemma heappush_Permutation heap item r :
  Heapq.heappush heap item = Ok r → r ≡ₚ item :: heap.
Proof.
  unfold Heapq.heappush. intros Hr. apply siftdown_Permutation in Hr.
  rewrite Hr. by rewrite Permutation_app_comm.
Qed.

Lemma list_pop_snoc {A : Type} (l : list A) x r :
  list_pop l = Ok (x, r) ↔ l = r ++ [x].
Proof.
  unfold list_pop. split.
  - destruct (rev l) as [|y l'] eqn:Hrev; [done|]. intros Heq; simplify_eq.
    by rewrite <-(rev_involutive l), Hrev.
  - intros ->. rewrite rev_app_distr. simpl. by rewrite rev_involutive.
Qed.

Lemma heappop_Permutation heap x r :
  Heapq.heappop heap = Ok (x, r) → heap ≡ₚ x :: r.
Proof.
  unfold Heapq.heappop.
  destruct (list_pop heap) as [[lastelt heap0]|] eqn:Hpop; simpl; [|done].
  apply list_pop_snoc in Hpop as ->.
  destruct heap0 as [|returnitem heap0]; [by intros [= <- <-]|].
  destruct (Heapq.siftup _ _) as [heap1|] eqn:Hs; simpl; [|done].
  intros [= <- <-]. apply siftup_Permutation in Hs. rewrite Hs. simpl.
  by rewrite <-Permutation_cons_append, perm_swap.
Qed.

Lemma heappop_nil : Heapq.heappop (@nil T) = Raise IndexError.
Proof. done. Qed.

End HeapPermutation.

Section HeapOrder.
Context {T : Type} `{PyLt T} (prio : T → Z).
Implicit Types heap : list T.

(** [<] agrees with the priorities whenever it answers. *)
Definition lt_respects : Prop :=
  ∀ a b v, py_lt a b = Ok v →
    if v then (prio a ≤ prio b)%Z else (prio b ≤ prio a)%Z.

Definition ordered heap (i j : nat) : Prop :=
  ∀ x y, heap !! i = Some x → heap !! j = Some y → (prio x ≤ prio y)%Z.

(** The heap invariant: no child has a smaller priority than its parent. *)
Definition is_heap heap : Prop := ∀ i j, child i j → ordered heap i j.

(** The invariant of [_siftdown]'s loop, on the heap with [newitem] written
    at [pos]: only the edge into [pos] may be out of order. *)
Definition sifting_down heap (pos : nat) : Prop :=
  (∀ i j, child i j → j ≠ pos → ordered heap i j) ∧
  (∀ g c, child g pos → child pos c → ordered heap g c).

(** The invariant of [_siftup]'s loop: the entry at [pos] is a hole. *)
Definition sifting_up heap (pos : nat) : Prop :=
  (∀ i j, child i j → i ≠ pos → j ≠ pos → ordered heap i j) ∧
  (∀ g c, child g pos → child pos c → ordered heap g c).

Hypothesis Hlt : lt_respects.

Lemma siftdown_loop_is_heap fuel heap newitem pos r :
  pos ≤ fuel → pos < length heap →
  sifting_down (<[pos:=newitem]> heap) pos →
  Heapq.siftdown_loop fuel heap newitem 0 pos = Ok r →
  is_heap r.
Proof.
  revert heap pos; induction fuel as [|fuel IH]; simpl; intros heap pos Hf Hlen [Ha Hb] Hr.
  - inversion Hr; subst. intros i j Hc. apply Ha; [done|].
    apply child_lt in Hc. lia.
  - destruct (decide (0 < pos)) as [Hpos|]; cycle 1.
    { inversion Hr; subst. intros i j Hc. apply Ha; [done|].
      apply child_lt in Hc. lia. }
    pose proof (child_parent pos Hpos) as Hcp.
    pose proof (child_lt _ _ Hcp) as Hpp.
    set (pp := (pos - 1) / 2) in *.
    destruct (heap !! pp) as [parent|] eqn:Hp; [|done].
    destruct (py_lt newitem parent) as [[|]|] eqn:Hcmp; simpl in Hr; try done.
    + apply Hlt in Hcmp. apply IH in Hr; [done|lia|rewrite length_insert; lia|].
      assert (∀ k, k ≠ pos → k ≠ pp →
        <[pp:=newitem]> (<[pos:=parent]> heap) !! k = <[pos:=newitem]> heap !! k)
        as Hother.
      { intros k ??. by rewrite !list_lookup_insert_ne by done. }
      assert (<[pp:=newitem]> (<[pos:=parent]> heap) !! pp = Some newitem) as Hnew.
      { apply list_lookup_insert_eq. rewrite length_insert. lia. }
      assert (<[pp:=newitem]> (<[pos:=parent]> heap) !! pos = Some parent) as Hpar.
      { rewrite list_lookup_insert_ne by lia. by apply list_lookup_insert_eq. }
      assert (<[pos:=newitem]> heap !! pp = Some parent) as Hpar'.
      { by rewrite list_lookup_insert_ne by lia. }
      split.
      * intros i j Hc Hj x y Hx Hy.
        destruct (decide (j = pos)) as [->|Hjpos].
        { assert (i = pp) as -> by eauto using child_inj. by simplify_eq. }
        rewrite Hother in Hy by done.
        destruct (decide (i = pos)) as [->|Hipos].
        { rewrite Hpar in Hx. simplify_eq. by eapply (Hb pp j). }
        destruct (decide (i = pp)) as [->|Hipp].
        { rewrite Hnew in Hx. simplify_eq.
          etrans; [done|]. by eapply (Ha pp j). }
        rewrite Hother in Hx by done. by eapply (Ha i j).
      * intros g c Hg Hc x y Hx Hy.
        pose proof (child_lt _ _ Hg).
        rewrite Hother in Hx by lia.
        destruct (decide (c = pos)) as [->|Hcpos].
        { rewrite Hpar in Hy. simplify_eq. eapply (Ha g pp); [done|lia|done..]. }
        pose proof (child_lt _ _ Hc).
        rewrite Hother in Hy by lia.
        etrans; [eapply (Ha g pp); [done|lia|done..]|].
        by eapply (Ha pp c).
    + apply Hlt in Hcmp. inversion Hr; subst. intros i j Hc x y Hx Hy.
      destruct (decide (j = pos)) as [->|Hjpos]; [|by eapply Ha].
      assert (i = pp) as -> by eauto using child_inj.
      rewrite list_lookup_insert_ne in Hx by lia.
      rewrite list_lookup_insert_eq in Hy by done. by simplify_eq.
Qed.

Lemma siftup_loop_sifting_up fuel heap pos heap' pos' :
  length heap ≤ fuel + pos → pos < length heap →
  sifting_up heap pos →
  Heapq.siftup_loop fuel heap pos = Ok (heap', pos') →
  sifting_up heap' pos' ∧ length heap' = length heap ∧
  pos' < length heap ∧ length heap ≤ 2 * pos' + 1.
Proof.
  revert heap pos; induction fuel as [|fuel IH]; simpl; intros heap pos Hf Hlen [Ha Hb] Hr.
  - inversion Hr; subst. repeat split; try done; lia.
  - destruct (decide (2 * pos + 1 < length heap)) as [Hin|];
      [|inversion Hr; subst; repeat split; try done; lia].
    match type of Hr with bind ?c _ = _ => destruct c as [cp|] eqn:Hcp end;
      simpl in Hr; [|done].
    destruct (heap !! cp) as [c|] eqn:Hc; [|done].
    (* the child chosen is the smaller one *)
    assert (child pos cp ∧ ∀ j y, child pos j → heap !! j = Some y →
              (prio c ≤ prio y)%Z) as [Hchild Hmin].
    { destruct (decide (2 * pos + 1 + 1 < length heap)).
      - destruct (heap !! (2 * pos + 1)) as [lc|] eqn:Hl; [|done].
        destruct (heap !! (2 * pos + 1 + 1)) as [rc|] eqn:Hrr; [|done].
        destruct (py_lt lc rc) as [[|]|] eqn:Hcmp; simpl in Hcp; [| |done];
          apply Hlt in Hcmp; inversion Hcp; subst; (split; [unfold child; lia|]);
          intros j y [->| ->] Hy;
          repeat match goal with
                 | Hy : heap !! ?a = Some _, Hl : heap !! ?b = Some _ |- _ =>
                   replace a with b in Hy by lia; rewrite Hl in Hy; clear Hl
                 end; simplify_eq; lia.
      - inversion Hcp; subst. split; [unfold child; lia|].
        intros j y [->| ->] Hy; [by simplify_eq|].
        apply lookup_lt_Some in Hy. lia. }
    pose proof (child_lt _ _ Hchild) as Hposcp.
    pose proof (lookup_lt_Some _ _ _ Hc) as Hcplen.
    apply IH in Hr; [|rewrite length_insert; lia..|].
    { rewrite length_insert in Hr. done. }
    split.
    + intros i j Hij Hi Hj x y Hx Hy.
      destruct (decide (j = pos)) as [->|Hjpos].
      { rewrite list_lookup_insert_eq in Hy by done.
        rewrite list_lookup_insert_ne in Hx by (apply child_lt in Hij; lia).
        simplify_eq. by eapply (Hb i cp). }
      rewrite list_lookup_insert_ne in Hy by done.
      destruct (decide (i = pos)) as [->|Hipos].
      { rewrite list_lookup_insert_eq in Hx by done. simplify_eq. by eapply Hmin. }
      rewrite list_lookup_insert_ne in Hx by done. by eapply (Ha i j).
    + intros g d Hg Hd x y Hx Hy.
      assert (g = pos) as -> by eauto using child_inj.
      rewrite list_lookup_insert_eq in Hx by done.
      rewrite list_lookup_insert_ne in Hy by (apply child_lt in Hd; lia).
      simplify_eq. eapply (Ha cp d); [done|lia| |done..].
      apply child_lt in Hd. lia.
Qed.

Lemma siftup_root_is_heap heap r :
  heap ≠ [] → sifting_up heap 0 → Heapq.siftup heap 0 = Ok r → is_heap r.
Proof.
  intros Hne Hup. unfold Heapq.siftup.
  destruct (heap !! 0) as [newitem|] eqn:Hn; [|done].
  destruct (Heapq.siftup_loop _ _ _) as [[heap' pos']|] eqn:Hl; simpl; [|done].
  apply siftup_loop_sifting_up in Hl as ([Ha Hb] & Hlen & Hpos & Hleaf);
    [|lia|by destruct heap; simpl; [|lia]|done].
  unfold Heapq.siftdown. rewrite list_lookup_insert_eq by lia.
  apply siftdown_loop_is_heap; [done|rewrite length_insert; lia|].
  rewrite list_insert_insert_eq. split.
  - intros i j Hij Hj x y Hx Hy.
    rewrite list_lookup_insert_ne in Hy by done.
    destruct (decide (i = pos')) as [->|Hi].
    + apply lookup_lt_Some in Hy. unfold child in Hij. lia.
    + rewrite list_lookup_insert_ne in Hx by done. by eapply (Ha i j).
  - intros g c Hg Hc x y Hx Hy. apply lookup_lt_Some in Hy.
    rewrite length_insert in Hy. unfold child in Hc. lia.
Qed.

Lemma heappush_is_heap heap item r :
  is_heap heap → Heapq.heappush heap item = Ok r → is_heap r.
Proof.
  intros Hheap. unfold Heapq.heappush, Heapq.siftdown.
  rewrite length_app, Nat.add_sub. simpl.
  rewrite lookup_app_r, Nat.sub_diag by lia. simpl.
  apply siftdown_loop_is_heap; [done|rewrite length_app; simpl; lia|].
  rewrite list_insert_id by (by rewrite lookup_app_r, Nat.sub_diag by lia).
  split.
  - intros i j Hij Hj x y Hx Hy.
    pose proof (child_lt _ _ Hij). pose proof (lookup_lt_Some _ _ _ Hy) as Hjl.
    rewrite length_app in Hjl; simpl in Hjl.
    rewrite lookup_app_l in Hx, Hy by lia. by eapply Hheap.
  - intros g c Hg Hc x y Hx Hy. apply child_lt in Hc.
    apply lookup_lt_Some in Hy. rewrite length_app in Hy; simpl in Hy. lia.
Qed.

Lemma heappop_is_heap heap x r :
  is_heap heap → Heapq.heappop heap = Ok (x, r) →
  is_heap r ∧ heap !! 0 = Some x.
Proof.
  intros Hheap. unfold Heapq.heappop.
  destruct (list_pop heap) as [[lastelt heap0]|] eqn:Hpop; simpl; [|done].
  apply list_pop_snoc in Hpop as ->.
  destruct heap0 as [|returnitem heap0].
  { intros [= <- <-]. split; [|done]. intros i j _ ? ? ? ?. by destruct j. }
  destruct (Heapq.siftup _ _) as [heap1|] eqn:Hs; simpl; [|done].
  intros [= <- <-]. split; [|done].
  apply siftup_root_is_heap in Hs; [done..|]. split.
  - intros i j Hij Hi Hj y z Hy Hz.
    destruct i as [|i]; [done|]. destruct j as [|j]; [done|]. simpl in Hy, Hz.
    eapply (Hheap (S i) (S j)); [done|simpl..];
      by apply lookup_app_l_Some.
  - intros g c Hg. apply child_lt in Hg. lia.
Qed.

(** The root of a heap has the smallest priority. *)
Lemma is_heap_root_min heap x :
  is_heap heap → heap !! 0 = Some x → ∀ y, y ∈ heap → (prio x ≤ prio y)%Z.
Proof.
  intros Hheap Hx y [j Hy]%list_elem_of_lookup. revert y Hy.
  induction (lt_wf j) as [j _ IH]; intros y Hy.
  destruct (decide (j = 0)) as [->|Hj]; [by simplify_eq|].
  pose proof (child_parent j ltac:(lia)) as Hc.
  pose proof (child_lt _ _ Hc) as Hpj.
  destruct (lookup_lt_is_Some_2 heap ((j - 1) / 2)) as [z Hz].
  { apply lookup_lt_Some in Hy. lia. }
  etrans; [by eapply IH|]. by eapply Hheap.
Qed.

End HeapOrder.

(** ** The priority queue *)

Section PriorityQueueFacts.
Context {Item : Type} `{EqDecision Item} `{PyLt Item}.
Implicit Types q : list (Z * Item).

(** Pairs are ordered by priority first, whatever the items are. *)
Lemma pair_lt_respects : lt_respects (T := Z * Item) fst.
Proof.
  intros [p1 i1] [p2 i2] v. unfold py_lt, pair_py_lt. simpl.
  destruct (decide (p1 = p2)) as [->|Hne].
  - intros _. destruct v; lia.
  - unfold py_lt, Z_py_lt. intros [= <-].
    destruct (Z.ltb_spec p1 p2); lia.
Qed.

Lemma push_spec q item priority q' :
  is_heap fst q → PriorityQueue.push q item priority = Ok q' →
  is_heap fst q' ∧ q' ≡ₚ (priority, item) :: q.
Proof.
  unfold PriorityQueue.push. intros Hq Hpush. split.
  - eapply heappush_is_heap; eauto using pair_lt_respects.
  - by apply heappush_Permutation.
Qed.

Lemma pop_spec q item priority q' :
  is_heap fst q → PriorityQueue.pop q = Ok ((item, priority), q') →
  is_heap fst q' ∧ q ≡ₚ (priority, item) :: q' ∧
  ∀ y, y ∈ q → (priority ≤ y.1)%Z.
Proof.
  unfold PriorityQueue.pop. intros Hq Hpop.
  destruct (Heapq.heappop q) as [[[p i] r]|] eqn:Hp; simpl in Hpop; [|done].
  inversion Hpop; subst.
  destruct (heappop_is_heap fst pair_lt_respects _ _ _ Hq Hp) as [Hr H0].
  split; [done|]. split; [by apply heappop_Permutation|].
  intros y Hy. by apply (is_heap_root_min fst q (priority, item)).
Qed.

Lemma pop_empty : PriorityQueue.pop (@nil (Z * Item)) = Raise IndexError.
Proof. done. Qed.

Lemma isEmpty_getSize q :
  PriorityQueue.isEmpty q = true ↔ PriorityQueue.getSize q = 0.
Proof. unfold PriorityQueue.isEmpty, PriorityQueue.getSize. apply bool_decide_eq_true. Qed.

Lemma is_heap_nil : is_heap (T := Z * Item) fst [].
Proof. intros i j _ x y Hx. done. Qed.

Lemma pushes_spec l q q' :
  is_heap fst q → PriorityQueue.pushes q l = Ok q' →
  is_heap fst q' ∧ q' ≡ₚ q ++ map (λ x, (x.2, x.1)) l.
Proof.
  revert q; induction l as [|[item priority] l IH]; simpl; intros q Hq Hp.
  - inversion Hp; subst. by rewrite app_nil_r.
  - destruct (PriorityQueue.push q item priority) as [q1|] eqn:Hq1; [|done].
    destruct (push_spec _ _ _ _ Hq Hq1) as [Hh Hperm]. simpl in Hp.
    destruct (IH _ Hh Hp) as [Hh' Hperm']. split; [done|].
    rewrite Hperm', Hperm. simpl. by rewrite Permutation_middle.
Qed.

(** When [pop] answers on a queue built by pushes, it answers with an item
    of smallest priority, and takes exactly that entry out. *)
Lemma pop_min l q item priority q' :
  PriorityQueue.pushes PriorityQueue.init l = Ok q →
  PriorityQueue.pop q = Ok ((item, priority), q') →
  (item, priority) ∈ l ∧
  (∀ y, y ∈ l → (priority ≤ y.2)%Z) ∧
  q ≡ₚ (priority, item) :: q' ∧
  PriorityQueue.getSize q = S (PriorityQueue.getSize q').
Proof.
  intros Hpush Hpop.
  destruct (pushes_spec _ _ _ is_heap_nil Hpush) as [Hheap Hperm].
  destruct (pop_spec _ _ _ _ Hheap Hpop) as (_ & Hq & Hmin). simpl in Hperm.
  assert (∀ p i, (p, i) ∈ q ↔ (i, p) ∈ l) as Hin.
  { intros p i. rewrite Hperm, list_elem_of_fmap. split.
    - intros ([i' p'] & [= -> ->] & Hl). done.
    - intros Hl. by exists (i, p). }
  repeat split.
  - apply Hin. rewrite Hq. left.
  - intros [i p] Hy. apply (Hmin (p, i)). by apply Hin.
  - done.
  - unfold PriorityQueue.getSize. by rewrite Hq.
Qed.

End PriorityQueueFacts.

(** An item type that is equality-comparable but not orderable (as a
    [dict], a [complex] or an object without [__lt__] is). *)
Inductive unorderable : Set := Unorderable (n : nat).

Global Instance unorderable_eq_dec : EqDecision unorderable.
Proof. solve_decision. Defined.

Global Instance unorderable_py_lt : PyLt unorderable := λ _ _, Raise TypeError.

(** C9, at the failing input.  Three pushes give a non-empty queue whose
    smallest priority is 0; [pop] then has to order the two items of equal
    priority 1 and raises [TypeError] instead of returning the entry of
    priority 0.  The same calls on strings return it. *)
Theorem pop_raises_on_tied_unorderable_items :
  PriorityQueue.pushes PriorityQueue.init
    [(Unorderable 0, 0%Z); (Unorderable 1, 1%Z); (Unorderable 2, 1%Z)]
  = Ok [(0%Z, Unorderable 0); (1%Z, Unorderable 1); (1%Z, Unorderable 2)]
  ∧ PriorityQueue.pop
      [(0%Z, Unorderable 0); (1%Z, Unorderable 1); (1%Z, Unorderable 2)]
    = Raise TypeError
  ∧ PriorityQueue.pop [(0%Z, "a"%string); (1%Z, "b"%string); (1%Z, "c"%string)]
    = Ok (("a"%string, 0%Z), [(1%Z, "b"%string); (1%Z, "c"%string)]).
Proof. repeat split; vm_compute; reflexivity. Qed.

(** ** The search loops, one round at a time *)

Section Rounds.
Context {Key Action PObj : Type} `{Countable Key} `{EqDecision Action}.
Context `{PyLt Key} `{PyLt Action}.
Context (P : Search.Problem Key Action PObj).

Abbreviation Node := (@Search.Node Key Action).
Abbreviation Succ := (@Search.Succ Key Action).
Abbreviation State := (Search.State Key PObj).
Abbreviation DNode := (@Search.DNode Key Action).

Definition key (n : Node) : Key := n.1.1.1.
Definition path (n : Node) : list Action := n.1.1.2.
Definition gcost (n : Node) : Z := n.1.2.
Definition flag (n : Node) : bool := n.2.

(** The entry a successor gives when it is reached from the entry [n]. *)
Definition child_node (n : Node) (s : Succ) : Node :=
  (s.1.1.1, path n ++ [s.1.1.2], (gcost n + s.1.2)%Z, s.2).

(** The entries pushed when [n] is expanded. *)
Definition children (visited : gset Key) (n : Node) (succs : list Succ)
  : list Node :=
  child_node n <$> filter (λ s : Succ, s.1.1.1 ∉ visited) succs.

Lemma push_succ_fold visited n succs fr inF mm :
  ∃ inF' mm',
    fold_left (Search.push_succ visited n) succs (fr, inF, mm)
    = (fr ++ children visited n succs, inF', mm') ∧ mm ≤ mm'.
Proof.
  revert fr inF mm; induction succs as [|s succs IH]; intros fr inF mm; simpl.
  - exists inF, mm. by rewrite app_nil_r.
  - destruct n as [[[s0 s1] s2] s3], s as [[[k a] c] g]. simpl.
    unfold children. rewrite filter_cons. simpl.
    destruct (decide (k ∈ visited)) as [Hk|Hk].
    + destruct (decide (k ∉ visited)) as [Hn|_]; [by destruct Hn|]. apply IH.
    + destruct (decide (k ∉ visited)) as [_|Hn]; [|by destruct Hn].
      edestruct IH as (inF' & mm' & -> & Hle). exists inF', mm'.
      rewrite <-app_assoc. split; [done|].
      destruct (decide (mm < _)); lia.
Qed.

Lemma dls_push_succ_fold visited n d succs fr inF mm :
  ∃ inF' mm',
    fold_left (Search.dls_push_succ visited (n, d)) succs (fr, inF, mm)
    = (fr ++ ((λ c, (c, d + 1)) <$> children visited n succs), inF', mm')
    ∧ mm ≤ mm'.
Proof.
  revert fr inF mm; induction succs as [|s succs IH]; intros fr inF mm; simpl.
  - exists inF, mm. by rewrite app_nil_r.
  - destruct n as [[[s0 s1] s2] s3], s as [[[k a] c] g]. simpl.
    unfold children. rewrite filter_cons. simpl.
    destruct (decide (k ∈ visited)) as [Hk|Hk].
    + destruct (decide (k ∉ visited)) as [Hn|_]; [by destruct Hn|]. apply IH.
    + destruct (decide (k ∉ visited)) as [_|Hn]; [|by destruct Hn].
      edestruct IH as (inF' & mm' & -> & Hle). exists inF', mm'.
      rewrite <-app_assoc. split; [done|].
      destruct (decide (mm < _)); lia.
Qed.

(** The priority under which [aStarSearch] pushes an entry. *)
Definition fscore (heuristic : Search.Heuristic Key) (n : Node) : Z :=
  (gcost n + Search.eval heuristic (key n))%Z.

Lemma astar_push_succ_Raise (heuristic : Search.Heuristic Key) visited
  (n : Node) (succs : list Succ) e :
  fold_left (Search.astar_push_succ heuristic visited n) succs (Raise e) = Raise e.
Proof. induction succs; simpl; [done|]. by destruct n as [[[??]?]?]. Qed.

Lemma astar_push_succ_fold (heuristic : Search.Heuristic Key) visited
  (n : Node) (succs : list Succ) fr inF fr' inF' :
  fold_left (Search.astar_push_succ heuristic visited n) succs (Ok (fr, inF))
  = Ok (fr', inF') →
  is_heap fst fr →
  is_heap fst fr' ∧
  fr' ≡ₚ fr ++ ((λ c, (fscore heuristic c, c)) <$> children visited n succs).
Proof.
  revert fr inF; induction succs as [|s succs IH]; intros fr inF; simpl.
  - intros [= <- <-] Hh. by rewrite app_nil_r.
  - destruct n as [[[s0 s1] s2] s3], s as [[[k a] c] g]. simpl.
    unfold children. rewrite filter_cons. simpl.
    destruct (decide (k ∈ visited)) as [Hk|Hk].
    + destruct (decide (k ∉ visited)) as [Hn|_]; [by destruct Hn|]. apply IH.
    + destruct (decide (k ∉ visited)) as [_|Hn]; [|by destruct Hn].
      destruct (PriorityQueue.push _ _ _) as [fr1|] eqn:Hpush; simpl;
        [|by rewrite astar_push_succ_Raise].
      intros Hfold Hh. destruct (push_spec _ _ _ _ Hh Hpush) as [Hh1 Hperm].
      destruct (IH _ _ Hfold Hh1) as [Hh' Hperm']. split; [done|].
      etrans; [exact Hperm'|].
      etrans; [apply Permutation_app_tail; exact Hperm|].
      simpl. apply Permutation_middle.
Qed.

(** *** What one round of each loop does *)

(** A round that goes on either drops the entry it removed or expands it. *)
Definition dropped {F : Type} (st st' : State F) (rest : F) : Prop :=
  Search.world st' = Search.world st ∧ Search.fringe st' = rest ∧
  Search.visited st' = Search.visited st ∧
  Search.numExpanded st' = Search.numExpanded st.

Lemma visit_Continue st n rest st' :
  Search.visit P st n rest = Continue st' →
  flag n = false ∧
  (((key n ∈ Search.visited st) ∧ dropped st st' rest) ∨
   ((key n ∉ Search.visited st) ∧ ∃ succs o,
      Search.getSuccessors P (key n) (Search.problem (Search.world st))
      = Ok (succs, o) ∧
      Search.problem (Search.world st') = o ∧
      Search.fringe st'
      = rest ++ children ({[key n]} ∪ Search.visited st) n succs ∧
      Search.visited st' = {[key n]} ∪ Search.visited st ∧
      Search.numExpanded st' = S (Search.numExpanded st) ∧
      Search.totalStates (Search.globals (Search.world st'))
      = S (Search.numExpanded st) ∧
      Search.maxMemoryUse (Search.globals (Search.world st))
      ≤ Search.maxMemoryUse (Search.globals (Search.world st')))).
Proof.
  unfold Search.visit. destruct n as [[[s0 s1] s2] s3]. unfold flag, key. simpl.
  destruct s3; [done|]. intros Hst. split; [done|]. revert Hst.
  destruct (decide (s0 ∈ Search.visited st)) as [Hv|Hv].
  - intros [= <-]. left. by repeat split.
  - destruct (Search.getSuccessors P s0 _) as [[succs o]|] eqn:Hs; [|done].
    edestruct (push_succ_fold ({[s0]} ∪ Search.visited st) (s0, s1, s2, false)
                 succs rest) as (inF' & mm' & -> & Hle).
    intros [= <-]. right. split; [done|]. exists succs, o. by repeat split.
Qed.

Lemma visit_Return st n rest r :
  Search.visit P st n rest = Return r →
  flag n = true ∧
  r = ((path n, Fin (gcost n), Search.numExpanded st), Search.world st).
Proof.
  unfold Search.visit. destruct n as [[[s0 s1] s2] s3]. unfold flag, path, gcost.
  simpl. destruct s3; [by intros [= <-]|].
  destruct (decide _); [done|].
  destruct (Search.getSuccessors P s0 _) as [[succs o]|]; [|done].
  by destruct (fold_left _ _ _) as [[??]?].
Qed.

Lemma bfs_step_Continue st st' :
  Search.bfs_step P st = Continue st' →
  ∃ n rest, Search.fringe st = n :: rest ∧
    Search.visit P st n rest = Continue st'.
Proof.
  unfold Search.bfs_step. destruct (Search.fringe st) as [|n rest]; [done|].
  intros Hv. by exists n, rest.
Qed.

Lemma bfs_step_Return st r :
  Search.bfs_step P st = Return r →
  (Search.fringe st = [] ∧
   r = (([], Inf, Search.numExpanded st), Search.world st)) ∨
  (∃ n rest, Search.fringe st = n :: rest ∧ Search.visit P st n rest = Return r).
Proof.
  unfold Search.bfs_step. destruct (Search.fringe st) as [|n rest].
  - intros [= <-]. by left.
  - intros Hv. right. by exists n, rest.
Qed.

Lemma list_pop_cons {A : Type} (a : A) l :
  ∃ x r, list_pop (a :: l) = Ok (x, r) ∧ a :: l = r ++ [x].
Proof.
  destruct (list_pop (a :: l)) as [[x r]|e] eqn:Hp.
  - exists x, r. split; [done|]. by apply list_pop_snoc.
  - unfold list_pop in Hp. destruct (rev (a :: l)) eqn:Hr; [|done].
    apply (f_equal length) in Hr. rewrite length_rev in Hr. done.
Qed.

Lemma dfs_step_Continue st st' :
  Search.dfs_step P st = Continue st' →
  ∃ n rest, Search.fringe st = rest ++ [n] ∧
    Search.visit P st n rest = Continue st'.
Proof.
  unfold Search.dfs_step. destruct (Search.fringe st) as [|a l]; [done|].
  destruct (list_pop_cons a l) as (n & rest & -> & ->).
  intros Hv. by exists n, rest.
Qed.

Lemma dfs_step_Return st r :
  Search.dfs_step P st = Return r →
  (Search.fringe st = [] ∧
   r = (([], Inf, Search.numExpanded st), Search.world st)) ∨
  (∃ n rest, Search.fringe st = rest ++ [n] ∧
     Search.visit P st n rest = Return r).
Proof.
  unfold Search.dfs_step. destruct (Search.fringe st) as [|a l].
  - intros [= <-]. by left.
  - destruct (list_pop_cons a l) as (n & rest & -> & ->).
    intros Hv. right. by exists n, rest.
Qed.

Lemma dls_step_Continue maxDepth (st st' : State (list DNode)) :
  Search.dls_step P maxDepth st = Continue st' →
  ∃ n d rest, Search.fringe st = rest ++ [(n, d)] ∧ flag n = false ∧
  ((¬ ((key n ∉ Search.visited st) ∧ d < maxDepth) ∧ dropped st st' rest) ∨
   ((key n ∉ Search.visited st) ∧ d < maxDepth ∧ ∃ succs o,
      Search.getSuccessors P (key n) (Search.problem (Search.world st))
      = Ok (succs, o) ∧
      Search.problem (Search.world st') = o ∧
      Search.fringe st'
      = rest ++ ((λ c, (c, d + 1)) <$>
                 children ({[key n]} ∪ Search.visited st) n succs) ∧
      Search.visited st' = {[key n]} ∪ Search.visited st ∧
      Search.numExpanded st' = S (Search.numExpanded st) ∧
      Search.totalStates (Search.globals (Search.world st'))
      = S (Search.totalStates (Search.globals (Search.world st))) ∧
      Search.maxMemoryUse (Search.globals (Search.world st))
      ≤ Search.maxMemoryUse (Search.globals (Search.world st')))).
Proof.
  unfold Search.dls_step. destruct (Search.fringe st) as [|a l]; [done|].
  destruct (list_pop_cons a l) as ([n d] & rest & -> & ->).
  destruct n as [[[s0 s1] s2] s3]. unfold flag, key. simpl.
  destruct s3; [done|]. intros Hst. exists (s0, s1, s2, false), d, rest.
  split; [done|]. split; [done|]. revert Hst. simpl.
  destruct (decide ((s0 ∉ Search.visited st) ∧ d < maxDepth)) as [[Hv Hd]|Hv].
  - destruct (Search.getSuccessors P s0 _) as [[succs o]|] eqn:Hs; [|done].
    edestruct (dls_push_succ_fold ({[s0]} ∪ Search.visited st)
                 (s0, s1, s2, false) d succs rest) as (inF' & mm' & -> & Hle).
    intros [= <-]. right. split; [done|]. split; [done|].
    exists succs, o. by repeat split.
  - intros [= <-]. left. by repeat split.
Qed.

Lemma dls_step_Return maxDepth (st : State (list DNode)) r :
  Search.dls_step P maxDepth st = Return r →
  (Search.fringe st = [] ∧
   r = (([], Inf, Search.numExpanded st), Search.world st)) ∨
  (∃ n d rest, Search.fringe st = rest ++ [(n, d)] ∧ flag n = true ∧
     r = ((path n, Fin (gcost n), Search.numExpanded st), Search.world st)).
Proof.
  unfold Search.dls_step. destruct (Search.fringe st) as [|a l].
  { intros [= <-]. by left. }
  destruct (list_pop_cons a l) as ([n d] & rest & -> & ->).
  destruct n as [[[s0 s1] s2] s3]. unfold flag, path, gcost. simpl.
  destruct s3.
  - intros [= <-]. right. by exists (s0, s1, s2, true), d, rest.
  - destruct (decide _); [|done].
    destruct (Search.getSuccessors P s0 _) as [[succs o]|]; [|done].
    by destruct (fold_left _ _ _) as [[??]?].
Qed.

Lemma astar_step_Continue heuristic (st st' : State (list (Z * Node))) :
  Search.astar_step P heuristic st = Continue st' →
  ∃ n score rest,
    PriorityQueue.pop (Search.fringe st) = Ok ((n, score), rest) ∧
    flag n = false ∧
  (((key n ∈ Search.visited st) ∧ dropped st st' rest) ∨
   ((key n ∉ Search.visited st) ∧ ∃ succs o inF inF',
      Search.getSuccessors P (key n) (Search.problem (Search.world st))
      = Ok (succs, o) ∧
      fold_left
        (Search.astar_push_succ heuristic ({[key n]} ∪ Search.visited st) n)
        succs (Ok (rest, inF)) = Ok (Search.fringe st', inF') ∧
      Search.problem (Search.world st') = o ∧
      Search.visited st' = {[key n]} ∪ Search.visited st ∧
      Search.numExpanded st' = S (Search.numExpanded st) ∧
      Search.totalStates (Search.globals (Search.world st'))
      = S (Search.numExpanded st) ∧
      Search.maxMemoryUse (Search.globals (Search.world st))
      ≤ Search.maxMemoryUse (Search.globals (Search.world st')))).
Proof.
  unfold Search.astar_step. destruct (PriorityQueue.isEmpty _); [done|].
  destruct (PriorityQueue.pop _) as [[[n score] rest]|]; [|done].
  destruct n as [[[s0 s1] s2] s3]. unfold flag, key. simpl.
  destruct s3; [done|]. intros Hst. exists (s0, s1, s2, false), score, rest.
  split; [done|]. split; [done|]. revert Hst. simpl.
  destruct (decide (s0 ∈ Search.visited st)) as [Hv|Hv].
  - intros [= <-]. left. by repeat split.
  - destruct (Search.getSuccessors P s0 _) as [[succs o]|] eqn:Hs; [|done].
    destruct (fold_left _ _ _) as [[fr' inF']|] eqn:Hfold; [|done].
    intros [= <-]. right. split; [done|].
    eexists succs, o, _, inF'. simpl. repeat split; try done.
    destruct (decide _); unfold PriorityQueue.getSize in *; lia.
Qed.

Lemma astar_step_Return heuristic (st : State (list (Z * Node))) r :
  Search.astar_step P heuristic st = Return r →
  (Search.fringe st = [] ∧
   r = (([], Inf, Search.numExpanded st), Search.world st)) ∨
  (∃ n score rest,
     PriorityQueue.pop (Search.fringe st) = Ok ((n, score), rest) ∧
     flag n = true ∧
     r = ((path n, Fin (gcost n), Search.numExpanded st), Search.world st)).
Proof.
  unfold Search.astar_step.
  destruct (PriorityQueue.isEmpty _) eqn:He.
  { intros [= <-]. left. split; [|done].
    apply isEmpty_getSize in He. by destruct (Search.fringe st). }
  destruct (PriorityQueue.pop _) as [[[n score] rest]|]; [|done].
  destruct n as [[[s0 s1] s2] s3]. unfold flag, path, gcost. simpl.
  destruct s3.
  - intros [= <-]. right. by exists (s0, s1, s2, true), score, rest.
  - destruct (decide _); [done|].
    destruct (Search.getSuccessors P s0 _) as [[succs o]|]; [|done].
    by destruct (fold_left _ _ _) as [[??]|].
Qed.

End Rounds.

(** ** Small problems to run the searches on

    The object of a table problem is just its current state; an action is
    named by the state it leads to. *)

Definition table_problem (succs : Z → list (Z * Z * Z * bool)) (goal : Z → bool)
  : Search.Problem Z Z Z := {|
  Search.getState o := Ok o;
  Search.setState k _ := Ok k;
  Search.isSolved o := goal o;
  Search.getSuccessors k o := Ok (succs k, o);
|}.

(** Five states 0 … 4, the goal being 4.  State 3 is reached from 1 at
    cost 1 and from 2 at cost 2:

<<
        0 --1--> 1 --1--> 3 --3--> 4
        0 --1--> 2 --2--> 3
>>
*)
Module Diamond.

Definition succs (k : Z) : list (Z * Z * Z * bool) :=
  if decide (k = 0%Z) then [(1, 1, 1, false); (2, 2, 1, false)]%Z
  else if decide (k = 1%Z) then [(3, 3, 1, false)]%Z
  else if decide (k = 2%Z) then [(3, 3, 2, false)]%Z
  else if decide (k = 3%Z) then [(4, 4, 3, true)]%Z
  else [].

Definition goal (k : Z) : bool := bool_decide (k = 4%Z).

Definition problem : Search.Problem Z Z Z := table_problem succs goal.

(** The problem standing at state 0 (the counters hold what an earlier
    search left there). *)
Definition world : Search.World Z := Search.mkWorld 0%Z (Search.mkMetrics 7 7).

(** An estimate that never exceeds the cost that remains, but drops by
    more than the step cost from 1 to 3. *)
Definition estimate : Search.Heuristic Z :=
  {| Search.eval k := if decide (k = 1%Z) then 4%Z else 0%Z |}.

Definition zero : Search.Heuristic Z := {| Search.eval _ := 0%Z |}.

(** The same estimate, for problems whose states are strings. *)
Definition zero_string : Search.Heuristic string := {| Search.eval _ := 0%Z |}.

End Diamond.

(** Two states and no goal: 0 --1--> 1. *)
Module DeadEnd.

Definition succs (k : Z) : list (Z * Z * Z * bool) :=
  if decide (k = 0%Z) then [(1, 1, 1, false)]%Z else [].

Definition problem : Search.Problem Z Z Z := table_problem succs (λ _, false).

Definition world : Search.World Z := Search.mkWorld 0%Z (Search.mkMetrics 7 7).

End DeadEnd.

(** ** Every expansion adds a new key to [visited] *)

Section Expansion.
Context {Key Action PObj : Type} `{Countable Key} `{EqDecision Action}.
Context `{PyLt Key} `{PyLt Action}.
Context (P : Search.Problem Key Action PObj).

Abbreviation State' := (Search.State Key PObj).

(** A round either leaves [visited] and [numExpanded] alone, or expands a
    key that was not in [visited] and puts it there. *)
Definition round_expands {F : Type} (st st' : State' F) : Prop :=
  (Search.visited st' = Search.visited st ∧
   Search.numExpanded st' = Search.numExpanded st) ∨
  (∃ k, (k ∉ Search.visited st) ∧
     Search.visited st' = {[k]} ∪ Search.visited st ∧
     Search.numExpanded st' = S (Search.numExpanded st)).

(** [numExpanded] counts distinct keys, and the next round keeps it so. *)
Definition expands_once {F : Type}
  (step : State' F → step_result (State' F) (Search.Answer Action * Search.World PObj))
  (st : State' F) : Prop :=
  Search.numExpanded st = size (Search.visited st) ∧
  ∀ st', step st = Continue st' → round_expands st st'.

Lemma expands_once_iter {F : Type}
  (step : State' F → step_result (State' F) (Search.Answer Action * Search.World PObj))
  (st0 : State' F) :
  (∀ st st', step st = Continue st' → round_expands st st') →
  Search.numExpanded st0 = size (Search.visited st0) →
  ∀ n st, iter step n st0 = Some st → expands_once step st.
Proof.
  intros Hstep Hinit n st Hn. split; [|by apply Hstep].
  revert Hinit Hn.
  apply (iter_invariant step
           (λ s, Search.numExpanded s = size (Search.visited s))).
  clear st0 n st.
  intros st st' Hst Hs.
  destruct (Hstep _ _ Hs) as [[-> ->]|(k & Hk & -> & ->)]; [done|].
  rewrite size_union by set_solver. by rewrite size_singleton, Hst.
Qed.

Lemma visit_expands st n rest st' :
  Search.visit P st n rest = Continue st' → round_expands st st'.
Proof.
  intros [_ [[_ (_ & _ & Hv & Hn)]|[Hk (succs & o & _ & _ & _ & Hv & Hn & _)]]]
    %visit_Continue.
  - by left.
  - right. by exists (key n).
Qed.

Lemma bfs_step_expands st st' :
  Search.bfs_step P st = Continue st' → round_expands st st'.
Proof. intros (n & rest & _ & Hv)%bfs_step_Continue. by eapply visit_expands. Qed.

Lemma dfs_step_expands st st' :
  Search.dfs_step P st = Continue st' → round_expands st st'.
Proof. intros (n & rest & _ & Hv)%dfs_step_Continue. by eapply visit_expands. Qed.

Lemma dls_step_expands maxDepth st st' :
  Search.dls_step P maxDepth st = Continue st' → round_expands st st'.
Proof.
  intros (n & d & rest & _ & _ & Hcase)%dls_step_Continue.
  destruct Hcase as [[_ (_ & _ & Hv & Hn)]
                    |(Hk & _ & succs & o & _ & _ & _ & Hv & Hn & _)].
  - by left.
  - right. by exists (key n).
Qed.

Lemma astar_step_expands heuristic st st' :
  Search.astar_step P heuristic st = Continue st' → round_expands st st'.
Proof.
  intros (n & score & rest & _ & _ & Hcase)%astar_step_Continue.
  destruct Hcase as [[_ (_ & _ & Hv & Hn)]
                    |(Hk & succs & o & inF & inF' & _ & _ & _ & Hv & Hn & _)].
  - by left.
  - right. by exists (key n).
Qed.

Lemma start_fresh w st0 :
  Search.start P w = Ok st0 →
  Search.numExpanded st0 = size (Search.visited st0).
Proof.
  unfold Search.start. destruct (Search.getState P _); [|done].
  by intros [= <-].
Qed.

Lemma dls_start_fresh reset w st0 :
  Search.dls_start P reset w = Ok st0 →
  Search.numExpanded st0 = size (Search.visited st0).
Proof.
  unfold Search.dls_start. destruct (Search.getState P _); [|done].
  by intros [= <-].
Qed.

Lemma astar_start_fresh heuristic w st0 :
  Search.astar_start P heuristic w = Ok st0 →
  Search.numExpanded st0 = size (Search.visited st0).
Proof.
  unfold Search.astar_start. destruct (Search.getState P _); [|done].
  unfold bind at 1.
  match goal with |- bind ?c _ = _ → _ => destruct c; [|done] end.
  by intros [= <-].
Qed.

End Expansion.

(** ** The calls of getSuccessors

    To see which states a search generates the successors of, the searches
    are run on a problem that keeps a list of the keys its [getSuccessors]
    was called with and otherwise behaves as the given one. *)

Section Generated.
Context {Key Action PObj : Type} `{Countable Key} `{EqDecision Action}.
Context `{PyLt Key} `{PyLt Action}.
Context (P : Search.Problem Key Action PObj).

(** The object of [P] together with the keys passed to [getSuccessors],
    in the order of the calls.  (A call that raises ends the search, as the
    loops do not catch exceptions.) *)
Definition logged : Search.Problem Key Action (PObj * list Key) := {|
  Search.getState o := Search.getState P o.1;
  Search.setState k o := do o' <- Search.setState P k o.1; Ok (o', o.2);
  Search.isSolved o := Search.isSolved P o.1;
  Search.getSuccessors k o :=
    do r <- Search.getSuccessors P k o.1; Ok (r.1, (r.2, o.2 ++ [k]));
|}.

Abbreviation LState := (Search.State Key (PObj * list Key)).
Abbreviation LNode := (Search.Node Key Action).

(** The keys [getSuccessors] has been called with. *)
Definition generated (w : Search.World (PObj * list Key)) : list Key :=
  (Search.problem w).2.

(** Since the world [w0], [getSuccessors] was called once for each key of
    [visited] and for no other key, and [numExpanded] counts the calls. *)
Definition generated_once {F : Type} (w0 : Search.World (PObj * list Key))
  (st : LState F) : Prop :=
  ∃ ks, generated (Search.world st) = generated w0 ++ ks ∧ NoDup ks ∧
        Search.visited st = list_to_set ks ∧
        Search.numExpanded st = length ks.

(** A round removes one entry [n] from the fringe.  Either it drops the
    entry: it makes no call of [getSuccessors], pushes nothing and leaves
    [visited] and [numExpanded] alone.  Or it expands the entry, whose key
    was not in [visited]: it makes one call of [getSuccessors], for that
    key, puts the key in [visited], counts it and pushes new entries. *)
Definition round_generates {F : Type} (nodes_of : F → list LNode)
  (st st' : LState F) : Prop :=
  ∃ n rest, nodes_of (Search.fringe st) ≡ₚ n :: rest ∧
    ((generated (Search.world st') = generated (Search.world st) ∧
      Search.visited st' = Search.visited st ∧
      Search.numExpanded st' = Search.numExpanded st ∧
      nodes_of (Search.fringe st') ≡ₚ rest) ∨
     ((key n ∉ Search.visited st) ∧
      generated (Search.world st') = generated (Search.world st) ++ [key n] ∧
      Search.visited st' = {[key n]} ∪ Search.visited st ∧
      Search.numExpanded st' = S (Search.numExpanded st) ∧
      ∃ new, nodes_of (Search.fringe st') ≡ₚ rest ++ new)).

Lemma logged_getSuccessors k o succs o' :
  Search.getSuccessors logged k o = Ok (succs, o') → o'.2 = o.2 ++ [k].
Proof.
  simpl. destruct (Search.getSuccessors P k o.1) as [[r1 r2]|]; [|done].
  by intros [= _ <-].
Qed.

Lemma round_generates_once {F : Type} (nodes_of : F → list LNode) w0
  (st st' : LState F) :
  generated_once w0 st → round_generates nodes_of st st' →
  generated_once w0 st'.
Proof.
  intros (ks & Hc & Hnd & Hv & Hn)
         (n & rest & _ & [(Hc' & Hv' & Hn' & _)|(Hk & Hc' & Hv' & Hn' & _)]).
  - exists ks. by rewrite Hc', Hv', Hn'.
  - exists (ks ++ [key n]). rewrite Hc', Hc, Hv', Hn', Hv, <- app_assoc.
    split; [done|]. split; [|split].
    + apply NoDup_app. split; [done|]. split; [|apply NoDup_singleton].
      intros x Hx ->%list_elem_of_singleton. apply Hk. rewrite Hv.
      by apply elem_of_list_to_set.
    + apply set_eq. intros x.
      rewrite elem_of_union, !elem_of_list_to_set, elem_of_app,
        list_elem_of_singleton, elem_of_singleton. tauto.
    + rewrite length_app. simpl. lia.
Qed.

Lemma astar_push_succ_perm (heuristic : Search.Heuristic Key) visited
  (n : LNode) (succs : list (Search.Succ Key Action)) fr inF fr' inF' :
  fold_left (Search.astar_push_succ heuristic visited n) succs (Ok (fr, inF))
  = Ok (fr', inF') →
  ∃ new, fr' ≡ₚ fr ++ new.
Proof.
  revert fr inF; induction succs as [|s succs IH]; intros fr inF; simpl.
  - intros [= <- <-]. exists []. by rewrite app_nil_r.
  - destruct n as [[[s0 s1] s2] s3], s as [[[k a] c] g]. simpl.
    destruct (decide (k ∈ visited)) as [Hk|Hk]; [apply IH|].
    destruct (PriorityQueue.push _ _ _) as [fr1|] eqn:Hpush; simpl.
    2: { intros Hfold.
         pose proof (eq_trans
                       (eq_sym (astar_push_succ_Raise heuristic visited
                                  (s0, s1, s2, s3) succs e)) Hfold) as Habs.
         discriminate Habs. }
    intros (new & Hperm)%IH. apply heappush_Permutation in Hpush.
    eexists (_ :: new). rewrite Hperm, Hpush. simpl.
    apply Permutation_middle.
Qed.

Lemma visit_generates (st st' : LState (list LNode)) n rest :
  Search.fringe st ≡ₚ n :: rest →
  Search.visit logged st n rest = Continue st' → round_generates id st st'.
Proof.
  intros Hperm [_ [[_ (Hw & Hf & Hv & Hn)]
                  |[Hk (succs & o & Hs & Ho & Hf & Hv & Hn & _)]]]
    %visit_Continue;
    exists n, rest; (split; [done|]).
  - left. split; [exact (f_equal (λ w, (Search.problem w).2) Hw)|].
    split; [done|]. split; [done|]. unfold id. by rewrite Hf.
  - right. split; [done|]. split.
    { etrans; [exact (f_equal snd Ho)
              |exact (logged_getSuccessors _ _ _ _ Hs)]. }
    split; [done|]. split; [done|]. eexists. unfold id. by rewrite Hf.
Qed.

Lemma bfs_step_generates st st' :
  Search.bfs_step logged st = Continue st' → round_generates id st st'.
Proof.
  intros (n & rest & Hf & Hv)%bfs_step_Continue.
  eapply visit_generates; [|done]. by rewrite Hf.
Qed.

Lemma dfs_step_generates st st' :
  Search.dfs_step logged st = Continue st' → round_generates id st st'.
Proof.
  intros (n & rest & Hf & Hv)%dfs_step_Continue.
  eapply visit_generates; [|done]. rewrite Hf. symmetry.
  apply Permutation_cons_append.
Qed.

Lemma dls_step_generates maxDepth st st' :
  Search.dls_step logged maxDepth st = Continue st' →
  round_generates (fmap fst) st st'.
Proof.
  intros (n & d & rest & Hf & _ & Hcase)%dls_step_Continue.
  exists n, (rest.*1). split.
  { refine (eq_ind_r (λ l, fst <$> l ≡ₚ n :: rest.*1) _ Hf).
    rewrite fmap_app. simpl. symmetry. apply Permutation_cons_append. }
  destruct Hcase as [[_ (Hw & Hf' & Hv & Hn)]
                    |(Hk & _ & succs & o & Hs & Ho & Hf' & Hv & Hn & _)].
  - left. split; [exact (f_equal (λ w, (Search.problem w).2) Hw)|].
    split; [done|]. split; [done|].
    by refine (eq_ind_r (λ l, fst <$> l ≡ₚ rest.*1) _ Hf').
  - right. split; [done|]. split.
    { etrans; [exact (f_equal snd Ho)
              |exact (logged_getSuccessors _ _ _ _ Hs)]. }
    split; [done|]. split; [done|]. eexists.
    refine (eq_ind_r (λ l, fst <$> l ≡ₚ rest.*1 ++ _) _ Hf').
    by rewrite fmap_app.
Qed.

Lemma astar_step_generates heuristic st st' :
  Search.astar_step logged heuristic st = Continue st' →
  round_generates (fmap snd) st st'.
Proof.
  intros (n & score & rest & Hpop & _ & Hcase)%astar_step_Continue.
  exists n, (rest.*2). split.
  { unfold PriorityQueue.pop in Hpop.
    destruct (Heapq.heappop _) as [[[pr it] q]|] eqn:Hp; [|done].
    simpl in Hpop. injection Hpop as <- <- <-.
    apply heappop_Permutation in Hp. by rewrite Hp. }
  destruct Hcase as [[_ (Hw & Hf' & Hv & Hn)]
                    |(Hk & succs & o & inF & inF' & Hs & Hfold & Ho & Hv & Hn & _)].
  - left. split; [exact (f_equal (λ w, (Search.problem w).2) Hw)|].
    split; [done|]. split; [done|]. by rewrite Hf'.
  - right. split; [done|]. split.
    { etrans; [exact (f_equal snd Ho)
              |exact (logged_getSuccessors _ _ _ _ Hs)]. }
    split; [done|]. split; [done|].
    apply astar_push_succ_perm in Hfold as [new Hperm].
    exists (new.*2). by rewrite Hperm, fmap_app.
Qed.

Lemma generated_once_iter {F : Type} (nodes_of : F → list LNode)
  (step : LState F →
          step_result (LState F)
            (Search.Answer Action * Search.World (PObj * list Key)))
  w0 st0 n st :
  (∀ st st', step st = Continue st' → round_generates nodes_of st st') →
  generated_once w0 st0 → iter step n st0 = Some st →
  generated_once w0 st ∧
  ∀ st', step st = Continue st' → round_generates nodes_of st st'.
Proof.
  intros Hstep Hgen Hn. split; [|by apply Hstep].
  revert Hgen Hn. apply (iter_invariant step (generated_once w0)).
  intros s s' Hs Hc. eapply round_generates_once; [done|by apply Hstep].
Qed.

Lemma start_generated w st0 :
  Search.start logged w = Ok st0 → generated_once w st0.
Proof.
  unfold Search.start. destruct (Search.getState logged _); [|done].
  intros [= <-]. exists []. unfold generated. simpl. rewrite app_nil_r.
  split; [done|]. split; [apply NoDup_nil_2|done].
Qed.

Lemma dls_start_generated reset w st0 :
  Search.dls_start logged reset w = Ok st0 → generated_once w st0.
Proof.
  unfold Search.dls_start. destruct (Search.getState logged _); [|done].
  intros [= <-]. exists []. unfold generated. simpl. rewrite app_nil_r.
  split; [done|]. split; [apply NoDup_nil_2|done].
Qed.

Lemma astar_start_generated heuristic w st0 :
  Search.astar_start logged heuristic w = Ok st0 → generated_once w st0.
Proof.
  unfold Search.astar_start. destruct (Search.getState logged _); [|done].
  unfold bind at 1.
  match goal with |- bind ?c _ = _ → _ => destruct c; [|done] end.
  intros [= <-]. exists []. unfold generated. simpl. rewrite app_nil_r.
  split; [done|]. split; [apply NoDup_nil_2|done].
Qed.

End Generated.

(** C6.  In a call of [breadthSearch], [depthSearch], [depthLimitedSearch]
    or [aStarSearch], after any number of rounds:

    - [numExpanded] is the number of keys in [visited], and a round that
      expands anything expands a key that was not in [visited] and adds it;
    - on a problem that records the keys its [getSuccessors] is called
      with, the calls made so far are one for each key of [visited], none
      for any other key and none twice, and [numExpanded] is their number;
      the next round removes one fringe entry and either drops it (no
      call, nothing pushed, [visited] and [numExpanded] as before) or,
      its key not being in [visited], expands it (one call, for that key,
      which goes to [visited] and is counted): the successors of a state
      are generated at most once, and an entry whose key is in [visited]
      is suppressed when it is removed.

    The fringe is not kept free of duplicates: after three rounds of
    [breadthSearch] on the diamond, state 3 occupies both of its entries,
    pushed once from 1 and once from 2. *)
Theorem each_key_expanded_at_most_once :
  (∀ (Key Action PObj : Type) `(Countable Key) `(EqDecision Action)
     `(PyLt Key) `(PyLt Action) (P : Search.Problem Key Action PObj)
     (heuristic : Search.Heuristic Key) (maxDepth : nat) (reset : bool)
     (w : Search.World PObj) (n : nat),
     (∀ st0 st, Search.start P w = Ok st0 →
        iter (Search.bfs_step P) n st0 = Some st →
        expands_once (Search.bfs_step P) st) ∧
     (∀ st0 st, Search.start P w = Ok st0 →
        iter (Search.dfs_step P) n st0 = Some st →
        expands_once (Search.dfs_step P) st) ∧
     (∀ st0 st, Search.dls_start P reset w = Ok st0 →
        iter (Search.dls_step P maxDepth) n st0 = Some st →
        expands_once (Search.dls_step P maxDepth) st) ∧
     (∀ st0 st, Search.astar_start P heuristic w = Ok st0 →
        iter (Search.astar_step P heuristic) n st0 = Some st →
        expands_once (Search.astar_step P heuristic) st)) ∧
  (∀ (Key Action PObj : Type) `(Countable Key) `(EqDecision Action)
     `(PyLt Key) `(PyLt Action) (P : Search.Problem Key Action PObj)
     (heuristic : Search.Heuristic Key) (maxDepth : nat) (reset : bool)
     (w : Search.World (PObj * list Key)) (n : nat),
     (∀ st0 st, Search.start (logged P) w = Ok st0 →
        iter (Search.bfs_step (logged P)) n st0 = Some st →
        generated_once w st ∧
        ∀ st', Search.bfs_step (logged P) st = Continue st' →
               round_generates id st st') ∧
     (∀ st0 st, Search.start (logged P) w = Ok st0 →
        iter (Search.dfs_step (logged P)) n st0 = Some st →
        generated_once w st ∧
        ∀ st', Search.dfs_step (logged P) st = Continue st' →
               round_generates id st st') ∧
     (∀ st0 st, Search.dls_start (logged P) reset w = Ok st0 →
        iter (Search.dls_step (logged P) maxDepth) n st0 = Some st →
        generated_once w st ∧
        ∀ st', Search.dls_step (logged P) maxDepth st = Continue st' →
               round_generates (fmap fst) st st') ∧
     (∀ st0 st, Search.astar_start (logged P) heuristic w = Ok st0 →
        iter (Search.astar_step (logged P) heuristic) n st0 = Some st →
        generated_once w st ∧
        ∀ st', Search.astar_step (logged P) heuristic st = Continue st' →
               round_generates (fmap snd) st st')) ∧
  (∃ st0 st,
     Search.start Diamond.problem Diamond.world = Ok st0 ∧
     iter (Search.bfs_step Diamond.problem) 3 st0 = Some st ∧
     key <$> Search.fringe st = [3%Z; 3%Z]).
Proof.
  split; [|split].
  - intros Key Action PObj ? ? ? ? ? P heuristic maxDepth reset w n.
    split; [|split; [|split]]; intros st0 st Hst0.
    + apply expands_once_iter;
        eauto using bfs_step_expands, start_fresh.
    + apply expands_once_iter;
        eauto using dfs_step_expands, start_fresh.
    + apply expands_once_iter;
        eauto using dls_step_expands, dls_start_fresh.
    + apply expands_once_iter;
        eauto using astar_step_expands, astar_start_fresh.
  - intros Key Action PObj ? ? ? ? ? P heuristic maxDepth reset w n.
    split; [|split; [|split]]; intros st0 st Hst0.
    + apply generated_once_iter;
        eauto using bfs_step_generates, start_generated.
    + apply generated_once_iter;
        eauto using dfs_step_generates, start_generated.
    + apply generated_once_iter;
        eauto using dls_step_generates, dls_start_generated.
    + apply generated_once_iter;
        eauto using astar_step_generates, astar_start_generated.
  - eexists _, _. split; [reflexivity|]. split; [vm_compute; reflexivity|].
    vm_compute. reflexivity.
Qed.

(** ** A start state that is already solved *)

Section SolvedStart.
Context {Key Action PObj : Type} `{Countable Key} `{EqDecision Action}.
Context `{PyLt Key} `{PyLt Action}.
Context (P : Search.Problem Key Action PObj).

(** Four of the entry points return the seed entry at once. *)
Lemma solved_start_returns_at_once heuristic maxDepth w k fuel :
  Search.getState P (Search.problem w) = Ok k →
  Search.isSolved P (Search.problem w) = true →
  let w0 := Search.mkWorld (Search.problem w) (Search.mkMetrics 0 0) in
  Search.breadthSearch P (S fuel) w = Done (([], Fin 0, 0), w0) ∧
  Search.depthSearch P (S fuel) w = Done (([], Fin 0, 0), w0) ∧
  Search.depthLimitedSearch P (S fuel) maxDepth true w
  = Done (([], Fin 0, 0), w0) ∧
  Search.depthLimitedSearch P (S fuel) maxDepth false w
  = Done (([], Fin 0, 0), w) ∧
  Search.aStarSearch P (S fuel) heuristic w = Done (([], Fin 0, 0), w0).
Proof.
  intros Hk Hs w0.
  unfold Search.breadthSearch, Search.depthSearch, Search.depthLimitedSearch,
    Search.aStarSearch, Search.enter, Search.start, Search.dls_start,
    Search.astar_start.
  rewrite Hk, Hs. simpl. destruct w as [o m]. repeat split; reflexivity.
Qed.

End SolvedStart.

(** The solved 2 by 2 puzzle, as the constructor builds it. *)
Definition solved22 : SlidingPuzzle.t :=
  SlidingPuzzle.mk 2 2 [[0; 1]; [2; 3]]%Z 0 (Some (0, 0)%Z) 0.

Lemma init_solved22 : SlidingPuzzle.init 2 2 = Ok solved22.
Proof. reflexivity. Qed.

(** C2, at the failing input: the solved 2 by 2 puzzle.  [breadthSearch],
    [depthSearch], [depthLimitedSearch] and [aStarSearch] return the empty
    path with cost 0 and no expansion.  [iterativeDeepening] takes the
    empty path of every inner search for a failure ([len(path) > 0] is
    false), runs all its rounds and returns the cost [float("inf")]. *)
Theorem iterativeDeepening_solved_start_returns_inf :
  let w := Search.mkWorld solved22 (Search.mkMetrics 0 0) in
  SlidingPuzzle.isSolved solved22 = true ∧
  Search.breadthSearch SlidingPuzzle.problem 1 w = Done (([], Fin 0, 0), w) ∧
  Search.depthSearch SlidingPuzzle.problem 1 w = Done (([], Fin 0, 0), w) ∧
  Search.depthLimitedSearch SlidingPuzzle.problem 1 3 true w
  = Done (([], Fin 0, 0), w) ∧
  Search.aStarSearch SlidingPuzzle.problem 1 Diamond.zero_string w
  = Done (([], Fin 0, 0), w) ∧
  Search.iterativeDeepening SlidingPuzzle.problem 1 3 w
  = Done (([], Inf, 0), w).
Proof. repeat split; vm_compute; reflexivity. Qed.

(** ** The result when no goal entry is removed *)

Section Failure.
Context {Key Action PObj : Type} `{Countable Key} `{EqDecision Action}.
Context `{PyLt Key} `{PyLt Action}.
Context (P : Search.Problem Key Action PObj).

Abbreviation Result := (Search.Answer Action * Search.World PObj)%type.

(** The rounds of [iterativeDeepening] from [depth] to [maxDepth] all ran
    and each inner search returned an empty path; [total] sums their
    expansion counts and [w'] is the world they leave. *)
Inductive rounds_without_path (fuel : nat) (state : Key) (maxDepth : nat)
  : nat → Search.World PObj → nat → Search.World PObj → Prop :=
| rounds_over depth w :
    maxDepth < depth → rounds_without_path fuel state maxDepth depth w 0 w
| rounds_next depth w o c expanded w1 total w2 :
    depth ≤ maxDepth →
    Search.setState P state (Search.problem w) = Ok o →
    Search.depthLimitedSearch P fuel depth false
      (Search.mkWorld o (Search.globals w))
    = Done (([], c, expanded), w1) →
    rounds_without_path fuel state maxDepth (depth + 1) w1 total w2 →
    rounds_without_path fuel state maxDepth depth w (expanded + total) w2.

Lemma enter_emptied {F : Type} (init : result (Search.State Key PObj F))
  (step : Search.State Key PObj F → step_result (Search.State Key PObj F) Result)
  n st0 st r :
  init = Ok st0 → iter step n st0 = Some st → step st = Return r →
  Search.enter init step (S n) = Done r.
Proof. intros -> Hn Hs. simpl. by eapply iter_Return_run. Qed.

Lemma id_loop_without_path fuel state maxDepth depth w total w' k acc :
  rounds_without_path fuel state maxDepth depth w total w' →
  maxDepth + 1 ≤ k + depth →
  Search.id_loop P fuel k state maxDepth depth acc w
  = Done (([], Inf, acc + total), w').
Proof.
  intros Hr. revert k acc.
  induction Hr as [depth w Hlt|depth w o c e w1 total w2 Hle Hset Hdls Hr IH];
    intros k acc Hk.
  - destruct k; simpl; (case_decide; [lia|]); by rewrite Nat.add_0_r.
  - destruct k as [|k]; [lia|]. simpl. case_decide; [|lia].
    rewrite Hset, Hdls. simpl.
    rewrite IH by lia. by rewrite Nat.add_assoc.
Qed.

End Failure.

(** ** iterativeDeepening, round by round *)

Section Deepening.
Context {Key Action PObj : Type} `{Countable Key} `{EqDecision Action}.
Context `{PyLt Key} `{PyLt Action}.
Context (P : Search.Problem Key Action PObj).

(** [iterativeDeepening] in the specification's words: for each limit of
    [depths] in order, set the problem back to the saved state, run a
    depth-limited search that does not reset the counters, add its
    expansion count, and stop at the first non-empty path; fail when the
    limits run out. *)
Fixpoint deepening_rounds (fuel : nat) (state : Key) (depths : list nat)
  (numExpanded : nat) (w : Search.World PObj)
  : outcome (Search.Answer Action * Search.World PObj) :=
  match depths with
  | [] => Done (([], Inf, numExpanded), w)
  | depth :: depths' =>
    match Search.setState P state (Search.problem w) with
    | Raise e => Raised e
    | Ok o =>
      match Search.depthLimitedSearch P fuel depth false
              (Search.mkWorld o (Search.globals w)) with
      | Done ((path, cost, expanded), w') =>
        match path with
        | [] => deepening_rounds fuel state depths' (numExpanded + expanded) w'
        | _ :: _ => Done ((path, cost, numExpanded + expanded), w')
        end
      | Raised e => Raised e
      | OutOfFuel => OutOfFuel
      end
    end
  end.

(** The limits are 1, 2, …, [maxDepth], and the counters are reset once,
    before the first round. *)
Definition iterativeDeepening_spec (fuel maxDepth : nat) (w : Search.World PObj)
  : outcome (Search.Answer Action * Search.World PObj) :=
  match Search.getState P (Search.problem w) with
  | Raise e => Raised e
  | Ok state =>
    deepening_rounds fuel state (seq 1 maxDepth) 0
      (Search.mkWorld (Search.problem w) (Search.mkMetrics 0 0))
  end.

Lemma id_loop_rounds fuel state maxDepth depth k acc w :
  depth + k = maxDepth + 1 →
  Search.id_loop P fuel k state maxDepth depth acc w
  = deepening_rounds fuel state (seq depth k) acc w.
Proof.
  revert depth acc w; induction k as [|k IH]; intros depth acc w Hk; simpl.
  - case_decide; [lia|done].
  - case_decide; [|lia].
    destruct (Search.setState P state _) as [o|]; [|done].
    destruct (Search.depthLimitedSearch _ _ _ _ _) as [[[[path c] e] w']| |];
      [|done..].
    destruct path as [|a path]; simpl.
    + rewrite IH by lia. by rewrite Nat.add_1_r.
    + done.
Qed.

(** A depth-limited search that does not reset the counters adds its
    expansions to [totalStates] and never lowers [maxMemoryUse]. *)
Definition counts_on (w0 : Search.World PObj)
  (st : Search.State Key PObj (list (Search.DNode Key Action))) : Prop :=
  Search.totalStates (Search.globals (Search.world st))
  = Search.totalStates (Search.globals w0) + Search.numExpanded st ∧
  Search.maxMemoryUse (Search.globals w0)
  ≤ Search.maxMemoryUse (Search.globals (Search.world st)).

Lemma dls_step_counts_on maxDepth w0 st st' :
  counts_on w0 st → Search.dls_step P maxDepth st = Continue st' →
  counts_on w0 st'.
Proof.
  intros [Ht Hm] (n & d & rest & _ & _ & Hcase)%dls_step_Continue.
  destruct Hcase as [[_ (Hw & _ & _ & Hn)]
                    |(_ & _ & succs & o & _ & _ & _ & _ & Hn & Ht' & Hm')].
  - unfold counts_on. by rewrite Hw, Hn.
  - unfold counts_on. rewrite Ht', Hn, Ht. split; lia.
Qed.

Lemma depthLimitedSearch_counts_on fuel maxDepth w path c expanded w' :
  Search.depthLimitedSearch P fuel maxDepth false w
  = Done ((path, c, expanded), w') →
  Search.totalStates (Search.globals w')
  = Search.totalStates (Search.globals w) + expanded ∧
  Search.maxMemoryUse (Search.globals w) ≤ Search.maxMemoryUse (Search.globals w').
Proof.
  unfold Search.depthLimitedSearch, Search.enter, Search.dls_start.
  destruct (Search.getState P _) as [k|]; [|done]. simpl.
  intros (n & st & _ & Hn & Hs)%run_Done.
  assert (counts_on w st) as [Ht Hm].
  { revert Hn. apply (iter_invariant _ (counts_on w)).
    - intros ? ?. apply dls_step_counts_on.
    - split; simpl; lia. }
  apply dls_step_Return in Hs as [[_ Hr]|(? & ? & ? & _ & _ & Hr)];
    inversion Hr; subst; done.
Qed.

Lemma deepening_rounds_counts fuel state depths acc w path c n w' :
  Search.totalStates (Search.globals w) = acc →
  deepening_rounds fuel state depths acc w = Done ((path, c, n), w') →
  Search.totalStates (Search.globals w') = n ∧
  Search.maxMemoryUse (Search.globals w) ≤ Search.maxMemoryUse (Search.globals w').
Proof.
  revert acc w; induction depths as [|d depths IH]; intros acc w Hacc; simpl.
  - intros [= <- <- <- <-]. done.
  - destruct (Search.setState P state _) as [o|]; [|done].
    destruct (Search.depthLimitedSearch _ _ _ _ _) as [[[[p1 c1] e1] w1]| |]
      eqn:Hdls; [|done..].
    apply depthLimitedSearch_counts_on in Hdls as [Ht Hm]. simpl in Ht, Hm.
    destruct p1 as [|a p1].
    + intros Hrec. apply IH in Hrec as [Ht' Hm']; [|lia]. split; [done|lia].
    + intros [= <- <- <- <-]. split; [lia|done].
Qed.

End Deepening.

(** C5.  [iterativeDeepening] is the specification's sequence of rounds:
    limits 1, 2, …, [maxDepth] in this order, [setState] with the saved
    state before each, the counts added up, the first non-empty path
    returned and the failure result otherwise.  The counters are reset
    once, at the top: an inner search adds its expansions to [totalStates]
    and never lowers [maxMemoryUse], so that on return [totalStates] is the
    count the call returns. *)
Theorem iterativeDeepening_rounds :
  ∀ (Key Action PObj : Type) `(Countable Key) `(EqDecision Action)
    `(PyLt Key) `(PyLt Action) (P : Search.Problem Key Action PObj)
    (fuel maxDepth : nat) (w : Search.World PObj),
    Search.iterativeDeepening P fuel maxDepth w
    = iterativeDeepening_spec P fuel maxDepth w ∧
    (∀ depth w1 path c expanded w2,
       Search.depthLimitedSearch P fuel depth false w1
       = Done ((path, c, expanded), w2) →
       Search.totalStates (Search.globals w2)
       = Search.totalStates (Search.globals w1) + expanded ∧
       Search.maxMemoryUse (Search.globals w1)
       ≤ Search.maxMemoryUse (Search.globals w2)) ∧
    (∀ path c n w',
       Search.iterativeDeepening P fuel maxDepth w = Done ((path, c, n), w') →
       Search.getTotalStates (Search.globals w') = n ∧
       (path = [] → c = Inf)).
Proof.
  intros Key Action PObj ? ? ? ? ? P fuel maxDepth w.
  assert (Search.iterativeDeepening P fuel maxDepth w
          = iterativeDeepening_spec P fuel maxDepth w) as Heq.
  { unfold Search.iterativeDeepening, iterativeDeepening_spec. simpl.
    destruct (Search.getState P _); [|done]. apply id_loop_rounds. lia. }
  split; [done|]. split.
  - intros depth w1 path c expanded w2.
    apply depthLimitedSearch_counts_on.
  - intros path c n w'. rewrite Heq. unfold iterativeDeepening_spec.
    destruct (Search.getState P _) as [state|]; [|done]. intros Hr. split.
    + by apply deepening_rounds_counts in Hr as [Ht _].
    + intros ->. revert Hr. generalize 0 at 2.
      generalize (Search.mkWorld (Search.problem w) (Search.mkMetrics 0 0)).
      induction (seq 1 maxDepth) as [|d depths IH]; intros w0 acc; simpl.
      * by intros [= <- <- <-].
      * destruct (Search.setState P state _) as [o|]; [|done].
        destruct (Search.depthLimitedSearch _ _ _ _ _)
          as [[[[p1 c1] e1] w1]| |]; [|done..].
        destruct p1; [apply IH|done].
Qed.

(** ** Problems that behave as a graph

    The searches see a problem through [getState], [isSolved], [setState]
    and [getSuccessors].  A [Model] says that behind these calls stands a
    graph: the successors and the goal flag of a state depend on the state
    alone, and the calls do not raise on the states of the graph. *)

Section Model.
Context {Key Action PObj : Type} `{Countable Key} `{EqDecision Action}.
Context `{PyLt Key} `{PyLt Action}.
Context (P : Search.Problem Key Action PObj).

Abbreviation MNode := (Search.Node Key Action).
Abbreviation MSucc := (Search.Succ Key Action).
Abbreviation MState := (Search.State Key PObj).
Abbreviation MResult := (Search.Answer Action * Search.World PObj)%type.

Record Model : Type := {
  (** the states the object can be in *)
  m_inv : PObj → Prop;
  (** the states of the graph *)
  m_states : Key → Prop;
  m_succ : Key → list MSucc;
  m_goal : Key → bool;
  m_getState : ∀ o, m_inv o →
    ∃ k, Search.getState P o = Ok k ∧ m_states k;
  m_isSolved : ∀ o k, m_inv o → Search.getState P o = Ok k →
    Search.isSolved P o = m_goal k;
  m_setState : ∀ o k, m_inv o → m_states k →
    ∃ o', Search.setState P k o = Ok o' ∧ m_inv o' ∧
          Search.getState P o' = Ok k;
  m_getSuccessors : ∀ o k, m_inv o → m_states k →
    ∃ o', Search.getSuccessors P k o = Ok (m_succ k, o') ∧ m_inv o' ∧
          Search.getState P o' = Search.getState P o;
  m_closed : ∀ k s, m_states k → s ∈ m_succ k → m_states s.1.1.1;
  m_flag : ∀ k s, m_states k → s ∈ m_succ k → s.2 = m_goal s.1.1.1;
}.

Context (M : Model).

(** [walk k p c k']: the actions [p] lead from [k] to [k'] at total cost [c]. *)
Inductive walk : Key → list Action → Z → Key → Prop :=
| walk_nil k : walk k [] 0 k
| walk_cons k k1 a c g p c' k' :
    (k1, a, c, g) ∈ m_succ M k → walk k1 p c' k' →
    walk k (a :: p) (c + c') k'.

Lemma walk_snoc k p c k1 k2 a c' g :
  walk k p c k1 → (k2, a, c', g) ∈ m_succ M k1 →
  walk k (p ++ [a]) (c + c') k2.
Proof.
  intros Hw Hs. induction Hw as [k|k k1 b c0 g0 p c1 k' Hb Hw IH]; simpl.
  - replace (0 + c')%Z with (c' + 0)%Z by lia. eapply walk_cons; [done|].
    apply walk_nil.
  - replace (c0 + c1 + c')%Z with (c0 + (c1 + c'))%Z by lia.
    eapply walk_cons; eauto.
Qed.

Lemma walk_states k p c k' : m_states M k → walk k p c k' → m_states M k'.
Proof.
  intros Hk Hw. induction Hw as [|k k1 b c0 g0 p c1 k' Hb Hw IH]; [done|].
  apply IH. by apply (m_closed M _ _ Hk Hb).
Qed.

(** A fringe entry is sound when its path leads from the start state to its
    state at its cost, and its flag is the goal test of its state. *)
Definition sound (start : Key) (n : MNode) : Prop :=
  walk start (path n) (gcost n) (key n) ∧
  flag n = m_goal M (key n) ∧ m_states M (key n).

(** What the rounds keep true of the entries and of [visited]. *)
Definition sound_state (start : Key) (a : list MNode * gset Key) : Prop :=
  (∀ n, n ∈ a.1 → sound start n) ∧
  (∀ k, k ∈ a.2 → m_states M k ∧ m_goal M k = false).

Lemma sound_state_states start nodes visited n :
  sound_state start (nodes, visited) → n ∈ nodes → m_states M (key n).
Proof. intros [Hn _] Hin. by apply Hn. Qed.

(** One round, on the entries and [visited] alone: the entry [n] leaves
    the fringe, and either nothing else happens or [n] is expanded. *)
Definition round (n : MNode) (a a' : list MNode * gset Key) : Prop :=
  ∃ rest, a.1 ≡ₚ n :: rest ∧ flag n = false ∧
    ((a'.1 ≡ₚ rest ∧ a'.2 = a.2) ∨
     ((key n ∉ a.2) ∧ a'.2 = {[key n]} ∪ a.2 ∧
      a'.1 ≡ₚ rest ++ children ({[key n]} ∪ a.2) n (m_succ M (key n)))).

Lemma elem_of_children visited (n n' : MNode) succs :
  n' ∈ children visited n succs ↔
  ∃ s, s ∈ succs ∧ (s.1.1.1 ∉ visited) ∧ n' = child_node n s.
Proof.
  unfold children. rewrite list_elem_of_fmap. split.
  - intros (s & -> & [Hv Hs]%list_elem_of_filter). by exists s.
  - intros (s & Hs & Hv & ->). exists s. split; [done|].
    by apply list_elem_of_filter.
Qed.

Lemma children_sound start visited n n' :
  sound start n → n' ∈ children visited n (m_succ M (key n)) → sound start n'.
Proof.
  intros (Hw & Hf & Hs) (s & Hin & _ & ->)%elem_of_children.
  destruct s as [[[k a] c] g]. unfold sound, child_node, path, gcost, key, flag.
  simpl. split; [|split].
  - by eapply walk_snoc.
  - apply (m_flag M _ _ Hs Hin).
  - apply (m_closed M _ _ Hs Hin).
Qed.

Lemma round_sound start n a a' :
  sound_state start a → round n a a' → sound_state start a'.
Proof.
  destruct a as [nodes visited], a' as [nodes' visited'].
  intros [Hn Hv] (rest & Hperm & Hflag & Hcase). simpl in *.
  assert (sound start n) as Hsn by (apply Hn; rewrite Hperm; left).
  destruct Hcase as [[Hp ->]|(Hk & -> & Hp)].
  - split; [|done]. intros m Hm. apply Hn. rewrite Hperm. right.
    by rewrite <-Hp.
  - split.
    + intros m Hm. rewrite Hp in Hm. apply elem_of_app in Hm as [Hm|Hm].
      * apply Hn. rewrite Hperm. by right.
      * by eapply children_sound.
    + simpl. intros k [->%elem_of_singleton|Hk']%elem_of_union; [|by apply Hv].
      destruct Hsn as (_ & Hf & Hs). split; [done|]. by rewrite <-Hf.
Qed.

(** *** Termination on a finite graph *)

(** [len(fringe)], plus the most that the keys not yet expanded can still
    push: every round lowers it. *)
Definition effort (S : gset Key) (B : nat) (a : list MNode * gset Key) : nat :=
  length a.1 + (B + 1) * size (S ∖ a.2).

Lemma round_effort (S : gset Key) (B : nat) start n a a' :
  (∀ k, m_states M k → k ∈ S) →
  (∀ k, m_states M k → length (m_succ M k) ≤ B) →
  sound_state start a → round n a a' → effort S B a' < effort S B a.
Proof.
  destruct a as [nodes visited], a' as [nodes' visited'].
  intros HS HB [Hn Hv] (rest & Hperm & Hflag & Hcase). unfold effort. simpl in *.
  assert (sound start n) as (_ & _ & Hs) by (apply Hn; rewrite Hperm; left).
  rewrite Hperm. simpl.
  destruct Hcase as [[-> ->]|(Hk & -> & ->)]; [lia|].
  rewrite length_app. unfold children. rewrite length_fmap.
  pose proof (length_filter (λ s : MSucc, s.1.1.1 ∉ {[key n]} ∪ visited)
                (m_succ M (key n))) as Hlen.
  pose proof (HB _ Hs) as HB'.
  assert (size (S ∖ ({[key n]} ∪ visited)) < size (S ∖ visited)) as Hsize.
  { apply subset_size. pose proof (HS _ Hs) as HkS. split.
    - intros x. rewrite !elem_of_difference, elem_of_union. tauto.
    - intros Hsub. specialize (Hsub (key n)).
      rewrite !elem_of_difference, elem_of_union, elem_of_singleton in Hsub.
      tauto. }
  nia.
Qed.

End Model.

(** ** The loops on a problem that behaves as a graph *)

Section Refinement.
Context {Key Action PObj : Type} `{Countable Key} `{EqDecision Action}.
Context `{PyLt Key} `{PyLt Action}.
Context (P : Search.Problem Key Action PObj) (M : Model P).
Context (heuristic : Search.Heuristic Key) (start : Key).

Abbreviation MNode := (Search.Node Key Action).
Abbreviation MState := (Search.State Key PObj).

(** The locals of a loop agree with the graph; [nodes_of] reads the
    entries off the fringe. *)
Definition modelled {F : Type} (nodes_of : F → list MNode) (st : MState F)
  : Prop :=
  m_inv P M (Search.problem (Search.world st)) ∧
  sound_state P M start (nodes_of (Search.fringe st), Search.visited st).

(** The entries of a depth-limited fringe, without their depths. *)
Definition dnodes (l : list (Search.DNode Key Action)) : list MNode := l.*1.

(** The fringe of [aStarSearch] is a heap of entries under their scores. *)
Definition scored (st : MState (list (Z * MNode))) : Prop :=
  is_heap fst (Search.fringe st) ∧
  ∀ e, e ∈ Search.fringe st → e.1 = fscore heuristic e.2.

Lemma visit_round st n rest st' :
  modelled id st → Search.fringe st ≡ₚ n :: rest →
  Search.visit P st n rest = Continue st' →
  modelled id st' ∧
  round P M n (Search.fringe st, Search.visited st)
              (Search.fringe st', Search.visited st').
Proof.
  intros [Hinv Hsound] Hperm Hv. unfold id in Hsound.
  assert (round P M n (Search.fringe st, Search.visited st)
                      (Search.fringe st', Search.visited st') ∧
          m_inv P M (Search.problem (Search.world st'))) as [Hr Hinv'].
  { apply visit_Continue in Hv as [Hflag Hcase].
    destruct Hcase as [[Hk (Hw & Hf & Hvis & _)]
                      |[Hk (succs & o & Hs & Ho & Hf & Hvis & _)]].
    - split; [|by rewrite Hw]. exists rest. split; [done|]. split; [done|].
      left. simpl. by rewrite Hf, Hvis.
    - assert (m_states P M (key n)) as Hkn.
      { eapply sound_state_states; [exact Hsound|]. rewrite Hperm. left. }
      destruct (m_getSuccessors P M _ _ Hinv Hkn) as (o' & Hs' & Hinv' & _).
      pose proof (eq_trans (eq_sym Hs) Hs') as Heq. inversion Heq; subst. split; [|done].
      exists rest. split; [done|]. split; [done|]. right. simpl.
      by rewrite Hf, Hvis. }
  split; [|done]. split; [done|]. by eapply round_sound.
Qed.

Lemma visit_not_Throw st n rest e :
  modelled id st → Search.fringe st ≡ₚ n :: rest →
  Search.visit P st n rest ≠ Throw e.
Proof.
  intros [Hinv Hsound] Hperm. unfold Search.visit. unfold id in Hsound.
  assert (m_states P M (key n)) as Hkn.
  { eapply sound_state_states; [exact Hsound|]. rewrite Hperm. left. }
  destruct n as [[[s0 s1] s2] s3]. unfold key in Hkn. simpl in *.
  destruct s3; [done|]. destruct (decide _); [done|].
  destruct (m_getSuccessors P M _ _ Hinv Hkn) as (o' & -> & _).
  by destruct (fold_left _ _ _) as [[??]?].
Qed.

Lemma bfs_round st st' :
  modelled id st → Search.bfs_step P st = Continue st' →
  modelled id st' ∧
  ∃ n, round P M n (Search.fringe st, Search.visited st)
                   (Search.fringe st', Search.visited st').
Proof.
  intros Hm (n & rest & Hf & Hv)%bfs_step_Continue.
  destruct (visit_round st n rest st') as [Hm' Hr]; [done|by rewrite Hf|done|].
  split; [done|]. by exists n.
Qed.

Lemma dfs_round st st' :
  modelled id st → Search.dfs_step P st = Continue st' →
  modelled id st' ∧
  ∃ n, round P M n (Search.fringe st, Search.visited st)
                   (Search.fringe st', Search.visited st').
Proof.
  intros Hm (n & rest & Hf & Hv)%dfs_step_Continue.
  destruct (visit_round st n rest st') as [Hm' Hr]; [done| |done|].
  { by rewrite Hf, <-Permutation_cons_append. }
  split; [done|]. by exists n.
Qed.

Lemma bfs_not_Throw st e :
  modelled id st → Search.bfs_step P st ≠ Throw e.
Proof.
  intros Hm. unfold Search.bfs_step.
  destruct (Search.fringe st) as [|n rest] eqn:Hf; [done|].
  apply visit_not_Throw; [done|by rewrite Hf].
Qed.

Lemma dfs_not_Throw st e :
  modelled id st → Search.dfs_step P st ≠ Throw e.
Proof.
  intros Hm. unfold Search.dfs_step.
  destruct (Search.fringe st) as [|a l] eqn:Hf; [done|].
  destruct (list_pop_cons a l) as (n & rest & -> & Heq).
  apply visit_not_Throw; [done|].
  by rewrite Hf, Heq, <-Permutation_cons_append.
Qed.

Lemma dls_round maxDepth (st st' : MState (list (Search.DNode Key Action))) :
  modelled dnodes st → Search.dls_step P maxDepth st = Continue st' →
  modelled dnodes st' ∧
  ∃ n, round P M n (fst <$> Search.fringe st, Search.visited st)
                   (fst <$> Search.fringe st', Search.visited st').
Proof.
  intros [Hinv Hsound] (n & d & rest & Hf & Hflag & Hcase)%dls_step_Continue.
  unfold modelled, dnodes in *.
  assert (fst <$> Search.fringe st ≡ₚ n :: (fst <$> rest)) as Hperm.
  { rewrite Hf, fmap_app. simpl. by rewrite <-Permutation_cons_append. }
  assert (round P M n (fst <$> Search.fringe st, Search.visited st)
                      (fst <$> Search.fringe st', Search.visited st') ∧
          m_inv P M (Search.problem (Search.world st'))) as [Hr Hinv'].
  { destruct Hcase as [[_ (Hw & Hf' & Hvis & _)]
                      |(Hk & _ & succs & o & Hs & Ho & Hf' & Hvis & _)].
    - split; [|by rewrite Hw]. exists (fst <$> rest).
      split; [done|]. split; [done|]. left. simpl. by rewrite Hf', Hvis.
    - assert (m_states P M (key n)) as Hkn.
      { eapply sound_state_states; [exact Hsound|]. rewrite Hperm. left. }
      destruct (m_getSuccessors P M _ _ Hinv Hkn) as (o' & Hs' & Hinv' & _).
      pose proof (eq_trans (eq_sym Hs) Hs') as Heq. inversion Heq; subst. split; [|done].
      exists (fst <$> rest). split; [done|]. split; [done|]. right. simpl.
      rewrite Hf', Hvis, fmap_app, <-list_fmap_compose.
      split; [done|]. split; [done|]. by rewrite list_fmap_id. }
  split; [|by exists n]. split; [done|]. by eapply round_sound.
Qed.

Lemma dls_not_Throw maxDepth (st : MState (list (Search.DNode Key Action))) e :
  modelled dnodes st → Search.dls_step P maxDepth st ≠ Throw e.
Proof.
  intros [Hinv Hsound]. unfold Search.dls_step. unfold dnodes in Hsound.
  destruct (Search.fringe st) as [|a l] eqn:Hf; [done|].
  destruct (list_pop_cons a l) as ([n d] & rest & -> & Heq).
  assert (m_states P M (key n)) as Hkn.
  { eapply sound_state_states; [exact Hsound|].
    rewrite Heq, fmap_app. apply elem_of_app. right. left. }
  destruct n as [[[s0 s1] s2] s3]. unfold key in Hkn. simpl in *.
  destruct s3; [done|]. destruct (decide _); [|done].
  destruct (m_getSuccessors P M _ _ Hinv Hkn) as (o' & -> & _).
  by destruct (fold_left _ _ _) as [[??]?].
Qed.

(** What [pop] tells about a scored fringe. *)
Lemma scored_pop (st : MState (list (Z * MNode))) n score rest :
  scored st →
  PriorityQueue.pop (Search.fringe st) = Ok ((n, score), rest) →
  is_heap fst rest ∧ Search.fringe st ≡ₚ (score, n) :: rest ∧
  score = fscore heuristic n ∧
  ∀ m, m ∈ (Search.fringe st).*2 →
       (fscore heuristic n ≤ fscore heuristic m)%Z.
Proof.
  intros [Hheap Hscore] Hpop.
  destruct (pop_spec _ _ _ _ Hheap Hpop) as (Hrest & Hperm & Hmin).
  assert (score = fscore heuristic n) as ->.
  { apply (Hscore (score, n)). rewrite Hperm. left. }
  repeat split; try done.
  intros m ([p m'] & -> & Hm)%list_elem_of_fmap. simpl.
  pose proof (Hscore _ Hm) as Hp. pose proof (Hmin _ Hm) as Hle.
  simpl in Hp, Hle. by rewrite <-Hp.
Qed.

Lemma astar_round (st st' : MState (list (Z * MNode))) :
  modelled (fmap snd) st → scored st →
  Search.astar_step P heuristic st = Continue st' →
  (modelled (fmap snd) st' ∧ scored st') ∧
  ∃ n, round P M n ((Search.fringe st).*2, Search.visited st)
                   ((Search.fringe st').*2, Search.visited st') ∧
       ∀ m, m ∈ (Search.fringe st).*2 →
            (fscore heuristic n ≤ fscore heuristic m)%Z.
Proof.
  intros [Hinv Hsound] Hsc
    (n & score & rest & Hpop & Hflag & Hcase)%astar_step_Continue.
  destruct (scored_pop _ _ _ _ Hsc Hpop) as (Hrest & Hperm & -> & Hmin).
  assert ((Search.fringe st).*2 ≡ₚ n :: rest.*2) as Hperm2.
  { by rewrite Hperm. }
  assert (∀ e, e ∈ rest → e.1 = fscore heuristic e.2) as Hscr.
  { intros e He. apply Hsc. rewrite Hperm. by right. }
  assert ((round P M n ((Search.fringe st).*2, Search.visited st)
                       ((Search.fringe st').*2, Search.visited st') ∧
           m_inv P M (Search.problem (Search.world st'))) ∧ scored st')
    as [[Hr Hinv'] Hsc'].
  { destruct Hcase as [[_ (Hw & Hf' & Hvis & _)]
                |(Hk & succs & o & inF & inF' & Hs & Hfold & Ho & Hvis & _)].
    - split; [split; [|by rewrite Hw]|].
      + exists (rest.*2). split; [done|]. split; [done|]. left. simpl.
        by rewrite Hf', Hvis.
      + unfold scored. by rewrite Hf'.
    - assert (m_states P M (key n)) as Hkn.
      { eapply sound_state_states; [exact Hsound|]. rewrite Hperm2. left. }
      destruct (m_getSuccessors P M _ _ Hinv Hkn) as (o' & Hs' & Hinv' & _).
      pose proof (eq_trans (eq_sym Hs) Hs') as Heq. inversion Heq; subst.
      destruct (astar_push_succ_fold _ _ _ _ _ _ _ _ Hfold Hrest)
        as [Hheap' Hperm'].
      split; [split; [|done]|].
      + exists (rest.*2). split; [done|]. split; [done|]. right. simpl.
        split; [done|]. split; [done|].
        rewrite Hperm', fmap_app, <-list_fmap_compose.
        by rewrite list_fmap_id.
      + split; [done|]. intros e He. rewrite Hperm' in He.
        apply elem_of_app in He as [He|(m & -> & _)%list_elem_of_fmap];
          [by apply Hscr|done]. }
  split; [|by exists n]. split; [|done]. split; [done|]. by eapply round_sound.
Qed.

(** *** The state each loop starts from *)

Lemma start_modelled w st0 :
  m_inv P M (Search.problem w) →
  Search.getState P (Search.problem w) = Ok start →
  Search.start P w = Ok st0 → modelled id st0.
Proof.
  intros Hinv Hk. unfold Search.start. rewrite Hk. simpl. intros [= <-].
  split; [done|]. split; simpl; [|set_solver].
  intros n ->%list_elem_of_singleton.
  destruct (m_getState P M _ Hinv) as (k & Hk' & Hs). rewrite Hk in Hk'.
  inversion Hk'; subst. split; [apply walk_nil|]. split; [|done].
  by apply m_isSolved.
Qed.

Lemma dls_start_modelled reset w st0 :
  m_inv P M (Search.problem w) →
  Search.getState P (Search.problem w) = Ok start →
  Search.dls_start P reset w = Ok st0 → modelled dnodes st0.
Proof.
  intros Hinv Hk. unfold Search.dls_start. rewrite Hk. simpl. intros [= <-].
  split; [done|]. split; simpl; [|set_solver].
  intros n ->%list_elem_of_singleton.
  destruct (m_getState P M _ Hinv) as (k & Hk' & Hs). rewrite Hk in Hk'.
  inversion Hk'; subst. split; [apply walk_nil|]. split; [|done].
  by apply m_isSolved.
Qed.

Lemma astar_start_modelled w st0 :
  m_inv P M (Search.problem w) →
  Search.getState P (Search.problem w) = Ok start →
  Search.astar_start P heuristic w = Ok st0 →
  modelled (fmap snd) st0 ∧ scored st0.
Proof.
  intros Hinv Hk. unfold Search.astar_start. rewrite Hk. simpl.
  intros [= <-]. split; [split; [done|]; split; simpl; [|set_solver]|].
  - intros n ->%list_elem_of_singleton.
    destruct (m_getState P M _ Hinv) as (k & Hk' & Hs). rewrite Hk in Hk'.
    inversion Hk'; subst. split; [apply walk_nil|]. split; [|done].
    by apply m_isSolved.
  - split; simpl.
    + intros i j Hc x y Hx Hy. apply child_lt in Hc.
      destruct j as [|j]; [lia|done].
    + intros e ->%list_elem_of_singleton. unfold fscore, gcost, key. simpl. lia.
Qed.

End Refinement.

(** ** Values that Python can order

    Where [<] never raises, neither do the heap operations (on a queue
    that is not empty), nor the searches. *)

(** [<] answers on every pair of values of the type. *)
Definition orderable (A : Type) `{PyLt A} : Prop :=
  ∀ a b : A, ∃ v, py_lt a b = Ok v.

Lemma orderable_Z : orderable Z.
Proof. intros a b. by eexists. Qed.

Lemma orderable_bool : orderable bool.
Proof. intros a b. by eexists. Qed.

Lemma orderable_string : orderable string.
Proof. intros a b. by eexists. Qed.

Lemma orderable_pair {A B : Type} `{EqDecision A, EqDecision B}
  `{PyLt A, PyLt B} : orderable A → orderable B → orderable (A * B).
Proof.
  intros HA HB [a1 b1] [a2 b2]. unfold py_lt, pair_py_lt. simpl.
  destruct (decide (a1 = a2)); [|apply HA].
  destruct (decide (b1 = b2)); [by eexists|apply HB].
Qed.

Lemma orderable_list {A : Type} `{EqDecision A} `{PyLt A} :
  orderable A → orderable (list A).
Proof.
  intros HA l1. unfold py_lt, list_py_lt.
  induction l1 as [|a l1 IH]; intros [|b l2]; simpl; try by eexists.
  destruct (decide (a = b)); [apply IH|apply HA].
Qed.

Section HeapTotal.
Context {T : Type} `{PyLt T}.
Hypothesis Htotal : orderable T.
Implicit Types heap : list T.

Lemma siftdown_loop_Ok fuel heap newitem startpos pos :
  pos < length heap →
  ∃ r, Heapq.siftdown_loop fuel heap newitem startpos pos = Ok r.
Proof.
  revert heap pos; induction fuel as [|fuel IH]; simpl; intros heap pos Hpos.
  - by eexists.
  - destruct (decide (startpos < pos)); [|by eexists].
    assert ((pos - 1) / 2 < pos) as Hpp
      by (apply child_lt, child_parent; lia).
    destruct (lookup_lt_is_Some_2 heap ((pos - 1) / 2)) as [parent ->]; [lia|].
    destruct (Htotal newitem parent) as [[|] ->]; simpl; [|by eexists].
    apply IH. rewrite length_insert. lia.
Qed.

Lemma siftdown_Ok heap startpos pos :
  pos < length heap → ∃ r, Heapq.siftdown heap startpos pos = Ok r.
Proof.
  intros Hpos. unfold Heapq.siftdown.
  destruct (lookup_lt_is_Some_2 heap pos) as [x ->]; [done|].
  by apply siftdown_loop_Ok.
Qed.

Lemma siftup_loop_Ok fuel heap pos :
  pos < length heap →
  ∃ heap' pos', Heapq.siftup_loop fuel heap pos = Ok (heap', pos') ∧
                length heap' = length heap ∧ pos' < length heap.
Proof.
  revert heap pos; induction fuel as [|fuel IH]; simpl; intros heap pos Hpos.
  - by eexists _, _.
  - destruct (decide (2 * pos + 1 < length heap)) as [Hc|]; [|by eexists _, _].
    assert (∃ cp, (if decide (2 * pos + 1 + 1 < length heap) then
                     match heap !! (2 * pos + 1), heap !! (2 * pos + 1 + 1) with
                     | Some l, Some r =>
                       do b <- py_lt l r;
                       Ok (if b : bool then 2 * pos + 1 else 2 * pos + 1 + 1)
                     | _, _ => Raise IndexError
                     end
                   else Ok (2 * pos + 1)) = Ok cp ∧ cp < length heap)
      as (cp & -> & Hcp).
    { destruct (decide (2 * pos + 1 + 1 < length heap)) as [Hr|];
        [|by eexists].
      destruct (lookup_lt_is_Some_2 heap (2 * pos + 1)) as [lc ->]; [done|].
      destruct (lookup_lt_is_Some_2 heap (2 * pos + 1 + 1)) as [rc ->]; [done|].
      destruct (Htotal lc rc) as [[|] ->]; simpl; by eexists. }
    simpl. destruct (lookup_lt_is_Some_2 heap cp) as [c ->]; [done|].
    destruct (IH (<[pos:=c]> heap) cp) as (heap' & pos' & -> & Hlen & Hpos').
    { by rewrite length_insert. }
    rewrite length_insert in Hlen, Hpos'. by eexists _, _.
Qed.

Lemma siftup_Ok heap pos :
  pos < length heap → ∃ r, Heapq.siftup heap pos = Ok r.
Proof.
  intros Hpos. unfold Heapq.siftup.
  destruct (lookup_lt_is_Some_2 heap pos) as [x ->]; [done|].
  destruct (siftup_loop_Ok (length heap) heap pos Hpos)
    as (heap' & pos' & -> & Hlen & Hpos').
  simpl. apply siftdown_Ok. rewrite length_insert. lia.
Qed.

Lemma heappush_Ok heap item : ∃ r, Heapq.heappush heap item = Ok r.
Proof.
  unfold Heapq.heappush. apply siftdown_Ok. rewrite length_app. simpl. lia.
Qed.

Lemma heappop_Ok heap : heap ≠ [] → ∃ x r, Heapq.heappop heap = Ok (x, r).
Proof.
  intros Hne. unfold Heapq.heappop.
  destruct heap as [|a l]; [done|].
  destruct (list_pop_cons a l) as (lastelt & heap0 & -> & _). simpl.
  destruct heap0 as [|returnitem heap0]; [by eexists _, _|].
  destruct (siftup_Ok (<[0:=lastelt]> (returnitem :: heap0)) 0) as [r ->].
  { simpl. lia. }
  by eexists _, _.
Qed.

End HeapTotal.

(** On items that Python can order, [push] always succeeds and [pop]
    succeeds on every queue that is not empty. *)
Lemma push_pop_Ok {Item : Type} `{EqDecision Item} `{PyLt Item}
  (q : list (Z * Item)) item priority :
  orderable Item →
  (∃ q', PriorityQueue.push q item priority = Ok q') ∧
  (q ≠ [] → ∃ x q', PriorityQueue.pop q = Ok (x, q')).
Proof.
  intros Ho.
  assert (orderable (Z * Item)) as Hp by (apply orderable_pair; [apply orderable_Z|done]).
  split.
  - apply (heappush_Ok Hp).
  - intros Hne. unfold PriorityQueue.pop.
    destruct (heappop_Ok Hp q Hne) as ([p i] & r & ->). by eexists _, _.
Qed.

(** A loop with an invariant, a measure that every round lowers and no
    round that raises returns. *)
Lemma run_returns {St R : Type} (step : St → step_result St R)
  (Inv : St → Prop) (μ : St → nat) :
  (∀ s s', Inv s → step s = Continue s' → Inv s' ∧ μ s' < μ s) →
  (∀ s e, Inv s → step s ≠ Throw e) →
  ∀ fuel s, Inv s → μ s < fuel → ∃ r, run step fuel s = Done r.
Proof.
  intros Hstep Hthrow fuel; induction fuel as [|fuel IH]; intros s Hinv Hlt;
    [lia|].
  simpl. destruct (step s) as [s'|r|e] eqn:Hs.
  - destruct (Hstep _ _ Hinv Hs) as [Hinv' Hμ]. apply IH; [done|lia].
  - by exists r.
  - by destruct (Hthrow _ _ Hinv Hs).
Qed.

(** ** What the searches answer on a graph *)

Section Answers.
Context {Key Action PObj : Type} `{Countable Key} `{EqDecision Action}.
Context `{PyLt Key} `{PyLt Action}.
Context (P : Search.Problem Key Action PObj) (M : Model P).
Context (heuristic : Search.Heuristic Key) (start : Key).

Abbreviation ANode := (Search.Node Key Action).
Abbreviation AState := (Search.State Key PObj).

(** An answer is a failure with the empty path, or a path that leads from
    the start state to a goal state at the cost returned. *)
Definition answer_sound (ans : Search.Answer Action) : Prop :=
  match ans with
  | (p, Fin c, _) => ∃ k, walk P M start p c k ∧ m_goal P M k = true
  | (p, Inf, _) => p = []
  end.

Lemma sound_goal (n : ANode) nodes visited expanded :
  sound_state P M start (nodes, visited) → n ∈ nodes → flag n = true →
  answer_sound (path n, Fin (gcost n), expanded).
Proof.
  intros [Hn _] Hin Hflag. destruct (Hn n Hin) as (Hw & Hf & _).
  exists (key n). split; [done|]. by rewrite <-Hf.
Qed.

Lemma bfs_iter_modelled n st0 st :
  modelled P M start id st0 → iter (Search.bfs_step P) n st0 = Some st →
  modelled P M start id st.
Proof.
  apply (iter_invariant _ (modelled P M start id)).
  intros s s' Hm Hs. by destruct (bfs_round P M start s s' Hm Hs).
Qed.

Lemma dfs_iter_modelled n st0 st :
  modelled P M start id st0 → iter (Search.dfs_step P) n st0 = Some st →
  modelled P M start id st.
Proof.
  apply (iter_invariant _ (modelled P M start id)).
  intros s s' Hm Hs. by destruct (dfs_round P M start s s' Hm Hs).
Qed.

Lemma dls_iter_modelled maxDepth n st0 st :
  modelled P M start (dnodes) st0 →
  iter (Search.dls_step P maxDepth) n st0 = Some st →
  modelled P M start (dnodes) st.
Proof.
  apply (iter_invariant _ (modelled P M start dnodes)).
  intros s s' Hm Hs. by destruct (dls_round P M start maxDepth s s' Hm Hs).
Qed.

Lemma astar_iter_modelled n st0 st :
  modelled P M start (fmap snd) st0 ∧ scored heuristic st0 →
  iter (Search.astar_step P heuristic) n st0 = Some st →
  modelled P M start (fmap snd) st ∧ scored heuristic st.
Proof.
  apply (iter_invariant _
           (λ s, modelled P M start (fmap snd) s ∧ scored heuristic s)).
  intros s s' [Hm Hsc] Hs.
  by destruct (astar_round P M heuristic start s s' Hm Hsc Hs).
Qed.

Lemma visit_answer (st : AState (list ANode)) n rest ans w' :
  modelled P M start id st → Search.fringe st ≡ₚ n :: rest →
  Search.visit P st n rest = Return (ans, w') →
  answer_sound ans ∧ m_inv P M (Search.problem w').
Proof.
  intros [Hinv Hsound] Hperm [Hflag [= -> ->]]%visit_Return.
  split; [|done]. eapply sound_goal; [exact Hsound| |done].
  unfold id. rewrite Hperm. left.
Qed.

Lemma breadthSearch_answer fuel w ans w' :
  m_inv P M (Search.problem w) →
  Search.getState P (Search.problem w) = Ok start →
  Search.breadthSearch P fuel w = Done (ans, w') →
  answer_sound ans ∧ m_inv P M (Search.problem w').
Proof.
  intros Hinv Hk. unfold Search.breadthSearch, Search.enter.
  destruct (Search.start P w) as [st0|] eqn:Hst0; [|done].
  intros (n & st & _ & Hn & Hs)%run_Done.
  pose proof (start_modelled P M start w st0 Hinv Hk Hst0) as Hm0.
  pose proof (bfs_iter_modelled _ _ _ Hm0 Hn) as Hm.
  apply bfs_step_Return in Hs as [[_ [= -> ->]]|(m & rest & Hf & Hv)].
  - split; [done|apply Hm].
  - eapply visit_answer; [done| |done]. by rewrite Hf.
Qed.

Lemma depthSearch_answer fuel w ans w' :
  m_inv P M (Search.problem w) →
  Search.getState P (Search.problem w) = Ok start →
  Search.depthSearch P fuel w = Done (ans, w') →
  answer_sound ans ∧ m_inv P M (Search.problem w').
Proof.
  intros Hinv Hk. unfold Search.depthSearch, Search.enter.
  destruct (Search.start P w) as [st0|] eqn:Hst0; [|done].
  intros (n & st & _ & Hn & Hs)%run_Done.
  pose proof (start_modelled P M start w st0 Hinv Hk Hst0) as Hm0.
  pose proof (dfs_iter_modelled _ _ _ Hm0 Hn) as Hm.
  apply dfs_step_Return in Hs as [[_ [= -> ->]]|(m & rest & Hf & Hv)].
  - split; [done|apply Hm].
  - eapply visit_answer; [done| |done].
    by rewrite Hf, <-Permutation_cons_append.
Qed.

Lemma depthLimitedSearch_answer fuel maxDepth reset w ans w' :
  m_inv P M (Search.problem w) →
  Search.getState P (Search.problem w) = Ok start →
  Search.depthLimitedSearch P fuel maxDepth reset w = Done (ans, w') →
  answer_sound ans ∧ m_inv P M (Search.problem w').
Proof.
  intros Hinv Hk. unfold Search.depthLimitedSearch, Search.enter.
  destruct (Search.dls_start P reset w) as [st0|] eqn:Hst0; [|done].
  intros (n & st & _ & Hn & Hs)%run_Done.
  pose proof (dls_start_modelled P M start reset w st0 Hinv Hk Hst0) as Hm0.
  pose proof (dls_iter_modelled _ _ _ _ Hm0 Hn) as [Hinv' Hsound].
  apply dls_step_Return in Hs as [[_ [= -> ->]]
                                 |(m & d & rest & Hf & Hflag & [= -> ->])].
  - done.
  - split; [|done]. eapply sound_goal; [exact Hsound| |done].
    unfold dnodes. rewrite Hf, fmap_app. apply elem_of_app. right. left.
Qed.

Lemma aStarSearch_answer fuel w ans w' :
  m_inv P M (Search.problem w) →
  Search.getState P (Search.problem w) = Ok start →
  Search.aStarSearch P fuel heuristic w = Done (ans, w') →
  answer_sound ans ∧ m_inv P M (Search.problem w').
Proof.
  intros Hinv Hk. unfold Search.aStarSearch, Search.enter.
  destruct (Search.astar_start P heuristic w) as [st0|] eqn:Hst0; [|done].
  intros (n & st & _ & Hn & Hs)%run_Done.
  pose proof (astar_start_modelled P M heuristic start w st0 Hinv Hk Hst0)
    as Hm0.
  pose proof (astar_iter_modelled _ _ _ Hm0 Hn) as [[Hinv' Hsound] Hsc].
  apply astar_step_Return in Hs
    as [[_ [= -> ->]]|(m & score & rest & Hpop & Hflag & [= -> ->])].
  - done.
  - split; [|done]. eapply sound_goal; [exact Hsound| |done].
    destruct (scored_pop heuristic _ _ _ _ Hsc Hpop) as (_ & Hperm & _).
    rewrite Hperm. left.
Qed.

Lemma id_loop_answer fuel k maxDepth depth acc w ans w' :
  m_inv P M (Search.problem w) → m_states P M start →
  Search.id_loop P fuel k start maxDepth depth acc w = Done (ans, w') →
  answer_sound ans ∧ m_inv P M (Search.problem w').
Proof.
  intros Hinv Hstart. revert depth acc w Hinv.
  induction k as [|k IH]; intros depth acc w Hinv; simpl.
  - case_decide; [done|]. by intros [= <- <-].
  - case_decide; [|by intros [= <- <-]].
    destruct (m_setState P M _ _ Hinv Hstart) as (o & -> & Hinvo & Hk).
    destruct (Search.depthLimitedSearch _ _ _ _ _) as [[[[p c] e] w1]| |]
      eqn:Hdls; [|done..].
    apply depthLimitedSearch_answer in Hdls as [Hans Hinv1]; [|done..].
    case_decide.
    + intros [= <- <-]. done.
    + by apply IH.
Qed.

Lemma iterativeDeepening_answer fuel maxDepth w ans w' :
  m_inv P M (Search.problem w) →
  Search.getState P (Search.problem w) = Ok start →
  Search.iterativeDeepening P fuel maxDepth w = Done (ans, w') →
  answer_sound ans ∧ m_inv P M (Search.problem w').
Proof.
  intros Hinv Hk. unfold Search.iterativeDeepening. simpl. rewrite Hk.
  apply id_loop_answer; [done|].
  destruct (m_getState P M _ Hinv) as (k & Hk' & Hs). congruence.
Qed.

End Answers.

(** ** Termination on a finite graph *)

Section Termination.
Context {Key Action PObj : Type} `{Countable Key} `{EqDecision Action}.
Context `{PyLt Key} `{PyLt Action}.
Context (P : Search.Problem Key Action PObj) (M : Model P).
Context (heuristic : Search.Heuristic Key) (start : Key).
Context (S : gset Key).
Hypothesis Hfinite : ∀ k, m_states P M k → k ∈ S.

Abbreviation TNode := (Search.Node Key Action).
Abbreviation TState := (Search.State Key PObj).

(** The longest successor list of the graph. *)
Definition width : nat :=
  max_list ((λ k, length (m_succ P M k)) <$> elements S).

Lemma width_bound k : m_states P M k → length (m_succ P M k) ≤ width.
Proof.
  intros Hk. apply max_list_elem_of_le, list_elem_of_fmap.
  exists k. split; [done|]. by apply elem_of_elements, Hfinite.
Qed.

(** The rounds a search can take on the graph, and one more. *)
Definition enough : nat := 2 + (width + 1) * size S.

Lemma effort_start (n : TNode) :
  effort S width ([n], ∅) < enough.
Proof.
  unfold effort, enough. simpl.
  assert (size (S ∖ ∅) ≤ size S).
  { apply subseteq_size. intros x. rewrite elem_of_difference. tauto. }
  nia.
Qed.

Lemma breadthSearch_returns fuel w :
  m_inv P M (Search.problem w) →
  Search.getState P (Search.problem w) = Ok start →
  enough ≤ fuel → ∃ r, Search.breadthSearch P fuel w = Done r.
Proof.
  intros Hinv Hk Hfuel. unfold Search.breadthSearch, Search.enter.
  destruct (Search.start P w) as [st0|] eqn:Hst0;
    [|unfold Search.start in Hst0; by rewrite Hk in Hst0].
  pose proof (start_modelled P M start w st0 Hinv Hk Hst0) as Hm0.
  apply (run_returns _ (modelled P M start id)
           (λ st, effort S width (Search.fringe st, Search.visited st)));
    [| |done|].
  - intros s s' Hm Hs.
    destruct (bfs_round P M start s s' Hm Hs) as [Hm' [n Hr]].
    split; [done|]. eapply round_effort; eauto using width_bound. apply Hm.
  - intros s e Hm. by apply (bfs_not_Throw P M start).
  - unfold Search.start in Hst0. rewrite Hk in Hst0. simpl in Hst0.
    inversion Hst0; subst. simpl.
    eapply Nat.lt_le_trans; [apply effort_start|done].
Qed.

Lemma depthSearch_returns fuel w :
  m_inv P M (Search.problem w) →
  Search.getState P (Search.problem w) = Ok start →
  enough ≤ fuel → ∃ r, Search.depthSearch P fuel w = Done r.
Proof.
  intros Hinv Hk Hfuel. unfold Search.depthSearch, Search.enter.
  destruct (Search.start P w) as [st0|] eqn:Hst0;
    [|unfold Search.start in Hst0; by rewrite Hk in Hst0].
  pose proof (start_modelled P M start w st0 Hinv Hk Hst0) as Hm0.
  apply (run_returns _ (modelled P M start id)
           (λ st, effort S width (Search.fringe st, Search.visited st)));
    [| |done|].
  - intros s s' Hm Hs.
    destruct (dfs_round P M start s s' Hm Hs) as [Hm' [n Hr]].
    split; [done|]. eapply round_effort; eauto using width_bound. apply Hm.
  - intros s e Hm. by apply (dfs_not_Throw P M start).
  - unfold Search.start in Hst0. rewrite Hk in Hst0. simpl in Hst0.
    inversion Hst0; subst. simpl.
    eapply Nat.lt_le_trans; [apply effort_start|done].
Qed.

Lemma depthLimitedSearch_returns fuel maxDepth reset w :
  m_inv P M (Search.problem w) →
  Search.getState P (Search.problem w) = Ok start →
  enough ≤ fuel →
  ∃ r, Search.depthLimitedSearch P fuel maxDepth reset w = Done r.
Proof.
  intros Hinv Hk Hfuel. unfold Search.depthLimitedSearch, Search.enter.
  destruct (Search.dls_start P reset w) as [st0|] eqn:Hst0;
    [|unfold Search.dls_start in Hst0; by rewrite Hk in Hst0].
  pose proof (dls_start_modelled P M start reset w st0 Hinv Hk Hst0) as Hm0.
  apply (run_returns _ (modelled P M start dnodes)
           (λ st, effort S width ((Search.fringe st).*1, Search.visited st)));
    [| |done|].
  - intros s s' Hm Hs.
    destruct (dls_round P M start maxDepth s s' Hm Hs) as [Hm' [n Hr]].
    split; [done|]. eapply round_effort; eauto using width_bound. apply Hm.
  - intros s e Hm. by apply (dls_not_Throw P M start).
  - unfold Search.dls_start in Hst0. rewrite Hk in Hst0. simpl in Hst0.
    inversion Hst0; subst. simpl.
    eapply Nat.lt_le_trans; [apply effort_start|done].
Qed.

Lemma aStarSearch_ends fuel w :
  m_inv P M (Search.problem w) →
  Search.getState P (Search.problem w) = Ok start →
  enough ≤ fuel → Search.aStarSearch P fuel heuristic w ≠ OutOfFuel.
Proof.
  intros Hinv Hk Hfuel. unfold Search.aStarSearch, Search.enter.
  destruct (Search.astar_start P heuristic w) as [st0|] eqn:Hst0; [|done].
  pose proof (astar_start_modelled P M heuristic start w st0 Hinv Hk Hst0)
    as Hm0.
  apply (run_terminates _
           (λ s, modelled P M start (fmap snd) s ∧ scored heuristic s)
           (λ st, effort S width ((Search.fringe st).*2, Search.visited st)));
    [|done|].
  - intros s s' [Hm Hsc] Hs.
    destruct (astar_round P M heuristic start s s' Hm Hsc Hs)
      as [Hm' (n & Hr & _)].
    split; [done|]. eapply round_effort; eauto using width_bound. apply Hm.
  - unfold Search.astar_start in Hst0. rewrite Hk in Hst0. simpl in Hst0.
    inversion Hst0; subst. simpl.
    eapply Nat.lt_le_trans; [apply effort_start|done].
Qed.

Lemma astar_push_succ_Ok visited (n : TNode) succs fr inF :
  orderable Key → orderable Action →
  ∃ r, fold_left (Search.astar_push_succ heuristic visited n) succs
         (Ok (fr, inF)) = Ok r.
Proof.
  intros HK HA.
  assert (orderable TNode) as HN.
  { repeat apply orderable_pair; auto using orderable_Z, orderable_bool,
      orderable_list. }
  revert fr inF; induction succs as [|s succs IH]; intros fr inF; simpl.
  - by eexists.
  - destruct n as [[[s0 s1] s2] s3], s as [[[k a] c] g]. simpl.
    destruct (decide (k ∈ visited)); [apply IH|].
    match goal with
    | |- context [PriorityQueue.push ?q ?i ?p] =>
      destruct (proj1 (push_pop_Ok q i p HN)) as [q' ->]
    end.
    simpl. apply IH.
Qed.

Lemma astar_not_Throw (st : TState (list (Z * TNode))) e :
  orderable Key → orderable Action →
  modelled P M start (fmap snd) st →
  Search.astar_step P heuristic st ≠ Throw e.
Proof.
  intros HK HA [Hinv Hsound]. unfold Search.astar_step.
  assert (orderable TNode) as HN.
  { repeat apply orderable_pair; auto using orderable_Z, orderable_bool,
      orderable_list. }
  destruct (PriorityQueue.isEmpty _) eqn:He; [done|].
  assert (Search.fringe st ≠ []) as Hne.
  { intros Hnil. rewrite Hnil in He. done. }
  destruct (proj2 (push_pop_Ok (Search.fringe st) (start, [], 0%Z, true) 0%Z HN)
              Hne) as ([n score] & rest & Hpop).
  rewrite Hpop.
  assert (m_states P M (key n)) as Hkn.
  { eapply sound_state_states; [exact Hsound|].
    unfold PriorityQueue.pop in Hpop.
    destruct (Heapq.heappop _) as [[[p i] r]|] eqn:Hp; [|done].
    simpl in Hpop. inversion Hpop; subst.
    apply heappop_Permutation in Hp. rewrite Hp. left. }
  destruct n as [[[s0 s1] s2] s3]. unfold key in Hkn. simpl in *.
  destruct s3; [done|]. destruct (decide _); [done|].
  destruct (m_getSuccessors P M _ _ Hinv Hkn) as (o' & -> & _).
  edestruct (astar_push_succ_Ok ({[s0]} ∪ Search.visited st)
               (s0, s1, s2, false) (m_succ P M s0) rest) as [[fr' inF'] ->];
    done.
Qed.

Lemma aStarSearch_returns fuel w :
  orderable Key → orderable Action →
  m_inv P M (Search.problem w) →
  Search.getState P (Search.problem w) = Ok start →
  enough ≤ fuel → ∃ r, Search.aStarSearch P fuel heuristic w = Done r.
Proof.
  intros HK HA Hinv Hk Hfuel. unfold Search.aStarSearch, Search.enter.
  destruct (Search.astar_start P heuristic w) as [st0|] eqn:Hst0;
    [|unfold Search.astar_start in Hst0; by rewrite Hk in Hst0].
  pose proof (astar_start_modelled P M heuristic start w st0 Hinv Hk Hst0)
    as Hm0.
  apply (run_returns _
           (λ s, modelled P M start (fmap snd) s ∧ scored heuristic s)
           (λ st, effort S width ((Search.fringe st).*2, Search.visited st)));
    [| |done|].
  - intros s s' [Hm Hsc] Hs.
    destruct (astar_round P M heuristic start s s' Hm Hsc Hs)
      as [Hm' (n & Hr & _)].
    split; [done|]. eapply round_effort; eauto using width_bound. apply Hm.
  - intros s e [Hm _]. by apply astar_not_Throw.
  - unfold Search.astar_start in Hst0. rewrite Hk in Hst0. simpl in Hst0.
    inversion Hst0; subst. simpl.
    eapply Nat.lt_le_trans; [apply effort_start|done].
Qed.

Lemma id_loop_returns fuel k maxDepth depth acc w :
  m_inv P M (Search.problem w) → m_states P M start →
  enough ≤ fuel → maxDepth + 1 ≤ k + depth →
  ∃ r, Search.id_loop P fuel k start maxDepth depth acc w = Done r.
Proof.
  intros Hinv Hstart Hfuel. revert depth acc w Hinv.
  induction k as [|k IH]; intros depth acc w Hinv Hk; simpl.
  - case_decide; [lia|by eexists].
  - case_decide; [|by eexists].
    destruct (m_setState P M _ _ Hinv Hstart) as (o & -> & Hinvo & Hko).
    destruct (depthLimitedSearch_returns fuel depth false
                (Search.mkWorld o (Search.globals w)))
      as [[[[p c] e] w1] Hdls]; [done..|].
    rewrite Hdls.
    apply (depthLimitedSearch_answer P M start) in Hdls as [_ Hinv1];
      [|done..].
    case_decide; [by eexists|]. apply IH; [done|lia].
Qed.

Lemma iterativeDeepening_returns fuel maxDepth w :
  m_inv P M (Search.problem w) →
  Search.getState P (Search.problem w) = Ok start →
  enough ≤ fuel → ∃ r, Search.iterativeDeepening P fuel maxDepth w = Done r.
Proof.
  intros Hinv Hk Hfuel. unfold Search.iterativeDeepening. simpl. rewrite Hk.
  apply id_loop_returns; [done| |done|lia].
  destruct (m_getState P M _ Hinv) as (k & Hk' & Hs). congruence.
Qed.

End Termination.

(** ** Table problems as graphs *)

Section TableModel.
Context (succs : Z → list (Z * Z * Z * bool)) (goal : Z → bool) (S : gset Z).
Hypothesis Hclosed : ∀ k s, k ∈ S → s ∈ succs k → s.1.1.1 ∈ S.
Hypothesis Hflag : ∀ k s, k ∈ S → s ∈ succs k → s.2 = goal s.1.1.1.

Definition table_model : Model (table_problem succs goal).
Proof.
  refine {| m_inv := λ o : Z, o ∈ S; m_states := λ k : Z, k ∈ S;
            m_succ := succs; m_goal := goal |}; simpl.
  - intros o Ho. by exists o.
  - by intros o k _ [= ->].
  - intros o k _ Hk. by exists k.
  - intros o k Ho _. by exists o.
  - exact Hclosed.
  - exact Hflag.
Defined.

End TableModel.

Definition diamond_states : gset Z := list_to_set [0; 1; 2; 3; 4]%Z.

Lemma diamond_closed k s :
  k ∈ diamond_states → s ∈ Diamond.succs k → s.1.1.1 ∈ diamond_states.
Proof.
  unfold diamond_states, Diamond.succs. intros Hk Hs.
  repeat case_decide; subst; set_unfold in Hs; set_unfold;
    destruct_or?; subst; simpl; auto 10.
Qed.

Lemma diamond_flag k s :
  k ∈ diamond_states → s ∈ Diamond.succs k → s.2 = Diamond.goal s.1.1.1.
Proof.
  unfold diamond_states, Diamond.succs. intros Hk Hs.
  repeat case_decide; subst; set_unfold in Hs;
    destruct_or?; subst; done.
Qed.

Definition diamond_model : Model Diamond.problem :=
  table_model Diamond.succs Diamond.goal diamond_states
    diamond_closed diamond_flag.

(** C7.  On a problem that behaves as a graph with finitely many states,
    there is an amount of fuel from which on [breadthSearch],
    [depthSearch], [depthLimitedSearch] and [iterativeDeepening] return a
    result, the latter within the [maxDepth] rounds its loop is given;
    [aStarSearch] ends as well, and returns a result when Python can order
    the state keys and the actions (its heap compares them on ties). *)
Theorem searches_terminate :
  ∀ (Key Action PObj : Type) `(Countable Key) `(EqDecision Action)
    `(PyLt Key) `(PyLt Action) (P : Search.Problem Key Action PObj)
    (M : Model P) (S : gset Key) (heuristic : Search.Heuristic Key)
    (w : Search.World PObj),
    (∀ k, m_states P M k → k ∈ S) →
    m_inv P M (Search.problem w) →
    ∃ fuel, ∀ fuel', fuel ≤ fuel' →
      (∃ r, Search.breadthSearch P fuel' w = Done r) ∧
      (∃ r, Search.depthSearch P fuel' w = Done r) ∧
      (∀ maxDepth reset,
         ∃ r, Search.depthLimitedSearch P fuel' maxDepth reset w = Done r) ∧
      Search.aStarSearch P fuel' heuristic w ≠ OutOfFuel ∧
      (orderable Key → orderable Action →
       ∃ r, Search.aStarSearch P fuel' heuristic w = Done r) ∧
      (∀ maxDepth,
         ∃ r, Search.iterativeDeepening P fuel' maxDepth w = Done r).
Proof.
  intros Key Action PObj ? ? ? ? ? P M S heuristic w Hfinite Hinv.
  destruct (m_getState P M _ Hinv) as (start & Hk & _).
  exists (enough P M S). intros fuel Hfuel.
  split; [by eapply breadthSearch_returns|].
  split; [by eapply depthSearch_returns|].
  split; [intros; by eapply depthLimitedSearch_returns|].
  split; [by eapply aStarSearch_ends|].
  split; [intros; by eapply aStarSearch_returns|].
  intros; by eapply iterativeDeepening_returns.
Qed.

Lemma searches_terminate_witness :
  ∃ fuel, ∀ fuel', fuel ≤ fuel' →
    (∃ r, Search.breadthSearch Diamond.problem fuel' Diamond.world = Done r) ∧
    (∃ r, Search.depthSearch Diamond.problem fuel' Diamond.world = Done r) ∧
    (∀ maxDepth reset,
       ∃ r, Search.depthLimitedSearch Diamond.problem fuel' maxDepth reset
              Diamond.world = Done r) ∧
    Search.aStarSearch Diamond.problem fuel' Diamond.estimate Diamond.world
    ≠ OutOfFuel ∧
    (orderable Z → orderable Z →
     ∃ r, Search.aStarSearch Diamond.problem fuel' Diamond.estimate
            Diamond.world = Done r) ∧
    (∀ maxDepth,
       ∃ r, Search.iterativeDeepening Diamond.problem fuel' maxDepth
              Diamond.world = Done r).
Proof.
  apply (searches_terminate Z Z Z _ _ _ _ Diamond.problem diamond_model
           diamond_states Diamond.estimate Diamond.world).
  - intros k Hk. exact Hk.
  - change (0%Z ∈ diamond_states). apply (bool_decide_unpack _).
    vm_compute. exact I.
Defined.

(** ** The state strings of the puzzle *)

Section StateStrings.
Import SlidingPuzzle.

(** No character of the string is white space. *)
Fixpoint spaceless (s : string) : bool :=
  match s with
  | EmptyString => true
  | String a s' => negb (is_space a) && spaceless s'
  end.

(** No character of the string is a newline. *)
Fixpoint lineless (s : string) : bool :=
  match s with
  | EmptyString => true
  | String a s' => negb (bool_decide (a = nl)) && lineless s'
  end.

Lemma lineless_app s1 s2 :
  lineless (s1 ++ s2) = lineless s1 && lineless s2.
Proof. induction s1 as [|a s1 IH]; simpl; [done|]. by rewrite IH, andb_assoc. Qed.

Lemma spaceless_lineless s : spaceless s = true → lineless s = true.
Proof.
  induction s as [|a s IH]; simpl; [done|].
  intros [Ha Hs]%andb_true_iff. rewrite (IH Hs), andb_true_r.
  apply negb_true_iff, bool_decide_eq_false. intros ->. done.
Qed.

Lemma uint_spaceless d : spaceless (NilEmpty.string_of_uint d) = true.
Proof. induction d; simpl; auto. Qed.

Lemma uint_nonempty d : d ≠ Decimal.Nil → NilEmpty.string_of_uint d ≠ EmptyString.
Proof. by destruct d. Qed.

Lemma N_to_uint_nonnil n : N.to_uint n ≠ Decimal.Nil.
Proof. destruct n; [done|]. apply DecimalPos.Unsigned.to_uint_nonnil. Qed.

Lemma py_str_spaceless z : spaceless (py_str z) = true.
Proof.
  unfold py_str. destruct (z <? 0)%Z; simpl; apply uint_spaceless.
Qed.

Lemma py_str_nonempty z : py_str z ≠ EmptyString.
Proof.
  unfold py_str. destruct (z <? 0)%Z; [done|].
  apply uint_nonempty, N_to_uint_nonnil.
Qed.

Lemma digits_uint n :
  digits (NilEmpty.string_of_uint (N.to_uint n)) = Ok (Z.of_N n).
Proof.
  unfold digits.
  destruct (NilEmpty.string_of_uint (N.to_uint n)) eqn:Hs.
  - by apply uint_nonempty in Hs; [|apply N_to_uint_nonnil].
  - rewrite <-Hs, NilEmpty.usu. by rewrite DecimalN.Unsigned.of_to.
Qed.

Lemma uint_head d :
  match NilEmpty.string_of_uint d with
  | EmptyString => True
  | String a _ => a ≠ "-"%char ∧ a ≠ "+"%char
  end.
Proof. by destruct d. Qed.

(** [int(str(n)) == n]. *)
Lemma py_int_py_str z : py_int (py_str z) = Ok z.
Proof.
  unfold py_str. destruct (Z.ltb_spec z 0).
  - simpl. rewrite digits_uint. simpl. f_equal. lia.
  - pose proof (digits_uint (Z.to_N z)) as Hd.
    pose proof (uint_head (N.to_uint (Z.to_N z))) as Hh.
    destruct (NilEmpty.string_of_uint _) as [|a r]; [done|].
    destruct Hh as [Hm Hp]. unfold py_int.
    rewrite !decide_False by done. rewrite Hd. f_equal. lia.
Qed.

(** *** [split()] on tokens joined by spaces *)

Lemma split_ws_token tok :
  tok ≠ EmptyString → spaceless tok = true → split_ws tok = [tok].
Proof.
  induction tok as [|a t IH]; [done|]. simpl.
  intros _ [Ha Ht]%andb_true_iff. apply negb_true_iff in Ha. rewrite Ha.
  destruct t as [|b t']; [done|].
  pose proof Ht as [Hb _]%andb_true_iff. apply negb_true_iff in Hb.
  rewrite Hb. by rewrite IH.
Qed.

Lemma split_ws_step a b s :
  is_space a = false → is_space b = false →
  split_ws (String a (String b s))
  = match split_ws (String b s) with
    | w :: ws => String a w :: ws
    | [] => [String a EmptyString]
    end.
Proof. intros Ha Hb. simpl. by rewrite Ha, Hb. Qed.

Lemma split_ws_cons tok c rest :
  tok ≠ EmptyString → spaceless tok = true → is_space c = true →
  split_ws (tok ++ String c rest) = tok :: split_ws rest.
Proof.
  induction tok as [|a t IH]; [done|].
  intros _ [Ha Ht]%andb_true_iff Hc. apply negb_true_iff in Ha.
  destruct t as [|b t'].
  - simpl. by rewrite Ha, Hc.
  - pose proof Ht as [Hb _]%andb_true_iff. apply negb_true_iff in Hb.
    change (String a (String b t') ++ String c rest)%string
      with (String a (String b (t' ++ String c rest))).
    rewrite split_ws_step by done.
    change (String b (t' ++ String c rest))
      with (String b t' ++ String c rest)%string.
    by rewrite IH.
Qed.

(** The rest of a row after its first tile: a space before each tile. *)
Fixpoint row_tail (r : list Z) : string :=
  match r with
  | [] => EmptyString
  | y :: r' => String space (py_str y ++ row_tail r')
  end.

Lemma string_app_assoc (s1 s2 s3 : string) :
  ((s1 ++ s2) ++ s3 = s1 ++ (s2 ++ s3))%string.
Proof. induction s1 as [|a s1 IH]; simpl; [done|]. by f_equal. Qed.

Lemma string_app_nil_r (s : string) : (s ++ EmptyString)%string = s.
Proof. induction s as [|a s IH]; simpl; [done|]. by f_equal. Qed.

Lemma row_fold r acc :
  fold_left (λ acc y, acc ++ String space (py_str y))%string r acc
  = (acc ++ row_tail r)%string.
Proof.
  revert acc; induction r as [|y r IH]; intros acc; simpl.
  - by rewrite string_app_nil_r.
  - rewrite IH, string_app_assoc. done.
Qed.

(** A row as [getState] writes it, without the newline. *)
Definition row_body (x : Z) (r : list Z) : string :=
  (py_str x ++ row_tail r)%string.

Lemma row_str_body x r :
  row_str (x :: r) = Ok (row_body x r ++ String nl EmptyString)%string.
Proof. unfold row_str, row_body. by rewrite row_fold. Qed.

Lemma split_ws_row x r : split_ws (row_body x r) = py_str <$> (x :: r).
Proof.
  unfold row_body. revert x; induction r as [|y r IH]; intros x; simpl.
  - rewrite string_app_nil_r.
    apply split_ws_token; auto using py_str_nonempty, py_str_spaceless.
  - rewrite split_ws_cons by auto using py_str_nonempty, py_str_spaceless.
    by rewrite IH.
Qed.

Lemma row_tail_lineless r : lineless (row_tail r) = true.
Proof.
  induction r as [|y r IH]; simpl; [done|].
  rewrite lineless_app, IH, andb_true_r.
  apply spaceless_lineless, py_str_spaceless.
Qed.

Lemma row_body_lineless x r : lineless (row_body x r) = true.
Proof.
  unfold row_body. rewrite lineless_app, row_tail_lineless, andb_true_r.
  apply spaceless_lineless, py_str_spaceless.
Qed.

(** *** [split("\n")] on rows ended by newlines *)

Lemma split_char_line body rest :
  lineless body = true →
  split_char nl (body ++ String nl rest) = body :: split_char nl rest.
Proof.
  induction body as [|a body IH]; simpl.
  - intros _. destruct (decide (nl = nl)); done.
  - intros [Ha Hb]%andb_true_iff.
    apply negb_true_iff, bool_decide_eq_false in Ha.
    destruct (decide (a = nl)); [done|]. by rewrite IH.
Qed.

(** The state string of the rows, each given by its body. *)
Fixpoint lines (bodies : list string) : string :=
  match bodies with
  | [] => EmptyString
  | b :: bs => (b ++ String nl (lines bs))%string
  end.

Lemma split_char_lines bodies :
  Forall (λ b, lineless b = true) bodies →
  removelast (split_char nl (lines bodies)) = bodies.
Proof.
  induction 1 as [|b bs Hb Hbs IH]; simpl; [done|].
  rewrite split_char_line by done.
  destruct (split_char nl (lines bs)) as [|w ws] eqn:Hs.
  - by destruct bs.
  - simpl. by rewrite <-IH.
Qed.

End StateStrings.

(** ** Boards *)

Section Boards.
Import SlidingPuzzle.
Implicit Types b : list (list Z).

(** The tiles that are not at their place, counting places from [place]. *)
Fixpoint misplaced_from (place : Z) (l : list Z) : Z :=
  match l with
  | [] => 0
  | tile :: l' =>
    ((if decide (tile ≠ place) then 1 else 0) + misplaced_from (place + 1) l')%Z
  end.

(** [R] rows of [C] tiles each, [C] at least 1. *)
Definition rect (R C : nat) b : Prop :=
  length b = R ∧ Forall (λ row, length row = C) b ∧ 0 < C.

(** The tiles are 0, …, R*C - 1, each once. *)
Definition permuted (R C : nat) b : Prop :=
  concat b ≡ₚ Z.of_nat <$> seq 0 (R * C).

(** Row [i], column [j]. *)
Definition tile_at b (i j : nat) : option Z :=
  row ← b !! i; row !! j.

Lemma misplaced_from_app place l1 l2 :
  misplaced_from place (l1 ++ l2)
  = (misplaced_from place l1
     + misplaced_from (place + Z.of_nat (length l1)) l2)%Z.
Proof.
  revert place; induction l1 as [|x l1 IH]; intros place.
  - simpl. by rewrite Z.add_0_r.
  - cbn [misplaced_from app length]. rewrite IH.
    replace (place + 1 + Z.of_nat (length l1))%Z
      with (place + Z.of_nat (S (length l1)))%Z by lia. lia.
Qed.

Lemma misplaced_from_insert place l u x y :
  l !! u = Some x →
  misplaced_from place (<[u:=y]> l)
  = (misplaced_from place l
     - (if decide (x ≠ place + Z.of_nat u) then 1 else 0)
     + (if decide (y ≠ place + Z.of_nat u) then 1 else 0))%Z.
Proof.
  revert place u; induction l as [|a l IH]; intros place [|u] Hu; try done.
  - injection Hu as ->. cbn [misplaced_from insert list_insert].
    rewrite Z.add_0_r. lia.
  - cbn [misplaced_from insert list_insert]. rewrite (IH _ _ Hu).
    replace (place + 1 + Z.of_nat u)%Z
      with (place + Z.of_nat (S u))%Z by lia. lia.
Qed.

Lemma rect_cons R C row b :
  rect (S R) C (row :: b) ↔ length row = C ∧ rect R C b.
Proof.
  unfold rect. rewrite Forall_cons. simpl. intuition lia.
Qed.

Lemma rect_length_concat R C b : rect R C b → length (concat b) = R * C.
Proof.
  revert R; induction b as [|row b IH]; intros R.
  - intros (<- & _). simpl. lia.
  - destruct R as [|R]; [by intros [? _]|].
    intros [Hrow Hb]%rect_cons. simpl. rewrite length_app, (IH _ Hb). lia.
Qed.

Lemma rect_lookup R C b i row :
  rect R C b → b !! i = Some row → length row = C ∧ i < R.
Proof.
  intros (Hlen & Hrows & _) Hi. split.
  - by eapply (Forall_lookup_1 _ _ _ _ Hrows).
  - apply lookup_lt_Some in Hi. lia.
Qed.

Lemma tile_at_concat R C b i j x :
  rect R C b → tile_at b i j = Some x →
  concat b !! (i * C + j) = Some x ∧ i < R ∧ j < C.
Proof.
  unfold tile_at. revert R i; induction b as [|row b IH]; intros R i Hr; [done|].
  destruct R as [|R]; [by destruct Hr|].
  apply rect_cons in Hr as [Hrow Hb]. destruct i as [|i]; simpl.
  - intros Hj. pose proof (lookup_lt_Some _ _ _ Hj).
    rewrite lookup_app_l by lia. split; [done|lia].
  - intros Hx. destruct (IH _ _ Hb Hx) as (Hc & Hi & Hj).
    split; [|lia]. rewrite lookup_app_r by lia.
    rewrite <-Hc. f_equal. lia.
Qed.

Lemma concat_tile_at R C b i j x :
  rect R C b → i < R → j < C →
  concat b !! (i * C + j) = Some x → tile_at b i j = Some x.
Proof.
  unfold tile_at. revert R i; induction b as [|row b IH]; intros R i Hr Hi Hj.
  { destruct Hr as [Hl _]. simpl in Hl. lia. }
  destruct R as [|R]; [lia|].
  apply rect_cons in Hr as [Hrow Hb]. destruct i as [|i]; simpl.
  - by rewrite lookup_app_l by lia.
  - rewrite lookup_app_r by lia. intros Hx. apply (IH R i Hb); [lia|done|].
    rewrite <-Hx. f_equal. lia.
Qed.

(** A tile of a board without repetition stands at one position. *)
Lemma tile_at_inj R C b i j i' j' x :
  rect R C b → NoDup (concat b) →
  tile_at b i j = Some x → tile_at b i' j' = Some x → i = i' ∧ j = j'.
Proof.
  intros Hr Hnd H1 H2.
  destruct (tile_at_concat _ _ _ _ _ _ Hr H1) as (H1' & Hi & Hj).
  destruct (tile_at_concat _ _ _ _ _ _ Hr H2) as (H2' & Hi' & Hj').
  pose proof (NoDup_lookup _ _ _ _ Hnd H1' H2') as Heq.
  assert (i = i') by nia. subst. split; [done|lia].
Qed.

(** Writing one tile of the board writes one tile of the flat board. *)
Lemma set2_concat R C b (i j : nat) v :
  rect R C b → i < R → j < C →
  ∃ b', set2 b (Z.of_nat i) (Z.of_nat j) v = Ok b' ∧ rect R C b' ∧
        concat b' = <[i * C + j := v]> (concat b).
Proof.
  unfold set2. rewrite !Nat2Z.id.
  revert R i; induction b as [|row b IH]; intros R i Hr Hi Hj.
  { destruct Hr as [Hl _]. simpl in Hl. lia. }
  destruct R as [|R]; [lia|].
  pose proof Hr as [Hrow Hb]%rect_cons. destruct i as [|i]; simpl.
  - rewrite decide_True by lia. eexists. split; [done|]. split.
    + apply rect_cons. by rewrite length_insert.
    + by rewrite insert_app_l by lia.
  - destruct (IH R i Hb) as (b' & Hset & Hb' & Hc); [lia|done|].
    destruct (b !! i) as [r|] eqn:Hbi; [|done].
    destruct (decide (j < length r)); [|done]. injection Hset as <-.
    eexists. split; [done|]. split.
    + by apply rect_cons.
    + simpl. rewrite Hc.
      replace (S i * C + j) with (length row + (i * C + j)) by lia.
      by rewrite insert_app_r.
Qed.

Lemma get2_tile_at b (i j : nat) :
  get2 b (Z.of_nat i) (Z.of_nat j)
  = match tile_at b i j with Some x => Ok x | None => Raise IndexError end.
Proof.
  unfold get2, tile_at. rewrite !Nat2Z.id.
  destruct (b !! i) as [row|]; simpl; [|done]. by destruct (row !! j).
Qed.

Lemma permuted_NoDup R C b : permuted R C b → NoDup (concat b).
Proof.
  intros Hp. rewrite Hp. apply NoDup_fmap; [apply _|apply NoDup_seq].
Qed.

Lemma permuted_range R C b x :
  permuted R C b → x ∈ concat b ↔ (0 ≤ x < Z.of_nat (R * C))%Z.
Proof.
  intros Hp. rewrite Hp, list_elem_of_fmap. split.
  - intros (n & -> & Hn%elem_of_seq). lia.
  - intros Hx. exists (Z.to_nat x). split; [lia|]. apply elem_of_seq. lia.
Qed.

End Boards.

(** ** setState on a state string *)

Section SetState.
Import SlidingPuzzle.

(** A row as [getState] writes it, without its newline. *)
Definition body (row : list Z) : string :=
  match row with
  | [] => EmptyString
  | x :: r => row_body x r
  end.

(** The state string of a board. *)
Definition state_string (b : list (list Z)) : string := lines (body <$> b).

Lemma rows_str_lines acc rows :
  Forall (λ row : list Z, row ≠ []) rows →
  rows_str acc rows = Ok (acc ++ lines (body <$> rows))%string.
Proof.
  intros Hrows. revert acc.
  induction Hrows as [|row rows Hrow _ IH]; intros acc; simpl.
  - by rewrite string_app_nil_r.
  - destruct row as [|x r]; [done|]. rewrite row_str_body. simpl.
    rewrite IH. f_equal. rewrite !string_app_assoc. done.
Qed.

Lemma rect_nonempty R C b : rect R C b → Forall (λ row : list Z, row ≠ []) b.
Proof.
  intros (_ & Hrows & HC). eapply Forall_impl; [exact Hrows|].
  intros row Hlen ->. simpl in Hlen. lia.
Qed.

Lemma getState_rect R C p :
  rect R C (board p) → getState p = Ok (state_string (board p)).
Proof.
  intros Hr. unfold getState. by rewrite (rows_str_lines _ _ (rect_nonempty _ _ _ Hr)).
Qed.

Lemma body_lineless row : lineless (body row) = true.
Proof. destruct row; [done|apply row_body_lineless]. Qed.

Lemma split_state_string b :
  removelast (split_char nl (state_string b)) = body <$> b.
Proof.
  apply split_char_lines, Forall_fmap, Forall_forall.
  intros row _. apply body_lineless.
Qed.

Lemma split_ws_body row : row ≠ [] → split_ws (body row) = py_str <$> row.
Proof. destruct row as [|x r]; [done|]. intros _. apply split_ws_row. Qed.

(** What the locals of the scan hold after the tiles [pre]. *)
Definition scanned (N : nat) (sc : scan) (pre : list Z) : Prop :=
  length (seen sc) = N ∧
  (∀ n, n < N → seen sc !! n = Some (bool_decide (Z.of_nat n ∈ pre))) ∧
  place sc = Z.of_nat (length pre) ∧
  misplaced sc = misplaced_from 0 pre.

(** [newPos] is where the board [B] has its tile 0, once that was seen. *)
Definition blank_found (B : list (list Z)) (sc : scan) (pre : list Z) : Prop :=
  match newPos sc with
  | Some (i, j) =>
    ∃ i' j', i = Z.of_nat i' ∧ j = Z.of_nat j' ∧ tile_at B i' j' = Some 0%Z
  | None => 0%Z ∉ pre
  end.

Lemma scan_tile_ok p N B (i j : nat) sc newRow tile pre :
  blank p = 0%Z → Z.of_nat N = (numR p * numC p)%Z →
  scanned N sc pre → blank_found B sc pre →
  (0 ≤ tile < Z.of_nat N)%Z → tile ∉ pre → tile_at B i j = Some tile →
  ∃ sc', scan_tile p (Z.of_nat i) (Z.of_nat j) (sc, newRow) (py_str tile)
         = Ok (sc', newRow ++ [tile]) ∧
         scanned N sc' (pre ++ [tile]) ∧ blank_found B sc' (pre ++ [tile]).
Proof.
  intros Hblank HN (Hlen & Hseen & Hplace & Hmis) Hfound Hrange Hfresh Hat.
  unfold scan_tile. rewrite py_int_py_str. simpl.
  destruct (Z.ltb_spec tile 0); [lia|].
  destruct (Z.geb_spec tile (numR p * numC p)); [lia|]. simpl.
  rewrite (Hseen (Z.to_nat tile)) by lia. rewrite Z2Nat.id by lia.
  rewrite bool_decide_eq_false_2 by done.
  eexists. split; [done|]. split.
  - unfold scanned. simpl. split; [by rewrite length_insert|]. split; [|split].
    + intros n Hn. destruct (decide (n = Z.to_nat tile)) as [->|Hne].
      * rewrite list_lookup_insert_eq by lia. f_equal. symmetry.
        apply bool_decide_eq_true. apply elem_of_app. right.
        apply list_elem_of_singleton. lia.
      * rewrite list_lookup_insert_ne by done. rewrite Hseen by done.
        f_equal. apply bool_decide_ext. rewrite elem_of_app.
        rewrite list_elem_of_singleton. split; [auto|].
        intros [?|?]; [done|lia].
    + rewrite length_app. simpl. lia.
    + rewrite misplaced_from_app. simpl. rewrite Hmis, Hplace.
      rewrite Z.add_0_l. repeat case_decide; lia.
  - unfold blank_found in *. simpl. rewrite Hblank.
    destruct (decide (tile = 0%Z)) as [->|Hne].
    + by exists i, j.
    + destruct (newPos sc) as [[i0 j0]|]; [done|].
      rewrite elem_of_app, list_elem_of_singleton. intros [?|?]; done.
Qed.

Lemma scan_row_cons p i j a tok row :
  scan_row p i j a (tok :: row)
  = do a' <- scan_tile p i j a tok; scan_row p i (j + 1)%Z a' row.
Proof. done. Qed.

Lemma scan_rows_cons p i sc newBoard r rows :
  scan_rows p i (sc, newBoard) (r :: rows)
  = match board p !! i with
    | None => Raise IndexError
    | Some old =>
      if decide (length (split_ws r) ≠ length old) then Raise AttributeError
      else
        do (sc', newRow) <- scan_row p (Z.of_nat i) 0%Z (sc, []) (split_ws r);
        scan_rows p (S i) (sc', newBoard ++ [newRow]) rows
    end.
Proof. done. Qed.

Lemma scan_row_ok p N B (i j : nat) sc newRow tiles pre :
  blank p = 0%Z → Z.of_nat N = (numR p * numC p)%Z →
  scanned N sc pre → blank_found B sc pre →
  (∀ t, t ∈ tiles → (0 ≤ t < Z.of_nat N)%Z) → NoDup (pre ++ tiles) →
  (∀ k t, tiles !! k = Some t → tile_at B i (j + k) = Some t) →
  ∃ sc', scan_row p (Z.of_nat i) (Z.of_nat j) (sc, newRow) (py_str <$> tiles)
         = Ok (sc', newRow ++ tiles) ∧
         scanned N sc' (pre ++ tiles) ∧ blank_found B sc' (pre ++ tiles).
Proof.
  intros Hblank HN. revert j sc newRow pre.
  induction tiles as [|t tiles IH]; intros j sc newRow pre Hsc Hfound Hrange Hnd Hat.
  - simpl. exists sc. by rewrite !app_nil_r.
  - rewrite fmap_cons, scan_row_cons.
    destruct (scan_tile_ok p N B i j sc newRow t pre) as (sc1 & -> & Hsc1 & Hf1);
      try done.
    { apply Hrange. left. }
    { apply NoDup_app in Hnd as (_ & Hdis & _). intros Hin.
      apply (Hdis _ Hin). left. }
    { rewrite <-(Nat.add_0_r j). by apply Hat. }
    simpl.
    replace (Z.of_nat j + 1)%Z with (Z.of_nat (S j)) by lia.
    destruct (IH (S j) sc1 (newRow ++ [t]) (pre ++ [t])) as (sc' & -> & Hsc' & Hf');
      try done.
    { intros x Hx. apply Hrange. by right. }
    { by rewrite <-app_assoc. }
    { intros k x Hk. replace (S j + k) with (j + S k) by lia. by apply Hat. }
    exists sc'. by rewrite <-!app_assoc in *.
Qed.

Lemma scan_rows_ok p N C B (i : nat) sc newBoard rows pre :
  blank p = 0%Z → Z.of_nat N = (numR p * numC p)%Z → 0 < C →
  scanned N sc pre → blank_found B sc pre →
  (∀ t, t ∈ concat rows → (0 ≤ t < Z.of_nat N)%Z) →
  NoDup (pre ++ concat rows) →
  (∀ k row, rows !! k = Some row →
     length row = C ∧ B !! (i + k) = Some row ∧
     ∃ old, board p !! (i + k) = Some old ∧ length old = C) →
  ∃ sc', scan_rows p i (sc, newBoard) (body <$> rows)
         = Ok (sc', newBoard ++ rows) ∧
         scanned N sc' (pre ++ concat rows) ∧
         blank_found B sc' (pre ++ concat rows).
Proof.
  intros Hblank HN HC. revert i sc newBoard pre.
  induction rows as [|row rows IH];
    intros i sc newBoard pre Hsc Hfound Hrange Hnd Hrows.
  - simpl. exists sc. by rewrite !app_nil_r.
  - destruct (Hrows 0 row eq_refl) as (Hlen & HB & old & Hold & Holdlen).
    rewrite Nat.add_0_r in HB, Hold. rewrite fmap_cons, scan_rows_cons.
    rewrite split_ws_body by (intros ->; simpl in Hlen; lia).
    rewrite Hold. rewrite length_fmap. rewrite decide_False by lia.
    destruct (scan_row_ok p N B i 0 sc [] row pre) as (sc1 & Hrow & Hsc1 & Hf1);
      try done.
    { intros t Ht. apply Hrange. simpl. apply elem_of_app. by left. }
    { simpl in Hnd. rewrite app_assoc in Hnd. by apply NoDup_app in Hnd as [? _]. }
    { intros k t Hk. unfold tile_at. by rewrite HB. }
    change (Z.of_nat 0) with 0%Z in Hrow. rewrite Hrow.
    cbn [bind app].
    destruct (IH (S i) sc1 (newBoard ++ [row]) (pre ++ row))
      as (sc' & -> & Hsc' & Hf'); try done.
    { intros t Ht. apply Hrange. simpl. apply elem_of_app. by right. }
    { simpl in Hnd. by rewrite <-app_assoc. }
    { intros k r Hk. replace (S i + k) with (i + S k) by lia. by apply Hrows. }
    exists sc'. simpl. by rewrite <-!app_assoc in *.
Qed.

(** [setState] on the state string of a board of the puzzle's size whose
    tiles are 0, …, R*C - 1: it takes the board, finds the blank and
    counts the misplaced tiles. *)
Lemma setState_state_string p R C B :
  0 < R → numR p = Z.of_nat R → numC p = Z.of_nat C → blank p = 0%Z →
  rect R C (board p) → rect R C B → permuted R C B →
  ∃ i j, tile_at B i j = Some 0%Z ∧
    setState (state_string B) p
    = Ok (mk (Z.of_nat R) (Z.of_nat C) B 0
            (Some (Z.of_nat i, Z.of_nat j))
            (misplaced_from 0 (concat B))).
Proof.
  intros HR HnR HnC Hblank Hp HB Hperm. unfold setState.
  rewrite split_state_string, length_fmap.
  pose proof HB as (HlenB & HrowsB & HC).
  rewrite decide_False by lia.
  destruct (scan_rows_ok p (R * C) C B 0
              (mkScan (replicate (Z.to_nat (numR p * numC p)) false) 0 None 0)
              [] B []) as (sc & -> & (_ & _ & _ & Hmis) & Hfound); try done.
  - lia.
  - unfold scanned. simpl. split; [rewrite length_replicate; lia|].
    split; [|done].
    intros n Hn. by rewrite lookup_replicate_2 by lia.
  - apply not_elem_of_nil.
  - intros t Ht. by apply (permuted_range R C B).
  - simpl. by eapply permuted_NoDup.
  - intros k row Hk. simpl. split; [|split; [done|]].
    + by eapply (Forall_lookup_1 _ _ _ _ HrowsB).
    + destruct Hp as (Hlenp & Hrowsp & _).
      destruct (lookup_lt_is_Some_2 (board p) k) as [old Hold].
      { apply lookup_lt_Some in Hk. lia. }
      exists old. split; [done|]. by eapply (Forall_lookup_1 _ _ _ _ Hrowsp).
  - simpl in *. unfold blank_found in Hfound.
    destruct (newPos sc) as [[i j]|] eqn:Hpos.
    + destruct Hfound as (i' & j' & -> & -> & Hat). exists i', j'.
      split; [done|]. rewrite HnR, HnC, Hblank, Hmis. done.
    + destruct Hfound. apply (permuted_range R C B); [done|]. nia.
Qed.

End SetState.

(** ** The puzzle object *)

Section Puzzle.
Import SlidingPuzzle.
Context (R C : nat).

(** What [setState] needs of the object it is called on. *)
Definition shaped (p : t) : Prop :=
  0 < R ∧ numR p = Z.of_nat R ∧ numC p = Z.of_nat C ∧ blank p = 0%Z ∧
  rect R C (board p).

(** The invariant of the object: an R by C board holding 0, …, R*C - 1,
    [pos] the place of the blank and [numMisplaced] the number of tiles
    that are not at their place. *)
Definition wf (p : t) : Prop :=
  shaped p ∧ permuted R C (board p) ∧
  (∃ i j, pos p = Some (Z.of_nat i, Z.of_nat j) ∧
          tile_at (board p) i j = Some 0%Z) ∧
  numMisplaced p = misplaced_from 0 (concat (board p)).

(** The state strings of the puzzle: those [getState] can return. *)
Definition valid_state (s : string) : Prop :=
  ∃ B, rect R C B ∧ permuted R C B ∧ s = state_string B.

Lemma wf_eq p p' : wf p → wf p' → board p = board p' → p = p'.
Proof.
  intros ((_ & HR & HC & Hb & Hr) & Hperm & (i & j & Hpos & Hat) & Hm)
         ((_ & HR' & HC' & Hb' & _) & _ & (i' & j' & Hpos' & Hat') & Hm') Hboard.
  destruct p, p'. simpl in *. subst.
  destruct (tile_at_inj R C _ _ _ _ _ _ Hr (permuted_NoDup _ _ _ Hperm) Hat Hat')
    as [-> ->].
  done.
Qed.

Lemma setState_valid p B :
  shaped p → rect R C B → permuted R C B →
  ∃ p', setState (state_string B) p = Ok p' ∧ wf p' ∧ board p' = B.
Proof.
  intros (HR & HnR & HnC & Hb & Hr) HB Hperm.
  destruct (setState_state_string p R C B) as (i & j & Hat & ->); try done.
  eexists. split; [done|]. split; [|done].
  split; [done|]. split; [done|]. split; [|done]. by exists i, j.
Qed.

(** The result of [setState] on a state string does not depend on the state
    the object was in. *)
Lemma setState_independent p1 p2 s :
  shaped p1 → shaped p2 → valid_state s → setState s p1 = setState s p2.
Proof.
  intros H1 H2 (B & HB & Hperm & ->).
  destruct (setState_valid p1 B H1 HB Hperm) as (q1 & -> & Hq1 & Hb1).
  destruct (setState_valid p2 B H2 HB Hperm) as (q2 & -> & Hq2 & Hb2).
  f_equal. apply wf_eq; congruence.
Qed.

(** [setState(getState())] changes nothing. *)
Lemma setState_getState p :
  wf p →
  getState p = Ok (state_string (board p)) ∧
  setState (state_string (board p)) p = Ok p.
Proof.
  intros Hwf. pose proof Hwf as (Hs & Hperm & _).
  pose proof Hs as (_ & _ & _ & _ & Hr).
  split; [by eapply getState_rect|].
  destruct (setState_valid p (board p) Hs Hr Hperm) as (p' & -> & Hwf' & Hb).
  f_equal. by apply wf_eq.
Qed.

Lemma tile_at_exists b i j :
  rect R C b → i < R → j < C → ∃ x, tile_at b i j = Some x.
Proof.
  intros (Hlen & Hrows & _) Hi Hj. unfold tile_at.
  destruct (lookup_lt_is_Some_2 b i) as [row Hrow]; [lia|].
  rewrite Hrow. simpl. apply lookup_lt_is_Some_2.
  by rewrite (Forall_lookup_1 _ _ _ _ Hrows Hrow).
Qed.

(** The legal moves keep the blank on the board. *)
Lemma legalMoves_spec p i j :
  shaped p → pos p = Some (Z.of_nat i, Z.of_nat j) → i < R → j < C →
  ∃ moves, legalMoves p = Ok moves ∧
    ∀ a, a ∈ moves →
      a ∈ directions ∧
      ∃ i' j', Z.of_nat i' = (Z.of_nat i + a.1)%Z ∧
               Z.of_nat j' = (Z.of_nat j + a.2)%Z ∧
               i' < R ∧ j' < C ∧ i' * C + j' ≠ i * C + j.
Proof.
  intros (HR & HnR & HnC & _) Hpos Hi Hj. unfold legalMoves.
  rewrite Hpos, HnR, HnC.
  eexists. split; [done|]. intros a Ha.
  assert (Hcases :
    (a = (-1, 0)%Z ∧ 0 < i) ∨ (a = (1, 0)%Z ∧ i + 1 < R) ∨
    (a = (0, -1)%Z ∧ 0 < j) ∨ (a = (0, 1)%Z ∧ j + 1 < C)).
  { repeat case_decide; set_unfold in Ha; destruct_or?; subst;
      try done; eauto 10 with lia. }
  unfold directions.
  destruct Hcases as [[-> H]|[[-> H]|[[-> H]|[-> H]]]];
    (split; [set_solver|]); simpl.
  - exists (i - 1), j. repeat split; nia.
  - exists (i + 1), j. repeat split; nia.
  - exists i, (j - 1). repeat split; nia.
  - exists i, (j + 1). repeat split; nia.
Qed.

(** A move inside the board swaps the blank with the tile next to it and
    keeps the invariant; it costs 1. *)
Lemma move_wf p a i j i' j' :
  wf p → pos p = Some (Z.of_nat i, Z.of_nat j) → a ∈ directions →
  Z.of_nat i' = (Z.of_nat i + a.1)%Z → Z.of_nat j' = (Z.of_nat j + a.2)%Z →
  i' < R → j' < C → i' * C + j' ≠ i * C + j →
  ∃ p', move a p = Ok (1%Z, p') ∧ wf p'.
Proof.
  intros ((HR & HnR & HnC & Hb & Hr) & Hperm & (i0 & j0 & Hpos0 & Hat) & Hm)
         Hpos Ha Hi' Hj' HiR HjC Hne.
  rewrite Hpos in Hpos0. injection Hpos0 as Hi0 Hj0.
  apply Nat2Z.inj in Hi0, Hj0. subst i0 j0.
  destruct (tile_at_concat R C _ _ _ _ Hr Hat) as (Hu & Hi & Hj).
  destruct (tile_at_exists _ i' j' Hr HiR HjC) as [tile Htile].
  destruct (tile_at_concat R C _ _ _ _ Hr Htile) as (Hv & _ & _).
  destruct (set2_concat R C (board p) i j tile Hr Hi Hj) as (b1 & Hset1 & Hr1 & Hc1).
  destruct (set2_concat R C b1 i' j' 0 Hr1 HiR HjC) as (b2 & Hset2 & Hr2 & Hc2).
  assert (Hrange :
    (Z.of_nat i' <? 0)%Z || (Z.of_nat i' >=? Z.of_nat R)%Z
    || (Z.of_nat j' <? 0)%Z || (Z.of_nat j' >=? Z.of_nat C)%Z = false).
  { rewrite !orb_false_iff, !Z.geb_leb, !Z.ltb_ge, !Z.leb_gt. lia. }
  unfold move. rewrite decide_True by done. rewrite Hpos. cbv zeta.
  cbn [fst snd]. rewrite <- Hi', <- Hj', HnR, HnC, Hb, Hrange.
  rewrite get2_tile_at, Htile. cbn [bind].
  rewrite decide_False by lia. rewrite Hset1. cbn [bind]. rewrite Hset2.
  cbn [bind]. eexists. split; [reflexivity|].
  split; [done|]. cbn [board pos numMisplaced].
  assert (Hv1 : <[i * C + j := tile]> (concat (board p)) !! (i' * C + j') = Some tile).
  { by rewrite list_lookup_insert_ne. }
  split; [|split].
  - unfold permuted in *. rewrite Hc2, Hc1, <- Hperm.
    apply (Permutation_cons_inv (a := tile)).
    etrans; [by apply insert_Permutation|]. by apply insert_Permutation.
  - exists i', j'. split; [done|]. apply (concat_tile_at R C); try done.
    rewrite Hc2, Hc1. apply list_lookup_insert_eq.
    rewrite length_insert. by eapply lookup_lt_Some.
  - rewrite Hc2, Hc1.
    rewrite (misplaced_from_insert _ _ _ tile) by done.
    rewrite (misplaced_from_insert _ _ _ 0%Z) by done.
    rewrite Hm, Zdiv_0_l, Zmod_0_l, !Nat2Z.inj_add, !Nat2Z.inj_mul.
    repeat case_decide; simplify_eq;
      repeat match goal with
      | H : (?x, ?y) ≠ (0%Z, 0%Z) |- _ =>
        assert (x ≠ 0%Z ∨ y ≠ 0%Z)
          by (destruct (decide (x = 0%Z)) as [E1|]; [|by left];
              destruct (decide (y = 0%Z)) as [E2|]; [|by right];
              by rewrite E1, E2 in H);
        clear H
      end; nia.
Qed.

(** The moves [legalMoves] lists from the state of [q]. *)
Definition legal (q : t) (a : Z * Z) : Prop :=
  ∃ i j i' j', pos q = Some (Z.of_nat i, Z.of_nat j) ∧ a ∈ directions ∧
    Z.of_nat i' = (Z.of_nat i + a.1)%Z ∧ Z.of_nat j' = (Z.of_nat j + a.2)%Z ∧
    i' < R ∧ j' < C ∧ i' * C + j' ≠ i * C + j.

(** The entry [getSuccessors] appends for the move [a] from the state of [q]. *)
Definition successor (q : t) (a : Z * Z) : string * (Z * Z) * Z * bool :=
  match move a q with
  | Ok (c, q') => (state_string (board q'), a, c, isSolved q')
  | Raise _ => (state_string (board q), a, 0%Z, false)
  end.

Lemma legalMoves_legal q :
  wf q → ∃ moves, legalMoves q = Ok moves ∧ ∀ a, a ∈ moves → legal q a.
Proof.
  intros (Hs & _ & (i & j & Hpos & Hat) & _).
  pose proof Hs as (_ & _ & _ & _ & Hr).
  destruct (tile_at_concat R C _ _ _ _ Hr Hat) as (_ & Hi & Hj).
  destruct (legalMoves_spec q i j Hs Hpos Hi Hj) as (moves & Hm & Hall).
  exists moves. split; [done|]. intros a Ha.
  destruct (Hall a Ha) as (Hd & i' & j' & Hrest). by exists i, j, i', j'.
Qed.

Lemma move_legal q a :
  wf q → legal q a → ∃ q', move a q = Ok (1%Z, q') ∧ wf q'.
Proof.
  intros Hwf (i & j & i' & j' & Hpos & Hd & Hi' & Hj' & HiR & HjC & Hne).
  by eapply move_wf.
Qed.

Lemma setState_board q q' :
  wf q → wf q' → setState (state_string (board q)) q' = Ok q.
Proof.
  intros Hwf Hwf'. pose proof Hwf as ((_ & _ & _ & _ & Hr) & Hperm & _).
  destruct (setState_valid q' (board q)) as (q2 & -> & Hwf2 & Hb2);
    [by destruct Hwf'|done|done|].
  f_equal. by apply wf_eq.
Qed.

Lemma wf_getState q : wf q → getState q = Ok (state_string (board q)).
Proof. intros Hwf. by destruct (setState_getState q Hwf). Qed.

Lemma wf_valid q : wf q → valid_state (state_string (board q)).
Proof. intros ((_ & _ & _ & _ & Hr) & Hperm & _). by exists (board q). Qed.

(** The loop of [getSuccessors], started in the state [q] it expands. *)
Lemma successors_loop_spec q moves acc :
  wf q → (∀ a, a ∈ moves → legal q a) →
  successors_loop (state_string (board q)) moves acc q
  = Ok (acc ++ (successor q <$> moves), q).
Proof.
  intros Hwf. revert acc.
  induction moves as [|a moves IH]; intros acc Hall; simpl.
  - by rewrite app_nil_r.
  - destruct (move_legal q a Hwf) as (q' & Hmove & Hwf'); [apply Hall; left|].
    rewrite Hmove. cbn [bind]. rewrite (wf_getState q' Hwf'). cbn [bind].
    rewrite (setState_board q q' Hwf Hwf'). cbn [bind].
    rewrite IH by (intros a' Ha'; apply Hall; by right).
    unfold successor at 2. rewrite Hmove. by rewrite <- app_assoc.
Qed.

(** [getSuccessors] lists the states one legal move away from the given
    state and puts the object back as it was. *)
Lemma getSuccessors_spec p B :
  wf p → rect R C B → permuted R C B →
  ∃ q moves,
    setState (state_string B) p = Ok q ∧ wf q ∧ board q = B ∧
    legalMoves q = Ok moves ∧ (∀ a, a ∈ moves → legal q a) ∧
    getSuccessors (state_string B) p = Ok (successor q <$> moves, p).
Proof.
  intros Hwf HB Hperm.
  destruct (setState_valid p B) as (q & Hset & Hq & Hb);
    [by destruct Hwf|done|done|].
  destruct (legalMoves_legal q Hq) as (moves & Hmoves & Hall).
  exists q, moves. repeat (split; [done|]).
  unfold getSuccessors. rewrite (wf_getState p Hwf). cbn [bind].
  rewrite Hset. cbn [bind]. rewrite Hmoves. cbn [bind].
  rewrite <- Hb at 1. rewrite (successors_loop_spec q moves [] Hq Hall).
  cbn [bind]. by rewrite (setState_board p q Hwf Hq).
Qed.

(** The successors do not depend on the state the object is in. *)
Lemma getSuccessors_independent p1 p2 s succ :
  wf p1 → wf p2 → valid_state s →
  getSuccessors s p1 = Ok (succ, p1) → getSuccessors s p2 = Ok (succ, p2).
Proof.
  intros H1 H2 (B & HB & Hperm & ->) Hs.
  destruct (getSuccessors_spec p1 B H1 HB Hperm)
    as (q1 & m1 & Hset1 & Hq1 & Hb1 & Hm1 & _ & Hg1).
  destruct (getSuccessors_spec p2 B H2 HB Hperm)
    as (q2 & m2 & Hset2 & Hq2 & Hb2 & Hm2 & _ & Hg2).
  assert (q1 = q2) as <- by (apply wf_eq; congruence).
  rewrite Hg2. congruence.
Qed.

End Puzzle.

(** ** The constructor's board *)

Section Constructor.
Import SlidingPuzzle.

Lemma misplaced_from_seq a n :
  misplaced_from (Z.of_nat a) (Z.of_nat <$> seq a n) = 0%Z.
Proof.
  revert a; induction n as [|n IH]; intros a; [done|].
  cbn [seq fmap list_fmap misplaced_from].
  rewrite decide_False by (intros Hne; by apply Hne).
  replace (Z.of_nat a + 1)%Z with (Z.of_nat (S a)) by lia. by rewrite IH.
Qed.

Lemma concat_solved_board R C :
  concat (solved_board R C) = Z.of_nat <$> seq 0 (R * C).
Proof.
  unfold solved_board. induction R as [|R IH]; [done|].
  rewrite seq_S, map_app, concat_app, IH. simpl. rewrite app_nil_r.
  replace (S R * C) with (R * C + C) by lia.
  rewrite seq_app, fmap_app. f_equal. simpl.
  trans (Z.of_nat <$> (Nat.add (R * C) <$> seq 0 C)).
  - by rewrite <- list_fmap_compose.
  - by rewrite fmap_add_seq, Nat.add_0_r.
Qed.

Lemma rect_solved_board R C : 0 < C → rect R C (solved_board R C).
Proof.
  intros HC. unfold rect, solved_board. rewrite length_map, length_seq.
  split; [done|]. split; [|done].
  apply Forall_forall. intros row (i & -> & _)%list_elem_of_fmap.
  by rewrite length_map, length_seq.
Qed.

(** The object [__init__] builds, before it scrambles, satisfies the
    invariant; [setState] on a valid state string and [move] keep it
    ([setState_valid], [move_wf]). *)
Lemma init_wf R C :
  0 < R → 0 < C → ∃ p, init R C = Ok p ∧ wf R C p.
Proof.
  intros HR HC. unfold init. rewrite decide_False by lia.
  eexists. split; [done|].
  pose proof (rect_solved_board R C HC) as Hrect.
  split; [done|]. split; [|split]; simpl.
  - unfold permuted. by rewrite concat_solved_board.
  - exists 0, 0. rewrite Zdiv_0_l, Zmod_0_l. split; [done|].
    apply (concat_tile_at R C); [done..|].
    rewrite concat_solved_board. simpl.
    destruct R as [|R]; [lia|]. destruct C as [|C]; [lia|]. done.
  - by rewrite concat_solved_board, (misplaced_from_seq 0).
Qed.

End Constructor.

(** C10.  On a puzzle of at least one row and one column, [getSuccessors]
    called with a valid state string returns its list and leaves the object
    as it was: [getState], [getPos] and [isSolved] give afterwards what they
    gave before the call. *)
Theorem getSuccessors_leaves_puzzle_unchanged :
  ∀ (R C : nat) (p : SlidingPuzzle.t) (s : string),
    wf R C p → valid_state R C s →
    ∃ succ p' k,
      SlidingPuzzle.getSuccessors s p = Ok (succ, p') ∧
      SlidingPuzzle.getState p = Ok k ∧ SlidingPuzzle.getState p' = Ok k ∧
      SlidingPuzzle.getPos p' = SlidingPuzzle.getPos p ∧
      SlidingPuzzle.isSolved p' = SlidingPuzzle.isSolved p ∧
      p' = p.
Proof.
  intros R C p s Hwf (B & HB & Hperm & ->).
  destruct (getSuccessors_spec R C p B Hwf HB Hperm)
    as (q & moves & _ & _ & _ & _ & _ & Hsucc).
  exists (successor q <$> moves), p, (state_string (SlidingPuzzle.board p)).
  split; [done|]. by rewrite (wf_getState R C p Hwf).
Qed.

(** The 2 by 2 puzzle one move away from the solved one. *)
Definition moved22 : SlidingPuzzle.t :=
  SlidingPuzzle.mk 2 2 [[1; 0]; [2; 3]]%Z 0 (Some (0, 1)%Z) 2.

Lemma wf_moved22 : wf 2 2 moved22.
Proof.
  split; [|split; [|split]].
  - repeat split; try lia. by repeat constructor.
  - apply perm_swap.
  - by exists 0, 1.
  - reflexivity.
Qed.

Lemma valid_solved22 : valid_state 2 2 "0 1
2 3
".
Proof.
  exists [[0; 1]; [2; 3]]%Z. split; [|split; [apply Permutation_refl|reflexivity]].
  repeat split; try lia. by repeat constructor.
Qed.

Lemma getSuccessors_leaves_puzzle_unchanged_witness :
  ∃ succ p' k,
    SlidingPuzzle.getSuccessors "0 1
2 3
" moved22 = Ok (succ, p') ∧
    SlidingPuzzle.getState moved22 = Ok k ∧ SlidingPuzzle.getState p' = Ok k ∧
    SlidingPuzzle.getPos p' = SlidingPuzzle.getPos moved22 ∧
    SlidingPuzzle.isSolved p' = SlidingPuzzle.isSolved moved22 ∧
    p' = moved22.
Proof.
  exact (getSuccessors_leaves_puzzle_unchanged 2 2 moved22 _
           wf_moved22 valid_solved22).
Defined.

(** ** The puzzle as a graph *)

Section PuzzleModel.
Import SlidingPuzzle.
Context (R C : nat) (base : t) (Hbase : wf R C base).

(** What [getSuccessors] returns for a state string, and what [isSolved]
    says in that state; [base] is any object of the puzzle. *)
Definition puzzle_succ (k : string) : list (Search.Succ string (Z * Z)) :=
  match getSuccessors k base with
  | Ok (succ, _) => succ
  | Raise _ => []
  end.

Definition puzzle_goal (k : string) : bool :=
  match setState k base with
  | Ok q => isSolved q
  | Raise _ => false
  end.

Lemma valid_state_wf k :
  valid_state R C k → ∃ q, wf R C q ∧ k = state_string (board q).
Proof.
  intros (B & HB & Hperm & ->).
  destruct (setState_valid R C base B) as (q & _ & Hq & <-);
    [by destruct Hbase|done|done|].
  by exists q.
Qed.

Lemma state_string_wf_inj q1 q2 :
  wf R C q1 → wf R C q2 →
  state_string (board q1) = state_string (board q2) → q1 = q2.
Proof.
  intros H1 H2 Heq.
  pose proof (setState_board R C q1 base H1 Hbase) as E1.
  pose proof (setState_board R C q2 base H2 Hbase) as E2.
  rewrite Heq in E1. congruence.
Qed.

Lemma puzzle_goal_spec q :
  wf R C q → puzzle_goal (state_string (board q)) = isSolved q.
Proof.
  intros Hq. unfold puzzle_goal. by rewrite (setState_board R C q base Hq Hbase).
Qed.

Lemma puzzle_succ_spec q :
  wf R C q →
  ∃ moves, legalMoves q = Ok moves ∧ (∀ a, a ∈ moves → legal R C q a) ∧
    puzzle_succ (state_string (board q)) = successor q <$> moves.
Proof.
  intros Hq. pose proof Hq as ((_ & _ & _ & _ & Hr) & Hperm & _).
  destruct (getSuccessors_spec R C base (board q) Hbase Hr Hperm)
    as (q0 & moves & _ & Hq0 & Hb0 & Hmoves & Hall & Hsucc).
  assert (q0 = q) as -> by (by apply (wf_eq R C)).
  exists moves. repeat (split; [done|]).
  unfold puzzle_succ. by rewrite Hsucc.
Qed.

Lemma puzzle_succ_elem q s :
  wf R C q → s ∈ puzzle_succ (state_string (board q)) →
  ∃ a q', move a q = Ok (1%Z, q') ∧ wf R C q' ∧
    s = (state_string (board q'), a, 1%Z, isSolved q').
Proof.
  intros Hq Hs.
  destruct (puzzle_succ_spec q Hq) as (moves & _ & Hall & Heq).
  rewrite Heq in Hs. apply list_elem_of_fmap in Hs as (a & -> & Ha).
  destruct (move_legal R C q a Hq (Hall a Ha)) as (q' & Hmove & Hq').
  exists a, q'. split; [done|]. split; [done|].
  unfold successor. by rewrite Hmove.
Qed.

Definition puzzle_model : Model SlidingPuzzle.problem.
Proof.
  refine {| m_inv := wf R C; m_states := valid_state R C;
            m_succ := puzzle_succ; m_goal := puzzle_goal |}; simpl.
  - intros o Ho. exists (state_string (board o)).
    split; [by apply (wf_getState R C)|by apply wf_valid].
  - intros o k Ho Hk. rewrite (wf_getState R C o Ho) in Hk.
    injection Hk as <-. by rewrite puzzle_goal_spec.
  - intros o k Ho (B & HB & Hperm & ->).
    destruct (setState_valid R C o B) as (o' & Hset & Ho' & Hb);
      [by destruct Ho|done|done|].
    exists o'. split; [done|]. split; [done|].
    rewrite <- Hb. by apply (wf_getState R C).
  - intros o k Ho Hk. exists o. split; [|done].
    pose proof Hk as (B & HB & Hperm & ->).
    destruct (getSuccessors_spec R C base B Hbase HB Hperm)
      as (q & moves & _ & _ & _ & _ & _ & Hsucc).
    unfold puzzle_succ. rewrite Hsucc.
    by apply (getSuccessors_independent R C base o).
  - intros k s Hk Hs. destruct (valid_state_wf k Hk) as (q & Hq & ->).
    destruct (puzzle_succ_elem q s Hq Hs) as (a & q' & _ & Hq' & ->).
    by apply wf_valid.
  - intros k s Hk Hs. destruct (valid_state_wf k Hk) as (q & Hq & ->).
    destruct (puzzle_succ_elem q s Hq Hs) as (a & q' & _ & Hq' & ->).
    simpl. by rewrite puzzle_goal_spec.
Defined.

(** A walk in the graph of the puzzle is a sequence of moves of the object. *)
Lemma walk_replay k path c k' :
  walk SlidingPuzzle.problem puzzle_model k path c k' →
  ∀ q, wf R C q → k = state_string (board q) →
    ∃ q', replay path q = Ok q' ∧ wf R C q' ∧ k' = state_string (board q').
Proof.
  induction 1 as [k|k k1 a c g p c' k' Hs Hw IH]; intros q Hq ->.
  - by exists q.
  - simpl in Hs.
    destruct (puzzle_succ_elem q _ Hq Hs) as (a' & q1 & Hmove & Hq1 & Heq).
    injection Heq as -> <- -> ->.
    destruct (IH q1 Hq1 eq_refl) as (q' & Hreplay & Hq' & ->).
    exists q'. simpl. rewrite Hmove. by cbn [bind].
Qed.

(** A non-empty path that a sound answer holds replays to a solved puzzle. *)
Lemma answer_replay p path c n :
  wf R C p → path ≠ [] →
  answer_sound SlidingPuzzle.problem puzzle_model
    (state_string (board p)) (path, c, n) →
  ∃ q, replay path p = Ok q ∧ isSolved q = true.
Proof.
  intros Hp Hne Hsound. destruct c as [c|]; simpl in Hsound; [|done].
  destruct Hsound as (k & Hwalk & Hgoal).
  destruct (walk_replay _ _ _ _ Hwalk p Hp eq_refl) as (q & Hreplay & Hq & ->).
  exists q. split; [done|]. by rewrite <- puzzle_goal_spec.
Qed.

End PuzzleModel.

(** C8.  A non-empty action sequence that any of the five entry points
    returns for a sliding puzzle, replayed with [move] from the state the
    puzzle was in when the search was called, ends in a state for which
    [isSolved] is true. *)
Theorem returned_path_replays_to_solved :
  ∀ (R C : nat) (w w' : Search.World SlidingPuzzle.t) (fuel maxDepth : nat)
    (reset : bool) (heuristic : Search.Heuristic string)
    (path : list (Z * Z)) (c : cost) (n : nat),
    wf R C (Search.problem w) → path ≠ [] →
    Search.breadthSearch SlidingPuzzle.problem fuel w = Done ((path, c, n), w') ∨
    Search.depthSearch SlidingPuzzle.problem fuel w = Done ((path, c, n), w') ∨
    Search.depthLimitedSearch SlidingPuzzle.problem fuel maxDepth reset w
    = Done ((path, c, n), w') ∨
    Search.iterativeDeepening SlidingPuzzle.problem fuel maxDepth w
    = Done ((path, c, n), w') ∨
    Search.aStarSearch SlidingPuzzle.problem fuel heuristic w
    = Done ((path, c, n), w') →
    ∃ q, SlidingPuzzle.replay path (Search.problem w) = Ok q ∧
         SlidingPuzzle.isSolved q = true.
Proof.
  intros R C w w' fuel maxDepth reset heuristic path c n Hwf Hne Hret.
  apply (answer_replay R C (Search.problem w) Hwf _ path c n Hwf Hne).
  pose proof (wf_getState R C _ Hwf) as Hstart.
  destruct Hret as [Hret|[Hret|[Hret|[Hret|Hret]]]].
  - by eapply (breadthSearch_answer SlidingPuzzle.problem
                 (puzzle_model R C _ Hwf)).
  - by eapply (depthSearch_answer SlidingPuzzle.problem
                 (puzzle_model R C _ Hwf)).
  - by eapply (depthLimitedSearch_answer SlidingPuzzle.problem
                 (puzzle_model R C _ Hwf)).
  - by eapply (iterativeDeepening_answer SlidingPuzzle.problem
                 (puzzle_model R C _ Hwf)).
  - by eapply (aStarSearch_answer SlidingPuzzle.problem
                 (puzzle_model R C _ Hwf)).
Qed.

Lemma returned_path_replays_to_solved_witness :
  ∃ q, SlidingPuzzle.replay [(0, -1)%Z] moved22 = Ok q ∧
       SlidingPuzzle.isSolved q = true.
Proof.
  apply (returned_path_replays_to_solved 2 2
           (Search.mkWorld moved22 (Search.mkMetrics 0 0))
           (Search.mkWorld moved22 (Search.mkMetrics 2 2))
           10 0 true Diamond.zero_string [(0, -1)%Z] (Fin 1) 2).
  - exact wf_moved22.
  - discriminate.
  - left. vm_compute. reflexivity.
Defined.

(** ** breadthSearch returns a shortest path *)

Section Shortest.
Context {Key Action PObj : Type} `{Countable Key} `{EqDecision Action}.
Context `{PyLt Key} `{PyLt Action}.
Context (P : Search.Problem Key Action PObj) (M : Model P) (start : Key).

Abbreviation BNode := (Search.Node Key Action).
Abbreviation BState := (Search.State Key PObj (list BNode)).

(** The number of actions that lead to a fringe entry. *)
Definition depth (n : BNode) : nat := length (path n).

(** The fringe of [breadthSearch] holds entries of depth [d], then entries
    one deeper. *)
Definition levels (d : nat) (fr : list BNode) : Prop :=
  ∃ A B, fr = A ++ B ∧ (∀ n, n ∈ A → depth n = d) ∧
         (∀ n, n ∈ B → depth n = S d).

(** A successor of an expanded state is expanded or waits in the fringe. *)
Definition covered (fr : list BNode) (visited : gset Key) : Prop :=
  ∀ u s, u ∈ visited → s ∈ m_succ P M u →
    s.1.1.1 ∈ visited ∨ ∃ n, n ∈ fr ∧ key n = s.1.1.1.

(** A walk from the start to a state that is not expanded passes a fringe
    entry, no deeper than the walk is long at that point. *)
Definition frontier (fr : list BNode) (visited : gset Key) : Prop :=
  ∀ p c k, walk P M start p c k → k ∉ visited →
    ∃ n p2 c2, n ∈ fr ∧ walk P M (key n) p2 c2 k ∧
               depth n + length p2 ≤ length p.

Definition bfs_inv (st : BState) : Prop :=
  (∃ d, levels d (Search.fringe st)) ∧
  covered (Search.fringe st) (Search.visited st) ∧
  frontier (Search.fringe st) (Search.visited st).

Lemma levels_pop d n rest : levels d (n :: rest) → levels (depth n) rest.
Proof.
  intros (A & B & Heq & HA & HB). destruct A as [|a A]; simpl in Heq.
  - subst B. exists rest, []. split; [by rewrite app_nil_r|]. split.
    + intros n' Hn'. rewrite (HB n) by left. apply HB. by right.
    + intros n' Hn'. by apply elem_of_nil in Hn'.
  - injection Heq as -> ->. exists A, B. split; [done|]. split.
    + intros n' Hn'. rewrite (HA a) by left. apply HA. by right.
    + intros n' Hn'. rewrite (HA a) by left. by apply HB.
Qed.

Lemma levels_bound d fr n : levels d fr → n ∈ fr → depth n ≤ S d.
Proof.
  intros (A & B & -> & HA & HB) [Hn|Hn]%elem_of_app;
    [rewrite (HA _ Hn)|rewrite (HB _ Hn)]; lia.
Qed.

Lemma levels_head d n rest n' :
  levels d (n :: rest) → n' ∈ n :: rest → depth n ≤ depth n'.
Proof.
  intros Hl [->|Hn']%elem_of_cons; [done|].
  destruct (levels_pop _ _ _ Hl) as (A & B & -> & HA & HB).
  apply elem_of_app in Hn' as [Hn'|Hn'];
    [rewrite (HA _ Hn')|rewrite (HB _ Hn')]; lia.
Qed.

Lemma levels_app d fr more :
  levels d fr → (∀ n, n ∈ more → depth n = S d) → levels d (fr ++ more).
Proof.
  intros (A & B & -> & HA & HB) Hmore. exists A, (B ++ more).
  split; [by rewrite app_assoc|]. split; [done|].
  intros n [Hn|Hn]%elem_of_app; auto.
Qed.

Lemma children_depth visited (n n' : BNode) succs :
  n' ∈ children visited n succs → depth n' = S (depth n).
Proof.
  intros (s & _ & _ & ->)%elem_of_children.
  unfold depth, child_node, path. simpl. rewrite length_app. simpl. lia.
Qed.

(** A walk that leaves the expanded states crosses the fringe. *)
Lemma covered_cross fr visited u p c k :
  covered fr visited → walk P M u p c k → u ∈ visited → k ∉ visited →
  ∃ n q c', n ∈ fr ∧ walk P M (key n) q c' k ∧ S (length q) ≤ length p.
Proof.
  intros Hcov Hw. induction Hw as [k|k k1 a c g p c' k' Hs Hw IH];
    intros Hu Hk; [done|].
  destruct (Hcov k _ Hu Hs) as [Hin|(n & Hn & Hkey)]; simpl in *.
  - destruct (IH Hin Hk) as (n & q & c2 & Hn & Hwq & Hlen).
    exists n, q, c2. split; [done|]. split; [done|]. lia.
  - exists n, p, c'. split; [done|]. rewrite Hkey. split; [done|lia].
Qed.

(** What [visit] does to the fringe and to [visited], on a problem that
    behaves as the graph. *)
Lemma visit_model (st : BState) n rest st' :
  modelled P M start id st → Search.fringe st = n :: rest →
  Search.visit P st n rest = Continue st' →
  key n ∈ Search.visited st' ∧
  ((Search.fringe st' = rest ∧ Search.visited st' = Search.visited st) ∨
   (Search.visited st' = {[key n]} ∪ Search.visited st ∧
    Search.fringe st'
    = rest ++ children (Search.visited st') n (m_succ P M (key n)))).
Proof.
  intros [Hinv Hsound] Hf Hv. unfold id in Hsound.
  apply visit_Continue in Hv as [Hflag Hcase].
  destruct Hcase as [[Hk (Hw & Hf' & Hvis & _)]
                    |[Hk (succs & o & Hs & Ho & Hf' & Hvis & _)]].
  - split; [by rewrite Hvis|]. by left.
  - assert (m_states P M (key n)) as Hkn.
    { eapply sound_state_states; [exact Hsound|]. rewrite Hf. left. }
    destruct (m_getSuccessors P M _ _ Hinv Hkn) as (o' & Hs' & _).
    pose proof (eq_trans (eq_sym Hs) Hs') as Heq. inversion Heq; subst.
    split; [rewrite Hvis; apply elem_of_union; left; by apply elem_of_singleton|].
    right. split; [done|]. by rewrite Hf', Hvis.
Qed.

Lemma bfs_inv_step (st st' : BState) :
  modelled P M start id st → bfs_inv st →
  Search.bfs_step P st = Continue st' → bfs_inv st'.
Proof.
  intros Hm ((d & Hl) & Hc & Hfr) (n & rest & Hf & Hv)%bfs_step_Continue.
  destruct (visit_model st n rest st' Hm Hf Hv) as [Hkn Hcase].
  rewrite Hf in Hl, Hc, Hfr. pose proof (levels_pop _ _ _ Hl) as Hl'.
  assert (Hsub : ∀ k, k ∈ Search.visited st → k ∈ Search.visited st').
  { intros k Hk. destruct Hcase as [(_ & ->)|(-> & _)]; set_solver. }
  assert (Hrest : ∀ m, m ∈ rest → m ∈ Search.fringe st').
  { intros m Hin. destruct Hcase as [(-> & _)|(_ & ->)]; [done|].
    apply elem_of_app. by left. }
  assert (Hlev' : levels (depth n) (Search.fringe st')).
  { destruct Hcase as [(-> & _)|(_ & ->)]; [done|].
    apply levels_app; [done|]. intros m Hin. by eapply children_depth. }
  assert (Hcov' : covered (Search.fringe st') (Search.visited st')).
  { intros u s Hu Hs.
    destruct (decide (s.1.1.1 ∈ Search.visited st')) as [|Hns]; [by left|].
    right.
    assert (u ∈ Search.visited st → ∃ m, m ∈ Search.fringe st' ∧ key m = s.1.1.1)
      as Hold.
    { intros Hu'. destruct (Hc u s Hu' Hs) as [Hin|(m & Hin & Hkey)].
      - destruct Hns. by apply Hsub.
      - apply elem_of_cons in Hin as [->|Hin].
        + destruct Hns. by rewrite <- Hkey.
        + exists m. split; [by apply Hrest|done]. }
    destruct Hcase as [(_ & Hvis)|(Hvis & Hf')].
    - apply Hold. by rewrite <- Hvis.
    - rewrite Hvis in Hu. apply elem_of_union in Hu as [Hu|Hu]; [|by apply Hold].
      apply elem_of_singleton in Hu. subst u.
      exists (child_node n s). split; [|done]. rewrite Hf'.
      apply elem_of_app. right. apply elem_of_children. by exists s. }
  split; [by exists (depth n)|]. split; [done|].
  intros p c k Hw Hk.
  assert (k ∉ Search.visited st) as Hk' by (intros Hin; by apply Hk, Hsub).
  destruct (Hfr p c k Hw Hk') as (m & p2 & c2 & Hin & Hw2 & Hlen).
  apply elem_of_cons in Hin as [->|Hin].
  - destruct (covered_cross _ _ _ _ _ _ Hcov' Hw2 Hkn Hk)
      as (m & q & c' & Hin & Hwq & Hq).
    exists m, q, c'. split; [done|]. split; [done|].
    pose proof (levels_bound _ _ _ Hlev' Hin). lia.
  - exists m, p2, c2. split; [by apply Hrest|done].
Qed.

Lemma start_bfs_inv w st0 :
  Search.getState P (Search.problem w) = Ok start →
  Search.start P w = Ok st0 → bfs_inv st0.
Proof.
  intros Hk. unfold Search.start. rewrite Hk. simpl. intros [= <-]. simpl.
  split; [|split].
  - exists 0, [(start, [], 0%Z, Search.isSolved P (Search.problem w))], [].
    split; [done|]. split.
    + by intros n ->%list_elem_of_singleton.
    + intros n Hn. by apply elem_of_nil in Hn.
  - intros u s Hu. set_solver.
  - intros p c k Hw _. eexists _, p, c. split; [left|]. split; [done|].
    simpl. lia.
Qed.

Lemma bfs_iter_inv n (st0 st : BState) :
  modelled P M start id st0 ∧ bfs_inv st0 →
  iter (Search.bfs_step P) n st0 = Some st →
  modelled P M start id st ∧ bfs_inv st.
Proof.
  apply (iter_invariant _ (λ st, modelled P M start id st ∧ bfs_inv st)).
  intros s s' [Hm Hi] Hs. split.
  - by destruct (bfs_round P M start s s' Hm Hs).
  - by eapply bfs_inv_step.
Qed.

(** No walk to a goal is shorter than the path [breadthSearch] returns,
    and the search does not fail when a goal can be reached. *)
Lemma breadthSearch_shortest fuel w path c n w' p g cp :
  m_inv P M (Search.problem w) →
  Search.getState P (Search.problem w) = Ok start →
  Search.breadthSearch P fuel w = Done ((path, c, n), w') →
  walk P M start p cp g → m_goal P M g = true →
  c ≠ Inf ∧ length path ≤ length p.
Proof.
  intros Hinv Hk. unfold Search.breadthSearch, Search.enter.
  destruct (Search.start P w) as [st0|] eqn:Hst0; [|done].
  intros (i & st & _ & Hi & Hs)%run_Done Hw Hg.
  pose proof (start_modelled P M start w st0 Hinv Hk Hst0) as Hm0.
  pose proof (start_bfs_inv w st0 Hk Hst0) as Hi0.
  destruct (bfs_iter_inv _ _ _ (conj Hm0 Hi0) Hi)
    as [[_ Hsound] ((d & Hl) & _ & Hfr)].
  assert (g ∉ Search.visited st) as Hgv.
  { intros Hin. destruct Hsound as [_ Hvis].
    destruct (Hvis g Hin) as [_ Hng]. congruence. }
  destruct (Hfr p cp g Hw Hgv) as (m & p2 & c2 & Hin & _ & Hlen).
  apply bfs_step_Return in Hs as [[Hnil _]|(m0 & rest & Hf & Hv)].
  - rewrite Hnil in Hin. by apply elem_of_nil in Hin.
  - apply visit_Return in Hv as [_ [= -> -> _ _]]. split; [done|].
    rewrite Hf in Hl, Hin. pose proof (levels_head _ _ _ _ Hl Hin) as Hd.
    unfold depth in *. lia.
Qed.

(** With unit step costs the cost of a walk is its length. *)
Lemma walk_unit k p c k' :
  (∀ k s, m_states P M k → s ∈ m_succ P M k → s.1.2 = 1%Z) →
  m_states P M k → walk P M k p c k' → c = Z.of_nat (length p).
Proof.
  intros Hunit Hk Hw. induction Hw as [k|k k1 a c g p c' k' Hs Hw IH]; [done|].
  pose proof (Hunit _ _ Hk Hs) as Hc. simpl in Hc. subst c.
  rewrite IH by (by apply (m_closed P M _ _ Hk Hs)).
  simpl length. lia.
Qed.

End Shortest.

(** Five states with unit step costs; the goal 4 is three moves away
    through 1 and 3, and two moves away through 2:

<<
        0 --> 1 --> 3 --> 4
        0 --> 2 --------> 4
>>
*)
Module Detour.

Definition succs (k : Z) : list (Z * Z * Z * bool) :=
  if decide (k = 0%Z) then [(1, 1, 1, false); (2, 2, 1, false)]%Z
  else if decide (k = 1%Z) then [(3, 3, 1, false)]%Z
  else if decide (k = 2%Z) then [(4, 5, 1, true)]%Z
  else if decide (k = 3%Z) then [(4, 4, 1, true)]%Z
  else [].

Definition goal (k : Z) : bool := bool_decide (k = 4%Z).

Definition problem : Search.Problem Z Z Z := table_problem succs goal.

Definition world : Search.World Z := Search.mkWorld 0%Z (Search.mkMetrics 0 0).

End Detour.

Lemma detour_closed k s :
  k ∈ diamond_states → s ∈ Detour.succs k → s.1.1.1 ∈ diamond_states.
Proof.
  unfold diamond_states, Detour.succs. intros Hk Hs.
  repeat case_decide; subst; set_unfold in Hs; set_unfold;
    destruct_or?; subst; simpl; auto 10.
Qed.

Lemma detour_flag k s :
  k ∈ diamond_states → s ∈ Detour.succs k → s.2 = Detour.goal s.1.1.1.
Proof.
  unfold diamond_states, Detour.succs. intros Hk Hs.
  repeat case_decide; subst; set_unfold in Hs;
    destruct_or?; subst; done.
Qed.

Lemma detour_unit k s : s ∈ Detour.succs k → s.1.2 = 1%Z.
Proof.
  unfold Detour.succs. intros Hs.
  repeat case_decide; subst; set_unfold in Hs;
    destruct_or?; subst; done.
Qed.

Definition detour_model : Model Detour.problem :=
  table_model Detour.succs Detour.goal diamond_states
    detour_closed detour_flag.

(** C3.  On a problem that behaves as a graph with finitely many states and
    unit step costs, from whose start state a goal can be reached,
    [breadthSearch] returns a path that leads from the start to a goal,
    with its length as the cost, and no sequence of actions from the start
    to a goal is shorter. *)
Theorem breadthSearch_returns_shortest_path :
  ∀ (Key Action PObj : Type) `(Countable Key) `(EqDecision Action)
    `(PyLt Key) `(PyLt Action) (P : Search.Problem Key Action PObj)
    (M : Model P) (S : gset Key) (w : Search.World PObj)
    (start goal : Key) (p0 : list Action) (c0 : Z),
    (∀ k, m_states P M k → k ∈ S) →
    (∀ k s, m_states P M k → s ∈ m_succ P M k → s.1.2 = 1%Z) →
    m_inv P M (Search.problem w) →
    Search.getState P (Search.problem w) = Ok start →
    walk P M start p0 c0 goal → m_goal P M goal = true →
    ∃ fuel, ∀ fuel', fuel ≤ fuel' →
      ∃ path n w' g,
        Search.breadthSearch P fuel' w
        = Done ((path, Fin (Z.of_nat (length path)), n), w') ∧
        walk P M start path (Z.of_nat (length path)) g ∧
        m_goal P M g = true ∧
        ∀ p c g', walk P M start p c g' → m_goal P M g' = true →
                  length path ≤ length p.
Proof.
  intros Key Action PObj ? ? ? ? ? P M S w start goal p0 c0
         Hfinite Hunit Hinv Hk Hw0 Hg0.
  exists (enough P M S). intros fuel Hfuel.
  destruct (breadthSearch_returns P M start S Hfinite fuel w Hinv Hk Hfuel)
    as [[[[path c] n] w'] Hr].
  destruct (breadthSearch_answer P M start fuel w _ _ Hinv Hk Hr)
    as [Hsound _].
  destruct (breadthSearch_shortest P M start _ _ _ _ _ _ _ _ _ Hinv Hk Hr Hw0 Hg0)
    as [Hc _].
  destruct c as [c|]; [|done]. destruct Hsound as (g & Hwalk & Hg).
  assert (m_states P M start) as Hstart.
  { destruct (m_getState P M _ Hinv) as (k & Hk' & Hs). congruence. }
  pose proof (walk_unit P M _ _ _ _ Hunit Hstart Hwalk) as ->.
  exists path, n, w', g. repeat (split; [done|]).
  intros p c' g' Hw Hg'.
  by destruct (breadthSearch_shortest P M start _ _ _ _ _ _ _ _ _
                 Hinv Hk Hr Hw Hg').
Qed.

Lemma breadthSearch_returns_shortest_path_witness :
  ∃ fuel, ∀ fuel', fuel ≤ fuel' →
    ∃ path n w' g,
      Search.breadthSearch Detour.problem fuel' Detour.world
      = Done ((path, Fin (Z.of_nat (length path)), n), w') ∧
      walk Detour.problem detour_model 0%Z path (Z.of_nat (length path)) g ∧
      m_goal Detour.problem detour_model g = true ∧
      ∀ p c g', walk Detour.problem detour_model 0%Z p c g' →
                m_goal Detour.problem detour_model g' = true →
                length path ≤ length p.
Proof.
  apply (breadthSearch_returns_shortest_path Z Z Z _ _ _ _ Detour.problem
           detour_model diamond_states Detour.world 0%Z 4%Z [2; 5]%Z (1 + (1 + 0))%Z).
  - intros k Hk. exact Hk.
  - intros k s _ Hs. exact (detour_unit k s Hs).
  - change (0%Z ∈ diamond_states). apply (bool_decide_unpack _). vm_compute.
    exact I.
  - reflexivity.
  - apply (walk_cons _ _ 0 2 2 1 false [5] (1 + 0) 4)%Z.
    + change ((2, 2, 1, false)%Z ∈ Detour.succs 0). vm_compute.
      right. left.
    + apply (walk_cons _ _ 2 4 5 1 true [] 0 4)%Z; [|apply walk_nil].
      change ((4, 5, 1, true)%Z ∈ Detour.succs 2). vm_compute. left.
  - reflexivity.
Defined.

(** ** aStarSearch with a consistent estimate returns a cheapest path *)

Section Cheapest.
Context {Key Action PObj : Type} `{Countable Key} `{EqDecision Action}.
Context `{PyLt Key} `{PyLt Action}.
Context (P : Search.Problem Key Action PObj) (M : Model P).
Context (heuristic : Search.Heuristic Key) (start : Key).

Abbreviation CNode := (Search.Node Key Action).
Abbreviation CState := (Search.State Key PObj (list (Z * CNode))).

(** The estimate is not negative and never exceeds the cost of a way to a
    goal. *)
Definition admissible : Prop :=
  (∀ k, m_states P M k → (0 ≤ Search.eval heuristic k)%Z) ∧
  (∀ k p c g, m_states P M k → walk P M k p c g → m_goal P M g = true →
              (Search.eval heuristic k ≤ c)%Z).

(** The estimate is 0 at a goal and drops by no more than the step cost
    along a step. *)
Definition consistent : Prop :=
  (∀ k, m_states P M k → m_goal P M k = true →
        Search.eval heuristic k = 0%Z) ∧
  (∀ k s, m_states P M k → s ∈ m_succ P M k →
          (Search.eval heuristic k ≤ s.1.2 + Search.eval heuristic s.1.1.1)%Z).

(** A successor of an expanded state that is not expanded itself waits in
    the fringe, at no more than the cost of any way to it through that
    state. *)
Definition astar_covered (nodes : list CNode) (visited : gset Key) : Prop :=
  ∀ u s, u ∈ visited → s ∈ m_succ P M u → s.1.1.1 ∉ visited →
    ∃ n, n ∈ nodes ∧ key n = s.1.1.1 ∧
         ∀ p c, walk P M start p c u → (gcost n ≤ c + s.1.2)%Z.

(** A walk from the start to a state that is not expanded passes a fringe
    entry that costs no more than the walk does up to there. *)
Definition astar_frontier (nodes : list CNode) (visited : gset Key) : Prop :=
  ∀ p c k, walk P M start p c k → k ∉ visited →
    ∃ n p2 c2, n ∈ nodes ∧ walk P M (key n) p2 c2 k ∧ (gcost n + c2 ≤ c)%Z.

Definition astar_inv (st : CState) : Prop :=
  astar_covered (Search.fringe st).*2 (Search.visited st) ∧
  astar_frontier (Search.fringe st).*2 (Search.visited st).

Lemma consistent_walk k p c k' :
  consistent → m_states P M k → walk P M k p c k' →
  (Search.eval heuristic k ≤ c + Search.eval heuristic k')%Z.
Proof.
  intros [_ Hstep] Hk Hw.
  induction Hw as [k|k k1 a c g p c' k' Hs Hw IH]; [lia|].
  pose proof (Hstep _ _ Hk Hs) as Hle. simpl in Hle.
  pose proof (m_closed P M _ _ Hk Hs) as Hk1. simpl in Hk1.
  specialize (IH Hk1). lia.
Qed.

Lemma astar_cross nodes visited u p c k :
  astar_covered nodes visited → walk P M u p c k →
  ∀ p1 c1, u ∈ visited → k ∉ visited → walk P M start p1 c1 u →
  ∃ n q cq, n ∈ nodes ∧ walk P M (key n) q cq k ∧ (gcost n + cq ≤ c1 + c)%Z.
Proof.
  intros Hcov Hw. induction Hw as [k|k k1 a c g p c' k' Hs Hw IH];
    intros p1 c1 Hu Hk Hw1; [done|].
  destruct (decide (k1 ∈ visited)) as [Hin|Hnin].
  - destruct (IH (p1 ++ [a]) (c1 + c)%Z Hin Hk) as (n & q & cq & Hn & Hq & Hle).
    { by eapply walk_snoc. }
    exists n, q, cq. split; [done|]. split; [done|]. lia.
  - destruct (Hcov k _ Hu Hs Hnin) as (n & Hn & Hkey & Hle). simpl in *.
    exists n, p, c'. split; [done|]. rewrite Hkey. split; [done|].
    specialize (Hle _ _ Hw1). lia.
Qed.

(** Removing the entry of least score keeps the two facts. *)
Lemma astar_inv_pop nodes visited n rest nodes' visited' :
  consistent → sound_state P M start (nodes, visited) →
  nodes ≡ₚ n :: rest →
  (∀ m, m ∈ nodes → (fscore heuristic n ≤ fscore heuristic m)%Z) →
  astar_covered nodes visited → astar_frontier nodes visited →
  ((key n ∈ visited) ∧ nodes' ≡ₚ rest ∧ visited' = visited) ∨
  ((key n ∉ visited) ∧ visited' = {[key n]} ∪ visited ∧
   nodes' ≡ₚ rest ++ children visited' n (m_succ P M (key n))) →
  astar_covered nodes' visited' ∧ astar_frontier nodes' visited'.
Proof.
  intros Hcons [Hnodes _] Hperm Hmin Hcov Hfr Hcase. simpl in Hnodes.
  assert (n ∈ nodes) as Hn by (rewrite Hperm; left).
  destruct (Hnodes n Hn) as (Hwn & _ & Hsn).
  assert (key n ∈ visited') as Hkn'.
  { destruct Hcase as [(? & _ & ->)|(_ & -> & _)]; [done|].
    apply elem_of_union. left. by apply elem_of_singleton. }
  assert (∀ k, k ∈ visited → k ∈ visited') as Hsub.
  { intros k Hk. destruct Hcase as [(_ & _ & ->)|(_ & -> & _)]; [done|].
    apply elem_of_union. by right. }
  assert (∀ m, m ∈ rest → m ∈ nodes') as Hrest.
  { intros m Hm. destruct Hcase as [(_ & -> & _)|(_ & _ & ->)]; [done|].
    apply elem_of_app. by left. }
  assert (∀ m, m ∈ nodes → m = n ∨ m ∈ rest) as Hmem.
  { intros m Hm. rewrite Hperm in Hm. by apply elem_of_cons in Hm. }
  assert (astar_covered nodes' visited') as Hcov'.
  { intros u s Hu Hs Hns.
    assert (u ∈ visited →
            ∃ m, m ∈ nodes' ∧ key m = s.1.1.1 ∧
                 ∀ p c, walk P M start p c u → (gcost m ≤ c + s.1.2)%Z) as Hold.
    { intros Hu'. destruct (Hcov u s Hu' Hs) as (m & Hm & Hkey & Hle).
      { intros Hin. by apply Hns, Hsub. }
      destruct (Hmem m Hm) as [->|Hm']; [destruct Hns; by rewrite <- Hkey|].
      exists m. split; [by apply Hrest|done]. }
    destruct Hcase as [(_ & _ & Hvis)|(Hk & Hvis & Hn')].
    - apply Hold. by rewrite <- Hvis.
    - rewrite Hvis in Hu. apply elem_of_union in Hu as [Hu|Hu]; [|by apply Hold].
      apply elem_of_singleton in Hu. subst u.
      exists (child_node n s). split; [|split; [done|]].
      + rewrite Hn'. apply elem_of_app. right. apply elem_of_children.
        by exists s.
      + intros p c Hw.
        destruct (Hfr p c (key n) Hw Hk) as (m & p2 & c2 & Hm & Hw2 & Hle).
        destruct (Hnodes m Hm) as (_ & _ & Hsm).
        pose proof (consistent_walk _ _ _ _ Hcons Hsm Hw2) as Hh.
        pose proof (Hmin m Hm) as Hf. unfold fscore in Hf.
        unfold child_node, gcost in *. simpl. lia. }
  split; [done|].
  intros p c k Hw Hk.
  assert (k ∉ visited) as Hk' by (intros Hin; by apply Hk, Hsub).
  destruct (Hfr p c k Hw Hk') as (m & p2 & c2 & Hm & Hw2 & Hle).
  destruct (Hmem m Hm) as [->|Hm'].
  - destruct (astar_cross _ _ _ _ _ _ Hcov' Hw2 _ _ Hkn' Hk Hwn)
      as (m & q & cq & Hin & Hq & Hle').
    exists m, q, cq. split; [done|]. split; [done|]. lia.
  - exists m, p2, c2. split; [by apply Hrest|done].
Qed.

Lemma astar_inv_step (st st' : CState) :
  consistent → modelled P M start (fmap snd) st → scored heuristic st →
  astar_inv st → Search.astar_step P heuristic st = Continue st' →
  astar_inv st'.
Proof.
  intros Hcons [Hinv Hsound] Hsc [Hcov Hfr]
    (n & score & rest & Hpop & Hflag & Hcase)%astar_step_Continue.
  destruct (scored_pop heuristic _ _ _ _ Hsc Hpop) as (Hrest & Hperm & -> & Hmin).
  assert ((Search.fringe st).*2 ≡ₚ n :: rest.*2) as Hperm2.
  { by rewrite Hperm. }
  apply (astar_inv_pop _ _ n (rest.*2) _ _ Hcons Hsound Hperm2 Hmin Hcov Hfr).
  destruct Hcase as [[Hk (_ & Hf' & Hvis & _)]
                |(Hk & succs & o & inF & inF' & Hs & Hfold & Ho & Hvis & _)].
  - left. split; [done|]. by rewrite Hf', Hvis.
  - right. split; [done|]. split; [done|].
    assert (m_states P M (key n)) as Hkn.
    { eapply sound_state_states; [exact Hsound|]. rewrite Hperm2. left. }
    destruct (m_getSuccessors P M _ _ Hinv Hkn) as (o' & Hs' & _).
    pose proof (eq_trans (eq_sym Hs) Hs') as Heq. inversion Heq; subst.
    destruct (astar_push_succ_fold _ _ _ _ _ _ _ _ Hfold Hrest) as [_ Hperm'].
    rewrite Hperm', fmap_app, <-list_fmap_compose, Hvis.
    by rewrite list_fmap_id.
Qed.

Lemma astar_start_inv w st0 :
  Search.getState P (Search.problem w) = Ok start →
  Search.astar_start P heuristic w = Ok st0 → astar_inv st0.
Proof.
  intros Hk. unfold Search.astar_start. rewrite Hk. simpl. intros [= <-].
  split; simpl.
  - intros u s Hu. set_solver.
  - intros p c k Hw _. eexists _, p, c. split; [left|]. split; [done|].
    unfold gcost. simpl. lia.
Qed.

Lemma astar_iter_inv n (st0 st : CState) :
  consistent →
  (modelled P M start (fmap snd) st0 ∧ scored heuristic st0) ∧ astar_inv st0 →
  iter (Search.astar_step P heuristic) n st0 = Some st →
  (modelled P M start (fmap snd) st ∧ scored heuristic st) ∧ astar_inv st.
Proof.
  intros Hcons.
  apply (iter_invariant _
    (λ s, (modelled P M start (fmap snd) s ∧ scored heuristic s) ∧ astar_inv s)).
  intros s s' [[Hm Hsc] Hi] Hs. split.
  - by destruct (astar_round P M heuristic start s s' Hm Hsc Hs).
  - by eapply astar_inv_step.
Qed.

(** With a consistent estimate, [aStarSearch] returns no more than the
    cost of any walk from the start to a goal. *)
Lemma aStarSearch_cheapest fuel w path c n w' p cp g :
  consistent → m_inv P M (Search.problem w) →
  Search.getState P (Search.problem w) = Ok start →
  Search.aStarSearch P fuel heuristic w = Done ((path, c, n), w') →
  walk P M start p cp g → m_goal P M g = true →
  cost_le c (Fin cp).
Proof.
  intros Hcons Hinv Hk. unfold Search.aStarSearch, Search.enter.
  destruct (Search.astar_start P heuristic w) as [st0|] eqn:Hst0; [|done].
  intros (i & st & _ & Hi & Hs)%run_Done Hw Hg.
  pose proof (astar_start_modelled P M heuristic start w st0 Hinv Hk Hst0)
    as Hm0.
  pose proof (astar_start_inv w st0 Hk Hst0) as Hi0.
  destruct (astar_iter_inv _ _ _ Hcons (conj Hm0 Hi0) Hi)
    as [[[_ Hsound] Hsc] [_ Hfr]].
  assert (g ∉ Search.visited st) as Hgv.
  { intros Hin. destruct Hsound as [_ Hvis].
    destruct (Hvis g Hin) as [_ Hng]. congruence. }
  destruct (Hfr p cp g Hw Hgv) as (m & p2 & c2 & Hin & Hw2 & Hle).
  apply astar_step_Return in Hs
    as [[Hnil _]|(m0 & score & rest & Hpop & Hflag & [= -> -> _ _])].
  - rewrite Hnil in Hin. by apply elem_of_nil in Hin.
  - destruct (scored_pop heuristic _ _ _ _ Hsc Hpop) as (_ & Hperm & _ & Hmin).
    destruct Hsound as [Hnodes _]. simpl in Hnodes.
    assert (m0 ∈ (Search.fringe st).*2) as Hm0in by (rewrite Hperm; left).
    destruct (Hnodes m0 Hm0in) as (_ & Hf0 & Hs0).
    destruct (Hnodes m Hin) as (_ & _ & Hsm).
    pose proof (consistent_walk _ _ _ _ Hcons Hsm Hw2) as Hh.
    pose proof (Hmin m Hin) as Hf. unfold fscore in Hf.
    destruct Hcons as [Hgoal _].
    assert (Search.eval heuristic (key m0) = 0%Z) as Hh0.
    { apply Hgoal; [done|congruence]. }
    assert (Search.eval heuristic g = 0%Z) as Hhg.
    { apply Hgoal; [|done]. by eapply walk_states. }
    simpl. lia.
Qed.

End Cheapest.

(** ** The estimates of the diamond *)

(** The cost that remains from each state of the diamond. *)
Definition diamond_remaining : Search.Heuristic Z :=
  {| Search.eval k :=
       if decide (k = 0%Z) then 5%Z
       else if decide (k = 1%Z) then 4%Z
       else if decide (k = 2%Z) then 5%Z
       else if decide (k = 3%Z) then 3%Z
       else 0%Z |}.

Lemma diamond_walk_nonneg k p c g :
  walk Diamond.problem diamond_model k p c g → (0 ≤ c)%Z.
Proof.
  induction 1 as [k|k k1 a c g0 p c' k' Hs Hw IH]; [done|].
  assert (0 ≤ c)%Z; [|lia].
  simpl in Hs. unfold Diamond.succs in Hs.
  repeat case_decide; subst; set_unfold in Hs; destruct_or?;
    simplify_eq; lia.
Qed.

Lemma diamond_walk_from_3 p c g :
  walk Diamond.problem diamond_model 3%Z p c g →
  m_goal Diamond.problem diamond_model g = true → (3 ≤ c)%Z.
Proof.
  intros Hw Hg. inversion Hw as [|k k1 a c1 g0 p' c' k' Hs Hw']; subst.
  - done.
  - simpl in Hs. unfold Diamond.succs in Hs. simpl in Hs.
    apply list_elem_of_singleton in Hs. injection Hs as -> -> -> ->.
    pose proof (diamond_walk_nonneg _ _ _ _ Hw'). lia.
Qed.

Lemma diamond_walk_from_1 p c g :
  walk Diamond.problem diamond_model 1%Z p c g →
  m_goal Diamond.problem diamond_model g = true → (4 ≤ c)%Z.
Proof.
  intros Hw Hg. inversion Hw as [|k k1 a c1 g0 p' c' k' Hs Hw']; subst.
  - done.
  - simpl in Hs. unfold Diamond.succs in Hs. simpl in Hs.
    apply list_elem_of_singleton in Hs. injection Hs as -> -> -> ->.
    pose proof (diamond_walk_from_3 _ _ _ Hw' Hg). lia.
Qed.

Lemma diamond_estimate_admissible :
  admissible Diamond.problem diamond_model Diamond.estimate.
Proof.
  split.
  - intros k _. simpl. case_decide; lia.
  - intros k p c g _ Hw Hg. simpl. case_decide as Hk.
    + subst k. by eapply diamond_walk_from_1.
    + by eapply diamond_walk_nonneg.
Qed.

Lemma diamond_remaining_consistent :
  consistent Diamond.problem diamond_model diamond_remaining.
Proof.
  split.
  - intros k _ Hg. simpl in Hg. unfold Diamond.goal in Hg.
    apply bool_decide_eq_true in Hg. by subst k.
  - intros k s _ Hs. simpl in Hs. unfold Diamond.succs in Hs.
    repeat case_decide; subst; set_unfold in Hs; destruct_or?;
      simplify_eq; done.
Qed.

(** C1, as claimed, fails on the diamond: [Diamond.estimate] is not
    negative and never exceeds the cost that remains to the goal, the
    states are finitely many, and yet [aStarSearch] returns a path of cost
    6 where [breadthSearch] returns one of cost 5.  State 3 is expanded
    through 2 first, at cost 3, and the cheaper entry through 1 is dropped
    later since 3 is in [visited]. *)
Lemma admissible_estimate_aStarSearch_costlier :
  admissible Diamond.problem diamond_model Diamond.estimate ∧
  (∀ k, m_states Diamond.problem diamond_model k → k ∈ diamond_states) ∧
  m_inv Diamond.problem diamond_model (Search.problem Diamond.world) ∧
  Search.aStarSearch Diamond.problem 20 Diamond.estimate Diamond.world
  = Done (([2; 3; 4]%Z, Fin 6, 4), Search.mkWorld 0%Z (Search.mkMetrics 2 4)) ∧
  Search.breadthSearch Diamond.problem 20 Diamond.world
  = Done (([1; 3; 4]%Z, Fin 5, 4), Search.mkWorld 0%Z (Search.mkMetrics 2 4)) ∧
  ¬ cost_le (Fin 6) (Fin 5).
Proof.
  split; [exact diamond_estimate_admissible|].
  split; [by intros k Hk|].
  split; [change (0%Z ∈ diamond_states); apply (bool_decide_unpack _);
          vm_compute; exact I|].
  split; [vm_compute; reflexivity|].
  split; [vm_compute; reflexivity|].
  simpl. lia.
Qed.

(** C1, amended.  On a problem that behaves as a graph whose step costs
    are integers, with an integer estimate that is consistent (0 at every
    goal, and dropping by no more than the step cost along every step),
    the cost [aStarSearch] returns is less than or equal to the cost that
    [breadthSearch], [depthSearch], [depthLimitedSearch] or
    [iterativeDeepening] returns from the same state of the problem.
    (Sums of integers are exact in Python; sums of floats are rounded, and
    the order in which a path's costs are added then matters.) *)
Theorem aStarSearch_consistent_cost_le_others :
  ∀ (Key Action PObj : Type) `(Countable Key) `(EqDecision Action)
    `(PyLt Key) `(PyLt Action) (P : Search.Problem Key Action PObj)
    (M : Model P) (heuristic : Search.Heuristic Key) (w : Search.World PObj)
    (fuel fuel' maxDepth : nat) (reset : bool)
    (pa pb : list Action) (ca cb : cost) (na nb : nat)
    (wa wb : Search.World PObj),
    m_inv P M (Search.problem w) →
    consistent P M heuristic →
    Search.aStarSearch P fuel heuristic w = Done ((pa, ca, na), wa) →
    Search.breadthSearch P fuel' w = Done ((pb, cb, nb), wb) ∨
    Search.depthSearch P fuel' w = Done ((pb, cb, nb), wb) ∨
    Search.depthLimitedSearch P fuel' maxDepth reset w
    = Done ((pb, cb, nb), wb) ∨
    Search.iterativeDeepening P fuel' maxDepth w = Done ((pb, cb, nb), wb) →
    cost_le ca cb.
Proof.
  intros Key Action PObj ? ? ? ? ? P M heuristic w fuel fuel' maxDepth reset
         pa pb ca cb na nb wa wb Hinv Hcons Ha Hb.
  destruct (m_getState P M _ Hinv) as (start & Hk & _).
  assert (answer_sound P M start (pb, cb, nb)) as Hsound.
  { destruct Hb as [Hb|[Hb|[Hb|Hb]]].
    - by destruct (breadthSearch_answer P M start _ _ _ _ Hinv Hk Hb).
    - by destruct (depthSearch_answer P M start _ _ _ _ Hinv Hk Hb).
    - by destruct (depthLimitedSearch_answer P M start _ _ _ _ _ _ Hinv Hk Hb).
    - by destruct (iterativeDeepening_answer P M start _ _ _ _ _ Hinv Hk Hb). }
  destruct cb as [cb|]; [|by destruct ca].
  destruct Hsound as (g & Hw & Hg).
  by eapply (aStarSearch_cheapest P M heuristic start).
Qed.

Lemma aStarSearch_consistent_cost_le_others_witness :
  cost_le (Fin 5) (Fin 6).
Proof.
  apply (aStarSearch_consistent_cost_le_others Z Z Z _ _ _ _ Diamond.problem
           diamond_model diamond_remaining Diamond.world 20 20 0 true
           [1; 3; 4]%Z [2; 3; 4]%Z (Fin 5) (Fin 6) 3 3
           (Search.mkWorld 0%Z (Search.mkMetrics 2 3))
           (Search.mkWorld 0%Z (Search.mkMetrics 2 3))).
  - change (0%Z ∈ diamond_states). apply (bool_decide_unpack _). vm_compute.
    exact I.
  - exact diamond_remaining_consistent.
  - vm_compute. reflexivity.
  - right. left. vm_compute. reflexivity.
Defined.

(* ===================================================================== *)
(** * Further properties of the searches *)
(* ===================================================================== *)

(** ** The counters [totalStates] and [maxMemoryUse] *)

Section Counters.
Context {Key Action PObj : Type} `{Countable Key} `{EqDecision Action}.
Context `{PyLt Key} `{PyLt Action}.
Context (P : Search.Problem Key Action PObj).

Abbreviation KState := (Search.State Key PObj).
Abbreviation KResult := (Search.Answer Action * Search.World PObj)%type.

(** [totalStates] holds the number of expansions. *)
Definition counted {F : Type} (st : KState F) : Prop :=
  Search.totalStates (Search.globals (Search.world st)) = Search.numExpanded st.

(** The fringe is no longer than [maxMemoryUse], the seed entry apart. *)
Definition within {F : Type} (len : F → nat) (st : KState F) : Prop :=
  len (Search.fringe st)
  ≤ Nat.max 1 (Search.maxMemoryUse (Search.globals (Search.world st))).

(** A loop that returns its counter and its world. *)
Definition returns_locals {F : Type}
  (step : KState F → step_result (KState F) KResult) : Prop :=
  ∀ st r, step st = Return r →
    r.1.2 = Search.numExpanded st ∧ r.2 = Search.world st.

Lemma iter_prefix {St R : Type} (step : St → step_result St R) n i s s' st r :
  iter step n s = Some s' → step s' = Return r → iter step i s = Some st →
  iter step (n - i) st = Some s'.
Proof.
  revert n s; induction i as [|i IH]; intros n s Hn Hr Hi; simpl in Hi.
  - injection Hi as <-. by rewrite Nat.sub_0_r.
  - destruct (step s) as [s1| |] eqn:Hs; try done.
    destruct n as [|n]; simpl in Hn.
    + injection Hn as <-. congruence.
    + rewrite Hs in Hn. by apply IH with s1.
Qed.

Lemma enter_counted {F : Type} init
  (step : KState F → step_result (KState F) KResult) st0 fuel r :
  init = Ok st0 → counted st0 →
  (∀ st st', counted st → step st = Continue st' → counted st') →
  returns_locals step →
  Search.enter init step fuel = Done r →
  Search.totalStates (Search.globals r.2) = r.1.2.
Proof.
  intros -> Hc0 Hstep Hret. simpl. intros (n & st & _ & Hn & Hs)%run_Done.
  pose proof (iter_invariant _ _ Hstep _ _ _ Hc0 Hn) as Hc.
  destruct (Hret _ _ Hs) as [-> ->]. exact Hc.
Qed.

Lemma enter_within {F : Type} (len : F → nat) init
  (step : KState F → step_result (KState F) KResult) st0 fuel r i st :
  init = Ok st0 → within len st0 →
  (∀ st st', step st = Continue st' →
     Search.maxMemoryUse (Search.globals (Search.world st))
     ≤ Search.maxMemoryUse (Search.globals (Search.world st')) ∧
     (within len st → within len st')) →
  returns_locals step →
  Search.enter init step fuel = Done r →
  iter step i st0 = Some st →
  len (Search.fringe st)
  ≤ Nat.max 1 (Search.maxMemoryUse (Search.globals r.2)).
Proof.
  intros -> Hw0 Hstep Hret. simpl. intros (n & s' & _ & Hn & Hs)%run_Done Hi.
  pose proof (iter_prefix _ _ _ _ _ _ _ Hn Hs Hi) as Hrest.
  assert (within len st) as Hw.
  { apply (iter_invariant step (within len)) with i st0; [|done..].
    intros s s1 Hin Hc. by apply (Hstep s s1 Hc). }
  assert (Search.maxMemoryUse (Search.globals (Search.world st))
          ≤ Search.maxMemoryUse (Search.globals (Search.world s'))) as Hle.
  { apply (iter_invariant step
             (λ s, Search.maxMemoryUse (Search.globals (Search.world st))
                   ≤ Search.maxMemoryUse (Search.globals (Search.world s))))
      with (n - i) st; [|done..].
    intros s s1 Hin Hc. destruct (Hstep s s1 Hc) as [Hm _]. lia. }
  destruct (Hret _ _ Hs) as [_ ->]. unfold within in Hw. lia.
Qed.

Lemma push_succ_within (visited : gset Key) (n : Search.Node Key Action)
  succs fr inF mm fr' inF' mm' :
  fold_left (Search.push_succ visited n) succs (fr, inF, mm) = (fr', inF', mm') →
  length fr ≤ Nat.max 1 mm → length fr' ≤ Nat.max 1 mm'.
Proof.
  revert fr inF mm; induction succs as [|s succs IH]; intros fr inF mm; simpl.
  - by intros [= <- <- <-].
  - destruct n as [[[s0 s1] s2] s3], s as [[[k a] c] g]. simpl.
    destruct (decide (k ∈ visited)); [apply IH|].
    intros Hfold Hlen. apply (IH _ _ _ Hfold).
    destruct (decide (mm < _)); lia.
Qed.

Lemma dls_push_succ_within (visited : gset Key) (n : Search.DNode Key Action)
  succs fr inF mm fr' inF' mm' :
  fold_left (Search.dls_push_succ visited n) succs (fr, inF, mm)
  = (fr', inF', mm') →
  length fr ≤ Nat.max 1 mm → length fr' ≤ Nat.max 1 mm'.
Proof.
  revert fr inF mm; induction succs as [|s succs IH]; intros fr inF mm; simpl.
  - by intros [= <- <- <-].
  - destruct n as [[[[s0 s1] s2] s3] s4], s as [[[k a] c] g]. simpl.
    destruct (decide (k ∈ visited)); [apply IH|].
    intros Hfold Hlen. apply (IH _ _ _ Hfold).
    destruct (decide (mm < _)); lia.
Qed.

Lemma visit_within (st : KState (list (Search.Node Key Action))) n rest st' :
  Search.visit P st n rest = Continue st' →
  length rest ≤ Nat.max 1 (Search.maxMemoryUse (Search.globals (Search.world st))) →
  within length st'.
Proof.
  unfold Search.visit, within. destruct n as [[[s0 s1] s2] s3].
  destruct s3; [done|].
  destruct (decide (s0 ∈ Search.visited st)); [by intros [= <-]|].
  destruct (Search.getSuccessors P s0 _) as [[succs o]|]; [|done].
  destruct (fold_left _ _ _) as [[fr' inF'] mm'] eqn:Hfold.
  intros [= <-] Hlen. simpl. by eapply push_succ_within.
Qed.

Lemma bfs_step_within st st' :
  Search.bfs_step P st = Continue st' →
  Search.maxMemoryUse (Search.globals (Search.world st))
  ≤ Search.maxMemoryUse (Search.globals (Search.world st')) ∧
  (within length st → within length st').
Proof.
  intros Hs. pose proof Hs as (n & rest & Hf & Hv)%bfs_step_Continue. split.
  - apply visit_Continue in Hv
      as [_ [[_ (-> & _)]|[_ (? & ? & _ & _ & _ & _ & _ & _ & Hle)]]]; [done|lia].
  - unfold within at 1. rewrite Hf. simpl. intros Hw.
    eapply visit_within; [done|lia].
Qed.

Lemma dfs_step_within st st' :
  Search.dfs_step P st = Continue st' →
  Search.maxMemoryUse (Search.globals (Search.world st))
  ≤ Search.maxMemoryUse (Search.globals (Search.world st')) ∧
  (within length st → within length st').
Proof.
  intros Hs. pose proof Hs as (n & rest & Hf & Hv)%dfs_step_Continue. split.
  - apply visit_Continue in Hv
      as [_ [[_ (-> & _)]|[_ (? & ? & _ & _ & _ & _ & _ & _ & Hle)]]]; [done|lia].
  - unfold within at 1. rewrite Hf, length_app. simpl. intros Hw.
    eapply visit_within; [done|lia].
Qed.

Lemma dls_step_within maxDepth st st' :
  Search.dls_step P maxDepth st = Continue st' →
  Search.maxMemoryUse (Search.globals (Search.world st))
  ≤ Search.maxMemoryUse (Search.globals (Search.world st')) ∧
  (within length st → within length st').
Proof.
  intros Hs. split.
  - apply dls_step_Continue in Hs
      as (n & d & rest & _ & _ &
          [[_ (-> & _)]|(_ & _ & ? & ? & _ & _ & _ & _ & _ & _ & Hle)]);
      [done|lia].
  - revert Hs. unfold Search.dls_step, within.
    destruct (Search.fringe st) as [|a l] eqn:Hf; [done|].
    destruct (list_pop_cons a l) as ([n d] & rest & -> & Heq).
    assert (length (a :: l) = S (length rest)) as Hlen.
    { rewrite Heq, length_app. simpl. lia. }
    rewrite Hlen. destruct n as [[[s0 s1] s2] s3]. destruct s3; [done|].
    destruct (decide _) as [_|_].
    + destruct (Search.getSuccessors P s0 _) as [[succs o]|]; [|done].
      destruct (fold_left _ _ _) as [[fr' inF'] mm'] eqn:Hfold.
      intros [= <-] Hw. simpl. eapply dls_push_succ_within; [done|lia].
    + intros [= <-] Hw. simpl. lia.
Qed.

Lemma astar_step_within heuristic st st' :
  Search.astar_step P heuristic st = Continue st' →
  Search.maxMemoryUse (Search.globals (Search.world st))
  ≤ Search.maxMemoryUse (Search.globals (Search.world st')) ∧
  (within length st → within length st').
Proof.
  intros Hs. split.
  - apply astar_step_Continue in Hs
      as (n & d & rest & _ & _ &
          [[_ (-> & _)]|(_ & ? & ? & ? & ? & _ & _ & _ & _ & _ & _ & Hle)]);
      [done|lia].
  - revert Hs. unfold Search.astar_step, within.
    destruct (PriorityQueue.isEmpty _); [done|].
    destruct (PriorityQueue.pop _) as [[[n score] rest]|] eqn:Hpop; [|done].
    assert (length rest ≤ length (Search.fringe st)) as Hlen.
    { unfold PriorityQueue.pop in Hpop.
      destruct (Heapq.heappop _) as [[[p i] r]|] eqn:Hh; [|done].
      injection Hpop as <- <- <-.
      apply heappop_Permutation in Hh. rewrite Hh. simpl. lia. }
    destruct n as [[[s0 s1] s2] s3]. destruct s3; [done|].
    destruct (decide _).
    + intros [= <-] Hw. simpl. lia.
    + destruct (Search.getSuccessors P s0 _) as [[succs o]|]; [|done].
      destruct (fold_left _ _ _) as [[fr' inF']|]; [|done].
      intros [= <-] Hw. simpl. unfold PriorityQueue.getSize.
      destruct (decide _); lia.
Qed.

Lemma bfs_returns_locals : returns_locals (Search.bfs_step P).
Proof.
  intros st r [[_ ->]|(n & rest & _ & [_ ->]%visit_Return)]%bfs_step_Return;
    done.
Qed.

Lemma dfs_returns_locals : returns_locals (Search.dfs_step P).
Proof.
  intros st r [[_ ->]|(n & rest & _ & [_ ->]%visit_Return)]%dfs_step_Return;
    done.
Qed.

Lemma dls_returns_locals maxDepth : returns_locals (Search.dls_step P maxDepth).
Proof.
  intros st r [[_ ->]|(n & d & rest & _ & _ & ->)]%dls_step_Return; done.
Qed.

Lemma astar_returns_locals heuristic :
  returns_locals (Search.astar_step P heuristic).
Proof.
  intros st r [[_ ->]|(n & d & rest & _ & _ & ->)]%astar_step_Return; done.
Qed.

Lemma visit_counted (st : KState (list (Search.Node Key Action))) n rest st' :
  counted st → Search.visit P st n rest = Continue st' → counted st'.
Proof.
  unfold counted.
  intros Hc [_ [[_ (-> & _ & _ & ->)]
               |[_ (? & ? & _ & _ & _ & _ & -> & -> & _)]]]%visit_Continue;
    done.
Qed.

End Counters.

(** X1.  After [breadthSearch], [depthSearch], [aStarSearch] or a
    [depthLimitedSearch] that resets the counters has returned,
    [getTotalStates()] gives the expansion count the search returned. *)
Theorem getTotalStates_is_returned_count :
  ∀ (Key Action PObj : Type) `(Countable Key) `(EqDecision Action)
    `(PyLt Key) `(PyLt Action) (P : Search.Problem Key Action PObj)
    (heuristic : Search.Heuristic Key) (maxDepth fuel : nat)
    (w w' : Search.World PObj) (path : list Action) (c : cost) (n : nat),
    Search.breadthSearch P fuel w = Done ((path, c, n), w') ∨
    Search.depthSearch P fuel w = Done ((path, c, n), w') ∨
    Search.depthLimitedSearch P fuel maxDepth true w = Done ((path, c, n), w') ∨
    Search.aStarSearch P fuel heuristic w = Done ((path, c, n), w') →
    Search.getTotalStates (Search.globals w') = n.
Proof.
  intros Key Action PObj ? ? ? ? ? P heuristic maxDepth fuel w w' path c n.
  intros [Hr|[Hr|[Hr|Hr]]].
  - unfold Search.breadthSearch in Hr.
    destruct (Search.start P w) as [st0|] eqn:Hst0; [|done].
    apply (enter_counted (Ok st0) (Search.bfs_step P) st0 fuel _ eq_refl) in Hr;
      try done.
    + unfold Search.start in Hst0.
      destruct (Search.getState P _); [|done]. by injection Hst0 as <-.
    + intros st st' Hc (m & rest & _ & Hv)%bfs_step_Continue.
      by eapply visit_counted.
    + apply bfs_returns_locals.
  - unfold Search.depthSearch in Hr.
    destruct (Search.start P w) as [st0|] eqn:Hst0; [|done].
    apply (enter_counted (Ok st0) (Search.dfs_step P) st0 fuel _ eq_refl) in Hr;
      try done.
    + unfold Search.start in Hst0.
      destruct (Search.getState P _); [|done]. by injection Hst0 as <-.
    + intros st st' Hc (m & rest & _ & Hv)%dfs_step_Continue.
      by eapply visit_counted.
    + apply dfs_returns_locals.
  - change (Search.depthLimitedSearch P fuel maxDepth false
              (Search.mkWorld (Search.problem w) (Search.mkMetrics 0 0))
            = Done ((path, c, n), w')) in Hr.
    apply depthLimitedSearch_counts_on in Hr as [Hr _]. exact Hr.
  - unfold Search.aStarSearch in Hr.
    destruct (Search.astar_start P heuristic w) as [st0|] eqn:Hst0; [|done].
    apply (enter_counted (Ok st0) (Search.astar_step P heuristic) st0 fuel _
             eq_refl) in Hr; try done.
    + unfold Search.astar_start in Hst0.
      destruct (Search.getState P _); [|done]. simpl in Hst0.
      by injection Hst0 as <-.
    + unfold counted.
      intros st st' Hc (m & d & rest & _ & _ &
        [[_ (-> & _ & _ & ->)]
        |(_ & ? & ? & ? & ? & _ & _ & _ & _ & -> & -> & _)])%astar_step_Continue;
        done.
    + apply astar_returns_locals.
Qed.

Lemma getTotalStates_is_returned_count_witness :
  Search.getTotalStates (Search.mkMetrics 2 4) = 4.
Proof.
  apply (getTotalStates_is_returned_count Z Z Z _ _ _ _ Diamond.problem
           Diamond.zero 0 20 Diamond.world
           (Search.mkWorld 0%Z (Search.mkMetrics 2 4)) [1; 3; 4]%Z (Fin 5) 4).
  left. vm_compute. reflexivity.
Defined.

(** X2.  [maxMemoryUse] bounds the fringe: at the start of every round of
    [breadthSearch], [depthSearch], [depthLimitedSearch] and
    [aStarSearch] the fringe holds at most as many entries as
    [getMaxMemoryUse()] gives once the search has returned; only the seed
    entry is not counted, so the bound is 1 where the counter stayed 0. *)
Theorem getMaxMemoryUse_bounds_fringe :
  ∀ (Key Action PObj : Type) `(Countable Key) `(EqDecision Action)
    `(PyLt Key) `(PyLt Action) (P : Search.Problem Key Action PObj)
    (heuristic : Search.Heuristic Key) (maxDepth fuel : nat) (reset : bool)
    (w w' : Search.World PObj) (ans : Search.Answer Action) (i : nat),
    let bound := Nat.max 1 (Search.getMaxMemoryUse (Search.globals w')) in
    (∀ st0 st, Search.breadthSearch P fuel w = Done (ans, w') →
       Search.start P w = Ok st0 →
       iter (Search.bfs_step P) i st0 = Some st →
       length (Search.fringe st) ≤ bound) ∧
    (∀ st0 st, Search.depthSearch P fuel w = Done (ans, w') →
       Search.start P w = Ok st0 →
       iter (Search.dfs_step P) i st0 = Some st →
       length (Search.fringe st) ≤ bound) ∧
    (∀ st0 st,
       Search.depthLimitedSearch P fuel maxDepth reset w = Done (ans, w') →
       Search.dls_start P reset w = Ok st0 →
       iter (Search.dls_step P maxDepth) i st0 = Some st →
       length (Search.fringe st) ≤ bound) ∧
    (∀ st0 st, Search.aStarSearch P fuel heuristic w = Done (ans, w') →
       Search.astar_start P heuristic w = Ok st0 →
       iter (Search.astar_step P heuristic) i st0 = Some st →
       length (Search.fringe st) ≤ bound).
Proof.
  intros Key Action PObj ? ? ? ? ? P heuristic maxDepth fuel reset w w' ans i.
  simpl. repeat split; intros st0 st Hr Hst0 Hi.
  - apply (enter_within length _ (Search.bfs_step P) st0 fuel (ans, w') i st
             Hst0); try done.
    + unfold Search.start in Hst0. destruct (Search.getState P _); [|done].
      injection Hst0 as <-. unfold within. simpl. lia.
    + apply bfs_step_within.
    + apply bfs_returns_locals.
  - apply (enter_within length _ (Search.dfs_step P) st0 fuel (ans, w') i st
             Hst0); try done.
    + unfold Search.start in Hst0. destruct (Search.getState P _); [|done].
      injection Hst0 as <-. unfold within. simpl. lia.
    + apply dfs_step_within.
    + apply dfs_returns_locals.
  - apply (enter_within length _ (Search.dls_step P maxDepth) st0 fuel
             (ans, w') i st Hst0); try done.
    + unfold Search.dls_start in Hst0. destruct (Search.getState P _); [|done].
      injection Hst0 as <-. unfold within. simpl. lia.
    + apply dls_step_within.
    + apply dls_returns_locals.
  - apply (enter_within length _ (Search.astar_step P heuristic) st0 fuel
             (ans, w') i st Hst0); try done.
    + unfold Search.astar_start in Hst0.
      destruct (Search.getState P _); [|done]. simpl in Hst0.
      injection Hst0 as <-. unfold within. simpl. lia.
    + apply astar_step_within.
    + apply astar_returns_locals.
Qed.

(** ** The depth limit *)

Section DepthLimit.
Context {Key Action PObj : Type} `{Countable Key} `{EqDecision Action}.
Context `{PyLt Key} `{PyLt Action}.
Context (P : Search.Problem Key Action PObj).

(** Every fringe entry carries the length of its path as its depth, and
    none lies beyond the limit. *)
Definition limited (maxDepth : nat)
  (st : Search.State Key PObj (list (Search.DNode Key Action))) : Prop :=
  ∀ n d, (n, d) ∈ Search.fringe st → depth n = d ∧ d ≤ maxDepth.

Lemma dls_step_limited maxDepth st st' :
  limited maxDepth st → Search.dls_step P maxDepth st = Continue st' →
  limited maxDepth st'.
Proof.
  intros Hl (n & d & rest & Hf & _ & Hcase)%dls_step_Continue m e Hin.
  assert (∀ m e, (m, e) ∈ rest → depth m = e ∧ e ≤ maxDepth) as Hrest.
  { intros m' e' Hin'. apply Hl. rewrite Hf. apply elem_of_app. by left. }
  destruct Hcase as [[_ (_ & Hf' & _)]|(_ & Hd & succs & o & _ & _ & Hf' & _)];
    rewrite Hf' in Hin; [by apply Hrest|].
  apply elem_of_app in Hin as [Hin|Hin]; [by apply Hrest|].
  apply list_elem_of_fmap in Hin as (c & [= -> ->] & Hc).
  destruct (Hl n d) as [Hn _]; [rewrite Hf; apply elem_of_app; right; left|].
  rewrite (children_depth _ _ _ _ Hc), Hn. lia.
Qed.

Lemma depthLimitedSearch_limited fuel maxDepth reset w path c n w' :
  Search.depthLimitedSearch P fuel maxDepth reset w = Done ((path, c, n), w') →
  length path ≤ maxDepth.
Proof.
  unfold Search.depthLimitedSearch, Search.enter.
  destruct (Search.dls_start P reset w) as [st0|] eqn:Hst0; [|done].
  intros (i & st & _ & Hi & Hs)%run_Done.
  assert (limited maxDepth st0) as Hl0.
  { unfold Search.dls_start in Hst0. destruct (Search.getState P _); [|done].
    injection Hst0 as <-. intros m e [= -> ->]%list_elem_of_singleton.
    split; [done|lia]. }
  pose proof (iter_invariant _ _ (dls_step_limited maxDepth) _ _ _ Hl0 Hi) as Hl.
  apply dls_step_Return in Hs
    as [[_ [= -> _ _ _]]|(m & d & rest & Hf & _ & [= -> _ _ _])]; [simpl; lia|].
  destruct (Hl m d) as [Hm Hd]; [rewrite Hf; apply elem_of_app; right; left|].
  unfold depth in Hm. lia.
Qed.

Lemma id_loop_limited fuel k state maxDepth depth0 acc w path c n w' :
  Search.id_loop P fuel k state maxDepth depth0 acc w = Done ((path, c, n), w') →
  length path ≤ maxDepth.
Proof.
  revert depth0 acc w; induction k as [|k IH]; intros depth0 acc w; simpl.
  - case_decide; [done|]. intros [= <- _ _ _]. simpl. lia.
  - case_decide as Hd; [|intros [= <- _ _ _]; simpl; lia].
    destruct (Search.setState P state _) as [o|]; [|done].
    destruct (Search.depthLimitedSearch P fuel depth0 false _)
      as [[[[p1 c1] e1] w1]| |] eqn:Hdls; try done.
    case_decide.
    + intros [= <- _ _ _]. apply depthLimitedSearch_limited in Hdls. lia.
    + apply IH.
Qed.

End DepthLimit.



(** ** What a failure says, and how much a search expands *)

Section Exhaustion.
Context {Key Action PObj : Type} `{Countable Key} `{EqDecision Action}.
Context `{PyLt Key} `{PyLt Action}.
Context (P : Search.Problem Key Action PObj) (M : Model P).
Context (heuristic : Search.Heuristic Key) (start : Key).

Abbreviation XNode := (Search.Node Key Action).
Abbreviation XState := (Search.State Key PObj).

(** A walk from the start to a state that is not expanded passes a fringe
    entry. *)
Definition reaching (nodes : list XNode) (visited : gset Key) : Prop :=
  ∀ p c k, walk P M start p c k → k ∉ visited →
    ∃ n p2 c2, n ∈ nodes ∧ walk P M (key n) p2 c2 k.

Definition open_ended (nodes : list XNode) (visited : gset Key) : Prop :=
  covered P M nodes visited ∧ reaching nodes visited.

Lemma open_ended_pop nodes visited n rest nodes' visited' :
  nodes ≡ₚ n :: rest → open_ended nodes visited →
  ((key n ∈ visited) ∧ nodes' ≡ₚ rest ∧ visited' = visited) ∨
  (visited' = {[key n]} ∪ visited ∧
   nodes' ≡ₚ rest ++ children visited' n (m_succ P M (key n))) →
  open_ended nodes' visited'.
Proof.
  intros Hperm [Hcov Hreach] Hcase.
  assert (key n ∈ visited') as Hkn'.
  { destruct Hcase as [(? & _ & ->)|(-> & _)]; [done|].
    apply elem_of_union. left. by apply elem_of_singleton. }
  assert (∀ k, k ∈ visited → k ∈ visited') as Hsub.
  { intros k Hk. destruct Hcase as [(_ & _ & ->)|(-> & _)]; [done|].
    apply elem_of_union. by right. }
  assert (∀ m, m ∈ rest → m ∈ nodes') as Hrest.
  { intros m Hm. destruct Hcase as [(_ & -> & _)|(_ & ->)]; [done|].
    apply elem_of_app. by left. }
  assert (∀ m, m ∈ nodes → m = n ∨ m ∈ rest) as Hmem.
  { intros m Hm. rewrite Hperm in Hm. by apply elem_of_cons in Hm. }
  assert (covered P M nodes' visited') as Hcov'.
  { intros u s Hu Hs.
    destruct (decide (s.1.1.1 ∈ visited')) as [|Hns]; [by left|]. right.
    assert (u ∈ visited → ∃ m, m ∈ nodes' ∧ key m = s.1.1.1) as Hold.
    { intros Hu'. destruct (Hcov u s Hu' Hs) as [Hin|(m & Hin & Hkey)].
      - destruct Hns. by apply Hsub.
      - destruct (Hmem m Hin) as [->|Hm']; [destruct Hns; by rewrite <- Hkey|].
        exists m. split; [by apply Hrest|done]. }
    destruct Hcase as [(_ & _ & Hvis)|(Hvis & Hn')].
    - apply Hold. by rewrite <- Hvis.
    - rewrite Hvis in Hu. apply elem_of_union in Hu as [Hu|Hu]; [|by apply Hold].
      apply elem_of_singleton in Hu. subst u.
      exists (child_node n s). split; [|done]. rewrite Hn'.
      apply elem_of_app. right. apply elem_of_children. by exists s. }
  split; [done|]. intros p c k Hw Hk.
  assert (k ∉ visited) as Hk' by (intros Hin; by apply Hk, Hsub).
  destruct (Hreach p c k Hw Hk') as (m & p2 & c2 & Hm & Hw2).
  destruct (Hmem m Hm) as [->|Hm'].
  - destruct (covered_cross P M _ _ _ _ _ _ Hcov' Hw2 Hkn' Hk)
      as (m & q & c' & Hin & Hq & _).
    by exists m, q, c'.
  - exists m, p2, c2. split; [by apply Hrest|done].
Qed.

Lemma open_ended_start (n : XNode) :
  key n = start → open_ended [n] ∅.
Proof.
  intros Hk. split.
  - intros u s Hu. set_solver.
  - intros p c k Hw _. exists n, p, c. split; [left|]. by rewrite Hk.
Qed.

Lemma visit_open_ended (st st' : XState (list XNode)) n rest :
  modelled P M start id st → Search.fringe st ≡ₚ n :: rest →
  open_ended (Search.fringe st) (Search.visited st) →
  Search.visit P st n rest = Continue st' →
  open_ended (Search.fringe st') (Search.visited st').
Proof.
  intros [Hinv Hsound] Hperm Hopen Hv. unfold id in Hsound.
  apply (open_ended_pop _ _ n rest _ _ Hperm Hopen).
  apply visit_Continue in Hv as [_ Hcase].
  destruct Hcase as [[Hk (_ & Hf' & Hvis & _)]
                    |[Hk (succs & o & Hs & _ & Hf' & Hvis & _)]].
  - left. by rewrite Hf', Hvis.
  - right. split; [done|].
    assert (m_states P M (key n)) as Hkn.
    { eapply sound_state_states; [exact Hsound|]. rewrite Hperm. left. }
    destruct (m_getSuccessors P M _ _ Hinv Hkn) as (o' & Hs' & _).
    pose proof (eq_trans (eq_sym Hs) Hs') as Heq. inversion Heq; subst.
    by rewrite Hf', Hvis.
Qed.

Lemma dfs_step_open_ended (st st' : XState (list XNode)) :
  modelled P M start id st →
  open_ended (Search.fringe st) (Search.visited st) →
  Search.dfs_step P st = Continue st' →
  open_ended (Search.fringe st') (Search.visited st').
Proof.
  intros Hm Hopen (n & rest & Hf & Hv)%dfs_step_Continue.
  eapply visit_open_ended; [done| |done..].
  rewrite Hf. by rewrite <- Permutation_cons_append.
Qed.

Lemma astar_step_open_ended (st st' : XState (list (Z * XNode))) :
  modelled P M start (fmap snd) st → scored heuristic st →
  open_ended (Search.fringe st).*2 (Search.visited st) →
  Search.astar_step P heuristic st = Continue st' →
  open_ended (Search.fringe st').*2 (Search.visited st').
Proof.
  intros [Hinv Hsound] Hsc Hopen
    (n & score & rest & Hpop & _ & Hcase)%astar_step_Continue.
  destruct (scored_pop heuristic _ _ _ _ Hsc Hpop) as (Hrest & Hperm & _ & _).
  assert ((Search.fringe st).*2 ≡ₚ n :: rest.*2) as Hperm2.
  { by rewrite Hperm. }
  apply (open_ended_pop _ _ n (rest.*2) _ _ Hperm2 Hopen).
  destruct Hcase as [[Hk (_ & Hf' & Hvis & _)]
                |(Hk & succs & o & inF & inF' & Hs & Hfold & _ & Hvis & _)].
  - left. split; [done|]. by rewrite Hf', Hvis.
  - right. split; [done|].
    assert (m_states P M (key n)) as Hkn.
    { eapply sound_state_states; [exact Hsound|]. rewrite Hperm2. left. }
    destruct (m_getSuccessors P M _ _ Hinv Hkn) as (o' & Hs' & _).
    pose proof (eq_trans (eq_sym Hs) Hs') as Heq. inversion Heq; subst.
    destruct (astar_push_succ_fold _ _ _ _ _ _ _ _ Hfold Hrest) as [_ Hperm'].
    rewrite Hperm', fmap_app, <-list_fmap_compose, Hvis.
    by rewrite list_fmap_id.
Qed.

(** When the fringe is empty, no state that is not expanded can be reached,
    and the expanded ones are no goals. *)
Lemma open_ended_nil visited p c g :
  sound_state P M start ([], visited) → open_ended [] visited →
  walk P M start p c g → m_goal P M g = false.
Proof.
  intros [_ Hvis] [_ Hreach] Hw.
  destruct (decide (g ∈ visited)) as [Hin|Hnin]; [by destruct (Hvis g Hin)|].
  destruct (Hreach p c g Hw Hnin) as (m & _ & _ & Hm & _).
  by apply elem_of_nil in Hm.
Qed.

Lemma depthSearch_failure fuel w path n w' p c g :
  m_inv P M (Search.problem w) →
  Search.getState P (Search.problem w) = Ok start →
  Search.depthSearch P fuel w = Done ((path, Inf, n), w') →
  walk P M start p c g → m_goal P M g = false.
Proof.
  intros Hinv Hk. unfold Search.depthSearch, Search.enter.
  destruct (Search.start P w) as [st0|] eqn:Hst0; [|done].
  intros (i & st & _ & Hi & Hs)%run_Done.
  pose proof (start_modelled P M start w st0 Hinv Hk Hst0) as Hm0.
  assert (open_ended (Search.fringe st0) (Search.visited st0)) as Ho0.
  { unfold Search.start in Hst0. rewrite Hk in Hst0. injection Hst0 as <-.
    by apply open_ended_start. }
  assert (modelled P M start id st ∧
          open_ended (Search.fringe st) (Search.visited st)) as [[_ Hsound] Ho].
  { apply (iter_invariant (Search.dfs_step P)
             (λ s, modelled P M start id s ∧
                   open_ended (Search.fringe s) (Search.visited s)))
      with i st0; [|done..].
    intros s s' [Hm Ho] Hc. split.
    - by destruct (dfs_round P M start s s' Hm Hc).
    - by eapply dfs_step_open_ended. }
  apply dfs_step_Return in Hs as [[Hnil _]|(m & rest & _ & Hv)].
  - unfold id in Hsound. rewrite Hnil in Hsound, Ho. by eapply open_ended_nil.
  - by apply visit_Return in Hv as [_ [= _ ? _ _]].
Qed.

Lemma aStarSearch_failure fuel w path n w' p c g :
  m_inv P M (Search.problem w) →
  Search.getState P (Search.problem w) = Ok start →
  Search.aStarSearch P fuel heuristic w = Done ((path, Inf, n), w') →
  walk P M start p c g → m_goal P M g = false.
Proof.
  intros Hinv Hk. unfold Search.aStarSearch, Search.enter.
  destruct (Search.astar_start P heuristic w) as [st0|] eqn:Hst0; [|done].
  intros (i & st & _ & Hi & Hs)%run_Done.
  pose proof (astar_start_modelled P M heuristic start w st0 Hinv Hk Hst0)
    as Hm0.
  assert (open_ended (Search.fringe st0).*2 (Search.visited st0)) as Ho0.
  { unfold Search.astar_start in Hst0. rewrite Hk in Hst0. simpl in Hst0.
    injection Hst0 as <-. by apply open_ended_start. }
  assert ((modelled P M start (fmap snd) st ∧ scored heuristic st) ∧
          open_ended (Search.fringe st).*2 (Search.visited st))
    as [[[_ Hsound] _] Ho].
  { apply (iter_invariant (Search.astar_step P heuristic)
             (λ s, (modelled P M start (fmap snd) s ∧ scored heuristic s) ∧
                   open_ended (Search.fringe s).*2 (Search.visited s)))
      with i st0; [|done..].
    intros s s' [[Hm Hsc] Ho] Hc. split.
    - by destruct (astar_round P M heuristic start s s' Hm Hsc Hc).
    - by eapply astar_step_open_ended. }
  apply astar_step_Return in Hs
    as [[Hnil _]|(m & score & rest & _ & _ & [=])].
  rewrite Hnil in Hsound, Ho. by eapply open_ended_nil.
Qed.

(** The expansions of a search are as many as the states in [visited],
    which are states of the graph. *)
Lemma expansions_bounded {F : Type} (nodes_of : F → list XNode)
  (step : XState F → step_result (XState F)
                       (Search.Answer Action * Search.World PObj))
  (Inv : XState F → Prop) (S : gset Key) (st0 : XState F) i st :
  (∀ k, m_states P M k → k ∈ S) →
  (∀ s, Inv s → modelled P M start nodes_of s) →
  (∀ s s', Inv s → step s = Continue s' → Inv s') →
  (∀ s s', step s = Continue s' → round_expands s s') →
  Inv st0 → Search.numExpanded st0 = size (Search.visited st0) →
  iter step i st0 = Some st →
  Search.numExpanded st ≤ size S.
Proof.
  intros Hfin Hmod Hstep Hexp Hm0 Hn0 Hi.
  destruct (expands_once_iter step st0 Hexp Hn0 i st Hi) as [-> _].
  pose proof (iter_invariant step _ Hstep _ _ _ Hm0 Hi) as Hinv.
  destruct (Hmod _ Hinv) as [_ [_ Hvis]].
  apply subseteq_size. intros k Hk. apply Hfin. by destruct (Hvis k Hk).
Qed.

End Exhaustion.

Lemma deadend_closed k s :
  k ∈ diamond_states → s ∈ DeadEnd.succs k → s.1.1.1 ∈ diamond_states.
Proof.
  unfold diamond_states, DeadEnd.succs. intros Hk Hs.
  repeat case_decide; subst; set_unfold in Hs; set_unfold;
    destruct_or?; subst; simpl; auto 10.
Qed.

Lemma deadend_flag k s :
  k ∈ diamond_states → s ∈ DeadEnd.succs k → s.2 = false.
Proof.
  unfold diamond_states, DeadEnd.succs. intros Hk Hs.
  repeat case_decide; subst; set_unfold in Hs;
    destruct_or?; subst; done.
Qed.

Definition deadend_model : Model DeadEnd.problem :=
  table_model DeadEnd.succs (λ _, false) diamond_states
    deadend_closed deadend_flag.

(** X4.  On a problem that behaves as a graph whose step costs are
    integers, a failure of [breadthSearch], [depthSearch] or [aStarSearch]
    (the cost [float("inf")]) means that no goal state can be reached from
    the start state.  (A sum of integer costs is never [float("inf")].) *)
Theorem failure_means_no_goal_reachable :
  ∀ (Key Action PObj : Type) `(Countable Key) `(EqDecision Action)
    `(PyLt Key) `(PyLt Action) (P : Search.Problem Key Action PObj)
    (M : Model P) (heuristic : Search.Heuristic Key) (fuel : nat)
    (w w' : Search.World PObj) (path : list Action) (n : nat) (start : Key)
    (p : list Action) (c : Z) (g : Key),
    m_inv P M (Search.problem w) →
    Search.getState P (Search.problem w) = Ok start →
    Search.breadthSearch P fuel w = Done ((path, Inf, n), w') ∨
    Search.depthSearch P fuel w = Done ((path, Inf, n), w') ∨
    Search.aStarSearch P fuel heuristic w = Done ((path, Inf, n), w') →
    walk P M start p c g → m_goal P M g = false.
Proof.
  intros Key Action PObj ? ? ? ? ? P M heuristic fuel w w' path n start p c g
         Hinv Hk [Hr|[Hr|Hr]] Hw.
  - destruct (m_goal P M g) eqn:Hg; [|done].
    by destruct (breadthSearch_shortest P M start _ _ _ _ _ _ _ _ _
                   Hinv Hk Hr Hw Hg).
  - by eapply (depthSearch_failure P M start).
  - by eapply (aStarSearch_failure P M heuristic start).
Qed.

Lemma failure_means_no_goal_reachable_witness :
  m_goal DeadEnd.problem deadend_model 1%Z = false.
Proof.
  apply (failure_means_no_goal_reachable Z Z Z _ _ _ _ DeadEnd.problem
           deadend_model Diamond.zero 3 DeadEnd.world
           (Search.mkWorld 0%Z (Search.mkMetrics 1 2)) [] 2 0%Z [1%Z]
           (1 + 0)%Z 1%Z).
  - change (0%Z ∈ diamond_states). apply (bool_decide_unpack _). vm_compute.
    exact I.
  - reflexivity.
  - left. vm_compute. reflexivity.
  - apply (walk_cons _ _ 0 1 1 1 false [] 0 1)%Z; [|apply walk_nil].
    change ((1, 1, 1, false)%Z ∈ DeadEnd.succs 0). vm_compute. left.
Defined.

(** X5.  On a problem that behaves as a graph whose states all lie in a
    finite set, [breadthSearch], [depthSearch], [depthLimitedSearch] and
    [aStarSearch] expand at most as many states as the set holds: the
    count they return is bounded by it. *)
Theorem expansions_at_most_states :
  ∀ (Key Action PObj : Type) `(Countable Key) `(EqDecision Action)
    `(PyLt Key) `(PyLt Action) (P : Search.Problem Key Action PObj)
    (M : Model P) (S : gset Key) (heuristic : Search.Heuristic Key)
    (fuel maxDepth : nat) (reset : bool) (w w' : Search.World PObj)
    (path : list Action) (c : cost) (n : nat),
    (∀ k, m_states P M k → k ∈ S) →
    m_inv P M (Search.problem w) →
    Search.breadthSearch P fuel w = Done ((path, c, n), w') ∨
    Search.depthSearch P fuel w = Done ((path, c, n), w') ∨
    Search.depthLimitedSearch P fuel maxDepth reset w
    = Done ((path, c, n), w') ∨
    Search.aStarSearch P fuel heuristic w = Done ((path, c, n), w') →
    n ≤ size S.
Proof.
  intros Key Action PObj ? ? ? ? ? P M S heuristic fuel maxDepth reset w w'
         path c n Hfin Hinv Hr.
  destruct (m_getState P M _ Hinv) as (start & Hk & _).
  destruct Hr as [Hr|[Hr|[Hr|Hr]]].
  - unfold Search.breadthSearch, Search.enter in Hr.
    destruct (Search.start P w) as [st0|] eqn:Hst0; [|done].
    apply run_Done in Hr as (i & st & _ & Hi & Hs).
    destruct (bfs_returns_locals P _ _ Hs) as [Hn _]. simpl in Hn. subst n.
    apply (expansions_bounded P M start id (Search.bfs_step P)
             (modelled P M start id) S st0 i st); try done.
    + intros s s' Hm Hc. by destruct (bfs_round P M start s s' Hm Hc).
    + apply bfs_step_expands.
    + by eapply start_modelled.
    + by eapply start_fresh.
  - unfold Search.depthSearch, Search.enter in Hr.
    destruct (Search.start P w) as [st0|] eqn:Hst0; [|done].
    apply run_Done in Hr as (i & st & _ & Hi & Hs).
    destruct (dfs_returns_locals P _ _ Hs) as [Hn _]. simpl in Hn. subst n.
    apply (expansions_bounded P M start id (Search.dfs_step P)
             (modelled P M start id) S st0 i st); try done.
    + intros s s' Hm Hc. by destruct (dfs_round P M start s s' Hm Hc).
    + apply dfs_step_expands.
    + by eapply start_modelled.
    + by eapply start_fresh.
  - unfold Search.depthLimitedSearch, Search.enter in Hr.
    destruct (Search.dls_start P reset w) as [st0|] eqn:Hst0; [|done].
    apply run_Done in Hr as (i & st & _ & Hi & Hs).
    destruct (dls_returns_locals P _ _ _ Hs) as [Hn _]. simpl in Hn. subst n.
    apply (expansions_bounded P M start dnodes (Search.dls_step P maxDepth)
             (modelled P M start dnodes) S st0 i st); try done.
    + intros s s' Hm Hc. by destruct (dls_round P M start _ s s' Hm Hc).
    + apply dls_step_expands.
    + by eapply dls_start_modelled.
    + by eapply dls_start_fresh.
  - unfold Search.aStarSearch, Search.enter in Hr.
    destruct (Search.astar_start P heuristic w) as [st0|] eqn:Hst0; [|done].
    apply run_Done in Hr as (i & st & _ & Hi & Hs).
    destruct (astar_returns_locals P _ _ _ Hs) as [Hn _]. simpl in Hn. subst n.
    apply (expansions_bounded P M start (fmap snd)
             (Search.astar_step P heuristic)
             (λ s, modelled P M start (fmap snd) s ∧ scored heuristic s)
             S st0 i st); try done.
    + by intros s [Hm _].
    + intros s s' [Hm Hsc] Hc.
      by destruct (astar_round P M heuristic start s s' Hm Hsc Hc).
    + apply astar_step_expands.
    + by eapply astar_start_modelled.
    + by eapply astar_start_fresh.
Qed.

Lemma expansions_at_most_states_witness : 4 ≤ size diamond_states.
Proof.
  apply (expansions_at_most_states Z Z Z _ _ _ _ Diamond.problem
           diamond_model diamond_states Diamond.zero 20 0 true Diamond.world
           (Search.mkWorld 0%Z (Search.mkMetrics 2 4)) [1; 3; 4]%Z (Fin 5) 4).
  - intros k Hk. exact Hk.
  - change (0%Z ∈ diamond_states). apply (bool_decide_unpack _). vm_compute.
    exact I.
  - left. vm_compute. reflexivity.
Defined.

(** X6.  On a problem that behaves as a graph whose step costs are
    integers, what any of the five entry points returns is sound: a cost
    other than [float("inf")] comes with a path that leads from the start
    state to a goal state and whose step costs add up to that cost, and
    the cost [float("inf")] comes with the empty path.  The problem object
    is left in a state of the graph. *)
Theorem returned_path_is_walk_to_goal :
  ∀ (Key Action PObj : Type) `(Countable Key) `(EqDecision Action)
    `(PyLt Key) `(PyLt Action) (P : Search.Problem Key Action PObj)
    (M : Model P) (heuristic : Search.Heuristic Key)
    (fuel maxDepth : nat) (reset : bool) (w w' : Search.World PObj)
    (path : list Action) (c : cost) (n : nat) (start : Key),
    m_inv P M (Search.problem w) →
    Search.getState P (Search.problem w) = Ok start →
    Search.breadthSearch P fuel w = Done ((path, c, n), w') ∨
    Search.depthSearch P fuel w = Done ((path, c, n), w') ∨
    Search.depthLimitedSearch P fuel maxDepth reset w
    = Done ((path, c, n), w') ∨
    Search.iterativeDeepening P fuel maxDepth w = Done ((path, c, n), w') ∨
    Search.aStarSearch P fuel heuristic w = Done ((path, c, n), w') →
    match c with
    | Fin x => ∃ g, walk P M start path x g ∧ m_goal P M g = true
    | Inf => path = []
    end ∧
    m_inv P M (Search.problem w').
Proof.
  intros Key Action PObj ? ? ? ? ? P M heuristic fuel maxDepth reset w w'
         path c n start Hinv Hk Hr.
  assert (answer_sound P M start (path, c, n) ∧ m_inv P M (Search.problem w'))
    as [Hsound Hinv'].
  { destruct Hr as [Hr|[Hr|[Hr|[Hr|Hr]]]].
    - by eapply breadthSearch_answer.
    - by eapply depthSearch_answer.
    - by eapply depthLimitedSearch_answer.
    - by eapply iterativeDeepening_answer.
    - by eapply aStarSearch_answer. }
  split; [|done]. by destruct c.
Qed.

Lemma returned_path_is_walk_to_goal_witness :
  (∃ g, walk Diamond.problem diamond_model 0%Z [2; 3; 4]%Z 6%Z g ∧
        m_goal Diamond.problem diamond_model g = true) ∧
  m_inv Diamond.problem diamond_model 0%Z.
Proof.
  apply (returned_path_is_walk_to_goal Z Z Z _ _ _ _ Diamond.problem
           diamond_model Diamond.zero 20 0 true Diamond.world
           (Search.mkWorld 0%Z (Search.mkMetrics 2 3)) [2; 3; 4]%Z (Fin 6) 3
           0%Z).
  - change (0%Z ∈ diamond_states). apply (bool_decide_unpack _). vm_compute.
    exact I.
  - reflexivity.
  - right. left. vm_compute. reflexivity.
Defined.

(** ** How a search ends on a finite graph *)

Section NoGoal.
Context {Key Action PObj : Type} `{Countable Key} `{EqDecision Action}.
Context `{PyLt Key} `{PyLt Action}.
Context (P : Search.Problem Key Action PObj) (M : Model P).
Context (heuristic : Search.Heuristic Key) (start : Key).
Context (S : gset Key).
Hypothesis Hfinite : ∀ k, m_states P M k → k ∈ S.

Abbreviation NResult := (Search.Answer Action * Search.World PObj)%type.
Abbreviation NNode := (Search.Node Key Action).

(** The loop ran [n] rounds from [init], found its fringe empty and
    returned the empty path, [float("inf")] and the count of that moment. *)
Definition emptied {X : Type}
  (init : result (Search.State Key PObj (list X)))
  (step : Search.State Key PObj (list X) →
          step_result (Search.State Key PObj (list X)) NResult)
  (r : outcome NResult) : Prop :=
  ∃ n st0 st,
    init = Ok st0 ∧ iter step n st0 = Some st ∧ Search.fringe st = [] ∧
    r = Done (([], Inf, Search.numExpanded st), Search.world st).

(** The loop ran [n] rounds from [init], removed a goal entry from the
    fringe and returned its path and cost. *)
Definition found {X : Type} (nodes_of : list X → list NNode)
  (init : result (Search.State Key PObj (list X)))
  (step : Search.State Key PObj (list X) →
          step_result (Search.State Key PObj (list X)) NResult)
  (r : outcome NResult) : Prop :=
  ∃ n st0 st e,
    init = Ok st0 ∧ iter step n st0 = Some st ∧
    e ∈ nodes_of (Search.fringe st) ∧ flag e = true ∧
    r = Done ((path e, Fin (gcost e), Search.numExpanded st), Search.world st).

Lemma enter_outcome {X : Type} (nodes_of : list X → list NNode)
  (init : result (Search.State Key PObj (list X)))
  (step : Search.State Key PObj (list X) →
          step_result (Search.State Key PObj (list X)) NResult)
  fuel r0 :
  (∀ st r, step st = Return r →
     (Search.fringe st = [] ∧
      r = (([], Inf, Search.numExpanded st), Search.world st)) ∨
     (∃ e, e ∈ nodes_of (Search.fringe st) ∧ flag e = true ∧
        r = ((path e, Fin (gcost e), Search.numExpanded st),
             Search.world st))) →
  Search.enter init step fuel = Done r0 →
  emptied init step (Search.enter init step fuel) ∨
  found nodes_of init step (Search.enter init step fuel).
Proof.
  intros Hret Hr. rewrite Hr. unfold Search.enter in Hr.
  destruct init as [st0|]; [|done].
  apply run_Done in Hr as (i & st & _ & Hi & Hs).
  destruct (Hret _ _ Hs) as [[Hf ->]|(e & He & Hflag & ->)].
  - left. exists i, st0, st. by repeat split.
  - right. exists i, st0, st, e. by repeat split.
Qed.

Lemma breadthSearch_outcome fuel w :
  m_inv P M (Search.problem w) →
  Search.getState P (Search.problem w) = Ok start →
  enough P M S ≤ fuel →
  emptied (Search.start P w) (Search.bfs_step P)
    (Search.breadthSearch P fuel w) ∨
  found id (Search.start P w) (Search.bfs_step P)
    (Search.breadthSearch P fuel w).
Proof.
  intros Hinv Hk Hfuel.
  destruct (breadthSearch_returns P M start S Hfinite fuel w Hinv Hk Hfuel)
    as [r Hr].
  apply (enter_outcome id _ _ fuel r); [|done].
  intros st r' [?|(m & rest & Hf & [Hflag ->]%visit_Return)]%bfs_step_Return;
    [by left|].
  right. exists m. split; [rewrite Hf; left|done].
Qed.

Lemma depthSearch_outcome fuel w :
  m_inv P M (Search.problem w) →
  Search.getState P (Search.problem w) = Ok start →
  enough P M S ≤ fuel →
  emptied (Search.start P w) (Search.dfs_step P)
    (Search.depthSearch P fuel w) ∨
  found id (Search.start P w) (Search.dfs_step P)
    (Search.depthSearch P fuel w).
Proof.
  intros Hinv Hk Hfuel.
  destruct (depthSearch_returns P M start S Hfinite fuel w Hinv Hk Hfuel)
    as [r Hr].
  apply (enter_outcome id _ _ fuel r); [|done].
  intros st r' [?|(m & rest & Hf & [Hflag ->]%visit_Return)]%dfs_step_Return;
    [by left|].
  right. exists m. split; [|done].
  rewrite Hf. apply elem_of_app. right. left.
Qed.

Lemma depthLimitedSearch_outcome fuel maxDepth reset w :
  m_inv P M (Search.problem w) →
  Search.getState P (Search.problem w) = Ok start →
  enough P M S ≤ fuel →
  emptied (Search.dls_start P reset w) (Search.dls_step P maxDepth)
    (Search.depthLimitedSearch P fuel maxDepth reset w) ∨
  found (fmap fst) (Search.dls_start P reset w) (Search.dls_step P maxDepth)
    (Search.depthLimitedSearch P fuel maxDepth reset w).
Proof.
  intros Hinv Hk Hfuel.
  destruct (depthLimitedSearch_returns P M start S Hfinite fuel maxDepth reset
              w Hinv Hk Hfuel) as [r Hr].
  apply (enter_outcome (fmap fst) _ _ fuel r); [|done].
  intros st r' [?|(m & d & rest & Hf & Hflag & ->)]%dls_step_Return;
    [by left|].
  right. exists m. split; [|done].
  apply list_elem_of_fmap. exists (m, d). split; [done|].
  refine (eq_ind_r (λ l, (m, d) ∈ l) _ Hf). apply elem_of_app. right. left.
Qed.

Lemma aStarSearch_outcome fuel w :
  orderable Key → orderable Action →
  m_inv P M (Search.problem w) →
  Search.getState P (Search.problem w) = Ok start →
  enough P M S ≤ fuel →
  emptied (Search.astar_start P heuristic w) (Search.astar_step P heuristic)
    (Search.aStarSearch P fuel heuristic w) ∨
  found (fmap snd) (Search.astar_start P heuristic w)
    (Search.astar_step P heuristic)
    (Search.aStarSearch P fuel heuristic w).
Proof.
  intros HK HA Hinv Hk Hfuel.
  destruct (aStarSearch_returns P M heuristic start S Hfinite fuel w
              HK HA Hinv Hk Hfuel) as [r Hr].
  apply (enter_outcome (fmap snd) _ _ fuel r); [|done].
  intros st r' [?|(m & sc & rest & Hpop & Hflag & ->)]%astar_step_Return;
    [by left|].
  right. exists m. split; [|done].
  unfold PriorityQueue.pop in Hpop.
  destruct (Heapq.heappop _) as [[[pr it] q]|] eqn:Hp; [|done].
  simpl in Hpop. injection Hpop as <- <- <-.
  apply heappop_Permutation in Hp. rewrite Hp. left.
Qed.

(** [iterativeDeepening]: every round ran without a path, or some round
    gave the path that is returned. *)
Lemma id_loop_outcome fuel k maxDepth depth acc w :
  m_inv P M (Search.problem w) → m_states P M start →
  enough P M S ≤ fuel → maxDepth + 1 ≤ k + depth →
  (∃ total w',
     rounds_without_path P fuel start maxDepth depth w total w' ∧
     Search.id_loop P fuel k start maxDepth depth acc w
     = Done (([], Inf, acc + total), w')) ∨
  (∃ p c n w',
     Search.id_loop P fuel k start maxDepth depth acc w
     = Done ((p, c, n), w') ∧ 0 < length p).
Proof.
  intros Hinv Hstart Hfuel. revert depth acc w Hinv.
  induction k as [|k IH]; intros depth acc w Hinv Hk.
  - left. exists 0, w. split; [apply rounds_over; lia|].
    simpl. case_decide; [lia|]. by rewrite Nat.add_0_r.
  - destruct (decide (depth ≤ maxDepth)) as [Hd|Hd].
    2: { left. exists 0, w. split; [apply rounds_over; lia|].
         simpl. case_decide; [lia|]. by rewrite Nat.add_0_r. }
    destruct (m_setState P M _ _ Hinv Hstart) as (o & Hset & Hinvo & Hko).
    destruct (depthLimitedSearch_returns P M start S Hfinite fuel depth false
                (Search.mkWorld o (Search.globals w)))
      as [[[[p c] e] w1] Hdls]; [done..|].
    destruct (depthLimitedSearch_answer P M start fuel depth false
                (Search.mkWorld o (Search.globals w)) _ w1 Hinvo Hko Hdls)
      as [_ Hinv1].
    simpl. case_decide; [|lia]. rewrite Hset, Hdls.
    case_decide as Hp.
    + right. by exists p, c, (acc + e), w1.
    + destruct p; [|simpl in Hp; lia].
      destruct (IH (depth + 1) (acc + e) w1 Hinv1)
        as [(total & w2 & Hr & Heq)|Hfound]; [lia| |by right].
      left. exists (e + total), w2. split; [by eapply rounds_next|].
      by rewrite Heq, Nat.add_assoc.
Qed.

Section Unbounded.
Hypothesis Hnone : ∀ p c k, walk P M start p c k → m_goal P M k = false.

Lemma sound_Inf p c n : answer_sound P M start (p, c, n) → c = Inf.
Proof.
  destruct c as [x|]; [|done]. intros (k & Hw & Hg).
  by rewrite (Hnone _ _ _ Hw) in Hg.
Qed.

Lemma breadthSearch_no_goal fuel w :
  m_inv P M (Search.problem w) →
  Search.getState P (Search.problem w) = Ok start →
  enough P M S ≤ fuel →
  emptied (Search.start P w) (Search.bfs_step P)
    (Search.breadthSearch P fuel w).
Proof.
  intros Hinv Hk Hfuel.
  destruct (breadthSearch_outcome fuel w Hinv Hk Hfuel)
    as [?|(n & st0 & st & e & _ & _ & _ & _ & Hr)]; [done|].
  destruct (breadthSearch_answer P M start _ _ _ _ Hinv Hk Hr) as [Hs _].
  by apply sound_Inf in Hs.
Qed.

Lemma depthSearch_no_goal fuel w :
  m_inv P M (Search.problem w) →
  Search.getState P (Search.problem w) = Ok start →
  enough P M S ≤ fuel →
  emptied (Search.start P w) (Search.dfs_step P)
    (Search.depthSearch P fuel w).
Proof.
  intros Hinv Hk Hfuel.
  destruct (depthSearch_outcome fuel w Hinv Hk Hfuel)
    as [?|(n & st0 & st & e & _ & _ & _ & _ & Hr)]; [done|].
  destruct (depthSearch_answer P M start _ _ _ _ Hinv Hk Hr) as [Hs _].
  by apply sound_Inf in Hs.
Qed.

Lemma aStarSearch_no_goal fuel w :
  orderable Key → orderable Action →
  m_inv P M (Search.problem w) →
  Search.getState P (Search.problem w) = Ok start →
  enough P M S ≤ fuel →
  emptied (Search.astar_start P heuristic w) (Search.astar_step P heuristic)
    (Search.aStarSearch P fuel heuristic w).
Proof.
  intros HK HA Hinv Hk Hfuel.
  destruct (aStarSearch_outcome fuel w HK HA Hinv Hk Hfuel)
    as [?|(n & st0 & st & e & _ & _ & _ & _ & Hr)]; [done|].
  destruct (aStarSearch_answer P M heuristic start _ _ _ _ Hinv Hk Hr)
    as [Hs _].
  by apply sound_Inf in Hs.
Qed.

End Unbounded.

Section Bounded.
Context (maxDepth : nat).
Hypothesis Hnone : ∀ p c k,
  walk P M start p c k → length p ≤ maxDepth → m_goal P M k = false.

Lemma depthLimitedSearch_no_goal fuel reset w :
  m_inv P M (Search.problem w) →
  Search.getState P (Search.problem w) = Ok start →
  enough P M S ≤ fuel →
  emptied (Search.dls_start P reset w) (Search.dls_step P maxDepth)
    (Search.depthLimitedSearch P fuel maxDepth reset w).
Proof.
  intros Hinv Hk Hfuel.
  destruct (depthLimitedSearch_outcome fuel maxDepth reset w Hinv Hk Hfuel)
    as [?|(n & st0 & st & e & _ & _ & _ & _ & Hr)]; [done|].
  destruct (depthLimitedSearch_answer P M start _ _ _ _ _ _ Hinv Hk Hr)
    as [(k & Hw & Hg) _].
  pose proof (depthLimitedSearch_limited P _ _ _ _ _ _ _ _ Hr) as Hlen.
  by rewrite (Hnone _ _ _ Hw Hlen) in Hg.
Qed.

Lemma id_loop_no_goal fuel k depth acc w :
  m_inv P M (Search.problem w) → m_states P M start →
  enough P M S ≤ fuel → maxDepth + 1 ≤ k + depth →
  ∃ total w',
    rounds_without_path P fuel start maxDepth depth w total w' ∧
    Search.id_loop P fuel k start maxDepth depth acc w
    = Done (([], Inf, acc + total), w').
Proof.
  intros Hinv Hstart Hfuel Hk.
  destruct (id_loop_outcome fuel k maxDepth depth acc w Hinv Hstart Hfuel Hk)
    as [?|(p & c & n & w' & Hr & Hp)]; [done|].
  destruct (id_loop_answer P M start _ _ _ _ _ _ _ _ Hinv Hstart Hr)
    as [Hs _].
  pose proof (id_loop_limited P _ _ _ _ _ _ _ _ _ _ _ Hr) as Hlen.
  destruct c as [x|]; simpl in Hs.
  - destruct Hs as (g & Hw & Hg). by rewrite (Hnone _ _ _ Hw Hlen) in Hg.
  - subst p. simpl in Hp. lia.
Qed.

End Bounded.

Lemma iterativeDeepening_outcome fuel maxDepth w :
  m_inv P M (Search.problem w) →
  Search.getState P (Search.problem w) = Ok start →
  enough P M S ≤ fuel →
  (∃ total w',
     rounds_without_path P fuel start maxDepth 1
       (Search.mkWorld (Search.problem w) (Search.mkMetrics 0 0)) total w' ∧
     Search.iterativeDeepening P fuel maxDepth w
     = Done (([], Inf, total), w')) ∨
  (∃ p c n w',
     Search.iterativeDeepening P fuel maxDepth w = Done ((p, c, n), w') ∧
     0 < length p).
Proof.
  intros Hinv Hk Hfuel. unfold Search.iterativeDeepening. simpl. rewrite Hk.
  apply (id_loop_outcome fuel maxDepth maxDepth 1 0); [done| |done|lia].
  destruct (m_getState P M _ Hinv) as (k & Hk' & Hs). congruence.
Qed.

Lemma iterativeDeepening_no_goal maxDepth fuel w :
  (∀ p c k, walk P M start p c k → length p ≤ maxDepth →
            m_goal P M k = false) →
  m_inv P M (Search.problem w) →
  Search.getState P (Search.problem w) = Ok start →
  enough P M S ≤ fuel →
  ∃ total w',
    rounds_without_path P fuel start maxDepth 1
      (Search.mkWorld (Search.problem w) (Search.mkMetrics 0 0)) total w' ∧
    Search.iterativeDeepening P fuel maxDepth w = Done (([], Inf, total), w').
Proof.
  intros Hnone Hinv Hk Hfuel. unfold Search.iterativeDeepening. simpl.
  rewrite Hk.
  apply (id_loop_no_goal maxDepth Hnone fuel maxDepth 1 0); [done| |done|lia].
  destruct (m_getState P M _ Hinv) as (k & Hk' & Hs). congruence.
Qed.

End NoGoal.

(** C4.  The entry points return a failure as a value: the empty path,
    [float("inf")] and the expansion count.

    - For every problem: when the fringe is empty after [n] rounds (so no
      goal entry was removed in them), [breadthSearch], [depthSearch],
      [depthLimitedSearch] and [aStarSearch] return the empty path,
      [float("inf")] and the expansion count of that moment; when every
      round of [iterativeDeepening] up to [maxDepth] yields an empty path,
      it returns the empty path, [float("inf")] and the sum of the rounds'
      counts.
    - On a problem that behaves as a graph with finitely many states, from
      some amount of fuel on, this is the one way a search ends without a
      goal entry: each of the four loops either removes a goal entry from
      its fringe and returns that entry's path and cost, or runs until its
      fringe is empty and returns that failure ([aStarSearch] on keys and
      actions that Python can order); [iterativeDeepening] either returns
      a non-empty path, or all its rounds ran, none yielded a path, and it
      returns the failure with the sum of their counts.
    - In particular, when no goal state can be reached from the start
      state, [breadthSearch], [depthSearch] and [aStarSearch] return the
      failure; when no goal state can be reached in [maxDepth] actions or
      fewer, so do [depthLimitedSearch] and [iterativeDeepening]. *)
Theorem no_goal_removed_returns_inf :
  ∀ (Key Action PObj : Type) `(Countable Key) `(EqDecision Action)
    `(PyLt Key) `(PyLt Action) (P : Search.Problem Key Action PObj)
    (heuristic : Search.Heuristic Key) (maxDepth : nat) (reset : bool)
    (w : Search.World PObj),
    (∀ n,
       (∀ st0 st, Search.start P w = Ok st0 →
          iter (Search.bfs_step P) n st0 = Some st → Search.fringe st = [] →
          Search.breadthSearch P (S n) w
          = Done (([], Inf, Search.numExpanded st), Search.world st)) ∧
       (∀ st0 st, Search.start P w = Ok st0 →
          iter (Search.dfs_step P) n st0 = Some st → Search.fringe st = [] →
          Search.depthSearch P (S n) w
          = Done (([], Inf, Search.numExpanded st), Search.world st)) ∧
       (∀ st0 st, Search.dls_start P reset w = Ok st0 →
          iter (Search.dls_step P maxDepth) n st0 = Some st →
          Search.fringe st = [] →
          Search.depthLimitedSearch P (S n) maxDepth reset w
          = Done (([], Inf, Search.numExpanded st), Search.world st)) ∧
       (∀ st0 st, Search.astar_start P heuristic w = Ok st0 →
          iter (Search.astar_step P heuristic) n st0 = Some st →
          Search.fringe st = [] →
          Search.aStarSearch P (S n) heuristic w
          = Done (([], Inf, Search.numExpanded st), Search.world st))) ∧
    (∀ fuel state total w',
       Search.getState P (Search.problem w) = Ok state →
       rounds_without_path P fuel state maxDepth 1
         (Search.mkWorld (Search.problem w) (Search.mkMetrics 0 0)) total w' →
       Search.iterativeDeepening P fuel maxDepth w
       = Done (([], Inf, total), w')) ∧
    (∀ (M : Model P) (states : gset Key) (start : Key),
       (∀ k, m_states P M k → k ∈ states) →
       m_inv P M (Search.problem w) →
       Search.getState P (Search.problem w) = Ok start →
       ∃ fuel, ∀ fuel', fuel ≤ fuel' →
         ((emptied (Search.start P w) (Search.bfs_step P)
             (Search.breadthSearch P fuel' w) ∨
           found id (Search.start P w) (Search.bfs_step P)
             (Search.breadthSearch P fuel' w)) ∧
          (emptied (Search.start P w) (Search.dfs_step P)
             (Search.depthSearch P fuel' w) ∨
           found id (Search.start P w) (Search.dfs_step P)
             (Search.depthSearch P fuel' w)) ∧
          (emptied (Search.dls_start P reset w) (Search.dls_step P maxDepth)
             (Search.depthLimitedSearch P fuel' maxDepth reset w) ∨
           found (fmap fst) (Search.dls_start P reset w)
             (Search.dls_step P maxDepth)
             (Search.depthLimitedSearch P fuel' maxDepth reset w)) ∧
          (orderable Key → orderable Action →
           emptied (Search.astar_start P heuristic w)
             (Search.astar_step P heuristic)
             (Search.aStarSearch P fuel' heuristic w) ∨
           found (fmap snd) (Search.astar_start P heuristic w)
             (Search.astar_step P heuristic)
             (Search.aStarSearch P fuel' heuristic w)) ∧
          ((∃ total w',
              rounds_without_path P fuel' start maxDepth 1
                (Search.mkWorld (Search.problem w) (Search.mkMetrics 0 0))
                total w' ∧
              Search.iterativeDeepening P fuel' maxDepth w
              = Done (([], Inf, total), w')) ∨
           (∃ p c n w',
              Search.iterativeDeepening P fuel' maxDepth w
              = Done ((p, c, n), w') ∧ 0 < length p))) ∧
         ((∀ p c k, walk P M start p c k → m_goal P M k = false) →
          emptied (Search.start P w) (Search.bfs_step P)
            (Search.breadthSearch P fuel' w) ∧
          emptied (Search.start P w) (Search.dfs_step P)
            (Search.depthSearch P fuel' w) ∧
          (orderable Key → orderable Action →
           emptied (Search.astar_start P heuristic w)
             (Search.astar_step P heuristic)
             (Search.aStarSearch P fuel' heuristic w))) ∧
         ((∀ p c k, walk P M start p c k → length p ≤ maxDepth →
                    m_goal P M k = false) →
          emptied (Search.dls_start P reset w) (Search.dls_step P maxDepth)
            (Search.depthLimitedSearch P fuel' maxDepth reset w) ∧
          ∃ total w',
            rounds_without_path P fuel' start maxDepth 1
              (Search.mkWorld (Search.problem w) (Search.mkMetrics 0 0))
              total w' ∧
            Search.iterativeDeepening P fuel' maxDepth w
            = Done (([], Inf, total), w'))).
Proof.
  intros Key Action PObj ? ? ? ? ? P heuristic maxDepth reset w.
  split; [|split].
  - intros n. split; [|split; [|split]].
    + intros st0 st Hst0 Hn Hf. eapply enter_emptied; [done..|].
      unfold Search.bfs_step. by rewrite Hf.
    + intros st0 st Hst0 Hn Hf. eapply enter_emptied; [done..|].
      unfold Search.dfs_step. by rewrite Hf.
    + intros st0 st Hst0 Hn Hf. eapply enter_emptied; [done..|].
      unfold Search.dls_step. by rewrite Hf.
    + intros st0 st Hst0 Hn Hf. eapply enter_emptied; [done..|].
      unfold Search.astar_step. by rewrite Hf.
  - intros fuel state total w' Hstate Hr. unfold Search.iterativeDeepening.
    simpl. rewrite Hstate.
    by rewrite (id_loop_without_path P _ _ _ _ _ _ _ _ 0 Hr) by lia.
  - intros M states start Hfinite Hinv Hk.
    exists (enough P M states). intros fuel Hfuel. split; [|split].
    + split; [by apply (breadthSearch_outcome P M start states)|].
      split; [by apply (depthSearch_outcome P M start states)|].
      split; [by apply (depthLimitedSearch_outcome P M start states)|].
      split; [intros HK HA;
              by apply (aStarSearch_outcome P M heuristic start states)|].
      by apply (iterativeDeepening_outcome P M start states).
    + intros Hnone.
      split; [by apply (breadthSearch_no_goal P M start states)|].
      split; [by apply (depthSearch_no_goal P M start states)|].
      intros HK HA. by apply (aStarSearch_no_goal P M heuristic start states).
    + intros Hnone.
      split; [by apply (depthLimitedSearch_no_goal P M start states)|].
      by apply (iterativeDeepening_no_goal P M start states).
Qed.

(** C4 on the dead end, where nothing is a goal: every entry point runs
    its fringe empty and returns the failure. *)
Lemma no_goal_removed_returns_inf_witness :
  ∃ fuel, ∀ fuel', fuel ≤ fuel' →
    (emptied (Search.start DeadEnd.problem DeadEnd.world)
       (Search.bfs_step DeadEnd.problem)
       (Search.breadthSearch DeadEnd.problem fuel' DeadEnd.world) ∧
     emptied (Search.start DeadEnd.problem DeadEnd.world)
       (Search.dfs_step DeadEnd.problem)
       (Search.depthSearch DeadEnd.problem fuel' DeadEnd.world) ∧
     emptied (Search.astar_start DeadEnd.problem Diamond.zero DeadEnd.world)
       (Search.astar_step DeadEnd.problem Diamond.zero)
       (Search.aStarSearch DeadEnd.problem fuel' Diamond.zero DeadEnd.world)) ∧
    (emptied (Search.dls_start DeadEnd.problem true DeadEnd.world)
       (Search.dls_step DeadEnd.problem 3)
       (Search.depthLimitedSearch DeadEnd.problem fuel' 3 true DeadEnd.world) ∧
     ∃ total w',
       rounds_without_path DeadEnd.problem fuel' 0%Z 3 1
         (Search.mkWorld 0%Z (Search.mkMetrics 0 0)) total w' ∧
       Search.iterativeDeepening DeadEnd.problem fuel' 3 DeadEnd.world
       = Done (([], Inf, total), w')).
Proof.
  destruct (no_goal_removed_returns_inf Z Z Z _ _ _ _ DeadEnd.problem
              Diamond.zero 3 true DeadEnd.world) as (_ & _ & Hgraph).
  destruct (Hgraph deadend_model diamond_states 0%Z) as [fuel Hfuel].
  - intros k Hk. exact Hk.
  - change (0%Z ∈ diamond_states). apply (bool_decide_unpack _). vm_compute.
    exact I.
  - reflexivity.
  - exists fuel. intros fuel' Hle.
    destruct (Hfuel fuel' Hle) as (_ & Hall & Hbounded). split.
    + destruct Hall as (Hb & Hd & Ha); [done|].
      split; [done|]. split; [done|].
      apply Ha; apply orderable_Z.
    + by apply Hbounded.
Defined.

(** ** The state of the problem object after a search *)

Section Anchored.
Context {Key Action PObj : Type} `{Countable Key} `{EqDecision Action}.
Context `{PyLt Key} `{PyLt Action}.
Context (P : Search.Problem Key Action PObj) (M : Model P).
Context (heuristic : Search.Heuristic Key) (start : Key).

Abbreviation HState := (Search.State Key PObj).

(** The problem object stands at the start state. *)
Definition anchored {F : Type} (st : HState F) : Prop :=
  Search.getState P (Search.problem (Search.world st)) = Ok start.

Lemma getSuccessors_anchored o k succs o' :
  m_inv P M o → m_states P M k →
  Search.getSuccessors P k o = Ok (succs, o') →
  Search.getState P o' = Search.getState P o.
Proof.
  intros Hinv Hk Hs.
  destruct (m_getSuccessors P M _ _ Hinv Hk) as (o1 & Hs1 & _ & Hg).
  congruence.
Qed.

Lemma visit_anchored (st st' : HState (list (Search.Node Key Action))) n rest :
  modelled P M start id st → n ∈ Search.fringe st → anchored st →
  Search.visit P st n rest = Continue st' → anchored st'.
Proof.
  intros [Hinv Hsound] Hin Ha Hv. unfold anchored in *.
  apply visit_Continue in Hv
    as [_ [[_ (-> & _)]|[_ (succs & o & Hs & -> & _)]]]; [done|].
  rewrite <- Ha. eapply getSuccessors_anchored; [done| |done].
  by eapply sound_state_states.
Qed.

Lemma bfs_step_anchored st st' :
  modelled P M start id st → anchored st →
  Search.bfs_step P st = Continue st' → anchored st'.
Proof.
  intros Hm Ha (n & rest & Hf & Hv)%bfs_step_Continue.
  eapply visit_anchored; [done| |done..]. rewrite Hf. left.
Qed.

Lemma dfs_step_anchored st st' :
  modelled P M start id st → anchored st →
  Search.dfs_step P st = Continue st' → anchored st'.
Proof.
  intros Hm Ha (n & rest & Hf & Hv)%dfs_step_Continue.
  eapply visit_anchored; [done| |done..]. rewrite Hf.
  apply elem_of_app. right. left.
Qed.

Lemma dls_step_anchored maxDepth st st' :
  modelled P M start dnodes st → anchored st →
  Search.dls_step P maxDepth st = Continue st' → anchored st'.
Proof.
  intros [Hinv Hsound] Ha
    (n & d & rest & Hf & _ & Hcase)%dls_step_Continue. unfold anchored in *.
  destruct Hcase as [[_ (-> & _)]|(_ & _ & succs & o & Hs & -> & _)]; [done|].
  rewrite <- Ha. eapply getSuccessors_anchored; [done| |done].
  eapply sound_state_states; [exact Hsound|]. unfold dnodes. rewrite Hf.
  rewrite fmap_app. apply elem_of_app. right. left.
Qed.

Lemma astar_step_anchored st st' :
  modelled P M start (fmap snd) st → scored heuristic st → anchored st →
  Search.astar_step P heuristic st = Continue st' → anchored st'.
Proof.
  intros [Hinv Hsound] Hsc Ha
    (n & score & rest & Hpop & _ & Hcase)%astar_step_Continue.
  unfold anchored in *.
  destruct (scored_pop heuristic _ _ _ _ Hsc Hpop) as (_ & Hperm & _ & _).
  destruct Hcase as [[_ (-> & _)]
                    |(_ & succs & o & ? & ? & Hs & _ & -> & _)]; [done|].
  rewrite <- Ha. eapply getSuccessors_anchored; [done| |done].
  eapply sound_state_states; [exact Hsound|]. rewrite Hperm. left.
Qed.

Lemma breadthSearch_anchored fuel w ans w' :
  m_inv P M (Search.problem w) →
  Search.getState P (Search.problem w) = Ok start →
  Search.breadthSearch P fuel w = Done (ans, w') →
  Search.getState P (Search.problem w') = Ok start.
Proof.
  intros Hinv Hk. unfold Search.breadthSearch, Search.enter.
  destruct (Search.start P w) as [st0|] eqn:Hst0; [|done].
  intros (i & st & _ & Hi & Hs)%run_Done.
  pose proof (start_modelled P M start w st0 Hinv Hk Hst0) as Hm0.
  assert (anchored st0) as Ha0.
  { unfold Search.start in Hst0. rewrite Hk in Hst0. by injection Hst0 as <-. }
  assert (modelled P M start id st ∧ anchored st) as [_ Ha].
  { apply (iter_invariant (Search.bfs_step P)
             (λ s, modelled P M start id s ∧ anchored s)) with i st0;
      [|done..].
    intros s s' [Hm Ha] Hc. split.
    - by destruct (bfs_round P M start s s' Hm Hc).
    - by eapply bfs_step_anchored. }
  destruct (bfs_returns_locals P _ _ Hs) as [_ Hw]. simpl in Hw. by subst w'.
Qed.

Lemma depthSearch_anchored fuel w ans w' :
  m_inv P M (Search.problem w) →
  Search.getState P (Search.problem w) = Ok start →
  Search.depthSearch P fuel w = Done (ans, w') →
  Search.getState P (Search.problem w') = Ok start.
Proof.
  intros Hinv Hk. unfold Search.depthSearch, Search.enter.
  destruct (Search.start P w) as [st0|] eqn:Hst0; [|done].
  intros (i & st & _ & Hi & Hs)%run_Done.
  pose proof (start_modelled P M start w st0 Hinv Hk Hst0) as Hm0.
  assert (anchored st0) as Ha0.
  { unfold Search.start in Hst0. rewrite Hk in Hst0. by injection Hst0 as <-. }
  assert (modelled P M start id st ∧ anchored st) as [_ Ha].
  { apply (iter_invariant (Search.dfs_step P)
             (λ s, modelled P M start id s ∧ anchored s)) with i st0;
      [|done..].
    intros s s' [Hm Ha] Hc. split.
    - by destruct (dfs_round P M start s s' Hm Hc).
    - by eapply dfs_step_anchored. }
  destruct (dfs_returns_locals P _ _ Hs) as [_ Hw]. simpl in Hw. by subst w'.
Qed.

Lemma depthLimitedSearch_anchored fuel maxDepth reset w ans w' :
  m_inv P M (Search.problem w) →
  Search.getState P (Search.problem w) = Ok start →
  Search.depthLimitedSearch P fuel maxDepth reset w = Done (ans, w') →
  Search.getState P (Search.problem w') = Ok start.
Proof.
  intros Hinv Hk. unfold Search.depthLimitedSearch, Search.enter.
  destruct (Search.dls_start P reset w) as [st0|] eqn:Hst0; [|done].
  intros (i & st & _ & Hi & Hs)%run_Done.
  pose proof (dls_start_modelled P M start reset w st0 Hinv Hk Hst0) as Hm0.
  assert (anchored st0) as Ha0.
  { unfold Search.dls_start in Hst0. rewrite Hk in Hst0.
    by injection Hst0 as <-. }
  assert (modelled P M start dnodes st ∧ anchored st) as [_ Ha].
  { apply (iter_invariant (Search.dls_step P maxDepth)
             (λ s, modelled P M start dnodes s ∧ anchored s)) with i st0;
      [|done..].
    intros s s' [Hm Ha] Hc. split.
    - by destruct (dls_round P M start maxDepth s s' Hm Hc).
    - by eapply dls_step_anchored. }
  destruct (dls_returns_locals P _ _ _ Hs) as [_ Hw]. simpl in Hw.
  by subst w'.
Qed.

Lemma aStarSearch_anchored fuel w ans w' :
  m_inv P M (Search.problem w) →
  Search.getState P (Search.problem w) = Ok start →
  Search.aStarSearch P fuel heuristic w = Done (ans, w') →
  Search.getState P (Search.problem w') = Ok start.
Proof.
  intros Hinv Hk. unfold Search.aStarSearch, Search.enter.
  destruct (Search.astar_start P heuristic w) as [st0|] eqn:Hst0; [|done].
  intros (i & st & _ & Hi & Hs)%run_Done.
  pose proof (astar_start_modelled P M heuristic start w st0 Hinv Hk Hst0)
    as Hm0.
  assert (anchored st0) as Ha0.
  { unfold Search.astar_start in Hst0. rewrite Hk in Hst0. simpl in Hst0.
    by injection Hst0 as <-. }
  assert ((modelled P M start (fmap snd) st ∧ scored heuristic st) ∧
          anchored st) as [_ Ha].
  { apply (iter_invariant (Search.astar_step P heuristic)
             (λ s, (modelled P M start (fmap snd) s ∧ scored heuristic s) ∧
                   anchored s)) with i st0; [|done..].
    intros s s' [[Hm Hsc] Ha] Hc. split.
    - by destruct (astar_round P M heuristic start s s' Hm Hsc Hc).
    - by eapply astar_step_anchored. }
  destruct (astar_returns_locals P _ _ _ Hs) as [_ Hw]. simpl in Hw.
  by subst w'.
Qed.

Lemma id_loop_anchored fuel k maxDepth depth0 acc w ans w' :
  m_inv P M (Search.problem w) → m_states P M start →
  Search.getState P (Search.problem w) = Ok start →
  Search.id_loop P fuel k start maxDepth depth0 acc w = Done (ans, w') →
  Search.getState P (Search.problem w') = Ok start.
Proof.
  revert depth0 acc w; induction k as [|k IH]; intros depth0 acc w Hinv Hst Hk;
    simpl.
  - case_decide; [done|]. by intros [= _ <-].
  - case_decide; [|by intros [= _ <-]].
    destruct (m_setState P M _ _ Hinv Hst) as (o & -> & Hinv' & Hk').
    destruct (Search.depthLimitedSearch P fuel depth0 false _)
      as [[[[p1 c1] e1] w1]| |] eqn:Hdls; try done.
    pose proof (depthLimitedSearch_anchored _ _ _
                  (Search.mkWorld o (Search.globals w)) _ _ Hinv' Hk' Hdls)
      as Hk1.
    destruct (depthLimitedSearch_answer P M start _ _ _
                (Search.mkWorld o (Search.globals w)) _ _ Hinv' Hk' Hdls)
      as [_ Hinv1].
    case_decide; [by intros [= _ <-]|]. by apply IH.
Qed.

End Anchored.

(** X7.  On a problem that behaves as a graph, each of the five entry
    points leaves the problem object in the state it started from:
    [getState()] gives after the search what it gave before, whatever the
    search returned. *)
Theorem search_leaves_problem_at_start :
  ∀ (Key Action PObj : Type) `(Countable Key) `(EqDecision Action)
    `(PyLt Key) `(PyLt Action) (P : Search.Problem Key Action PObj)
    (M : Model P) (heuristic : Search.Heuristic Key)
    (fuel maxDepth : nat) (reset : bool) (w w' : Search.World PObj)
    (ans : Search.Answer Action),
    m_inv P M (Search.problem w) →
    Search.breadthSearch P fuel w = Done (ans, w') ∨
    Search.depthSearch P fuel w = Done (ans, w') ∨
    Search.depthLimitedSearch P fuel maxDepth reset w = Done (ans, w') ∨
    Search.iterativeDeepening P fuel maxDepth w = Done (ans, w') ∨
    Search.aStarSearch P fuel heuristic w = Done (ans, w') →
    Search.getState P (Search.problem w')
    = Search.getState P (Search.problem w).
Proof.
  intros Key Action PObj ? ? ? ? ? P M heuristic fuel maxDepth reset w w' ans
         Hinv Hr.
  destruct (m_getState P M _ Hinv) as (start & Hk & Hst). rewrite Hk.
  destruct Hr as [Hr|[Hr|[Hr|[Hr|Hr]]]].
  - by eapply (breadthSearch_anchored P M start).
  - by eapply (depthSearch_anchored P M start).
  - by eapply (depthLimitedSearch_anchored P M start).
  - unfold Search.iterativeDeepening in Hr. simpl in Hr. rewrite Hk in Hr.
    by apply (id_loop_anchored P M start fuel maxDepth maxDepth 1 0
                (Search.mkWorld (Search.problem w) (Search.mkMetrics 0 0))
                ans w' Hinv Hst Hk).
  - by eapply (aStarSearch_anchored P M heuristic start).
Qed.

Lemma search_leaves_problem_at_start_witness :
  Search.getState Diamond.problem 0%Z
  = Search.getState Diamond.problem (Search.problem Diamond.world).
Proof.
  apply (search_leaves_problem_at_start Z Z Z _ _ _ _ Diamond.problem
           diamond_model Diamond.zero 20 5 true Diamond.world
           (Search.mkWorld 0%Z (Search.mkMetrics 2 7))
           ([2; 3; 4]%Z, Fin 6, 7)).
  - change (0%Z ∈ diamond_states). apply (bool_decide_unpack _). vm_compute.
    exact I.
  - right. right. right. left. vm_compute. reflexivity.
Defined.

(* ===================================================================== *)
(** * Further properties of the priority queue *)
(* ===================================================================== *)

Section QueueUse.
Context {Item : Type} `{EqDecision Item} `{PyLt Item}.

(** A call on a queue object. *)
Inductive call : Type :=
| Push (item : Item) (priority : Z)
| Pop.

(** The calls of [l] in order, from the queue [q]: the pairs the [pop]s
    returned, and the queue that is left. *)
Fixpoint calls (q : PriorityQueue.t) (l : list call)
  : result (list (Item * Z) * PriorityQueue.t) :=
  match l with
  | [] => Ok ([], q)
  | Push item priority :: l' =>
    do q' <- PriorityQueue.push q item priority; calls q' l'
  | Pop :: l' =>
    do (x, q') <- PriorityQueue.pop q;
    do (out, q'') <- calls q' l';
    Ok (x :: out, q'')
  end.

(** The entries the calls of [l] pushed. *)
Fixpoint pushed (l : list call) : list (Z * Item) :=
  match l with
  | [] => []
  | Push item priority :: l' => (priority, item) :: pushed l'
  | Pop :: l' => pushed l'
  end.

Lemma calls_heap l q out q' :
  is_heap fst q → calls q l = Ok (out, q') →
  is_heap fst q' ∧ q ++ pushed l ≡ₚ ((λ x, (x.2, x.1)) <$> out) ++ q'.
Proof.
  revert q out; induction l as [|[item priority|] l IH]; intros q out Hh; simpl.
  - intros [= <- <-]. by rewrite app_nil_r.
  - destruct (PriorityQueue.push q item priority) as [q1|] eqn:Hpush; [|done].
    simpl. intros Hc. destruct (push_spec _ _ _ _ Hh Hpush) as [Hh1 Hperm].
    destruct (IH _ _ Hh1 Hc) as [Hh' Hperm']. split; [done|].
    rewrite <- Hperm', Hperm. simpl. by rewrite Permutation_middle.
  - destruct (PriorityQueue.pop q) as [[[i p] q1]|] eqn:Hpop; [|done]. simpl.
    destruct (calls q1 l) as [[out1 q2]|] eqn:Hc; [|done]. simpl.
    intros [= <- <-]. destruct (pop_spec _ _ _ _ Hh Hpop) as (Hh1 & Hperm & _).
    destruct (IH _ _ Hh1 Hc) as [Hh' Hperm']. split; [done|].
    simpl. rewrite <- Hperm', Hperm. done.
Qed.

End QueueUse.

(** X8.  Whatever calls of [push], with integer priorities, and [pop] a
    queue has seen since it was created (none of which raised), it holds
    exactly the entries pushed and not yet popped, and the next [pop], when
    it returns, returns an entry whose priority is the least of all the
    queue holds and removes just that entry. *)
Theorem pop_returns_least_after_any_calls :
  ∀ (Item : Type) `(EqDecision Item) `(PyLt Item) (l : list (call (Item := Item)))
    (out : list (Item * Z)) (q q' : PriorityQueue.t) (item : Item)
    (priority : Z),
    calls PriorityQueue.init l = Ok (out, q) →
    pushed l ≡ₚ ((λ x, (x.2, x.1)) <$> out) ++ q ∧
    (PriorityQueue.pop q = Ok ((item, priority), q') →
     (∀ y, y ∈ q → (priority ≤ y.1)%Z) ∧
     q ≡ₚ (priority, item) :: q' ∧
     PriorityQueue.getSize q = S (PriorityQueue.getSize q')).
Proof.
  intros Item ? ? l out q q' item priority Hc.
  destruct (calls_heap l _ _ _ is_heap_nil Hc) as [Hh Hperm].
  split; [done|]. intros Hpop.
  destruct (pop_spec _ _ _ _ Hh Hpop) as (_ & Hperm' & Hmin).
  split; [done|]. split; [done|].
  unfold PriorityQueue.getSize. by rewrite Hperm'.
Qed.

Lemma pop_returns_least_after_any_calls_witness :
  pushed [Push 5%Z 2; Push 7%Z 1; Push 9%Z 3; Pop]%Z
  ≡ₚ ((λ x, (x.2, x.1)) <$> [(7, 1)%Z]) ++ [(2, 5); (3, 9)]%Z ∧
  (PriorityQueue.pop [(2, 5); (3, 9)]%Z = Ok ((5, 2)%Z, [(3, 9)%Z]) →
   (∀ y, y ∈ [(2, 5); (3, 9)]%Z → (2 ≤ y.1)%Z) ∧
   [(2, 5); (3, 9)]%Z ≡ₚ (2, 5)%Z :: [(3, 9)%Z] ∧
   PriorityQueue.getSize [(2, 5); (3, 9)]%Z
   = S (PriorityQueue.getSize [(3, 9)%Z])).
Proof.
  apply (pop_returns_least_after_any_calls Z _ _
           [Push 5%Z 2; Push 7%Z 1; Push 9%Z 3; Pop]%Z).
  vm_compute. reflexivity.
Defined.

(** X9.  On items Python can order, [push] never raises and makes
    [getSize()] one larger, and [pop] raises exactly when [isEmpty()] is
    true, and then [IndexError]; otherwise it returns and makes [getSize()]
    one smaller. *)
Theorem queue_raises_only_when_empty :
  ∀ (Item : Type) `(EqDecision Item) `(PyLt Item) (q : PriorityQueue.t)
    (item : Item) (priority : Z),
    orderable Item →
    (∃ q', PriorityQueue.push q item priority = Ok q' ∧
           PriorityQueue.getSize q' = S (PriorityQueue.getSize q)) ∧
    (PriorityQueue.isEmpty q = true →
     PriorityQueue.pop q = Raise IndexError) ∧
    (PriorityQueue.isEmpty q = false →
     ∃ x q', PriorityQueue.pop q = Ok (x, q') ∧
             PriorityQueue.getSize q = S (PriorityQueue.getSize q')).
Proof.
  intros Item ? ? q item priority Hord.
  destruct (push_pop_Ok q item priority Hord) as [[q1 Hpush] Hpop].
  split; [|split].
  - exists q1. split; [done|]. unfold PriorityQueue.getSize.
    apply heappush_Permutation in Hpush. by rewrite Hpush.
  - intros He. apply bool_decide_eq_true in He.
    destruct q; [done|discriminate].
  - intros He. apply bool_decide_eq_false in He.
    destruct Hpop as ([i p] & q2 & Hpop2); [by intros ->|].
    exists (i, p), q2. split; [done|]. unfold PriorityQueue.pop in Hpop2.
    destruct (Heapq.heappop q) as [[[p' i'] r]|] eqn:Hh; [|done].
    injection Hpop2 as <- <- <-. apply heappop_Permutation in Hh.
    unfold PriorityQueue.getSize. by rewrite Hh.
Qed.

Lemma queue_raises_only_when_empty_witness :
  (∃ q', PriorityQueue.push [(2, 5)%Z] 7%Z 1 = Ok q' ∧
         PriorityQueue.getSize q' = S (PriorityQueue.getSize [(2, 5)%Z])) ∧
  (PriorityQueue.isEmpty [(2, 5)%Z] = true →
   PriorityQueue.pop [(2, 5)%Z] = Raise IndexError) ∧
  (PriorityQueue.isEmpty [(2, 5)%Z] = false →
   ∃ x q', PriorityQueue.pop [(2, 5)%Z] = Ok (x, q') ∧
           PriorityQueue.getSize [(2, 5)%Z] = S (PriorityQueue.getSize q')).
Proof.
  apply (queue_raises_only_when_empty Z _ _ [(2, 5)%Z] 7%Z 1%Z orderable_Z).
Defined.

(* ===================================================================== *)
(** * Further properties of the sliding puzzle *)
(* ===================================================================== *)

(** X10.  [getState] and [setState] are inverse to each other on a puzzle
    that satisfies the class invariant: setting the state [getState]
    returned changes nothing, and after [setState(s)] on a valid state
    string [getState] returns [s] (and the invariant holds again). *)
Theorem getState_setState_round_trip :
  ∀ (R C : nat) (p : SlidingPuzzle.t) (s : string),
    wf R C p → valid_state R C s →
    (∃ k, SlidingPuzzle.getState p = Ok k ∧ SlidingPuzzle.setState k p = Ok p) ∧
    (∃ p', SlidingPuzzle.setState s p = Ok p' ∧
           SlidingPuzzle.getState p' = Ok s ∧ wf R C p').
Proof.
  intros R C p s Hwf (B & HB & Hperm & ->). split.
  - exists (state_string (SlidingPuzzle.board p)).
    by apply (setState_getState R C).
  - destruct (setState_valid R C p B) as (p' & Hset & Hwf' & Hb);
      [by destruct Hwf|done|done|].
    exists p'. split; [done|]. split; [|done].
    rewrite <- Hb. by apply (wf_getState R C).
Qed.

Lemma getState_setState_round_trip_witness :
  (∃ k, SlidingPuzzle.getState moved22 = Ok k ∧
        SlidingPuzzle.setState k moved22 = Ok moved22) ∧
  (∃ p', SlidingPuzzle.setState "0 1
2 3
" moved22 = Ok p' ∧
         SlidingPuzzle.getState p' = Ok "0 1
2 3
" ∧ wf 2 2 p').
Proof.
  exact (getState_setState_round_trip 2 2 moved22 _ wf_moved22 valid_solved22).
Defined.

(** X11.  [getSuccessors(s)] returns one entry for each move that
    [legalMoves] lists in the state [s], in that order: the state string
    after the move, the move, the cost 1 and whether the puzzle is solved
    after the move; every such state string is valid again. *)
Theorem getSuccessors_lists_legal_moves :
  ∀ (R C : nat) (p : SlidingPuzzle.t) (s : string),
    wf R C p → valid_state R C s →
    ∃ q moves succ,
      SlidingPuzzle.setState s p = Ok q ∧
      SlidingPuzzle.legalMoves q = Ok moves ∧
      SlidingPuzzle.getSuccessors s p = Ok (succ, p) ∧
      (λ e, e.1.1.2) <$> succ = moves ∧
      ∀ e, e ∈ succ →
        ∃ q', SlidingPuzzle.move e.1.1.2 q = Ok (1%Z, q') ∧
              SlidingPuzzle.getState q' = Ok e.1.1.1 ∧
              e.1.2 = 1%Z ∧ e.2 = SlidingPuzzle.isSolved q' ∧
              valid_state R C e.1.1.1.
Proof.
  intros R C p s Hwf (B & HB & Hperm & ->).
  destruct (getSuccessors_spec R C p B Hwf HB Hperm)
    as (q & moves & Hset & Hq & _ & Hmoves & Hall & Hsucc).
  exists q, moves, (successor q <$> moves). repeat (split; [done|]).
  assert (∀ a, a ∈ moves →
            ∃ q', SlidingPuzzle.move a q = Ok (1%Z, q') ∧ wf R C q' ∧
                  successor q a
                  = (state_string (SlidingPuzzle.board q'), a, 1%Z,
                     SlidingPuzzle.isSolved q')) as Hone.
  { intros a Ha.
    destruct (move_legal R C q a Hq (Hall a Ha)) as (q' & Hmove & Hq').
    exists q'. split; [done|]. split; [done|].
    unfold successor. by rewrite Hmove. }
  split.
  - rewrite <- list_fmap_compose. rewrite <- (list_fmap_id moves) at 2.
    apply list_fmap_ext. intros i a Hi.
    destruct (Hone a) as (q' & _ & _ & Heq); [by eapply list_elem_of_lookup_2|].
    simpl. by rewrite Heq.
  - intros e (a & -> & Ha)%list_elem_of_fmap.
    destruct (Hone a Ha) as (q' & Hmove & Hq' & ->). simpl.
    exists q'. split; [done|]. split; [by apply (wf_getState R C)|].
    split; [done|]. split; [done|]. by apply wf_valid.
Qed.

Lemma getSuccessors_lists_legal_moves_witness :
  ∃ q moves succ,
    SlidingPuzzle.setState "0 1
2 3
" moved22 = Ok q ∧
    SlidingPuzzle.legalMoves q = Ok moves ∧
    SlidingPuzzle.getSuccessors "0 1
2 3
" moved22 = Ok (succ, moved22) ∧
    (λ e, e.1.1.2) <$> succ = moves ∧
    ∀ e, e ∈ succ →
      ∃ q', SlidingPuzzle.move e.1.1.2 q = Ok (1%Z, q') ∧
            SlidingPuzzle.getState q' = Ok e.1.1.1 ∧
            e.1.2 = 1%Z ∧ e.2 = SlidingPuzzle.isSolved q' ∧
            valid_state 2 2 e.1.1.1.
Proof.
  exact (getSuccessors_lists_legal_moves 2 2 moved22 _
           wf_moved22 valid_solved22).
Defined.

(** ** Moves *)

Section PuzzleMoves.
Import SlidingPuzzle.
Context (R C : nat).

Lemma wf_pos p :
  wf R C p →
  ∃ i j, pos p = Some (Z.of_nat i, Z.of_nat j) ∧
         tile_at (board p) i j = Some 0%Z ∧ i < R ∧ j < C.
Proof.
  intros ((_ & _ & _ & _ & Hr) & _ & (i & j & Hpos & Hat) & _).
  destruct (tile_at_concat R C _ _ _ _ Hr Hat) as (_ & Hi & Hj).
  by exists i, j.
Qed.

Lemma index_inj r c i j :
  c < C → j < C → r * C + c = i * C + j → r = i ∧ c = j.
Proof. intros Hc Hj Heq. assert (r = i) by nia. subst. lia. Qed.

Lemma concat_rect_inj b1 b2 :
  rect R C b1 → rect R C b2 → concat b1 = concat b2 → b1 = b2.
Proof.
  revert b1 b2. induction R as [|R' IH]; intros b1 b2 H1 H2 Heq.
  - destruct H1 as [H1 _], H2 as [H2 _].
    destruct b1, b2; simpl in *; done.
  - destruct b1 as [|r1 b1]; [by destruct H1|].
    destruct b2 as [|r2 b2]; [by destruct H2|].
    apply rect_cons in H1 as [Hl1 H1], H2 as [Hl2 H2]. simpl in Heq.
    apply app_inj_1 in Heq as [-> Heq]; [|congruence].
    f_equal. by apply IH.
Qed.

(** What [move] returns for a move inside the board: the tile next to the
    blank and the blank have changed places. *)
Lemma move_result p a i j i' j' :
  wf R C p → pos p = Some (Z.of_nat i, Z.of_nat j) → a ∈ directions →
  Z.of_nat i' = (Z.of_nat i + a.1)%Z → Z.of_nat j' = (Z.of_nat j + a.2)%Z →
  i' < R → j' < C → i' * C + j' ≠ i * C + j →
  ∃ p' tile, move a p = Ok (1%Z, p') ∧ wf R C p' ∧
    pos p' = Some (Z.of_nat i', Z.of_nat j') ∧
    tile_at (board p) i' j' = Some tile ∧
    concat (board p')
    = <[i' * C + j' := 0%Z]> (<[i * C + j := tile]> (concat (board p))).
Proof.
  intros Hwf Hpos Ha Hi' Hj' HiR HjC Hne.
  destruct (move_wf R C p a i j i' j' Hwf Hpos Ha Hi' Hj' HiR HjC Hne)
    as (p' & Hmove & Hwf').
  pose proof Hwf as ((HR & HnR & HnC & Hb & Hr) & _ & (i0 & j0 & Hpos0 & Hat) & _).
  rewrite Hpos in Hpos0. injection Hpos0 as Hi0 Hj0.
  apply Nat2Z.inj in Hi0, Hj0. subst i0 j0.
  destruct (tile_at_concat R C _ _ _ _ Hr Hat) as (_ & Hi & Hj).
  destruct (tile_at_exists R C _ i' j' Hr HiR HjC) as [tile Htile].
  destruct (set2_concat R C (board p) i j tile Hr Hi Hj)
    as (b1 & Hset1 & Hr1 & Hc1).
  destruct (set2_concat R C b1 i' j' 0 Hr1 HiR HjC) as (b2 & Hset2 & Hr2 & Hc2).
  assert (Hrange :
    (Z.of_nat i' <? 0)%Z || (Z.of_nat i' >=? Z.of_nat R)%Z
    || (Z.of_nat j' <? 0)%Z || (Z.of_nat j' >=? Z.of_nat C)%Z = false).
  { rewrite !orb_false_iff, !Z.geb_leb, !Z.ltb_ge, !Z.leb_gt. lia. }
  exists p', tile. split; [done|]. split; [done|].
  revert Hmove. unfold move. rewrite decide_True by done. rewrite Hpos.
  cbv zeta. cbn [fst snd]. rewrite <- Hi', <- Hj', HnR, HnC, Hb, Hrange.
  rewrite get2_tile_at, Htile. cbn [bind].
  rewrite decide_False by lia. rewrite Hset1. cbn [bind]. rewrite Hset2.
  cbn [bind]. intros [= <-]. cbn [pos board]. by rewrite Hc2, Hc1.
Qed.

Lemma misplaced_from_nonneg place l : (0 ≤ misplaced_from place l)%Z.
Proof.
  revert place; induction l as [|x l IH]; intros place; simpl; [done|].
  specialize (IH (place + 1)%Z). case_decide; lia.
Qed.

Lemma misplaced_from_zero a l :
  misplaced_from (Z.of_nat a) l = 0%Z ↔ l = Z.of_nat <$> seq a (length l).
Proof.
  revert a; induction l as [|x l IH]; intros a; [done|].
  cbn [misplaced_from length seq fmap list_fmap].
  replace (Z.of_nat a + 1)%Z with (Z.of_nat (S a)) by lia.
  pose proof (misplaced_from_nonneg (Z.of_nat (S a)) l) as Hge.
  split.
  - intros Hz. case_decide as Hx; [lia|].
    subst x. f_equal. apply IH. lia.
  - intros [= -> Hl]. rewrite decide_False by (intros Hne; by apply Hne).
    apply IH in Hl. lia.
Qed.

End PuzzleMoves.

(** X12.  [isSolved()] is true exactly when the board is the one the
    constructor builds, tile [r*numC + c] in row [r] and column [c]: the
    count [numMisplaced] that [move] keeps up to date is 0 for no other
    board. *)
Theorem isSolved_iff_solved_board :
  ∀ (R C : nat) (p : SlidingPuzzle.t),
    wf R C p →
    (SlidingPuzzle.isSolved p = true
     ↔ SlidingPuzzle.board p = SlidingPuzzle.solved_board R C).
Proof.
  intros R C p ((_ & _ & _ & _ & Hr) & _ & _ & Hm).
  unfold SlidingPuzzle.isSolved. rewrite bool_decide_eq_true, Hm.
  pose proof Hr as (_ & _ & HC).
  rewrite (misplaced_from_zero 0), (rect_length_concat R C) by done.
  rewrite <- concat_solved_board. split.
  - apply concat_rect_inj with R C; [done|]. by apply rect_solved_board.
  - by intros ->.
Qed.

Lemma isSolved_iff_solved_board_witness :
  SlidingPuzzle.isSolved moved22 = true
  ↔ SlidingPuzzle.board moved22 = SlidingPuzzle.solved_board 2 2.
Proof. exact (isSolved_iff_solved_board 2 2 moved22 wf_moved22). Defined.

(** Any argument that [legalMoves] does not list makes [move] raise. *)
Lemma move_not_legal R C p moves a :
  wf R C p → SlidingPuzzle.legalMoves p = Ok moves → a ∉ moves →
  SlidingPuzzle.move a p = Raise ValueError.
Proof.
  intros Hwf Hmoves Hnot.
  destruct (wf_pos R C p Hwf) as (i & j & Hpos & _ & Hi & Hj).
  pose proof Hwf as ((HR & HnR & HnC & _) & _).
  unfold SlidingPuzzle.move.
  destruct (decide (a ∈ SlidingPuzzle.directions)) as [Ha|]; [|done].
  rewrite Hpos. cbv zeta. cbn [fst snd]. rewrite HnR, HnC.
  match goal with |- (if ?b then _ else _) = _ => assert (b = true) as -> end;
    [|done].
  revert Hmoves. unfold SlidingPuzzle.legalMoves. rewrite Hpos, HnR, HnC.
  intros [= <-].
  rewrite !orb_true_iff, !Z.geb_leb, !Z.ltb_lt, !Z.leb_le.
  unfold SlidingPuzzle.directions in Ha.
  repeat (apply elem_of_cons in Ha as [->|Ha]);
    [..|by apply elem_of_nil in Ha];
    simpl; repeat case_decide;
    first [solve [lia]
          |solve [exfalso; apply Hnot;
                  rewrite ?elem_of_app, ?elem_of_cons; auto 10]].
Qed.

(** X13.  Among the pairs of integers, [move] succeeds exactly on the
    moves [legalMoves] lists: such a move costs 1 and keeps the class
    invariant, and any other pair of integers (another direction, a
    direction that leads off the board, or no direction at all) raises
    [ValueError]. *)
Theorem move_succeeds_exactly_on_legalMoves :
  ∀ (R C : nat) (p : SlidingPuzzle.t) (a : Z * Z),
    wf R C p →
    ∃ moves, SlidingPuzzle.legalMoves p = Ok moves ∧
      (a ∈ moves → ∃ p', SlidingPuzzle.move a p = Ok (1%Z, p') ∧ wf R C p') ∧
      (a ∉ moves → SlidingPuzzle.move a p = Raise ValueError).
Proof.
  intros R C p a Hwf.
  destruct (legalMoves_legal R C p Hwf) as (moves & Hmoves & Hall).
  exists moves. split; [done|]. split.
  - intros Ha. by apply (move_legal R C p a Hwf), Hall.
  - by apply (move_not_legal R C).
Qed.

Lemma move_succeeds_exactly_on_legalMoves_witness :
  ∃ moves, SlidingPuzzle.legalMoves moved22 = Ok moves ∧
    ((0, 1)%Z ∈ moves →
     ∃ p', SlidingPuzzle.move (0, 1)%Z moved22 = Ok (1%Z, p') ∧ wf 2 2 p') ∧
    ((0, 1)%Z ∉ moves →
     SlidingPuzzle.move (0, 1)%Z moved22 = Raise ValueError).
Proof.
  exact (move_succeeds_exactly_on_legalMoves 2 2 moved22 (0, 1)%Z wf_moved22).
Defined.

(** The opposite direction undoes a legal move. *)
Lemma move_undo R C p moves a :
  wf R C p → SlidingPuzzle.legalMoves p = Ok moves → a ∈ moves →
  ∃ p', SlidingPuzzle.move a p = Ok (1%Z, p') ∧ wf R C p' ∧
        SlidingPuzzle.move (- a.1, - a.2)%Z p' = Ok (1%Z, p).
Proof.
  intros Hwf Hmoves Ha.
  destruct (wf_pos R C p Hwf) as (i & j & Hpos & Hat & Hi & Hj).
  pose proof Hwf as (Hs & _). pose proof Hs as (_ & _ & _ & _ & Hr).
  destruct (legalMoves_spec R C p i j Hs Hpos Hi Hj) as (moves0 & Hm0 & Hall).
  rewrite Hmoves in Hm0. injection Hm0 as <-.
  destruct (Hall a Ha) as (Hdir & i' & j' & Hi' & Hj' & HiR & HjC & Hne).
  destruct (move_result R C p a i j i' j' Hwf Hpos Hdir Hi' Hj' HiR HjC Hne)
    as (p' & tile & Hmove & Hwf' & Hpos' & Htile & Hc').
  pose proof Hwf' as (Hs' & _). pose proof Hs' as (_ & _ & _ & _ & Hr').
  assert ((- a.1, - a.2)%Z ∈ SlidingPuzzle.directions) as Hdir'.
  { unfold SlidingPuzzle.directions in *.
    repeat (apply elem_of_cons in Hdir as [->|Hdir]);
      [..|by apply elem_of_nil in Hdir]; simpl;
      rewrite ?elem_of_cons; auto 10. }
  destruct (move_result R C p' (- a.1, - a.2)%Z i' j' i j Hwf' Hpos' Hdir')
    as (p2 & tile2 & Hmove2 & Hwf2 & Hpos2 & Htile2 & Hc2);
    [simpl; lia|simpl; lia|done|done|done|].
  destruct (tile_at_concat R C _ _ _ _ Hr Hat) as (Hu & _ & _).
  destruct (tile_at_concat R C _ _ _ _ Hr Htile) as (Hv & _ & _).
  destruct (tile_at_concat R C _ _ _ _ Hr' Htile2) as (Hu2 & _ & _).
  assert (tile2 = tile) as ->.
  { rewrite Hc' in Hu2. rewrite list_lookup_insert_ne in Hu2 by done.
    rewrite list_lookup_insert_eq in Hu2 by (by eapply lookup_lt_Some).
    congruence. }
  assert (p2 = p) as ->.
  { apply (wf_eq R C); [done..|].
    pose proof Hwf2 as ((_ & _ & _ & _ & Hr2) & _).
    apply (concat_rect_inj R C); [done..|].
    rewrite Hc2, Hc'. apply list_eq. intros k.
    destruct (decide (k = i * C + j)) as [->|Hku].
    - rewrite list_lookup_insert_eq; [done|].
      rewrite !length_insert. by eapply lookup_lt_Some.
    - rewrite list_lookup_insert_ne by done.
      destruct (decide (k = i' * C + j')) as [->|Hkv].
      + rewrite list_lookup_insert_eq; [done|].
        rewrite !length_insert. by eapply lookup_lt_Some.
      + by rewrite !list_lookup_insert_ne by done. }
  by exists p'.
Qed.

(** X14.  A legal move can be taken back: after [move(a)], the opposite
    direction is legal, and [move] with it restores the puzzle exactly
    (board, blank position and [numMisplaced]). *)
Theorem move_back_restores :
  ∀ (R C : nat) (p : SlidingPuzzle.t) (moves : list (Z * Z)) (a : Z * Z),
    wf R C p → SlidingPuzzle.legalMoves p = Ok moves → a ∈ moves →
    ∃ p' moves',
      SlidingPuzzle.move a p = Ok (1%Z, p') ∧
      SlidingPuzzle.legalMoves p' = Ok moves' ∧
      (- a.1, - a.2)%Z ∈ moves' ∧
      SlidingPuzzle.move (- a.1, - a.2)%Z p' = Ok (1%Z, p).
Proof.
  intros R C p moves a Hwf Hmoves Ha.
  destruct (move_undo R C p moves a Hwf Hmoves Ha)
    as (p' & Hmove & Hwf' & Hback).
  destruct (legalMoves_legal R C p' Hwf') as (moves' & Hmoves' & _).
  exists p', moves'. repeat (split; [done|]). split; [|done].
  destruct (decide ((- a.1, - a.2)%Z ∈ moves')) as [Hin|Hnin]; [done|].
  pose proof (move_not_legal R C p' moves' _ Hwf' Hmoves' Hnin). congruence.
Qed.

Lemma move_back_restores_witness :
  ∃ p' moves',
    SlidingPuzzle.move (0, -1)%Z moved22 = Ok (1%Z, p') ∧
    SlidingPuzzle.legalMoves p' = Ok moves' ∧
    (- (0, -1)%Z.1, - (0, -1)%Z.2)%Z ∈ moves' ∧
    SlidingPuzzle.move (- (0, -1)%Z.1, - (0, -1)%Z.2)%Z p' = Ok (1%Z, moved22).
Proof.
  apply (move_back_restores 2 2 moved22 [(1, 0); (0, -1)]%Z (0, -1)%Z
           wf_moved22).
  - reflexivity.
  - right. left.
Defined.

(** X15.  A legal move exchanges the blank with the tile next to it in
    the direction of the move and leaves every other tile where it was;
    [getPos()] follows the blank, and [numMisplaced], which [move] adjusts
    by at most four steps of 1, is again the number of tiles that are not
    at their place. *)
Theorem move_swaps_blank_with_neighbour :
  ∀ (R C : nat) (p : SlidingPuzzle.t) (moves : list (Z * Z)) (a : Z * Z),
    wf R C p → SlidingPuzzle.legalMoves p = Ok moves → a ∈ moves →
    ∃ (i j i' j' : nat) (tile : Z) (p' : SlidingPuzzle.t),
      SlidingPuzzle.getPos p = Some (Z.of_nat i, Z.of_nat j) ∧
      Z.of_nat i' = (Z.of_nat i + a.1)%Z ∧
      Z.of_nat j' = (Z.of_nat j + a.2)%Z ∧
      tile_at (SlidingPuzzle.board p) i' j' = Some tile ∧
      SlidingPuzzle.move a p = Ok (1%Z, p') ∧
      SlidingPuzzle.getPos p' = Some (Z.of_nat i', Z.of_nat j') ∧
      tile_at (SlidingPuzzle.board p') i j = Some tile ∧
      tile_at (SlidingPuzzle.board p') i' j' = Some 0%Z ∧
      (∀ r c, r < R → c < C → (r, c) ≠ (i, j) → (r, c) ≠ (i', j') →
         tile_at (SlidingPuzzle.board p') r c
         = tile_at (SlidingPuzzle.board p) r c) ∧
      SlidingPuzzle.numMisplaced p'
      = misplaced_from 0 (concat (SlidingPuzzle.board p')).
Proof.
  intros R C p moves a Hwf Hmoves Ha.
  destruct (wf_pos R C p Hwf) as (i & j & Hpos & Hat & Hi & Hj).
  pose proof Hwf as (Hs & _). pose proof Hs as (_ & _ & _ & _ & Hr).
  destruct (legalMoves_spec R C p i j Hs Hpos Hi Hj) as (moves0 & Hm0 & Hall).
  rewrite Hmoves in Hm0. injection Hm0 as <-.
  destruct (Hall a Ha) as (Hdir & i' & j' & Hi' & Hj' & HiR & HjC & Hne).
  destruct (move_result R C p a i j i' j' Hwf Hpos Hdir Hi' Hj' HiR HjC Hne)
    as (p' & tile & Hmove & Hwf' & Hpos' & Htile & Hc').
  pose proof Hwf' as ((_ & _ & _ & _ & Hr') & _ & _ & Hm').
  destruct (tile_at_concat R C _ _ _ _ Hr Hat) as (Hu & _ & _).
  destruct (tile_at_concat R C _ _ _ _ Hr Htile) as (Hv & _ & _).
  exists i, j, i', j', tile, p'. repeat (split; [done|]).
  split; [|split; [|split; [|done]]].
  - apply (concat_tile_at R C); [done..|]. rewrite Hc'.
    rewrite list_lookup_insert_ne by done.
    apply list_lookup_insert_eq. by eapply lookup_lt_Some.
  - apply (concat_tile_at R C); [done..|]. rewrite Hc'.
    apply list_lookup_insert_eq. rewrite length_insert.
    by eapply lookup_lt_Some.
  - intros r c Hr0 Hc0 Hnu Hnv.
    destruct (tile_at_exists R C _ r c Hr Hr0 Hc0) as [x Hx]. rewrite Hx.
    destruct (tile_at_concat R C _ _ _ _ Hr Hx) as (Hk & _ & _).
    apply (concat_tile_at R C); [done..|]. rewrite Hc'.
    rewrite !list_lookup_insert_ne; [done| |].
    + intros Heq. apply Hnu. symmetry in Heq.
      by destruct (index_inj C _ _ _ _ Hc0 Hj Heq) as [-> ->].
    + intros Heq. apply Hnv. symmetry in Heq.
      by destruct (index_inj C _ _ _ _ Hc0 HjC Heq) as [-> ->].
Qed.

Lemma move_swaps_blank_with_neighbour_witness :
  ∃ (i j i' j' : nat) (tile : Z) (p' : SlidingPuzzle.t),
    SlidingPuzzle.getPos moved22 = Some (Z.of_nat i, Z.of_nat j) ∧
    Z.of_nat i' = (Z.of_nat i + (1, 0)%Z.1)%Z ∧
    Z.of_nat j' = (Z.of_nat j + (1, 0)%Z.2)%Z ∧
    tile_at (SlidingPuzzle.board moved22) i' j' = Some tile ∧
    SlidingPuzzle.move (1, 0)%Z moved22 = Ok (1%Z, p') ∧
    SlidingPuzzle.getPos p' = Some (Z.of_nat i', Z.of_nat j') ∧
    tile_at (SlidingPuzzle.board p') i j = Some tile ∧
    tile_at (SlidingPuzzle.board p') i' j' = Some 0%Z ∧
    (∀ r c, r < 2 → c < 2 → (r, c) ≠ (i, j) → (r, c) ≠ (i', j') →
       tile_at (SlidingPuzzle.board p') r c
       = tile_at (SlidingPuzzle.board moved22) r c) ∧
    SlidingPuzzle.numMisplaced p'
    = misplaced_from 0 (concat (SlidingPuzzle.board p')).
Proof.
  apply (move_swaps_blank_with_neighbour 2 2 moved22 [(1, 0); (0, -1)]%Z
           (1, 0)%Z wf_moved22).
  - reflexivity.
  - left.
Defined.

(** ** The states [setState] rejects *)

Section SetStateRejects.
Import SlidingPuzzle.

Lemma scan_tile_cases p N (i j : nat) sc newRow tile pre :
  Z.of_nat N = (numR p * numC p)%Z → scanned N sc pre →
  scan_tile p (Z.of_nat i) (Z.of_nat j) (sc, newRow) (py_str tile)
  = Raise ValueError ∨
  ((0 ≤ tile < Z.of_nat N)%Z ∧ tile ∉ pre).
Proof.
  intros HN (Hlen & Hseen & _). unfold scan_tile. rewrite py_int_py_str. simpl.
  destruct (Z.ltb_spec tile 0); [by left|].
  destruct (Z.geb_spec tile (numR p * numC p)); [by left|]. simpl.
  rewrite (Hseen (Z.to_nat tile)) by lia. rewrite Z2Nat.id by lia.
  destruct (decide (tile ∈ pre)).
  - rewrite bool_decide_eq_true_2 by done. by left.
  - right. split; [lia|done].
Qed.

Lemma scan_row_cases p N B (i j : nat) sc newRow tiles pre :
  blank p = 0%Z → Z.of_nat N = (numR p * numC p)%Z →
  scanned N sc pre → blank_found B sc pre → NoDup pre →
  (∀ k t, tiles !! k = Some t → tile_at B i (j + k) = Some t) →
  scan_row p (Z.of_nat i) (Z.of_nat j) (sc, newRow) (py_str <$> tiles)
  = Raise ValueError ∨
  ((∀ t, t ∈ tiles → (0 ≤ t < Z.of_nat N)%Z) ∧ NoDup (pre ++ tiles)).
Proof.
  intros Hblank HN. revert j sc newRow pre.
  induction tiles as [|t tiles IH]; intros j sc newRow pre Hsc Hfound Hpre Hat.
  - right. split; [|by rewrite app_nil_r].
    intros t Ht. by apply elem_of_nil in Ht.
  - rewrite fmap_cons, scan_row_cons.
    destruct (scan_tile_cases p N i j sc newRow t pre HN Hsc)
      as [->|[Hr Hfresh]]; [by left|].
    destruct (scan_tile_ok p N B i j sc newRow t pre) as (sc1 & -> & Hsc1 & Hf1);
      try done.
    { rewrite <-(Nat.add_0_r j). by apply Hat. }
    simpl. replace (Z.of_nat j + 1)%Z with (Z.of_nat (S j)) by lia.
    destruct (IH (S j) sc1 (newRow ++ [t]) (pre ++ [t])) as [->|[Hrange Hnd]];
      try done.
    { apply NoDup_app. split; [done|]. split; [|apply NoDup_singleton].
      by intros x Hx ->%list_elem_of_singleton. }
    { intros k x Hk. replace (S j + k) with (j + S k) by lia. by apply Hat. }
    + by left.
    + right. split.
      * intros x [->|Hx]%elem_of_cons; auto.
      * by rewrite <- app_assoc in Hnd.
Qed.

Lemma scan_rows_cases p N C B (i : nat) sc newBoard rows pre :
  blank p = 0%Z → Z.of_nat N = (numR p * numC p)%Z → 0 < C →
  scanned N sc pre → blank_found B sc pre → NoDup pre →
  (∀ k row, rows !! k = Some row →
     length row = C ∧ B !! (i + k) = Some row ∧
     ∃ old, board p !! (i + k) = Some old ∧ length old = C) →
  scan_rows p i (sc, newBoard) (body <$> rows) = Raise ValueError ∨
  ((∀ t, t ∈ concat rows → (0 ≤ t < Z.of_nat N)%Z) ∧
   NoDup (pre ++ concat rows)).
Proof.
  intros Hblank HN HC. revert i sc newBoard pre.
  induction rows as [|row rows IH];
    intros i sc newBoard pre Hsc Hfound Hpre Hrows.
  - right. split; [|by rewrite app_nil_r].
    intros t Ht. by apply elem_of_nil in Ht.
  - destruct (Hrows 0 row eq_refl) as (Hlen & HB & old & Hold & Holdlen).
    rewrite Nat.add_0_r in HB, Hold. rewrite fmap_cons, scan_rows_cons.
    rewrite split_ws_body by (intros ->; simpl in Hlen; lia).
    rewrite Hold. rewrite length_fmap. rewrite decide_False by lia.
    assert (∀ k t, row !! k = Some t → tile_at B i (0 + k) = Some t) as Hat.
    { intros k t Hk. unfold tile_at. by rewrite HB. }
    destruct (scan_row_cases p N B i 0 sc [] row pre Hblank HN Hsc Hfound
                Hpre Hat) as [Hrow|[Hrange Hnd]].
    { change (Z.of_nat 0) with 0%Z in Hrow. rewrite Hrow. by left. }
    destruct (scan_row_ok p N B i 0 sc [] row pre) as (sc1 & Hrow & Hsc1 & Hf1);
      try done.
    change (Z.of_nat 0) with 0%Z in Hrow. rewrite Hrow. cbn [bind app].
    destruct (IH (S i) sc1 (newBoard ++ [row]) (pre ++ row))
      as [->|[Hrange' Hnd']]; try done.
    { intros k r Hk. replace (S i + k) with (i + S k) by lia. by apply Hrows. }
    + by left.
    + right. simpl. split.
      * intros t [Ht|Ht]%elem_of_app; auto.
      * by rewrite app_assoc.
Qed.

(** Tiles in range without repetition, as many as there are places, are
    all the tiles. *)
Lemma in_range_NoDup_permuted R C B :
  rect R C B → (∀ t, t ∈ concat B → (0 ≤ t < Z.of_nat (R * C))%Z) →
  NoDup (concat B) → permuted R C B.
Proof.
  intros Hr Hrange Hnd. unfold permuted.
  apply submseteq_length_Permutation.
  - apply NoDup_submseteq; [done|]. intros x Hx.
    specialize (Hrange x Hx). apply list_elem_of_fmap.
    exists (Z.to_nat x). split; [lia|]. apply elem_of_seq. lia.
  - by rewrite length_fmap, length_seq, (rect_length_concat R C).
Qed.

End SetStateRejects.

(** X16.  [setState] validates the tiles of a state of the right shape: it
    succeeds (taking the board, with the class invariant) when the tiles
    are 0, …, numR*numC - 1, each once, and raises [ValueError] when a
    tile is out of that range or occurs twice. *)
Theorem setState_accepts_permutations_only :
  ∀ (R C : nat) (p : SlidingPuzzle.t) (B : list (list Z)),
    shaped R C p → rect R C B →
    (permuted R C B →
     ∃ p', SlidingPuzzle.setState (state_string B) p = Ok p' ∧
           SlidingPuzzle.board p' = B ∧ wf R C p') ∧
    (¬ permuted R C B →
     SlidingPuzzle.setState (state_string B) p = Raise ValueError).
Proof.
  intros R C p B Hs HB. split.
  - intros Hperm.
    destruct (setState_valid R C p B Hs HB Hperm) as (p' & Hset & Hwf & Hb).
    by exists p'.
  - intros Hnot. destruct Hs as (HR & HnR & HnC & Hblank & Hp).
    unfold SlidingPuzzle.setState.
    rewrite split_state_string, length_fmap.
    pose proof HB as (HlenB & HrowsB & HC). rewrite decide_False by lia.
    destruct (scan_rows_cases p (R * C) C B 0
                (SlidingPuzzle.mkScan
                   (replicate (Z.to_nat (SlidingPuzzle.numR p * SlidingPuzzle.numC p)) false)
                   0 None 0)
                [] B []) as [->|[Hrange Hnd]]; try done.
    + lia.
    + unfold scanned. simpl. split; [rewrite length_replicate; lia|].
      split; [|done].
      intros n Hn. by rewrite lookup_replicate_2 by lia.
    + apply not_elem_of_nil.
    + apply NoDup_nil_2.
    + intros k row Hk. simpl. split; [|split; [done|]].
      * by eapply (Forall_lookup_1 _ _ _ _ HrowsB).
      * destruct Hp as (Hlenp & Hrowsp & _).
        destruct (lookup_lt_is_Some_2 (SlidingPuzzle.board p) k) as [old Hold].
        { apply lookup_lt_Some in Hk. lia. }
        exists old. split; [done|]. by eapply (Forall_lookup_1 _ _ _ _ Hrowsp).
    + destruct Hnot. by apply in_range_NoDup_permuted.
Qed.

Lemma setState_accepts_permutations_only_witness :
  (permuted 2 2 [[1; 1]; [2; 3]]%Z →
   ∃ p', SlidingPuzzle.setState (state_string [[1; 1]; [2; 3]]%Z) moved22
         = Ok p' ∧
         SlidingPuzzle.board p' = [[1; 1]; [2; 3]]%Z ∧ wf 2 2 p') ∧
  (¬ permuted 2 2 [[1; 1]; [2; 3]]%Z →
   SlidingPuzzle.setState (state_string [[1; 1]; [2; 3]]%Z) moved22
   = Raise ValueError).
Proof.
  apply (setState_accepts_permutations_only 2 2 moved22 [[1; 1]; [2; 3]]%Z).
  - by destruct wf_moved22.
  - repeat split; try lia. by repeat constructor.
Defined.

(** X17.  [setState] on a state of the wrong size: a state with another
    number of rows raises [ValueError]; a state with the right number of
    rows but another number of tiles in each row raises [AttributeError],
    because the message of the [ValueError] it means to raise reads
    [self.numC], an attribute the object does not have. *)
Theorem setState_rejects_wrong_size :
  ∀ (R C R' C' : nat) (p : SlidingPuzzle.t) (B : list (list Z)),
    shaped R C p → rect R' C' B →
    (R' ≠ R → SlidingPuzzle.setState (state_string B) p = Raise ValueError) ∧
    (R' = R → C' ≠ C →
     SlidingPuzzle.setState (state_string B) p = Raise AttributeError).
Proof.
  intros R C R' C' p B (HR & HnR & HnC & Hblank & Hp) HB.
  pose proof HB as (HlenB & HrowsB & HC').
  unfold SlidingPuzzle.setState. rewrite split_state_string, length_fmap.
  split.
  - intros Hne. rewrite decide_True by lia. done.
  - intros -> Hne. rewrite decide_False by lia.
    destruct B as [|row B]; [simpl in HlenB; lia|].
    apply Forall_cons in HrowsB as [Hrow _].
    destruct Hp as (Hlenp & Hrowsp & _).
    destruct (SlidingPuzzle.board p) as [|old rest] eqn:Hboard;
      [simpl in Hlenp; lia|].
    apply Forall_cons in Hrowsp as [Hold _].
    rewrite fmap_cons, scan_rows_cons, Hboard. simpl.
    rewrite split_ws_body by (intros ->; simpl in Hrow; lia).
    rewrite length_fmap. rewrite decide_True by lia. done.
Qed.

Lemma setState_rejects_wrong_size_witness :
  (1 ≠ 2 → SlidingPuzzle.setState (state_string [[0; 1; 2]]%Z) moved22
           = Raise ValueError) ∧
  (1 = 2 → 3 ≠ 2 →
   SlidingPuzzle.setState (state_string [[0; 1; 2]]%Z) moved22
   = Raise AttributeError).
Proof.
  apply (setState_rejects_wrong_size 2 2 1 3 moved22 [[0; 1; 2]]%Z).
  - by destruct wf_moved22.
  - repeat split; try lia. by repeat constructor.
Defined.

(** ** The searches on a sliding puzzle *)

Section PuzzleStates.
Import SlidingPuzzle.
Context (R C : nat).

(** A flat list of tiles cut into rows of [C] tiles. *)
Fixpoint reshape (rows : nat) (l : list Z) : list (list Z) :=
  match rows with
  | 0 => []
  | S rows' => take C l :: reshape rows' (drop C l)
  end.

(** The valid state strings of an [R] by [C] puzzle: finitely many. *)
Definition all_states : gset string :=
  list_to_set ((λ l, state_string (reshape R l))
                 <$> permutations (Z.of_nat <$> seq 0 (R * C))).

Lemma reshape_concat rows B : rect rows C B → reshape rows (concat B) = B.
Proof.
  revert B; induction rows as [|rows IH]; intros B HB.
  - destruct HB as [HB _]. by destruct B.
  - destruct B as [|row B]; [by destruct HB|].
    apply rect_cons in HB as [Hlen HB]. simpl.
    rewrite <- Hlen, take_app_length, drop_app_length. f_equal. by apply IH.
Qed.

Lemma valid_state_all_states k : valid_state R C k → k ∈ all_states.
Proof.
  intros (B & HB & Hperm & ->). unfold all_states.
  rewrite elem_of_list_to_set, list_elem_of_fmap. exists (concat B).
  split; [by rewrite reshape_concat|].
  apply permutations_Permutation. by symmetry.
Qed.

Context (base : t) (Hbase : wf R C base).

Lemma puzzle_unit k s :
  m_states problem (puzzle_model R C base Hbase) k →
  s ∈ m_succ problem (puzzle_model R C base Hbase) k → s.1.2 = 1%Z.
Proof.
  intros Hk Hs. simpl in Hk, Hs.
  destruct (valid_state_wf R C base Hbase k Hk) as (q & Hq & ->).
  by destruct (puzzle_succ_elem R C base Hbase q s Hq Hs) as (a & q' & _ & _ & ->).
Qed.

(** A sequence of moves of the object is a walk in the graph of the
    puzzle. *)
Lemma replay_walk path q q' :
  wf R C q → replay path q = Ok q' →
  walk problem (puzzle_model R C base Hbase)
    (state_string (board q)) path (Z.of_nat (length path))
    (state_string (board q')) ∧ wf R C q'.
Proof.
  revert q; induction path as [|a path IH]; intros q Hq; simpl.
  - intros [= <-]. split; [apply walk_nil|done].
  - destruct (move a q) as [[c q1]|] eqn:Hmove; [|done]. simpl. intros Hrep.
    destruct (puzzle_succ_spec R C base Hbase q Hq) as (moves & Hmoves & Hall & Hsucc).
    destruct (decide (a ∈ moves)) as [Ha|Ha];
      [|by rewrite (move_not_legal R C q moves a Hq Hmoves Ha) in Hmove].
    destruct (move_legal R C q a Hq (Hall a Ha)) as (q2 & Hmove2 & Hq2).
    rewrite Hmove in Hmove2. injection Hmove2 as -> ->.
    destruct (IH q2 Hq2 Hrep) as [Hwalk Hq'']. split; [|done].
    replace (Z.of_nat (S (length path))) with (1 + Z.of_nat (length path))%Z
      by lia.
    eapply walk_cons; [|exact Hwalk]. simpl. rewrite Hsucc.
    apply list_elem_of_fmap. exists a. split; [|done].
    unfold successor. by rewrite Hmove.
Qed.

End PuzzleStates.

(** X18.  On a sliding puzzle that satisfies the class invariant, every
    entry point returns: there is a number of loop rounds within which
    [breadthSearch], [depthSearch], [depthLimitedSearch],
    [iterativeDeepening] and [aStarSearch] (its heap can order state
    strings and moves) come back with a result, solvable or not. *)
Theorem searches_return_on_sliding_puzzles :
  ∀ (R C : nat) (w : Search.World SlidingPuzzle.t)
    (heuristic : Search.Heuristic string),
    wf R C (Search.problem w) →
    ∃ fuel, ∀ fuel', fuel ≤ fuel' →
      (∃ r, Search.breadthSearch SlidingPuzzle.problem fuel' w = Done r) ∧
      (∃ r, Search.depthSearch SlidingPuzzle.problem fuel' w = Done r) ∧
      (∀ maxDepth reset,
         ∃ r, Search.depthLimitedSearch SlidingPuzzle.problem fuel' maxDepth
                reset w = Done r) ∧
      (∀ maxDepth,
         ∃ r, Search.iterativeDeepening SlidingPuzzle.problem fuel' maxDepth w
              = Done r) ∧
      (∃ r, Search.aStarSearch SlidingPuzzle.problem fuel' heuristic w = Done r).
Proof.
  intros R C w heuristic Hwf.
  set (M := puzzle_model R C (Search.problem w) Hwf).
  assert (∀ k, m_states SlidingPuzzle.problem M k → k ∈ all_states R C) as Hfin.
  { intros k Hk. by apply valid_state_all_states. }
  pose proof (wf_getState R C _ Hwf) as Hk.
  exists (enough SlidingPuzzle.problem M (all_states R C)). intros fuel Hfuel.
  split; [by eapply (breadthSearch_returns _ M)|].
  split; [by eapply (depthSearch_returns _ M)|].
  split; [intros; by eapply (depthLimitedSearch_returns _ M)|].
  split; [intros; by eapply (iterativeDeepening_returns _ M)|].
  eapply (aStarSearch_returns _ M); try done.
  - apply orderable_string.
  - apply orderable_pair; apply orderable_Z.
Qed.

Lemma searches_return_on_sliding_puzzles_witness :
  ∃ fuel, ∀ fuel', fuel ≤ fuel' →
    (∃ r, Search.breadthSearch SlidingPuzzle.problem fuel'
            (Search.mkWorld moved22 (Search.mkMetrics 0 0)) = Done r) ∧
    (∃ r, Search.depthSearch SlidingPuzzle.problem fuel'
            (Search.mkWorld moved22 (Search.mkMetrics 0 0)) = Done r) ∧
    (∀ maxDepth reset,
       ∃ r, Search.depthLimitedSearch SlidingPuzzle.problem fuel' maxDepth
              reset (Search.mkWorld moved22 (Search.mkMetrics 0 0)) = Done r) ∧
    (∀ maxDepth,
       ∃ r, Search.iterativeDeepening SlidingPuzzle.problem fuel' maxDepth
              (Search.mkWorld moved22 (Search.mkMetrics 0 0)) = Done r) ∧
    (∃ r, Search.aStarSearch SlidingPuzzle.problem fuel' Diamond.zero_string
            (Search.mkWorld moved22 (Search.mkMetrics 0 0)) = Done r).
Proof.
  exact (searches_return_on_sliding_puzzles 2 2
           (Search.mkWorld moved22 (Search.mkMetrics 0 0)) Diamond.zero_string
           wf_moved22).
Defined.

(** X19.  [breadthSearch] solves a sliding puzzle in the fewest moves:
    when some sequence of moves solves the puzzle, the path it returns
    solves it as well, is no longer than that sequence, and comes with its
    length as the cost. *)
Theorem breadthSearch_solves_puzzle_in_fewest_moves :
  ∀ (R C : nat) (w w' : Search.World SlidingPuzzle.t) (fuel : nat)
    (path : list (Z * Z)) (c : cost) (n : nat)
    (path' : list (Z * Z)) (q : SlidingPuzzle.t),
    wf R C (Search.problem w) →
    Search.breadthSearch SlidingPuzzle.problem fuel w = Done ((path, c, n), w') →
    SlidingPuzzle.replay path' (Search.problem w) = Ok q →
    SlidingPuzzle.isSolved q = true →
    c = Fin (Z.of_nat (length path)) ∧ length path ≤ length path' ∧
    ∃ q', SlidingPuzzle.replay path (Search.problem w) = Ok q' ∧
          SlidingPuzzle.isSolved q' = true.
Proof.
  intros R C w w' fuel path c n path' q Hwf Hr Hrep Hsolved.
  set (M := puzzle_model R C (Search.problem w) Hwf).
  pose proof (wf_getState R C _ Hwf) as Hk.
  destruct (replay_walk R C _ Hwf path' _ q Hwf Hrep) as [Hwalk Hq].
  assert (m_goal SlidingPuzzle.problem M
            (state_string (SlidingPuzzle.board q)) = true) as Hgoal.
  { simpl. by rewrite (puzzle_goal_spec R C _ Hwf q Hq). }
  destruct (breadthSearch_shortest SlidingPuzzle.problem M _ _ _ _ _ _ _ _ _ _
              Hwf Hk Hr Hwalk Hgoal) as [Hc Hlen].
  destruct (breadthSearch_answer SlidingPuzzle.problem M _ _ _ _ _ Hwf Hk Hr)
    as [Hsound _].
  destruct c as [x|]; [|done]. destruct Hsound as (g & Hw & Hg).
  assert (m_states SlidingPuzzle.problem M
            (state_string (SlidingPuzzle.board (Search.problem w)))) as Hst.
  { simpl. by apply wf_valid. }
  rewrite (walk_unit SlidingPuzzle.problem M _ _ _ _
             (puzzle_unit R C _ Hwf) Hst Hw).
  split; [done|]. split; [done|].
  destruct (walk_replay R C _ Hwf _ _ _ _ Hw _ Hwf eq_refl)
    as (q' & Hrep' & Hq' & ->).
  exists q'. split; [done|]. simpl in Hg.
  by rewrite (puzzle_goal_spec R C _ Hwf q' Hq') in Hg.
Qed.

Lemma breadthSearch_solves_puzzle_in_fewest_moves_witness :
  Fin 1 = Fin (Z.of_nat (length [(0, -1)%Z])) ∧
  length [(0, -1)%Z] ≤ length [(1, 0); (0, -1); (0, 1); (-1, 0); (0, -1)]%Z ∧
  ∃ q', SlidingPuzzle.replay [(0, -1)%Z] moved22 = Ok q' ∧
        SlidingPuzzle.isSolved q' = true.
Proof.
  apply (breadthSearch_solves_puzzle_in_fewest_moves 2 2
           (Search.mkWorld moved22 (Search.mkMetrics 0 0))
           (Search.mkWorld moved22 (Search.mkMetrics 2 2)) 10
           [(0, -1)%Z] (Fin 1) 2
           [(1, 0); (0, -1); (0, 1); (-1, 0); (0, -1)]%Z solved22).
  - exact wf_moved22.
  - vm_compute. reflexivity.
  - vm_compute. reflexivity.
  - reflexivity.
Defined.

(* ===================================================================== *)
(** * getScrambledStates and the constructor *)
(* ===================================================================== *)

Module Scrambling.
Import SlidingPuzzle.

Section Scrambling.

(** [random.sample(population, k)] draws [k] distinct positions of the
    population; [choose n k] stands for the draw from a population of [n]
    entries, so that the generator is an input of the model. *)
Variable choose : nat → nat → list nat.

(** [ValueError] when the sample size is negative or larger than the
    population. *)
Definition sample {A : Type} (population : list A) (k : Z) : result (list A) :=
  if decide (k < 0 ∨ Z.of_nat (length population) < k)%Z
  then Raise ValueError
  else Ok (omap (λ i, population !! i)
             (choose (length population) (Z.to_nat k))).

(** The locals of the loop of [getScrambledStates], with the object;
    [inFringe] is a dict used as a set ([visited] is never touched). *)
Record locals : Type := mkLocals {
  fringe : list (string * Z);
  inFringe : gset string;
  puzzle : t;
}.

(** The body of [for succ in successors]; [depth] is [s[1]]. *)
Definition push_new (depth : Z) (acc : list (string * Z) * gset string)
  (succ : string * (Z * Z) * Z * bool) : list (string * Z) * gset string :=
  let '(fringe, inFringe) := acc in
  let '(succ0, _, _, _) := succ in
  if decide (succ0 ∈ inFringe) then acc
  else (fringe ++ [(succ0, (depth + 1)%Z)], {[succ0]} ∪ inFringe).

(** One round of [while fringe[0][1] < numTurns]; [fringe[0]] raises
    [IndexError] on an empty fringe. *)
Definition scramble_step (numTurns : Z) (st : locals)
  : step_result locals (list (string * Z) * t) :=
  match fringe st with
  | [] => Throw IndexError
  | (s0, s1) :: rest =>
    if decide (s1 < numTurns)%Z then
      match getSuccessors s0 (puzzle st) with
      | Raise e => Throw e
      | Ok (successors, p) =>
        let '(fringe, inFringe) :=
          fold_left (push_new s1) successors (rest, inFringe st) in
        Continue (mkLocals fringe inFringe p)
      end
    else Return (fringe st, puzzle st)
  end.

Definition getScrambledStates (fuel : nat) (numTurns numStates : Z)
  (p : t) : outcome (list string * t) :=
  match getState p with
  | Raise e => Raised e
  | Ok startState =>
    match run (scramble_step numTurns) fuel
            (mkLocals [(startState, 0%Z)] {[startState]} p) with
    | Done (fringe, p) =>
      match sample fringe numStates with
      | Raise e => Raised e
      | Ok states => Done (states.*1, p)
      end
    | Raised e => Raised e
    | OutOfFuel => OutOfFuel
    end
  end.

(** [__init__]: the solved board, then [setState] on the first (and only)
    state that [getScrambledStates(numTurns)] returns. *)
Definition construct (fuel : nat) (numRows numColumns : nat) (numTurns : Z)
  : outcome t :=
  match init numRows numColumns with
  | Raise e => Raised e
  | Ok p =>
    match getScrambledStates fuel numTurns 1 p with
    | Done (states, p) =>
      match states with
      | [] => Raised IndexError
      | s :: _ =>
        match setState s p with
        | Ok p => Done p
        | Raise e => Raised e
        end
      end
    | Raised e => Raised e
    | OutOfFuel => OutOfFuel
    end
  end.

End Scrambling.
End Scrambling.

(** A generator that keeps the contract of [random.sample]: [k] distinct
    positions below [n]. *)
Definition lawful (choose : nat → nat → list nat) : Prop :=
  ∀ n k, k ≤ n →
    length (choose n k) = k ∧ NoDup (choose n k) ∧
    ∀ i, i ∈ choose n k → i < n.

(** The generator that takes the first [k] positions. *)
Definition first_positions (n k : nat) : list nat := seq 0 k.

Lemma first_positions_lawful : lawful first_positions.
Proof.
  intros n k Hk. unfold first_positions. rewrite length_seq.
  split; [done|]. split; [apply NoDup_seq|].
  intros i Hi%elem_of_seq. lia.
Qed.

(** X20.  With [numTurns] 0 (or less) the constructor scrambles nothing:
    for every size of at least one row and one column it returns the
    solved puzzle, with [isSolved()] true and the class invariant,
    whatever the random generator draws. *)
Theorem construct_unscrambled :
  ∀ (choose : nat → nat → list nat) (R C fuel : nat) (numTurns : Z),
    lawful choose → 0 < R → 0 < C → (numTurns ≤ 0)%Z →
    ∃ p, Scrambling.construct choose (S fuel) R C numTurns = Done p ∧
         SlidingPuzzle.board p = SlidingPuzzle.solved_board R C ∧
         SlidingPuzzle.isSolved p = true ∧ wf R C p.
Proof.
  intros choose R C fuel numTurns Hlaw HR HC Hturns.
  destruct (init_wf R C HR HC) as (p & Hinit & Hwf).
  exists p. unfold Scrambling.construct, Scrambling.getScrambledStates.
  rewrite Hinit, (wf_getState R C p Hwf). simpl.
  unfold Scrambling.scramble_step. simpl.
  rewrite decide_False by lia. unfold Scrambling.sample.
  rewrite decide_False by (simpl; lia).
  change (Z.to_nat 1) with 1. simpl.
  destruct (Hlaw 1 1) as (Hlen & _ & Hlt); [done|].
  destruct (choose 1 1) as [|i [|? ?]] eqn:Hch; try done.
  assert (i < 1) as Hi by (apply Hlt; left).
  assert (i = 0) as -> by lia.
  simpl. destruct (setState_getState R C p Hwf) as [_ ->].
  split; [done|].
  unfold SlidingPuzzle.init in Hinit. rewrite decide_False in Hinit by lia.
  injection Hinit as <-. done.
Qed.

Lemma construct_unscrambled_witness :
  ∃ p, Scrambling.construct first_positions 1 2 2 0 = Done p ∧
       SlidingPuzzle.board p = SlidingPuzzle.solved_board 2 2 ∧
       SlidingPuzzle.isSolved p = true ∧ wf 2 2 p.
Proof.
  apply (construct_unscrambled first_positions 2 2 0 0%Z
           first_positions_lawful); lia.
Defined.

(** ** What getScrambledStates returns *)

Lemma run_Raised {St Res : Type} (step : St → step_result St Res) fuel s e :
  run step fuel s = Raised e →
  ∃ n s', iter step n s = Some s' ∧ step s' = Throw e.
Proof.
  revert s; induction fuel as [|fuel IH]; simpl; intros s Hr; [done|].
  destruct (step s) as [s1| |e'] eqn:Hs; try done.
  - destruct (IH _ Hr) as (n & s' & Hi & Hs').
    exists (S n), s'. simpl. by rewrite Hs.
  - injection Hr as ->. by exists 0, s.
Qed.

(** Drawing distinct positions from a list. *)
Lemma omap_lookup_length {A : Type} (l : list A) idx :
  (∀ i, i ∈ idx → i < length l) →
  length (omap (λ i, l !! i) idx) = length idx ∧
  ∀ x, x ∈ omap (λ i, l !! i) idx → x ∈ l.
Proof.
  induction idx as [|i idx IH]; intros Hlt; simpl.
  - split; [done|]. intros x Hx. by apply elem_of_nil in Hx.
  - destruct (lookup_lt_is_Some_2 l i) as [y Hy]; [apply Hlt; left|].
    rewrite Hy. destruct IH as [Hlen Hin].
    { intros j Hj. apply Hlt. by right. }
    simpl. split; [f_equal; exact Hlen|].
    intros x [->|Hx]%elem_of_cons; [by eapply list_elem_of_lookup_2|].
    by apply Hin.
Qed.

Lemma omap_lookup_NoDup {A : Type} (l : list A) idx :
  NoDup l → NoDup idx → NoDup (omap (λ i, l !! i) idx).
Proof.
  intros Hl. induction idx as [|i idx IH]; intros Hidx; simpl;
    [apply NoDup_nil_2|].
  apply NoDup_cons in Hidx as [Hi Hidx].
  destruct (l !! i) as [y|] eqn:Hy; [|by apply IH].
  apply NoDup_cons. split; [|by apply IH].
  intros Hin.
  apply (list_elem_of_omap (λ i, l !! i) idx y) in Hin as (j & Hj & Hyj).
  by rewrite (NoDup_lookup l i j y Hl Hy Hyj) in Hi.
Qed.

Lemma omap_lookup_fmap {A B : Type} (f : A → B) (l : list A) (idx : list nat) :
  f <$> omap (λ i, l !! i) idx = omap (λ i, (f <$> l) !! i) idx.
Proof.
  induction idx as [|i idx IH]; simpl; [done|].
  rewrite list_lookup_fmap. destruct (l !! i); simpl; [f_equal|]; exact IH.
Qed.

Section ScrambleFacts.
Import SlidingPuzzle.
Context (choose : nat → nat → list nat) (numTurns : Z).

(** The entries one round of the loop appends. *)
Lemma push_new_fold d succs fr inF :
  ∃ new inF',
    fold_left (Scrambling.push_new d) succs (fr, inF) = (fr ++ new, inF') ∧
    (∀ s, s ∈ inF' ↔ s ∈ new.*1 ∨ s ∈ inF) ∧
    (∀ x, x ∈ new →
       x.2 = (d + 1)%Z ∧ (x.1 ∉ inF) ∧ ∃ e, e ∈ succs ∧ e.1.1.1 = x.1) ∧
    NoDup new.*1.
Proof.
  revert fr inF; induction succs as [|e succs IH]; intros fr inF; simpl.
  - exists [], inF. rewrite app_nil_r. split; [done|]. split; [|split].
    + intros s. split; [by right|]. intros [Hs|Hs]; [|done].
      by apply elem_of_nil in Hs.
    + intros x Hx. by apply elem_of_nil in Hx.
    + apply NoDup_nil_2.
  - destruct e as [[[succ0 a] c] g]. simpl.
    destruct (decide (succ0 ∈ inF)) as [Hin|Hnin].
    + destruct (IH fr inF) as (new & inF' & Hfold & HinF & Hnew & Hnd).
      exists new, inF'. split; [done|]. split; [done|]. split; [|done].
      intros x Hx. destruct (Hnew x Hx) as (Hd & Hfresh & e & He & Hk).
      split; [done|]. split; [done|]. exists e. split; [by right|done].
    + destruct (IH (fr ++ [(succ0, (d + 1)%Z)]) ({[succ0]} ∪ inF))
        as (new & inF' & Hfold & HinF & Hnew & Hnd).
      exists ((succ0, (d + 1)%Z) :: new), inF'.
      split; [by rewrite Hfold, <- app_assoc|]. split; [|split].
      * intros s. rewrite HinF, fmap_cons, elem_of_cons, elem_of_union,
          elem_of_singleton. simpl. tauto.
      * intros x [->|Hx]%elem_of_cons.
        -- simpl. split; [done|]. split; [done|].
           exists (succ0, a, c, g). split; [left|done].
        -- destruct (Hnew x Hx) as (Hd & Hfresh & e & He & Hk).
           split; [done|]. split.
           ++ intros Hin. apply Hfresh, elem_of_union. by right.
           ++ exists e. split; [by right|done].
      * rewrite fmap_cons. apply NoDup_cons. split; [|done]. simpl.
        intros (x & Hx1 & Hx)%list_elem_of_fmap.
        destruct (Hnew x Hx) as (_ & Hfresh & _). apply Hfresh.
        apply elem_of_union. left. by apply elem_of_singleton.
Qed.

(** The fringe holds entries of one depth, then entries one deeper; the
    deeper ones exist only below [numTurns]. *)
Definition layered (fr : list (string * Z)) : Prop :=
  ∃ e A B, fr = A ++ B ∧ (∀ x, x ∈ A → x.2 = e) ∧
    (∀ x, x ∈ B → x.2 = (e + 1)%Z) ∧
    (B ≠ [] → (e < numTurns)%Z) ∧ (0 ≤ e ≤ Z.max 0 numTurns)%Z.

Lemma layered_pop x rest new :
  layered (x :: rest) → (x.2 < numTurns)%Z →
  (∀ y, y ∈ new → y.2 = (x.2 + 1)%Z) → layered (rest ++ new).
Proof.
  intros (e & A & B & Heq & HA & HB & HBe & He) Hx Hnew.
  destruct A as [|a A]; simpl in Heq.
  - subst B. assert (x.2 = (e + 1)%Z) as Hxe by (apply HB; left).
    exists (e + 1)%Z, rest, new. split; [done|]. split; [|split; [|split]].
    + intros y Hy. apply HB. by right.
    + intros y Hy. rewrite <- Hxe. by apply Hnew.
    + intros _. lia.
    + lia.
  - injection Heq as <- ->. assert (x.2 = e) as Hxe by (apply HA; left).
    exists e, A, (B ++ new). split; [by rewrite app_assoc|].
    split; [|split; [|split]].
    + intros y Hy. apply HA. by right.
    + intros y [Hy|Hy]%elem_of_app; [by apply HB|].
      rewrite <- Hxe. by apply Hnew.
    + intros _. lia.
    + done.
Qed.

Lemma layered_done x rest y :
  layered (x :: rest) → ¬ (x.2 < numTurns)%Z → y ∈ x :: rest →
  y.2 = Z.max 0 numTurns.
Proof.
  intros (e & A & B & Heq & HA & HB & HBe & He) Hx Hy.
  destruct A as [|a A]; simpl in Heq.
  - subst B. assert (x.2 = (e + 1)%Z) as Hxe by (apply HB; left).
    rewrite (HB y Hy). specialize (HBe ltac:(done)). lia.
  - injection Heq as <- ->. assert (x.2 = e) as Hxe by (apply HA; left).
    destruct B as [|b B]; [|specialize (HBe ltac:(done)); lia].
    rewrite app_nil_r in Hy. rewrite (HA y Hy). lia.
Qed.

End ScrambleFacts.

Section ScrambleRun.
Import SlidingPuzzle.
Context (numTurns : Z) (R C : nat) (p : t) (Hp : wf R C p).

Abbreviation GM := (puzzle_model R C p Hp).

(** A fringe entry holds a valid state and, as its depth, the length of a
    sequence of moves that leads there from the state of the object. *)
Definition entry_ok (x : string * Z) : Prop :=
  valid_state R C x.1 ∧
  ∃ path c, walk problem GM (state_string (board p)) path c x.1 ∧
            Z.of_nat (length path) = x.2.

Definition scramble_inv (st : Scrambling.locals) : Prop :=
  Scrambling.puzzle st = p ∧
  (∀ x, x ∈ Scrambling.fringe st →
        entry_ok x ∧ x.1 ∈ Scrambling.inFringe st) ∧
  NoDup (Scrambling.fringe st).*1 ∧
  (∀ s, s ∈ Scrambling.inFringe st → valid_state R C s) ∧
  layered numTurns (Scrambling.fringe st).

(** What is left to do: the entries to remove, and twice the states not
    yet in [inFringe]. *)
Definition scramble_measure (st : Scrambling.locals) : nat :=
  length (Scrambling.fringe st)
  + 2 * size (all_states R C ∖ Scrambling.inFringe st).

Lemma getSuccessors_puzzle_succ s :
  valid_state R C s → getSuccessors s p = Ok (puzzle_succ p s, p).
Proof.
  intros (B & HB & Hperm & ->).
  destruct (getSuccessors_spec R C p B Hp HB Hperm)
    as (q & moves & _ & _ & _ & _ & _ & Hsucc).
  unfold puzzle_succ. by rewrite Hsucc.
Qed.

Lemma scramble_step_inv st st' :
  scramble_inv st → Scrambling.scramble_step numTurns st = Continue st' →
  scramble_inv st' ∧ scramble_measure st' < scramble_measure st.
Proof.
  intros (Hpz & Hentries & Hnd & Hvalid & Hlay).
  unfold Scrambling.scramble_step, scramble_measure.
  destruct (Scrambling.fringe st) as [|[s0 d] rest] eqn:Hf; [done|].
  case_decide as Hd; [|done].
  destruct (Hentries (s0, d)) as [[Hs0 (path & c & Hwalk & Hlen)] Hin0];
    [left|]. simpl in Hs0, Hwalk, Hlen, Hin0.
  rewrite Hpz, (getSuccessors_puzzle_succ s0 Hs0).
  destruct (push_new_fold d (puzzle_succ p s0) rest (Scrambling.inFringe st))
    as (new & inF' & -> & HinF & Hnew & Hndnew).
  intros [= <-]. unfold scramble_inv. simpl.
  assert (∀ x, x ∈ new → entry_ok x) as Hnewok.
  { intros x Hx. destruct (Hnew x Hx) as (Hxd & _ & [[[k2 a] c'] g] & He & Hk).
    simpl in Hk. subst k2. split.
    - apply (m_closed problem GM s0 (x.1, a, c', g) Hs0 He).
    - exists (path ++ [a]), (c + c')%Z. split.
      + by eapply (walk_snoc problem GM).
      + rewrite length_app, Hxd. simpl. lia. }
  apply NoDup_cons in Hnd as [Hs0nd Hndrest].
  split; [split; [done|split; [|split; [|split]]]|].
  - intros x [Hx|Hx]%elem_of_app.
    + destruct (Hentries x) as [Hok Hin]; [by right|]. split; [done|].
      apply HinF. by right.
    + split; [by apply Hnewok|]. apply HinF. left.
      apply list_elem_of_fmap. by exists x.
  - rewrite fmap_app. apply NoDup_app. split; [done|]. split; [|done].
    intros s (x & -> & Hx)%list_elem_of_fmap (y & Hy1 & Hy)%list_elem_of_fmap.
    destruct (Hnew y Hy) as (_ & Hfresh & _). apply Hfresh. rewrite <- Hy1.
    destruct (Hentries x) as [_ Hin]; [by right|]. done.
  - intros s [(x & -> & Hx)%list_elem_of_fmap|Hs]%HinF; [|by apply Hvalid].
    by destruct (Hnewok x Hx).
  - apply (layered_pop numTurns (s0, d)); [done..|].
    intros y Hy. by destruct (Hnew y Hy).
  - assert (all_states R C ∖ Scrambling.inFringe st
            = (all_states R C ∖ inF') ∪ list_to_set new.*1) as ->.
    { apply set_eq. intros s.
      rewrite elem_of_union, !elem_of_difference, elem_of_list_to_set, HinF.
      split.
      - intros [HS Hnin]. destruct (decide (s ∈ new.*1)); [by right|].
        left. split; [done|]. tauto.
      - intros [[HS Hnin]|Hs]; [split; [done|tauto]|].
        apply list_elem_of_fmap in Hs as (x & -> & Hx).
        destruct (Hnew x Hx) as (_ & Hfresh & _). split; [|done].
        apply valid_state_all_states. by destruct (Hnewok x Hx). }
    assert (all_states R C ∖ inF' ## list_to_set new.*1) as Hdisj.
    { intros s [_ Hnin]%elem_of_difference Hs%elem_of_list_to_set.
      apply Hnin, HinF. by left. }
    rewrite (size_union _ _ Hdisj), (size_list_to_set _ Hndnew).
    rewrite length_fmap, length_app. simpl. lia.
Qed.

Lemma scramble_step_Throw st e :
  scramble_inv st → Scrambling.scramble_step numTurns st = Throw e →
  e = IndexError ∧ Scrambling.fringe st = [].
Proof.
  intros (Hpz & Hentries & _). unfold Scrambling.scramble_step.
  destruct (Scrambling.fringe st) as [|[s0 d] rest] eqn:Hf;
    [by intros [= <-]|].
  case_decide; [|done].
  destruct (Hentries (s0, d)) as [[Hs0 _] _]; [left|]. simpl in Hs0.
  rewrite Hpz, (getSuccessors_puzzle_succ s0 Hs0).
  by destruct (fold_left _ _ _).
Qed.

Lemma scramble_step_Return st fr p' :
  scramble_inv st → Scrambling.scramble_step numTurns st = Return (fr, p') →
  p' = p ∧ NoDup fr.*1 ∧
  ∀ x, x ∈ fr → entry_ok x ∧ x.2 = Z.max 0 numTurns.
Proof.
  intros (Hpz & Hentries & Hnd & _ & Hlay). unfold Scrambling.scramble_step.
  destruct (Scrambling.fringe st) as [|[s0 d] rest] eqn:Hf; [done|].
  case_decide as Hd.
  - destruct (getSuccessors s0 _) as [[succs o]|]; [|done].
    by destruct (fold_left _ _ _).
  - intros [= <- <-]. split; [done|]. split; [done|]. intros x Hx.
    split; [by apply Hentries|]. by apply (layered_done numTurns (s0, d) rest).
Qed.

Lemma scramble_inv_start :
  scramble_inv
    (Scrambling.mkLocals [(state_string (board p), 0%Z)]
       {[state_string (board p)]} p).
Proof.
  split; [done|]. split; [|split; [|split]]; simpl.
  - intros x ->%list_elem_of_singleton. split; [|by apply elem_of_singleton].
    split; [by apply (wf_valid R C)|]. exists [], 0%Z. split; [apply walk_nil|done].
  - apply NoDup_singleton.
  - intros s ->%elem_of_singleton. by apply (wf_valid R C).
  - exists 0%Z, [(state_string (board p), 0%Z)], []. split; [done|].
    split; [by intros x ->%list_elem_of_singleton|].
    split; [intros x Hx; by apply elem_of_nil in Hx|]. split; [done|lia].
Qed.

End ScrambleRun.

Section WalkEnds.
Context {Key Action PObj : Type} `{Countable Key} `{EqDecision Action}.
Context `{PyLt Key} `{PyLt Action}.
Context (P : Search.Problem Key Action PObj) (M : Model P).

Lemma walk_nil_inv k c k' : walk P M k [] c k' → k = k'.
Proof. by inversion 1. Qed.

(** A walk of at least one action ends with a step. *)
Lemma walk_snoc_inv k p c k' :
  walk P M k p c k' → p ≠ [] →
  ∃ p' a c1 c2 g k1,
    p = p' ++ [a] ∧ walk P M k p' c1 k1 ∧ (k', a, c2, g) ∈ m_succ P M k1.
Proof.
  induction 1 as [k|k k1 a c g p c' k' Hs Hw IH]; intros Hne; [done|].
  destruct p as [|b p].
  - apply walk_nil_inv in Hw as <-.
    exists [], a, 0%Z, c, g, k. split; [done|]. split; [apply walk_nil|done].
  - destruct IH as (p' & a' & c1 & c2 & g' & k2 & Hp & Hw' & Hs'); [done|].
    exists (a :: p'), a', (c + c1)%Z, c2, g', k2. split; [by rewrite Hp|].
    split; [|done]. by eapply walk_cons.
Qed.

End WalkEnds.

Section ScrambleLeast.
Import SlidingPuzzle.
Context (numTurns : Z) (R C : nat) (p : t) (Hp : wf R C p).

Abbreviation LM := (puzzle_model R C p Hp).

Lemma push_new_fold_covers d succs fr inF :
  (∀ s, s ∈ inF → s ∈ (fold_left (Scrambling.push_new d) succs (fr, inF)).2) ∧
  (∀ e, e ∈ succs →
        e.1.1.1 ∈ (fold_left (Scrambling.push_new d) succs (fr, inF)).2).
Proof.
  revert fr inF; induction succs as [|e succs IH]; intros fr inF; simpl.
  - split; [done|]. intros e He. by apply elem_of_nil in He.
  - destruct e as [[[succ0 a] c] g]. simpl.
    destruct (decide (succ0 ∈ inF)) as [Hin|Hnin].
    + destruct (IH fr inF) as [Hmono Hcov]. split; [done|].
      intros e [->|He]%elem_of_cons; [by apply Hmono|by apply Hcov].
    + destruct (IH (fr ++ [(succ0, (d + 1)%Z)]) ({[succ0]} ∪ inF))
        as [Hmono Hcov].
      split.
      * intros s Hs. apply Hmono, elem_of_union. by right.
      * intros e [->|He]%elem_of_cons; [|by apply Hcov].
        apply Hmono, elem_of_union. left. by apply elem_of_singleton.
Qed.

(** The depths in a layered fringe lie within one of the first. *)
Lemma layered_range x rest y :
  layered numTurns (x :: rest) → y ∈ x :: rest →
  (x.2 ≤ y.2 ≤ x.2 + 1)%Z.
Proof.
  intros (e & A & B & Heq & HA & HB & _) Hy.
  destruct A as [|a A]; simpl in Heq.
  - subst B. rewrite (HB y Hy), (HB x) by left. lia.
  - injection Heq as <- ->. rewrite (HA x) by left.
    apply elem_of_cons in Hy as [->|Hy]; [rewrite (HA x) by left; lia|].
    apply elem_of_app in Hy as [Hy|Hy].
    + rewrite (HA y) by (by right). lia.
    + rewrite (HB y Hy). lia.
Qed.

(** The breadth-first order of the loop: a fringe entry is no deeper than
    any sequence of moves to its state is long; the successors of a state
    that left the fringe are all in [inFringe]; and what can be reached in
    fewer moves than the depth of the first entry has left the fringe. *)
Definition least_inv (st : Scrambling.locals) : Prop :=
  state_string (board p) ∈ Scrambling.inFringe st ∧
  (∀ x, x ∈ Scrambling.fringe st →
     ∀ path c, walk problem LM (state_string (board p)) path c x.1 →
               (x.2 ≤ Z.of_nat (length path))%Z) ∧
  (∀ k, k ∈ Scrambling.inFringe st → k ∉ (Scrambling.fringe st).*1 →
     ∀ s, s ∈ puzzle_succ p k → s.1.1.1 ∈ Scrambling.inFringe st) ∧
  (∀ x rest, Scrambling.fringe st = x :: rest →
     ∀ path c k, walk problem LM (state_string (board p)) path c k →
       (Z.of_nat (length path) < x.2)%Z →
       k ∈ Scrambling.inFringe st ∧ k ∉ (Scrambling.fringe st).*1).

(** What is reached in no more moves than the first entry is deep has
    been entered in [inFringe]. *)
Lemma least_inv_reached st x rest path c k :
  least_inv st → Scrambling.fringe st = x :: rest →
  walk problem LM (state_string (board p)) path c k →
  (Z.of_nat (length path) ≤ x.2)%Z → k ∈ Scrambling.inFringe st.
Proof.
  intros (Hstart & _ & Hcov & Hbelow) Hf Hwalk Hlen.
  destruct path as [|a path] using rev_ind.
  - by apply walk_nil_inv in Hwalk as <-.
  - clear IHpath.
    destruct (walk_snoc_inv problem LM _ _ _ _ Hwalk)
      as (p' & a' & c1 & c2 & g & k1 & Heq & Hw' & Hs);
      [by destruct path|].
    apply app_inj_tail in Heq as [<- <-].
    rewrite length_app in Hlen. simpl in Hlen.
    destruct (Hbelow x rest Hf path c1 k1 Hw') as [Hin Hout]; [lia|].
    exact (Hcov k1 Hin Hout _ Hs).
Qed.

Lemma scramble_step_least st st' :
  scramble_inv numTurns R C p Hp st → least_inv st →
  Scrambling.scramble_step numTurns st = Continue st' →
  least_inv st'.
Proof.
  intros Hinv Hleast Hstep.
  destruct (scramble_step_inv numTurns R C p Hp st st' Hinv Hstep)
    as [(_ & _ & _ & _ & Hlay') _].
  pose proof Hinv as (Hpz & Hentries & Hnd & Hvalid & Hlay).
  pose proof Hleast as (Hstart & Hmin & Hcov & Hbelow).
  revert Hstep Hlay'. unfold Scrambling.scramble_step.
  destruct (Scrambling.fringe st) as [|[s0 d] rest] eqn:Hf; [done|].
  case_decide as Hd; [|done].
  destruct (Hentries (s0, d)) as [[Hs0 _] Hin0]; [left|].
  simpl in Hs0, Hin0.
  rewrite Hpz, (getSuccessors_puzzle_succ R C p Hp s0 Hs0).
  pose proof (push_new_fold_covers d (puzzle_succ p s0) rest
                (Scrambling.inFringe st)) as [Hmono Hall].
  destruct (push_new_fold d (puzzle_succ p s0) rest (Scrambling.inFringe st))
    as (new & inF' & Hfold & HinF & Hnew & Hndnew).
  rewrite Hfold in Hmono, Hall |- *. simpl in Hmono, Hall.
  intros [= <-] Hlay'. unfold least_inv. simpl in *.
  apply NoDup_cons in Hnd as [Hs0nd Hndrest].
  assert (∀ path c k, walk problem LM (state_string (board p)) path c k →
            (Z.of_nat (length path) ≤ d)%Z → k ∈ Scrambling.inFringe st)
    as Hreached.
  { intros path c k Hw Hl.
    by apply (least_inv_reached st (s0, d) rest path c k). }
  split; [by apply Hmono|]. split; [|split].
  - intros x [Hx|Hx]%elem_of_app path c Hw.
    + eapply (Hmin x); [by right|exact Hw].
    + destruct (Hnew x Hx) as (Hxd & Hfresh & _). rewrite Hxd.
      destruct (decide (Z.of_nat (length path) ≤ d)%Z) as [Hle|]; [|lia].
      destruct Hfresh. by apply (Hreached path c).
    - intros k Hk Hout s Hs.
      assert ((k ∉ new.*1) ∧ (k ∉ rest.*1)) as [Hk1 Hk2].
      { rewrite fmap_app, elem_of_app in Hout. tauto. }
      apply HinF in Hk as [Hk|Hk]; [done|].
      destruct (decide (k = s0)) as [->|Hne]; [by apply Hall|].
      apply Hmono, (Hcov k Hk); [|done].
      intros [?|?]%elem_of_cons; [done|]. by apply Hk2.
    - intros x rest' Hfr path c k Hw Hl.
      assert (x ∈ rest ++ new) as Hx by (rewrite Hfr; left).
      assert (x.2 ≤ d + 1)%Z as Hxd.
      { apply elem_of_app in Hx as [Hx|Hx].
        - apply (layered_range (s0, d) rest x Hlay). by right.
        - destruct (Hnew x Hx) as [-> _]. lia. }
      assert (k ∈ Scrambling.inFringe st) as Hk
        by (apply (Hreached path c); [done|lia]).
      split; [by apply Hmono|].
      rewrite fmap_app, elem_of_app.
      intros [(y & -> & Hy)%list_elem_of_fmap|(y & -> & Hy)%list_elem_of_fmap].
      + assert (y.2 ≤ Z.of_nat (length path))%Z
          by (apply (Hmin y) with c; [by right|done]).
        rewrite Hfr in Hlay'.
        assert (x.2 ≤ y.2)%Z; [|lia].
        apply (layered_range x rest' y Hlay'). rewrite <- Hfr.
        apply elem_of_app. by left.
      + by destruct (Hnew y Hy) as (_ & Hfresh & _).
Qed.

Lemma least_inv_start :
  least_inv
    (Scrambling.mkLocals [(state_string (board p), 0%Z)]
       {[state_string (board p)]} p).
Proof.
  unfold least_inv. simpl.
  split; [by apply elem_of_singleton|]. split; [|split].
  - intros x ->%list_elem_of_singleton path c _. simpl. lia.
  - intros k ->%elem_of_singleton Hout. destruct Hout. left.
  - intros x rest [= <- <-] path c k _ Hl. simpl in Hl. lia.
Qed.

(** A state that left the fringe was expanded: it is fewer than
    [numTurns] moves away. *)
Definition expanded_inv (st : Scrambling.locals) : Prop :=
  ∀ k, k ∈ Scrambling.inFringe st → k ∉ (Scrambling.fringe st).*1 →
    ∃ path c, walk problem LM (state_string (board p)) path c k ∧
              (Z.of_nat (length path) < numTurns)%Z.

Lemma scramble_step_expanded st st' :
  scramble_inv numTurns R C p Hp st → expanded_inv st →
  Scrambling.scramble_step numTurns st = Continue st' →
  expanded_inv st'.
Proof.
  intros (Hpz & Hentries & _) Hexp. unfold Scrambling.scramble_step.
  destruct (Scrambling.fringe st) as [|[s0 d] rest] eqn:Hf; [done|].
  case_decide as Hd; [|done].
  destruct (Hentries (s0, d)) as [[Hs0 (path & c & Hwalk & Hlen)] _]; [left|].
  simpl in Hs0, Hwalk, Hlen.
  rewrite Hpz, (getSuccessors_puzzle_succ R C p Hp s0 Hs0).
  destruct (push_new_fold d (puzzle_succ p s0) rest (Scrambling.inFringe st))
    as (new & inF' & -> & HinF & _).
  intros [= <-]. unfold expanded_inv. simpl. intros k Hk Hout.
  assert ((k ∉ rest.*1) ∧ (k ∉ new.*1)) as [Hk1 Hk2].
  { rewrite fmap_app, elem_of_app in Hout. tauto. }
  apply HinF in Hk as [Hk|Hk]; [done|].
  destruct (decide (k = s0)) as [->|Hne].
  - exists path, c. split; [done|lia].
  - apply Hexp; [done|]. rewrite Hf, fmap_cons.
    intros [?|?]%elem_of_cons; [done|]. by apply Hk1.
Qed.

Lemma expanded_inv_start :
  expanded_inv
    (Scrambling.mkLocals [(state_string (board p), 0%Z)]
       {[state_string (board p)]} p).
Proof.
  unfold expanded_inv. simpl.
  intros k ->%elem_of_singleton Hout. destruct Hout. left.
Qed.

(** Once the fringe is empty, every state that can be reached is fewer
    than [numTurns] moves away. *)
Lemma scramble_exhausted st path c k :
  least_inv st → expanded_inv st → Scrambling.fringe st = [] →
  walk problem LM (state_string (board p)) path c k →
  ∃ path' c', walk problem LM (state_string (board p)) path' c' k ∧
              (Z.of_nat (length path') < numTurns)%Z.
Proof.
  intros (Hstart & _ & Hcov & _) Hexp Hf Hwalk.
  assert (∀ k0 path c k, walk problem LM k0 path c k →
            k0 ∈ Scrambling.inFringe st → k ∈ Scrambling.inFringe st)
    as Hclosed.
  { intros k0 path0 c0 k1 Hw.
    induction Hw as [k0|k0 k1 a c0 g path0 c' k' Hs Hw IH]; [done|].
    intros Hk0. apply IH. apply (Hcov k0 Hk0) in Hs; [done|].
    rewrite Hf. apply not_elem_of_nil. }
  apply Hexp; [by eapply Hclosed|]. rewrite Hf. apply not_elem_of_nil.
Qed.

End ScrambleLeast.

Lemma scramble_step_Return_fringe numTurns st fr p' :
  Scrambling.scramble_step numTurns st = Return (fr, p') →
  fr = Scrambling.fringe st ∧ fr ≠ [].
Proof.
  unfold Scrambling.scramble_step.
  destruct (Scrambling.fringe st) as [|[s0 d] rest]; [done|].
  case_decide; [|by intros [= <- _]].
  destruct (SlidingPuzzle.getSuccessors s0 _) as [[succs o]|]; [|done].
  by destruct (fold_left _ _ _).
Qed.

(** The loop of [getScrambledStates], started as the method starts it. *)
Section ScrambleOutcome.
Import SlidingPuzzle.
Context (numTurns : Z) (R C : nat) (p : t) (Hp : wf R C p).

Definition scramble_start : Scrambling.locals :=
  Scrambling.mkLocals [(state_string (board p), 0%Z)]
    {[state_string (board p)]} p.

Lemma scramble_iter_inv n st :
  iter (Scrambling.scramble_step numTurns) n scramble_start = Some st →
  scramble_inv numTurns R C p Hp st ∧ least_inv R C p Hp st ∧
  expanded_inv numTurns R C p Hp st.
Proof.
  apply (iter_invariant (Scrambling.scramble_step numTurns)
           (λ st, scramble_inv numTurns R C p Hp st ∧ least_inv R C p Hp st ∧
                  expanded_inv numTurns R C p Hp st)).
  - intros s s' (Hs1 & Hs2 & Hs3) Hstep. split; [|split].
    + by destruct (scramble_step_inv numTurns R C p Hp s s' Hs1 Hstep).
    + by apply (scramble_step_least numTurns R C p Hp s s').
    + by apply (scramble_step_expanded numTurns R C p Hp s s').
  - split; [apply scramble_inv_start|].
    split; [apply least_inv_start|apply expanded_inv_start].
Qed.

Lemma scramble_run_ends fuel :
  scramble_measure R C scramble_start < fuel →
  run (Scrambling.scramble_step numTurns) fuel scramble_start ≠ OutOfFuel.
Proof.
  apply (run_terminates (Scrambling.scramble_step numTurns)
           (scramble_inv numTurns R C p Hp) (scramble_measure R C)
           (scramble_step_inv numTurns R C p Hp)).
  apply scramble_inv_start.
Qed.

Lemma scramble_run_Raised fuel e :
  run (Scrambling.scramble_step numTurns) fuel scramble_start = Raised e →
  e = IndexError ∧
  ∀ path q, replay path p = Ok q →
    ∃ path', replay path' p = Ok q ∧ (Z.of_nat (length path') < numTurns)%Z.
Proof.
  intros (n & st & Hi & Hst)%run_Raised.
  destruct (scramble_iter_inv n st Hi) as (Hinv & Hleast & Hexp).
  destruct (scramble_step_Throw numTurns R C p Hp st e Hinv Hst) as [-> Hf].
  split; [done|]. intros path q Hreplay.
  destruct (replay_walk R C p Hp path p q Hp Hreplay) as [Hwalk Hq].
  destruct (scramble_exhausted numTurns R C p Hp st _ _ _ Hleast Hexp Hf Hwalk)
    as (path' & c' & Hwalk' & Hlen).
  destruct (walk_replay R C p Hp _ _ _ _ Hwalk' p Hp eq_refl)
    as (q' & Hreplay' & Hq' & Hkey).
  exists path'. split; [|done].
  by rewrite (state_string_wf_inj R C p Hp q q' Hq Hq' Hkey).
Qed.

Lemma scramble_run_Done fuel fr p' :
  run (Scrambling.scramble_step numTurns) fuel scramble_start
    = Done (fr, p') →
  p' = p ∧ fr ≠ [] ∧ NoDup fr.*1 ∧
  ∀ x, x ∈ fr →
    valid_state R C x.1 ∧
    ∃ path q, wf R C q ∧ x.1 = state_string (board q) ∧
      Z.of_nat (length path) = Z.max 0 numTurns ∧
      replay path p = Ok q ∧
      ∀ path', replay path' p = Ok q →
               (numTurns ≤ Z.of_nat (length path'))%Z.
Proof.
  intros (n & st & _ & Hi & Hst)%run_Done.
  destruct (scramble_iter_inv n st Hi) as (Hinv & (_ & Hmin & _) & _).
  destruct (scramble_step_Return numTurns R C p Hp st fr p' Hinv Hst)
    as (-> & Hnd & Hall).
  destruct (scramble_step_Return_fringe numTurns st fr p Hst) as [Hfr Hne].
  split; [done|]. split; [done|]. split; [done|].
  intros x Hx.
  destruct (Hall x Hx) as [[Hvalid (path & c & Hwalk & Hlen)] Hd].
  split; [done|].
  destruct (walk_replay R C p Hp _ _ _ _ Hwalk p Hp eq_refl)
    as (q & Hreplay & Hq & Hkey).
  exists path, q. split; [done|]. split; [done|].
  split; [by rewrite Hlen|]. split; [done|].
  intros path' Hreplay'.
  destruct (replay_walk R C p Hp path' p q Hp Hreplay') as [Hwalk' _].
  rewrite <- Hkey in Hwalk'. rewrite Hfr in Hx.
  pose proof (Hmin x Hx path' _ Hwalk'). lia.
Qed.

End ScrambleOutcome.

(** X21.  [getScrambledStates(numTurns, numStates)], for integers
    [numTurns] and [numStates], on a puzzle that satisfies the class
    invariant always ends.  When it returns, it returns [numStates]
    distinct valid states, each reached from the current state of the
    puzzle by a sequence of exactly [max(0, numTurns)] legal moves, and the
    puzzle itself is as before the call.  Otherwise it raises IndexError
    (the fringe ran empty) or ValueError (from [random.sample]), the
    latter only when [numStates] is negative or greater than 1; nothing
    else. *)
Theorem getScrambledStates_returns_states_numTurns_moves_away :
  ∀ (choose : nat → nat → list nat) (R C : nat) (p : SlidingPuzzle.t)
    (numTurns numStates : Z),
    lawful choose → wf R C p →
    ∃ fuel0, ∀ fuel, fuel0 ≤ fuel →
      match Scrambling.getScrambledStates choose fuel numTurns numStates p with
      | Done (states, p') =>
          p' = p ∧ Z.of_nat (length states) = numStates ∧ NoDup states ∧
          ∀ s, s ∈ states →
            valid_state R C s ∧
            ∃ path q,
              Z.of_nat (length path) = Z.max 0 numTurns ∧
              SlidingPuzzle.replay path p = Ok q ∧
              SlidingPuzzle.getState q = Ok s
      | Raised e =>
          e = IndexError ∨
          (e = ValueError ∧ (numStates < 0 ∨ 1 < numStates)%Z)
      | OutOfFuel => False
      end.
Proof.
  intros choose R C p numTurns numStates Hlaw Hp.
  exists (S (scramble_measure R C (scramble_start p))). intros fuel Hfuel.
  unfold Scrambling.getScrambledStates.
  rewrite (wf_getState R C p Hp). fold (scramble_start p).
  pose proof (scramble_run_ends numTurns R C p Hp fuel ltac:(lia)) as Hends.
  destruct (run (Scrambling.scramble_step numTurns) fuel (scramble_start p))
    as [[fr p']|e|] eqn:Hrun; [| |done].
  - destruct (scramble_run_Done numTurns R C p Hp fuel fr p' Hrun)
      as (-> & Hne & Hnd & Hall).
    unfold Scrambling.sample. case_decide as Hk.
    { right. split; [done|]. destruct fr; [done|]. simpl length in Hk. lia. }
    destruct (Hlaw (length fr) (Z.to_nat numStates)) as (Hlen & Hndc & Hlt);
      [lia|].
    destruct (omap_lookup_length fr
                (choose (length fr) (Z.to_nat numStates)) Hlt)
      as [Hlen' Hin].
    split; [done|]. split; [rewrite length_fmap, Hlen', Hlen; lia|].
    split.
    { rewrite omap_lookup_fmap. by apply omap_lookup_NoDup. }
    intros s (x & -> & Hx)%list_elem_of_fmap.
    destruct (Hall x (Hin x Hx))
      as (Hvalid & path & q & Hq & Hkey & Hlenp & Hreplay & _).
    split; [done|]. exists path, q. split; [done|]. split; [done|].
    rewrite Hkey. by apply (wf_getState R C).
  - left. by destruct (scramble_run_Raised numTurns R C p Hp fuel e Hrun).
Qed.

Lemma getScrambledStates_returns_states_numTurns_moves_away_witness :
  ∃ fuel0, ∀ fuel, fuel0 ≤ fuel →
    match Scrambling.getScrambledStates first_positions fuel 1 2 moved22 with
    | Done (states, p') =>
        p' = moved22 ∧ Z.of_nat (length states) = 2%Z ∧ NoDup states ∧
        ∀ s, s ∈ states →
          valid_state 2 2 s ∧
          ∃ path q,
            Z.of_nat (length path) = Z.max 0 1 ∧
            SlidingPuzzle.replay path moved22 = Ok q ∧
            SlidingPuzzle.getState q = Ok s
    | Raised e => e = IndexError ∨ (e = ValueError ∧ (2 < 0 ∨ 1 < 2)%Z)
    | OutOfFuel => False
    end.
Proof.
  exact (getScrambledStates_returns_states_numTurns_moves_away
           first_positions 2 2 moved22 1 2 first_positions_lawful wf_moved22).
Defined.

(** ** Moves taken back, and the puzzle the constructor builds *)

Section Constructed.
Import SlidingPuzzle.
Context (R C : nat).

Definition opposite (a : Z * Z) : Z * Z := (- a.1, - a.2)%Z.

Lemma replay_app path1 path2 p :
  replay (path1 ++ path2) p
  = match replay path1 p with
    | Ok q => replay path2 q
    | Raise e => Raise e
    end.
Proof.
  revert p; induction path1 as [|a path1 IH]; intros p; simpl; [done|].
  destruct (move a p) as [[c p1]|]; simpl; [apply IH|done].
Qed.

(** The opposite moves in the opposite order lead back. *)
Lemma replay_undo path p q :
  wf R C p → replay path p = Ok q →
  wf R C q ∧ replay (rev (opposite <$> path)) q = Ok p.
Proof.
  revert p; induction path as [|a path IH]; intros p Hp Hrep.
  - by injection Hrep as <-.
  - cbn [replay] in Hrep.
    destruct (move a p) as [[c p1]|] eqn:Hmove; [|done]. simpl in Hrep.
    change (rev (opposite <$> a :: path))
      with (rev (opposite <$> path) ++ [opposite a]).
    destruct (legalMoves_legal R C p Hp) as (moves & Hmoves & _).
    destruct (decide (a ∈ moves)) as [Ha|Ha];
      [|by rewrite (move_not_legal R C p moves a Hp Hmoves Ha) in Hmove].
    destruct (move_undo R C p moves a Hp Hmoves Ha)
      as (p1' & Hmove' & Hp1 & Hback).
    rewrite Hmove in Hmove'. injection Hmove' as -> <-.
    destruct (IH p1 Hp1 Hrep) as [Hq Hrev]. split; [done|].
    rewrite replay_app, Hrev. simpl. unfold opposite. by rewrite Hback.
Qed.


(** What a returned state is to the puzzle [getScrambledStates] was
    called on. *)
Lemma getScrambledStates_Done choose fuel numTurns numStates p states p' :
  wf R C p →
  Scrambling.getScrambledStates choose fuel numTurns numStates p
    = Done (states, p') →
  p' = p ∧
  ∀ s, s ∈ states →
    ∃ path q, wf R C q ∧ s = state_string (board q) ∧
      Z.of_nat (length path) = Z.max 0 numTurns ∧
      replay path p = Ok q ∧
      ∀ path', replay path' p = Ok q →
               (numTurns ≤ Z.of_nat (length path'))%Z.
Proof.
  intros Hp. unfold Scrambling.getScrambledStates.
  rewrite (wf_getState R C p Hp). fold (scramble_start p).
  destruct (run _ fuel _) as [[fr o]|e|] eqn:Hrun; [|done..].
  destruct (scramble_run_Done numTurns R C p Hp fuel fr o Hrun)
    as (-> & _ & _ & Hall).
  unfold Scrambling.sample. case_decide; [done|]. intros [= <- <-].
  split; [done|].
  intros s (x & -> & Hx)%list_elem_of_fmap.
  apply list_elem_of_omap in Hx as (i & _ & Hx%list_elem_of_lookup_2).
  by destruct (Hall x Hx) as [_ ?].
Qed.

End Constructed.

(** X22.  A state returned by [getScrambledStates(numTurns, numStates)]
    cannot be reached from the current state of the puzzle in fewer than
    [numTurns] moves: every sequence of moves that leads from the puzzle to
    a returned state has at least [numTurns] moves. *)
Theorem getScrambledStates_states_not_nearer :
  ∀ (choose : nat → nat → list nat) (R C : nat) (p : SlidingPuzzle.t)
    (numTurns numStates : Z) (fuel : nat) (states : list string)
    (p' : SlidingPuzzle.t),
    wf R C p →
    Scrambling.getScrambledStates choose fuel numTurns numStates p
      = Done (states, p') →
    ∀ s path q, s ∈ states →
      SlidingPuzzle.replay path p = Ok q → SlidingPuzzle.getState q = Ok s →
      (numTurns ≤ Z.of_nat (length path))%Z.
Proof.
  intros choose R C p numTurns numStates fuel states p' Hp Hscr.
  destruct (getScrambledStates_Done R C _ _ _ _ _ _ _ Hp Hscr) as [_ Hall].
  intros s path q Hs Hreplay Hq.
  destruct (Hall s Hs) as (path0 & q0 & Hq0 & Hkey & _ & _ & Hleast).
  destruct (replay_undo R C path p q Hp Hreplay) as [Hwf _].
  rewrite (wf_getState R C q Hwf) in Hq. injection Hq as Hq.
  assert (q = q0) as ->.
  { apply (state_string_wf_inj R C p Hp); [done..|]. by rewrite Hq. }
  by apply Hleast.
Qed.

Lemma getScrambledStates_states_not_nearer_witness :
  wf 2 2 moved22 ∧
  Scrambling.getScrambledStates first_positions 5 1 2 moved22
  = Done ([state_string [[1; 3]; [2; 0]]; state_string [[0; 1]; [2; 3]]]%Z,
          moved22) ∧
  ∀ s path q,
    s ∈ [state_string [[1; 3]; [2; 0]]; state_string [[0; 1]; [2; 3]]]%Z →
    SlidingPuzzle.replay path moved22 = Ok q →
    SlidingPuzzle.getState q = Ok s →
    (1 ≤ Z.of_nat (length path))%Z.
Proof.
  split; [exact wf_moved22|]. split; [vm_compute; reflexivity|].
  apply (getScrambledStates_states_not_nearer first_positions 2 2 moved22
           1 2 5 _ moved22 wf_moved22).
  vm_compute. reflexivity.
Defined.





(** X24.  The constructor always ends, and it fails in one way only: for
    at least one row and one column it returns a puzzle that satisfies the
    class invariant, or raises IndexError, and this only when every state
    that can be reached from the solved board is reached in fewer than
    [numTurns] moves. *)
Theorem construct_raises_only_when_numTurns_out_of_reach :
  ∀ (choose : nat → nat → list nat) (R C : nat) (numTurns : Z),
    lawful choose → 0 < R → 0 < C →
    ∃ p0, SlidingPuzzle.init R C = Ok p0 ∧
    ∃ fuel0, ∀ fuel, fuel0 ≤ fuel →
      match Scrambling.construct choose fuel R C numTurns with
      | Done q => wf R C q
      | Raised e =>
          e = IndexError ∧
          ∀ path q, SlidingPuzzle.replay path p0 = Ok q →
            ∃ path', SlidingPuzzle.replay path' p0 = Ok q ∧
                     (Z.of_nat (length path') < numTurns)%Z
      | OutOfFuel => False
      end.
Proof.
  intros choose R C numTurns Hlaw HR HC.
  destruct (init_wf R C HR HC) as (p & Hinit & Hp).
  exists p. split; [done|].
  exists (S (scramble_measure R C (scramble_start p))). intros fuel Hfuel.
  unfold Scrambling.construct, Scrambling.getScrambledStates.
  rewrite Hinit, (wf_getState R C p Hp). fold (scramble_start p).
  pose proof (scramble_run_ends numTurns R C p Hp fuel ltac:(lia)) as Hends.
  destruct (run (Scrambling.scramble_step numTurns) fuel (scramble_start p))
    as [[fr p']|e|] eqn:Hrun; [| |done].
  - destruct (scramble_run_Done numTurns R C p Hp fuel fr p' Hrun)
      as (-> & Hne & _ & Hall).
    unfold Scrambling.sample.
    rewrite decide_False by (destruct fr; [done|simpl length; lia]).
    change (Z.to_nat 1) with 1.
    destruct (Hlaw (length fr) 1) as (Hlen & _ & Hlt);
      [destruct fr; [done|simpl; lia]|].
    destruct (choose (length fr) 1) as [|i [|? ?]]; try done.
    destruct (lookup_lt_is_Some_2 fr i) as [x Hx]; [apply Hlt; left|].
    simpl. rewrite Hx. simpl.
    destruct (Hall x) as (_ & path & q & Hq & -> & _);
      [by eapply list_elem_of_lookup_2|].
    by rewrite (setState_board R C q p Hq Hp).
  - exact (scramble_run_Raised numTurns R C p Hp fuel e Hrun).
Qed.

Lemma construct_raises_only_when_numTurns_out_of_reach_witness :
  ∃ p0, SlidingPuzzle.init 2 2 = Ok p0 ∧
  ∃ fuel0, ∀ fuel, fuel0 ≤ fuel →
    match Scrambling.construct first_positions fuel 2 2 7 with
    | Done q => wf 2 2 q
    | Raised e =>
        e = IndexError ∧
        ∀ path q, SlidingPuzzle.replay path p0 = Ok q →
          ∃ path', SlidingPuzzle.replay path' p0 = Ok q ∧
                   (Z.of_nat (length path') < 7)%Z
    | OutOfFuel => False
    end.
Proof.
  apply (construct_raises_only_when_numTurns_out_of_reach first_positions
           2 2 7 first_positions_lawful); lia.
Defined.
